(** * file_tools_mcp: the whitespace-insensitive matcher and its edit operators

    A shallow embedding of [src/file_tools_mcp.ts].

    Modelling conventions.
    - A JavaScript number that holds an index, a length or a sentinel such as
      [-1] is a [Z].
    - A text is the list of its Unicode scalar values ([char], a code point).
      [Array.from(s)] is therefore the identity and [s.length] is the number
      of scalars: the model covers the texts on which a string index and a
      scalar index coincide (no surrogate pairs).
    - An array read [a[i]] is [JS.get a i]: [None] stands for [undefined].
    - Loops over an index are written with the index in the state and a fuel
      argument that bounds the number of iterations. *)

From Stdlib Require Import ZArith List Lia Bool String Sorted PrimFloat FloatOps SpecFloat Uint63.
From Stdlib Require QArith Qround Qminmax.
From stdpp Require Import base option list gmap strings.

Local Open Scope Z_scope.

(** ** JavaScript primitives *)

Module JS.

Abbreviation char := N.
Abbreviation text := (list N).

(** [a.length] *)
Definition len {A} (l : list A) : Z := Z.of_nat (length l).

(** [a[i]]: [undefined] outside the array. *)
Definition get {A} (l : list A) (i : Z) : option A :=
  if i <? 0 then None else l !! Z.to_nat i.

(** [a[i]] for an array of numbers whose result enters arithmetic. Every such
    read in the source is guarded by a length test on the upper side and is
    fed non-negative indices; outside the array the model returns [0]. *)
Definition getZ (l : list Z) (i : Z) : Z := default 0 (get l i).

(** [a.slice(start, end)] for [0 <= start]. *)
Definition slice {A} (l : list A) (s e : Z) : list A :=
  take (Z.to_nat (e - s)) (drop (Z.to_nat s) l).

(** [a.slice(start)] *)
Definition sliceFrom {A} (l : list A) (s : Z) : list A := drop (Z.to_nat s) l.

(** [a.splice(start, deleteCount, ...items)] for [0 <= start]: the array
    after the call. *)
Definition splice {A} (l : list A) (s cnt : Z) (items : list A) : list A :=
  take (Z.to_nat s) l ++ items ++ drop (Z.to_nat s + Z.to_nat cnt)%nat l.

(** The class [\s] of a JavaScript regular expression. *)
Definition isWhitespace (c : char) : bool :=
  let z := Z.of_N c in
  ((9 <=? z) && (z <=? 13)) || (z =? 32) || (z =? 160) || (z =? 5760)
  || ((8192 <=? z) && (z <=? 8202)) || (z =? 8232) || (z =? 8233)
  || (z =? 8239) || (z =? 8287) || (z =? 12288) || (z =? 65279).

(** [WHITE_SPACE.test(x)] and [NOT_WHITE_SPACE.test(x)]. [undefined] is
    tested as the string "undefined": it holds no whitespace. *)
Definition WHITE_SPACE_test (x : option char) : bool :=
  match x with Some c => isWhitespace c | None => false end.
Definition NOT_WHITE_SPACE_test (x : option char) : bool :=
  match x with Some c => negb (isWhitespace c) | None => true end.

(** [s.startsWith(p)] on the remaining text. *)
Fixpoint startsWith (s p : text) : bool :=
  match p, s with
  | [], _ => true
  | _ :: _, [] => false
  | a :: p', b :: s' => (a =? b)%N && startsWith s' p'
  end.

(** [s.indexOf(p, from)] for [0 <= from]: the first position at or after
    [from] where [p] occurs, [-1] when there is none. *)
Fixpoint indexOfAux (s p : text) (pos : Z) : Z :=
  match s with
  | [] => if startsWith [] p then pos else -1
  | _ :: s' => if startsWith s p then pos else indexOfAux s' p (pos + 1)
  end.
Definition indexOf (s p : text) (from : Z) : Z :=
  if len s <? from then (if startsWith [] p then len s else -1)
  else indexOfAux (drop (Z.to_nat from) s) p from.

(** The first line ending of a text, as [rawText.match(/\r\n|\n|\r/)] finds
    it; the default is "\n". *)
Fixpoint detectLineEnding (s : text) : text :=
  match s with
  | [] => [10%N]
  | c :: s' =>
      if (c =? 13)%N then
        match s' with
        | d :: _ => if (d =? 10)%N then [13%N; 10%N] else [13%N]
        | [] => [13%N]
        end
      else if (c =? 10)%N then [10%N]
      else detectLineEnding s'
  end.

End JS.

Import JS.

(** ** Data model *)

Record MatchSpan := mkSpan {
  flatStart : Z;
  flatEndExclusive : Z;
  rawStart : Z;
  rawEndExclusive : Z
}.

Inductive MatchType := prefix | suffix | mid | combined.

Record RawMatch := mkRaw {
  matchType : MatchType;
  rmFlatStart : Z;
  rmFlatEndExclusive : Z;
  matchedLen : Z
}.

(** ** The flat view ([buildFlatRawTextHelpers]) *)

(** The variables of the builder's loop. [rawToFlatRaw] is allocated with
    [rawLength] holes and filled from index 0 upwards; the model keeps its
    filled part, which is the whole array when the loop ends
    ([buildFlat_lengths]). Each of the three array writes of the loop stores
    at the current fill length of its array, so it is an append. *)
Record FlatState := mkFlatState {
  fs_i : Z;
  fs_flatIndex : Z;
  fs_flatChars : text;
  fs_flatRawToRaw : list Z;
  fs_rawToFlatRaw : list Z
}.

(** The inner loop over a run of whitespace:
    [while (i < rawLength && WHITE_SPACE.test(rawTextChars[i]))]. *)
Fixpoint skipWhitespaceRun (fuel : nat) (rawTextChars : text) (st : FlatState) : FlatState :=
  match fuel with
  | O => st
  | S fuel' =>
      if (fs_i st <? len rawTextChars) && WHITE_SPACE_test (get rawTextChars (fs_i st)) then
        skipWhitespaceRun fuel' rawTextChars
          (mkFlatState (fs_i st + 1) (fs_flatIndex st) (fs_flatChars st)
             (fs_flatRawToRaw st) (fs_rawToFlatRaw st ++ [fs_flatIndex st]))
      else st
  end.

(** The outer loop [while (i < rawLength)]. *)
Fixpoint buildFlatLoop (fuel : nat) (rawTextChars : text) (st : FlatState) : FlatState :=
  match fuel with
  | O => st
  | S fuel' =>
      if fs_i st <? len rawTextChars then
        match get rawTextChars (fs_i st) with
        | Some c =>
            if isWhitespace c then
              buildFlatLoop fuel' rawTextChars
                (skipWhitespaceRun (length rawTextChars) rawTextChars st)
            else
              buildFlatLoop fuel' rawTextChars
                (mkFlatState (fs_i st + 1) (fs_flatIndex st + 1)
                   (fs_flatChars st ++ [c])
                   (fs_flatRawToRaw st ++ [fs_i st])
                   (fs_rawToFlatRaw st ++ [fs_flatIndex st]))
        | None => st
        end
      else st
  end.

Record FlatHelpers := mkFlatHelpers {
  rawTextChars : text;
  flatRawText : text;
  flatRawToRaw : list Z;
  rawToFlatRaw : list Z
}.

Definition buildFlatRawTextHelpers (rawText : text) : FlatHelpers :=
  let st := buildFlatLoop (length rawText) rawText (mkFlatState 0 0 [] [] []) in
  mkFlatHelpers rawText (fs_flatChars st) (fs_flatRawToRaw st) (fs_rawToFlatRaw st).

Definition reconstructRawOffset (flatIndex : Z) (flatRawToRaw : list Z) (rawLen : Z) : Z :=
  if len flatRawToRaw <=? flatIndex then rawLen else getZ flatRawToRaw flatIndex.

Definition reconstructFlatOffset (rawIndex : Z) (rawToFlatRaw : list Z) : Z :=
  if len rawToFlatRaw <=? rawIndex then len rawToFlatRaw else getZ rawToFlatRaw rawIndex.

Definition rawEndExclusiveToFlatEndExclusive
    (rawEndExcl : Z) (rawToFlatRaw : list Z) (rawTextCharsLen rawFlatTextLen : Z) : Z :=
  if rawTextCharsLen <=? rawEndExcl then rawFlatTextLen
  else if rawEndExcl =? 0 then 0
  else
    let flat := reconstructFlatOffset (rawEndExcl - 1) rawToFlatRaw + 1 in
    Z.max 0 (Z.min rawFlatTextLen flat).

Definition reconstructRawSpan (flatStart flatEndExcl : Z) (flatRawToRaw : list Z)
    (rawTextCharsLen : Z) : Z * Z :=
  let rawStart := reconstructRawOffset flatStart flatRawToRaw rawTextCharsLen in
  let rawEndExcl :=
    if 0 <? flatEndExcl
    then reconstructRawOffset (flatEndExcl - 1) flatRawToRaw rawTextCharsLen + 1
    else rawStart in
  (rawStart, rawEndExcl).

Definition sliceBySpan (rawTextChars : text) (rawStart rawEndExcl : Z) : text :=
  slice rawTextChars rawStart rawEndExcl.

Definition replaceBySpan (rawTextChars : text) (rawStart rawEndExcl : Z)
    (replacementText : text) : text :=
  slice rawTextChars 0 rawStart ++ replacementText ++ sliceFrom rawTextChars rawEndExcl.

Definition normalizeText (t : text) : text :=
  filter (fun c => isWhitespace c = false) t.

(** ** Token boundaries *)

(** [while (pos > 0 && test(rawTextChars[pos - 1])) pos--] *)
Fixpoint scanLeftWhile (test : option char -> bool) (fuel : nat)
    (rawTextChars : text) (pos : Z) : Z :=
  match fuel with
  | O => pos
  | S fuel' =>
      if (0 <? pos) && test (get rawTextChars (pos - 1))
      then scanLeftWhile test fuel' rawTextChars (pos - 1)
      else pos
  end.

(** [while (pos < length && test(rawTextChars[pos])) pos++] *)
Fixpoint scanRightWhile (test : option char -> bool) (fuel : nat)
    (rawTextChars : text) (pos : Z) : Z :=
  match fuel with
  | O => pos
  | S fuel' =>
      if (pos <? len rawTextChars) && test (get rawTextChars pos)
      then scanRightWhile test fuel' rawTextChars (pos + 1)
      else pos
  end.

Definition expandLeftToTokenBoundary (rawIndex : Z) (rawTextChars : text) : Z :=
  let pos := scanLeftWhile WHITE_SPACE_test (Z.to_nat rawIndex) rawTextChars rawIndex in
  scanLeftWhile NOT_WHITE_SPACE_test (Z.to_nat pos) rawTextChars pos.

Definition expandRightToTokenBoundary (rawIndex : Z) (rawTextChars : text) : Z :=
  let pos :=
    scanRightWhile WHITE_SPACE_test (Z.to_nat (len rawTextChars - rawIndex))
      rawTextChars rawIndex in
  scanRightWhile NOT_WHITE_SPACE_test (Z.to_nat (len rawTextChars - pos))
    rawTextChars pos.

(** [for (let i = rawStart; i < rawEndExclusive; i++)] *)
Definition countNonWsInRange (rawStart rawEndExcl : Z) (rawTextChars : text) : Z :=
  fold_left
    (fun count i => if NOT_WHITE_SPACE_test (get rawTextChars i) then count + 1 else count)
    (seqZ rawStart (rawEndExcl - rawStart)) 0.

(** ** The Z-array analyzer *)

(** A character of the virtual concatenation [pattern . sep . text]; [None] is
    the separator ([null] in the source). Every call in [computeZArray] passes
    an index inside the concatenation, where the read of [pattern] or [text]
    is inside the string. *)
Definition charAt (pattern text_ : text) (reverse : bool) (idx : Z) : option char :=
  let patternLen := len pattern in
  let textLen := len text_ in
  if idx <? patternLen then
    (if reverse then get pattern (patternLen - 1 - idx) else get pattern idx)
  else if idx =? patternLen then None
  else
    let textIdx := idx - (patternLen + 1) in
    if reverse then get text_ (textLen - 1 - textIdx) else get text_ textIdx.

(** The extension loop [while (pos + z[pos] < virtualConcatStrLen)]; [zp] is
    [z[pos]]. *)
Fixpoint zExtend (fuel : nat) (pattern text_ : text) (reverse : bool)
    (vlen pos zp : Z) : Z :=
  match fuel with
  | O => zp
  | S fuel' =>
      if pos + zp <? vlen then
        match charAt pattern text_ reverse zp, charAt pattern text_ reverse (pos + zp) with
        | Some a, Some b =>
            if (a =? b)%N then zExtend fuel' pattern text_ reverse vlen pos (zp + 1)
            else zp
        | _, _ => zp
        end
      else zp
  end.

Record ZState := mkZState { zs_z : list Z; zs_L : Z; zs_R : Z }.

Definition zStep (pattern text_ : text) (reverse : bool) (vlen : Z)
    (st : ZState) (pos : Z) : ZState :=
  let z0 :=
    if pos <=? zs_R st
    then Z.min (zs_R st - pos + 1) (getZ (zs_z st) (pos - zs_L st))
    else 0 in
  let zp := zExtend (Z.to_nat vlen) pattern text_ reverse vlen pos z0 in
  let z' := <[Z.to_nat pos := zp]> (zs_z st) in
  if zs_R st <? pos + zp - 1
  then mkZState z' pos (pos + zp - 1)
  else mkZState z' (zs_L st) (zs_R st).

Definition computeZArray (pattern text_ : text) (reverse : bool) : list Z :=
  let vlen := len pattern + 1 + len text_ in
  let st :=
    fold_left (zStep pattern text_ reverse vlen) (seqZ 1 (vlen - 1))
      (mkZState (replicate (Z.to_nat vlen) 0) 0 0) in
  <[0%nat := vlen]> (zs_z st).

Definition computePrefixMatches (pattern text_ : text) : list Z :=
  let patternLen := len pattern in
  let z := computeZArray pattern text_ false in
  let offset := patternLen + 1 in
  map (fun pos =>
         let matchLen := getZ z (offset + pos) in
         if patternLen <? matchLen then patternLen else matchLen)
      (seqZ 0 (len text_)).

Definition computeSuffixMatches (pattern text_ : text) : list Z :=
  let patternLen := len pattern in
  let textLen := len text_ in
  let z := computeZArray pattern text_ true in
  let offset := patternLen + 1 in
  fold_left
    (fun matches rpos =>
       let matchLen := getZ z (offset + rpos) in
       let matchLenCapped := if patternLen <? matchLen then patternLen else matchLen in
       if matchLenCapped <=? 0 then matches
       else
         let start := textLen - rpos - matchLenCapped in
         if (0 <=? start) && (start <? textLen) then
           if getZ matches start <? matchLenCapped
           then <[Z.to_nat start := matchLenCapped]> matches
           else matches
         else matches)
    (seqZ 0 textLen) (replicate (Z.to_nat textLen) 0).

(** ** Sorting

    [Array.prototype.sort] with a comparator [(a, b) => key(a) - key(b)] is a
    stable sort by [key]; the model is the stable insertion sort. *)

Fixpoint insertByKey {A} (key : A -> Z) (x : A) (l : list A) : list A :=
  match l with
  | [] => [x]
  | y :: l' => if key x <=? key y then x :: y :: l' else y :: insertByKey key x l'
  end.

Definition sortByKey {A} (key : A -> Z) (l : list A) : list A :=
  foldr (insertByKey key) [] l.

(** ** The suffix automaton *)

Module SuffixAutomaton.

(** A number that may be [Number.POSITIVE_INFINITY] or
    [Number.NEGATIVE_INFINITY]. *)
Inductive xnum := NegInf | Fin (z : Z) | PosInf.

Definition xle (a b : xnum) : Prop :=
  match a, b with
  | NegInf, _ => True
  | _, PosInf => True
  | Fin x, Fin y => x <= y
  | _, _ => False
  end.

Definition xleb (a b : xnum) : bool :=
  match a, b with
  | NegInf, _ => true
  | _, PosInf => true
  | Fin x, Fin y => x <=? y
  | _, _ => false
  end.

(** [Math.min] and [Math.max] *)
Definition xmin (a b : xnum) : xnum := if xleb a b then a else b.
Definition xmax (a b : xnum) : xnum := if xleb a b then b else a.

(** [a === n] for a finite number [n] *)
Definition xeqZ (a : xnum) (n : Z) : bool :=
  match a with Fin x => x =? n | _ => false end.

Record SAMNode := mkNode {
  next : gmap char Z;
  link : Z;
  nlen : Z;
  firstPos : Z;
  minEnd : xnum;
  maxEnd : xnum
}.

(** [new SAMNode(len)] *)
Definition newNode (l : Z) : SAMNode := mkNode ∅ (-1) l (-1) PosInf NegInf.

Record t := mkSam { nodes : list SAMNode; last : Z }.

(** [nodes[i]]. A read outside the array would raise a TypeError at the
    field access that follows; the automaton keeps every index it stores
    inside the array ([construct_inv]), and the model returns a fresh node
    there. *)
Definition node (ns : list SAMNode) (i : Z) : SAMNode :=
  default (newNode 0) (get ns i).

(** [nodes[i].field = v] *)
Definition update (ns : list SAMNode) (i : Z) (f : SAMNode -> SAMNode) : list SAMNode :=
  if i <? 0 then ns else alter f (Z.to_nat i) ns.

Definition setNext (c : char) (target : Z) (n : SAMNode) : SAMNode :=
  mkNode (<[c := target]> (next n)) (link n) (nlen n) (firstPos n) (minEnd n) (maxEnd n).
Definition setLink (l : Z) (n : SAMNode) : SAMNode :=
  mkNode (next n) l (nlen n) (firstPos n) (minEnd n) (maxEnd n).
Definition setMinEnd (x : xnum) (n : SAMNode) : SAMNode :=
  mkNode (next n) (link n) (nlen n) (firstPos n) x (maxEnd n).
Definition setMaxEnd (x : xnum) (n : SAMNode) : SAMNode :=
  mkNode (next n) (link n) (nlen n) (firstPos n) (minEnd n) x.

(** [nodes[p].next.has(c)] *)
Definition hasNext (ns : list SAMNode) (p : Z) (c : char) : bool :=
  bool_decide (is_Some (next (node ns p) !! c)).

(** [nodes[p].next.get(c)!]; the callers have tested [has(c)]. *)
Definition getNext (ns : list SAMNode) (p : Z) (c : char) : Z :=
  default (-1) (next (node ns p) !! c).

(** [while (p !== -1 && !nodes[p].next.has(c)) { nodes[p].next.set(c, cur); p = nodes[p].link; }] *)
Fixpoint extendLoop (fuel : nat) (c : char) (cur : Z) (ns : list SAMNode) (p : Z)
    : list SAMNode * Z :=
  match fuel with
  | O => (ns, p)
  | S fuel' =>
      if negb (p =? -1) && negb (hasNext ns p c) then
        extendLoop fuel' c cur (update ns p (setNext c cur)) (link (node ns p))
      else (ns, p)
  end.

(** [while (p !== -1 && nodes[p].next.get(c) === q) { nodes[p].next.set(c, clone); p = nodes[p].link; }] *)
Fixpoint redirectLoop (fuel : nat) (c : char) (q clone : Z) (ns : list SAMNode) (p : Z)
    : list SAMNode * Z :=
  match fuel with
  | O => (ns, p)
  | S fuel' =>
      if negb (p =? -1) && bool_decide (next (node ns p) !! c = Some q) then
        redirectLoop fuel' c q clone (update ns p (setNext c clone)) (link (node ns p))
      else (ns, p)
  end.

Definition addChar (c : char) (sam : t) : t :=
  let cur := len (nodes sam) in
  let curLen := nlen (node (nodes sam) (last sam)) + 1 in
  let ns0 := nodes sam ++ [mkNode ∅ (-1) curLen (curLen - 1) (Fin (curLen - 1)) (Fin (curLen - 1))] in
  let '(ns1, p) := extendLoop (length ns0) c cur ns0 (last sam) in
  let ns' :=
    if p =? -1 then update ns1 cur (setLink 0)
    else
      let q := getNext ns1 p c in
      if nlen (node ns1 p) + 1 =? nlen (node ns1 q) then update ns1 cur (setLink q)
      else
        let clone := len ns1 in
        let nq := node ns1 q in
        let ns2 :=
          ns1 ++ [mkNode (next nq) (link nq) (nlen (node ns1 p) + 1) (firstPos nq)
                    (Fin (firstPos nq)) (Fin (firstPos nq))] in
        let '(ns3, _) := redirectLoop (length ns2) c q clone ns2 p in
        update (update ns3 q (setLink clone)) cur (setLink clone) in
  mkSam ns' cur.

(** One step of the propagation pass, for the state [v]. *)
Definition propagateStep (ns : list SAMNode) (v : Z) : list SAMNode :=
  let l := link (node ns v) in
  if 0 <=? l then
    let ns1 := update ns l (setMinEnd (xmin (minEnd (node ns l)) (minEnd (node ns v)))) in
    update ns1 l (setMaxEnd (xmax (maxEnd (node ns1 l)) (maxEnd (node ns1 v))))
  else ns.

(** The states sorted by ascending [len]. *)
Definition lenOrder (ns : list SAMNode) : list Z :=
  sortByKey (fun v => nlen (node ns v)) (seqZ 0 (len ns)).

(** [for (let i = order.length - 1; i >= 1; --i)] *)
Definition propagate (ns : list SAMNode) : list SAMNode :=
  fold_left propagateStep (reverse (drop 1 (lenOrder ns))) ns.

Definition construct (s : text) : t :=
  fold_left (fun sam ch => addChar ch sam) s (mkSam [newNode 0] 0).

Definition build (s : text) : t :=
  let sam := construct s in
  mkSam (propagate (nodes sam)) (last sam).

End SuffixAutomaton.

(** ** The minimum fuzzy match length ([computeMinMatchLen])

    The source computes in IEEE-754 double precision; the model uses the
    kernel's binary64 numbers. *)

(** The double nearest to an integer (exact below 2^53). *)
Definition toDouble (n : Z) : float := PrimFloat.of_uint63 (Uint63.of_Z n).

(** [Math.ceil] of a finite double, as an integer. *)
Definition ceilDouble (f : float) : Z :=
  match Prim2SF f with
  | S754_finite false m e =>
      if 0 <=? e then Z.pos m * 2 ^ e else - ((- Z.pos m) / 2 ^ (- e))
  | S754_finite true m e =>
      if 0 <=? e then - (Z.pos m * 2 ^ e) else - (Z.pos m / 2 ^ (- e))
  | _ => 0
  end.

(** [Math.min(a, b)] on finite doubles *)
Definition minDouble (a b : float) : float := if PrimFloat.ltb b a then b else a.

#[warnings="-inexact-float"]
Definition computeMinMatchLen (flatSearchTextLen : Z) : Z :=
  if flatSearchTextLen <=? 8 then Z.min 3 flatSearchTextLen
  else
    let minPercent := 0.4%float in
    let maxPercent := 0.8%float in
    let scaleFactor :=
      minDouble (PrimFloat.div (toDouble flatSearchTextLen) (toDouble 1500)) 1%float in
    let percent :=
      PrimFloat.add minPercent
        (PrimFloat.mul (PrimFloat.sub maxPercent minPercent) scaleFactor) in
    ceilDouble (PrimFloat.mul (toDouble flatSearchTextLen) percent).

(** ** Materializing fuzzy candidates *)

(** The widening loop of [createPrefixCandidate]. *)
Fixpoint widenRight (fuel : nat) (rawStart targetLen : Z) (rawTextChars : text)
    (expandedEndExcl : Z) : Z :=
  match fuel with
  | O => expandedEndExcl
  | S fuel' =>
      if (countNonWsInRange rawStart expandedEndExcl rawTextChars <? targetLen)
         && (expandedEndExcl <? len rawTextChars) then
        let nextEndExcl := expandRightToTokenBoundary (expandedEndExcl + 1) rawTextChars in
        if nextEndExcl <=? expandedEndExcl then expandedEndExcl
        else widenRight fuel' rawStart targetLen rawTextChars nextEndExcl
      else expandedEndExcl
  end.

Definition createPrefixCandidate (flatStart targetLen : Z) (rawTextChars : text)
    (flatRawToRaw rawToFlatRaw : list Z) : option MatchSpan :=
  let rawStart := reconstructRawOffset flatStart flatRawToRaw (len rawTextChars) in
  if len rawTextChars <=? rawStart then None
  else
    let expandedEndExcl :=
      widenRight (length rawTextChars) rawStart targetLen rawTextChars
        (expandRightToTokenBoundary rawStart rawTextChars) in
    Some (mkSpan (reconstructFlatOffset rawStart rawToFlatRaw)
            (rawEndExclusiveToFlatEndExclusive expandedEndExcl rawToFlatRaw
               (len rawTextChars) (len flatRawToRaw))
            rawStart expandedEndExcl).

(** The widening loop of [createSuffixCandidate]. *)
Fixpoint widenLeft (fuel : nat) (rawEndExcl targetLen : Z) (rawTextChars : text)
    (expandedStart : Z) : Z :=
  match fuel with
  | O => expandedStart
  | S fuel' =>
      if (countNonWsInRange expandedStart rawEndExcl rawTextChars <? targetLen)
         && (0 <? expandedStart) then
        let prevStart :=
          expandLeftToTokenBoundary (Z.max 0 (expandedStart - 1)) rawTextChars in
        if expandedStart <=? prevStart then expandedStart
        else widenLeft fuel' rawEndExcl targetLen rawTextChars prevStart
      else expandedStart
  end.

Definition createSuffixCandidate (flatEndExcl targetLen : Z) (rawTextChars : text)
    (flatRawToRaw rawToFlatRaw : list Z) : option MatchSpan :=
  let rawEndExcl := reconstructRawOffset flatEndExcl flatRawToRaw (len rawTextChars) + 1 in
  if len rawTextChars <? rawEndExcl then None
  else
    let expandedStart :=
      widenLeft (length rawTextChars) rawEndExcl targetLen rawTextChars
        (expandLeftToTokenBoundary (Z.max 0 (rawEndExcl - 1)) rawTextChars) in
    Some (mkSpan (reconstructFlatOffset expandedStart rawToFlatRaw)
            (rawEndExclusiveToFlatEndExclusive rawEndExcl rawToFlatRaw
               (len rawTextChars) (len flatRawToRaw))
            expandedStart rawEndExcl).

Definition createCombinedCandidate (prefixFlatStart suffixFlatEndExcl : Z)
    (rawTextChars : text) (flatRawToRaw rawToFlatRaw : list Z) : option MatchSpan :=
  if len flatRawToRaw <=? prefixFlatStart then None
  else if len flatRawToRaw <=? suffixFlatEndExcl - 1 then None
  else
    let rawStart := reconstructRawOffset prefixFlatStart flatRawToRaw (len rawTextChars) in
    let rawEndExcl :=
      reconstructRawOffset (suffixFlatEndExcl - 1) flatRawToRaw (len rawTextChars) + 1 in
    if (len rawTextChars <=? rawStart) || (len rawTextChars <? rawEndExcl) then None
    else
      Some (mkSpan (reconstructFlatOffset rawStart rawToFlatRaw)
              (rawEndExclusiveToFlatEndExclusive rawEndExcl rawToFlatRaw
                 (len rawTextChars) (len flatRawToRaw))
              rawStart rawEndExcl).

(** The widening loop of [createMidCandidate]: one token to the left and one
    to the right per round, until the count of non-whitespace scalars reaches
    [targetLen] or stops growing. *)
Fixpoint widenBoth (fuel : nat) (targetLen : Z) (rawTextChars : text)
    (expandedStart expandedEndExcl : Z) : Z * Z :=
  match fuel with
  | O => (expandedStart, expandedEndExcl)
  | S fuel' =>
      let before := countNonWsInRange expandedStart expandedEndExcl rawTextChars in
      if before <? targetLen then
        let expandedStart' :=
          if 0 <? expandedStart then
            let newLeft :=
              expandLeftToTokenBoundary (Z.max 0 (expandedStart - 1)) rawTextChars in
            if newLeft <? expandedStart then newLeft else expandedStart
          else expandedStart in
        let expandedEndExcl' :=
          if expandedEndExcl <? len rawTextChars then
            let newRight := expandRightToTokenBoundary (expandedEndExcl + 1) rawTextChars in
            if expandedEndExcl <? newRight then newRight else expandedEndExcl
          else expandedEndExcl in
        let after := countNonWsInRange expandedStart' expandedEndExcl' rawTextChars in
        if after =? before then (expandedStart', expandedEndExcl')
        else widenBoth fuel' targetLen rawTextChars expandedStart' expandedEndExcl'
      else (expandedStart, expandedEndExcl)
  end.

Definition createMidCandidate (flatStart flatEndExcl targetLen : Z)
    (rawTextChars : text) (flatRawToRaw rawToFlatRaw : list Z) : option MatchSpan :=
  if len flatRawToRaw <=? flatStart then None
  else if len flatRawToRaw <=? flatEndExcl - 1 then None
  else
    let rawStart := reconstructRawOffset flatStart flatRawToRaw (len rawTextChars) in
    let rawEndExcl :=
      reconstructRawOffset (flatEndExcl - 1) flatRawToRaw (len rawTextChars) + 1 in
    if (len rawTextChars <=? rawStart) || (len rawTextChars <? rawEndExcl) then None
    else
      let '(expandedStart, expandedEndExcl) :=
        widenBoth (S (length rawTextChars)) targetLen rawTextChars
          (expandLeftToTokenBoundary rawStart rawTextChars)
          (expandRightToTokenBoundary rawEndExcl rawTextChars) in
      Some (mkSpan (reconstructFlatOffset expandedStart rawToFlatRaw)
              (rawEndExclusiveToFlatEndExclusive expandedEndExcl rawToFlatRaw
                 (len rawTextChars) (len flatRawToRaw))
              expandedStart expandedEndExcl).

(** ** The fuzzy phase ([findPotentialMatches]) *)

(** The raw matches read off a prefix or suffix length array:
    [for (let i = 0; i < flatRawTextLen; i++)]. *)
Definition lengthMatches (kind : MatchType) (lens : list Z)
    (flatRawTextLen flatSearchTextLen : Z) : list RawMatch :=
  flat_map
    (fun i =>
       let L := Z.min (getZ lens i) flatSearchTextLen in
       if 0 <? L then [mkRaw kind i (i + L) L] else [])
    (seqZ 0 flatRawTextLen).

Import SuffixAutomaton.

(** [while (state !== -1 && !sam.nodes[state].next.has(c)) state = sam.nodes[state].link] *)
Fixpoint followLinks (fuel : nat) (ns : list SAMNode) (c : char) (state : Z) : Z :=
  match fuel with
  | O => state
  | S fuel' =>
      if negb (state =? -1) && negb (hasNext ns state c)
      then followLinks fuel' ns c (link (node ns state))
      else state
  end.

(** The automaton transition of the streaming scan on the character [c]:
    the new [(state, len)]. *)
Definition samAdvance (ns : list SAMNode) (sl : Z * Z) (c : char) : Z * Z :=
  let '(state, l) := sl in
  if hasNext ns state c then (getNext ns state c, l + 1)
  else
    let state' := followLinks (length ns) ns c state in
    if state' =? -1 then (0, 0)
    else (getNext ns state' c, nlen (node ns state') + 1).

Record ScanState := mkScan {
  sc_i : Z;
  sc_state : Z;
  sc_len : Z;
  sc_midMatches : list RawMatch
}.

(** One iteration of the scan loop, at index [sc_i] on the character [c]. *)
Definition scanStep (ns : list SAMNode) (minMatchLen flatSearchTextLen : Z)
    (st : ScanState) (c : char) : ScanState :=
  let i := sc_i st in
  let '(state, l) := samAdvance ns (sc_state st, sc_len st) c in
  let midMatches :=
    if minMatchLen <=? l then
      let isPrefix := xeqZ (minEnd (node ns state)) (l - 1) in
      let isSuffix := xeqZ (maxEnd (node ns state)) (flatSearchTextLen - 1) in
      if negb isPrefix && negb isSuffix
      then sc_midMatches st ++ [mkRaw mid (i - l + 1) (i + 1) l]
      else sc_midMatches st
    else sc_midMatches st in
  mkScan (i + 1) state l midMatches.

Definition scanMidMatches (ns : list SAMNode) (minMatchLen flatSearchTextLen : Z)
    (flatRawText : text) : list RawMatch :=
  sc_midMatches
    (fold_left (scanStep ns minMatchLen flatSearchTextLen) flatRawText (mkScan 0 0 0 [])).

(** [lowerBoundSuffix]: the binary search [while (lo < hi)]. *)
Fixpoint lowerBoundLoop (fuel : nat) (filteredSuffixes : list RawMatch)
    (startPos lo hi : Z) : Z :=
  match fuel with
  | O => lo
  | S fuel' =>
      if lo <? hi then
        let md := Z.shiftr (lo + hi) 1 in
        match get filteredSuffixes md with
        | Some s =>
            if rmFlatStart s <? startPos
            then lowerBoundLoop fuel' filteredSuffixes startPos (md + 1) hi
            else lowerBoundLoop fuel' filteredSuffixes startPos lo md
        | None => lo
        end
      else lo
  end.

Definition lowerBoundSuffix (filteredSuffixes : list RawMatch) (startPos : Z) : Z :=
  lowerBoundLoop (S (length filteredSuffixes)) filteredSuffixes startPos 0
    (len filteredSuffixes).

(** The inner loop [for (let j = idx; j < filteredSuffixes.length; j++)] over
    the suffixes from [idx] on, with its two [continue]s and its [break].
    [0.75] and [1.25] are dyadic, so the two comparisons against
    [0.75 * flatSearchTextLen] and [1.25 * flatSearchTextLen] are exact in
    double precision and are written over the integers. *)
Fixpoint combineWith (pre : RawMatch) (flatSearchTextLen minMatchLen : Z)
    (sufs : list RawMatch) : list RawMatch :=
  match sufs with
  | [] => []
  | suf :: rest =>
      if rmFlatStart suf <? rmFlatEndExclusive pre
      then combineWith pre flatSearchTextLen minMatchLen rest
      else
        let rawSpan := rmFlatEndExclusive suf - rmFlatStart pre in
        if 4 * rawSpan <? 3 * flatSearchTextLen
        then combineWith pre flatSearchTextLen minMatchLen rest
        else if 5 * flatSearchTextLen <? 4 * rawSpan then []
        else
          let combinedLen := matchedLen pre + matchedLen suf in
          (if minMatchLen <=? combinedLen
           then [mkRaw combined (rmFlatStart pre) (rmFlatEndExclusive suf) combinedLen]
           else [])
          ++ combineWith pre flatSearchTextLen minMatchLen rest
  end.

(** The loop [for (const pre of filteredPrefixes)] over the suffixes sorted
    by [flatStart]. *)
Definition combinedMatchesOf (filteredPrefixes sortedSuffixes : list RawMatch)
    (flatSearchTextLen minMatchLen : Z) : list RawMatch :=
  flat_map
    (fun pre =>
       let idx := lowerBoundSuffix sortedSuffixes (rmFlatEndExclusive pre) in
       combineWith pre flatSearchTextLen minMatchLen (drop (Z.to_nat idx) sortedSuffixes))
    filteredPrefixes.

(** [Math.max(...xs)] for a non-empty array. *)
Definition maxOf (xs : list Z) : Z :=
  match xs with
  | [] => 0
  | x :: r => fold_left Z.max r x
  end.

(** Deduplication by the key [`${flatStart}-${flatEndExclusive}`], keeping the
    first of each key; two keys are equal exactly when both numbers are. *)
Fixpoint dedupe (seen : gset (Z * Z)) (ms : list RawMatch) : list RawMatch :=
  match ms with
  | [] => []
  | m :: r =>
      let key := (rmFlatStart m, rmFlatEndExclusive m) in
      if bool_decide (key ∈ seen) then dedupe seen r
      else m :: dedupe ({[key]} ∪ seen) r
  end.

Definition materialize (flatSearchTextLen : Z) (rawTextChars : text)
    (flatRawToRaw rawToFlatRaw : list Z) (m : RawMatch) : option MatchSpan :=
  match matchType m with
  | prefix =>
      createPrefixCandidate (rmFlatStart m) flatSearchTextLen rawTextChars
        flatRawToRaw rawToFlatRaw
  | suffix =>
      createSuffixCandidate (rmFlatEndExclusive m) flatSearchTextLen rawTextChars
        flatRawToRaw rawToFlatRaw
  | mid =>
      createMidCandidate (rmFlatStart m) (rmFlatEndExclusive m) flatSearchTextLen
        rawTextChars flatRawToRaw rawToFlatRaw
  | combined =>
      createCombinedCandidate (rmFlatStart m) (rmFlatEndExclusive m) rawTextChars
        flatRawToRaw rawToFlatRaw
  end.

(** The four lists of raw matches of the fuzzy phase, before ranking:
    [filteredPrefixes], [filteredSuffixes], [midMatches], [combinedMatches]. *)
Record FuzzyRaw := mkFuzzyRaw {
  filteredPrefixes : list RawMatch;
  filteredSuffixes : list RawMatch;
  midMatches : list RawMatch;
  combinedMatches : list RawMatch
}.

Definition fuzzyRawMatches (flatRawText flatSearchText : text) : FuzzyRaw :=
  let flatRawTextLen := len flatRawText in
  let flatSearchTextLen := len flatSearchText in
  let minMatchLen := computeMinMatchLen flatSearchTextLen in
  let prefLens := computePrefixMatches flatSearchText flatRawText in
  let prefixMatches := lengthMatches prefix prefLens flatRawTextLen flatSearchTextLen in
  let sufLens := computeSuffixMatches flatSearchText flatRawText in
  let suffixMatches := lengthMatches suffix sufLens flatRawTextLen flatSearchTextLen in
  let sam := SuffixAutomaton.build flatSearchText in
  let mids := scanMidMatches (nodes sam) minMatchLen flatSearchTextLen flatRawText in
  let prefixThreshold := Z.max 1 (minMatchLen / 2) in
  let fp := List.filter (fun m => prefixThreshold <=? matchedLen m) prefixMatches in
  let fsu := List.filter (fun m => prefixThreshold <=? matchedLen m) suffixMatches in
  if (0 <? len fp) && (0 <? len fsu) then
    (* [filteredSuffixes.sort(...)] sorts the array in place *)
    let sorted := sortByKey rmFlatStart fsu in
    mkFuzzyRaw fp sorted mids (combinedMatchesOf fp sorted flatSearchTextLen minMatchLen)
  else mkFuzzyRaw fp fsu mids [].

Definition findPotentialMatches (flatRawText flatSearchText : text)
    (rawTextChars : text) (flatRawToRaw rawToFlatRaw : list Z) : list MatchSpan :=
  let flatSearchTextLen := len flatSearchText in
  if (flatSearchTextLen =? 0) || (len flatRawText =? 0) then []
  else
    let minMatchLen := computeMinMatchLen flatSearchTextLen in
    let fr := fuzzyRawMatches flatRawText flatSearchText in
    let qualifiedPrefixes :=
      List.filter (fun m => minMatchLen <=? matchedLen m) (filteredPrefixes fr) in
    let qualifiedSuffixes :=
      List.filter (fun m => minMatchLen <=? matchedLen m) (filteredSuffixes fr) in
    let allCandidatesRaw :=
      qualifiedPrefixes ++ qualifiedSuffixes ++ midMatches fr ++ combinedMatches fr in
    if len allCandidatesRaw =? 0 then []
    else
      let maxLen := maxOf (map matchedLen allCandidatesRaw) in
      let longestMatches := List.filter (fun m => matchedLen m =? maxLen) allCandidatesRaw in
      let uniqueLongest := sortByKey rmFlatStart (dedupe ∅ longestMatches) in
      omap (materialize flatSearchTextLen rawTextChars flatRawToRaw rawToFlatRaw)
        (take 3 uniqueLongest).

(** ** The match engine ([findMatchSpans]) *)

Record MatchResult := mkResult { spans : list MatchSpan; isExactMatch : bool }.

(** The exact phase:
    [while (searchStart < flatRawText.length && exactMatches.length < maxMatches)].
    [remaining] is [maxMatches - exactMatches.length]; the result is the
    matches in the order they are pushed. *)
Fixpoint exactLoop (remaining : nat) (flatRawText flatSearchText : text)
    (flatRawToRaw : list Z) (rawLen : Z) (searchStart : Z) : list MatchSpan :=
  match remaining with
  | O => []
  | S remaining' =>
      if searchStart <? len flatRawText then
        let matchIndex := indexOf flatRawText flatSearchText searchStart in
        if matchIndex =? -1 then []
        else
          let flatStart := matchIndex in
          let flatEndExcl := matchIndex + len flatSearchText in
          let rawSpan := reconstructRawSpan flatStart flatEndExcl flatRawToRaw rawLen in
          mkSpan flatStart flatEndExcl (fst rawSpan) (snd rawSpan)
          :: exactLoop remaining' flatRawText flatSearchText flatRawToRaw rawLen
               (matchIndex + 1)
      else []
  end.

Definition findMatchSpansMax (maxMatches : nat) (flatRawText flatSearchText : text)
    (rawTextChars : text) (flatRawToRaw rawToFlatRaw : list Z) : MatchResult :=
  if len flatRawText =? 0 then mkResult [] false
  else if len flatSearchText =? 0 then mkResult [] false
  else
    let exactMatches :=
      exactLoop maxMatches flatRawText flatSearchText flatRawToRaw (len rawTextChars) 0 in
    if 0 <? len exactMatches then mkResult (sortByKey flatStart exactMatches) true
    else
      mkResult
        (findPotentialMatches flatRawText flatSearchText rawTextChars flatRawToRaw
           rawToFlatRaw)
        false.

(** [findMatchSpans] with its default [maxMatches = 3], as every caller
    invokes it. *)
Definition findMatchSpans := findMatchSpansMax 3.

(** ** The disambiguation expander *)

Definition expandSpanForDisambiguation (span : MatchSpan) (rawTextChars : text)
    (rawTextToFlat : list Z) : MatchSpan :=
  let newStart :=
    expandLeftToTokenBoundary (Z.max 0 (rawStart span - 1)) rawTextChars in
  let rawStart' := if newStart <? rawStart span then newStart else rawStart span in
  let newEndExcl :=
    expandRightToTokenBoundary (Z.min (len rawTextChars) (rawEndExclusive span + 1))
      rawTextChars in
  let rawEndExcl' :=
    if rawEndExclusive span <? newEndExcl then newEndExcl else rawEndExclusive span in
  mkSpan (reconstructFlatOffset rawStart' rawTextToFlat)
    (reconstructFlatOffset (Z.max 0 (rawEndExcl' - 1)) rawTextToFlat + 1)
    rawStart' rawEndExcl'.

(** A span under expansion, with its membership in [nonExpandableSpanIndices]. *)
Record Slice := mkSlice { sl_span : MatchSpan; sl_nonExpandable : bool }.

Definition flatSliceOf (flatRawText : text) (s : Slice) : text :=
  slice flatRawText (flatStart (sl_span s)) (flatEndExclusive (sl_span s)).

(** Whether the slice at index [idx] lies in a group of [contentGroups] with
    more than one member: it is expandable and another expandable slice has
    the same flat content. *)
Definition inDuplicateGroup (flatRawText : text) (slices : list Slice)
    (idx : nat) (s : Slice) : bool :=
  negb (sl_nonExpandable s)
  && existsb
       (fun js =>
          negb (fst js =? idx)%nat && negb (sl_nonExpandable (snd js))
          && bool_decide (flatSliceOf flatRawText (snd js) = flatSliceOf flatRawText s))
       (imap (fun j s' => (j, s')) slices).

(** One round of the [do ... while (duplicatesExist)] loop. The groups are
    disjoint and the flat slices are taken before any span changes, so the
    round treats every member of a duplicate group independently. *)
Definition disambiguationRound (rawTextChars flatRawText : text)
    (rawToFlatRaw : list Z) (slices : list Slice) : list Slice * bool :=
  let dup := imap (fun idx s => inDuplicateGroup flatRawText slices idx s) slices in
  let duplicatesExist := existsb id dup in
  let slices' :=
    zip_with
      (fun s (d : bool) =>
         if d then
           let expanded := expandSpanForDisambiguation (sl_span s) rawTextChars rawToFlatRaw in
           if negb (rawStart expanded =? rawStart (sl_span s))
              || negb (rawEndExclusive expanded =? rawEndExclusive (sl_span s))
           then mkSlice expanded (sl_nonExpandable s)
           else mkSlice (sl_span s) true
         else s)
      slices dup in
  (slices', duplicatesExist).

(** The loop; the boolean tells that it ended by its own test. *)
Fixpoint disambiguationLoop (fuel : nat) (rawTextChars flatRawText : text)
    (rawToFlatRaw : list Z) (slices : list Slice) : list Slice * bool :=
  match fuel with
  | O => (slices, false)
  | S fuel' =>
      let '(slices', duplicatesExist) :=
        disambiguationRound rawTextChars flatRawText rawToFlatRaw slices in
      if duplicatesExist
      then disambiguationLoop fuel' rawTextChars flatRawText rawToFlatRaw slices'
      else (slices', true)
  end.

(** A bound on the number of rounds: every round with duplicates widens a
    span or retires one. *)
Definition disambiguationFuel (rawTextChars : text) (spans : list MatchSpan) : nat :=
  S (foldr
       (fun sp acc =>
          (S (Z.to_nat (rawStart sp) + Z.to_nat (len rawTextChars - rawEndExclusive sp)) + acc)%nat)
       O spans).

Definition generateDisambiguationSuggestionsFromSpans (spans : list MatchSpan)
    (rawTextChars flatRawText : text) (rawToFlatRaw : list Z) : list text :=
  if len spans =? 0 then []
  else
    let slices := map (fun sp => mkSlice sp false) spans in
    let '(slices', _) :=
      disambiguationLoop (disambiguationFuel rawTextChars spans) rawTextChars
        flatRawText rawToFlatRaw slices in
    map (fun s =>
           sliceBySpan rawTextChars (rawStart (sl_span s)) (rawEndExclusive (sl_span s)))
        slices'.

(** ** Line boundaries (move) *)

Definition isPosLineBoundary (rawTextChars : text) (pos : Z) : bool :=
  match get rawTextChars pos with
  | Some c => (c =? 10)%N || (c =? 13)%N
  | None => false
  end.

Definition hasStartReachedLineBoundary (rawTextChars : text) (start : Z) : bool :=
  (start =? 0) || isPosLineBoundary rawTextChars (start - 1).

Fixpoint lineBoundaryLeftLoop (fuel : nat) (rawTextChars : text) (start : Z) : Z :=
  match fuel with
  | O => start
  | S fuel' =>
      if negb (hasStartReachedLineBoundary rawTextChars start)
         && WHITE_SPACE_test (get rawTextChars (start - 1))
      then lineBoundaryLeftLoop fuel' rawTextChars (start - 1)
      else start
  end.

Definition findLineBoundaryToLeft (rawTextChars : text) (spanRawStart : Z) : Z :=
  let start := lineBoundaryLeftLoop (Z.to_nat spanRawStart) rawTextChars spanRawStart in
  if hasStartReachedLineBoundary rawTextChars start then start else -1.

Definition hasEndReachedLineBoundary (rawTextChars : text) (e : Z) : bool :=
  (e =? len rawTextChars) || isPosLineBoundary rawTextChars e.

Fixpoint lineBoundaryRightLoop (fuel : nat) (rawTextChars : text) (e : Z) : Z :=
  match fuel with
  | O => e
  | S fuel' =>
      if negb (hasEndReachedLineBoundary rawTextChars e)
         && WHITE_SPACE_test (get rawTextChars e)
      then lineBoundaryRightLoop fuel' rawTextChars (e + 1)
      else e
  end.

Definition findLineBoundaryToRight (rawTextChars : text) (spanRawEndExcl : Z) : Z :=
  let e :=
    lineBoundaryRightLoop (Z.to_nat (len rawTextChars - spanRawEndExcl)) rawTextChars
      spanRawEndExcl in
  if hasEndReachedLineBoundary rawTextChars e then e else -1.

Definition expandEndLineBoundaryToIncludeTrailingNewLine (rawTextChars : text)
    (pos : Z) : Z :=
  scanRightWhile
    (fun x => match x with Some c => (c =? 13)%N || (c =? 10)%N | None => false end)
    (Z.to_nat (len rawTextChars - pos)) rawTextChars pos.

(** ** The file system and the operation monad

    Binary detection, permissions and I/O failures belong to external
    collaborators: the model reads their answers off the file's entry.
    [fs.promises.writeFile] replaces the content of the entry (creating it
    when absent). *)

Record File := mkFile {
  f_content : text;
  f_accessible : bool;   (* [access(path, R_OK | W_OK)] resolves *)
  f_binary : bool;       (* the answer of [isBinaryFile] *)
  f_readFails : bool     (* [readFile] rejects *)
}.

Abbreviation FileSystem := (gmap string File).

Inductive ParamName :=
  | searchText | anchorText | textToBeMoved | anchorBlockStartMarker | anchorBlockEndMarker.

Inductive Position := before | after.

Inductive Message :=
  | fileNotExist
  | filePermissionError
  | binaryFileError
  | identicalText
  | noMatchFound (param : ParamName)
  | multipleMatches (param : ParamName)
  | overlapError
  | unexpectedError
  | successReplaced (deleted : bool) (count : Z)
  | successInserted (pos : Position)
  | successMoved (pos : Position).

Record OpResult := mkOpResult {
  success : bool;
  message : Message;
  SuggestedParameterValues : option (list (ParamName * text))
}.

(** A computation that reads and writes the file system and may throw. *)
Definition Op (A : Type) : Type := FileSystem -> FileSystem * option A.

Definition ret {A} (a : A) : Op A := fun fs => (fs, Some a).
Definition throw {A} : Op A := fun fs => (fs, None).
Definition bind {A B} (m : Op A) (k : A -> Op B) : Op B :=
  fun fs => match m fs with
            | (fs', Some a) => k a fs'
            | (fs', None) => (fs', None)
            end.
(** [try { m } catch (err) { return handler }] *)
Definition tryCatch {A} (m : Op A) (handler : A) : Op A :=
  fun fs => match m fs with
            | (fs', Some a) => (fs', Some a)
            | (fs', None) => (fs', Some handler)
            end.

Notation "'let*' x ':=' m 'in' k" := (bind m (fun x => k))
  (at level 10, x name, m at level 100, k at level 200).
Notation "'run' m 'in' k" := (bind m (fun _ => k))
  (at level 10, m at level 100, k at level 200).

Definition existsSync (path : string) : Op bool :=
  fun fs => (fs, Some (bool_decide (is_Some (fs !! path)))).

(** The three external probes of a file that exists. *)
Definition accessOk (path : string) : Op bool :=
  fun fs => (fs, Some (match fs !! path with Some f => f_accessible f | None => false end)).
Definition isBinaryFile (path : string) : Op bool :=
  fun fs => (fs, Some (match fs !! path with Some f => f_binary f | None => true end)).

Definition readFile (path : string) : Op text :=
  fun fs => match fs !! path with
            | Some f => if f_readFails f then (fs, None) else (fs, Some (f_content f))
            | None => (fs, None)
            end.

Definition writeFile (path : string) (content : text) : Op unit :=
  fun fs =>
    let f := match fs !! path with
             | Some f => mkFile content (f_accessible f) (f_binary f) (f_readFails f)
             | None => mkFile content true false false
             end in
    (<[path := f]> fs, Some tt).

(** A required parameter of the request: the parser throws when it is
    missing or of the wrong type. *)
Definition required {A} (x : option A) : Op A :=
  match x with Some a => ret a | None => throw end.

(** The truthiness of an optional string parameter. *)
Definition truthy (x : option text) : bool :=
  match x with Some (_ :: _) => true | _ => false end.

Definition failure (m : Message) : OpResult := mkOpResult false m None.

Definition validateTextFileToEdit (filePath : string) (checkIfBinary : bool)
    : Op (option Message) :=
  let* ex := existsSync filePath in
  if negb ex then ret (Some fileNotExist)
  else
    let* ok := accessOk filePath in
    if negb ok then ret (Some filePermissionError)
    else if checkIfBinary then
      let* b := isBinaryFile filePath in
      if b then ret (Some binaryFileError) else ret None
    else ret None.

Definition handleSearchTextMatchIssues (spans : list MatchSpan) (rawTextChars flatRawText : text)
    (rawToFlatRaw : list Z) (msg : ParamName -> Message) (searchPropName : ParamName)
    : OpResult :=
  mkOpResult false (msg searchPropName)
    (Some (map (fun s => (searchPropName, s))
             (generateDisambiguationSuggestionsFromSpans spans rawTextChars flatRawText
                rawToFlatRaw))).

(** ** replace_matching_text and delete_matching_text *)

(** The splice loop [for (let i = spans.length - 1; i >= 0; i--)]: the state
    is [(newRawText, rawTextChars)], and [rawTextChars] is mutated after each
    replacement. *)
Definition spliceStep (replacementText : text) (st : text * text) (span : MatchSpan)
    : text * text :=
  let rawTextChars := snd st in
  (replaceBySpan rawTextChars (rawStart span) (rawEndExclusive span) replacementText,
   splice rawTextChars (rawStart span) (rawEndExclusive span - rawStart span)
     replacementText).

Definition spliceAll (rawText : text) (spans : list MatchSpan) (replacementText : text)
    : text :=
  fst (fold_left (spliceStep replacementText) (reverse spans) (rawText, rawText)).

Definition searchTextAndReplace (filePath : string) (searchTextP replacementText : text)
    (actionAllMatches validateReplaceText : bool) : Op OpResult :=
  let* fileValidation := validateTextFileToEdit filePath true in
  match fileValidation with
  | Some m => ret (failure m)
  | None =>
      if validateReplaceText && bool_decide (searchTextP = replacementText)
      then ret (failure identicalText)
      else
        let* rawText := readFile filePath in
        let h := buildFlatRawTextHelpers rawText in
        let r := findMatchSpans (flatRawText h) (normalizeText searchTextP)
                   (rawTextChars h) (flatRawToRaw h) (rawToFlatRaw h) in
        if negb (isExactMatch r) || (len (spans r) =? 0) then
          ret (handleSearchTextMatchIssues (spans r) (rawTextChars h) (flatRawText h)
                 (rawToFlatRaw h) noMatchFound searchText)
        else if negb actionAllMatches && (1 <? len (spans r)) then
          ret (handleSearchTextMatchIssues (spans r) (rawTextChars h) (flatRawText h)
                 (rawToFlatRaw h) multipleMatches searchText)
        else
          let newRawText := spliceAll rawText (spans r) replacementText in
          run writeFile filePath newRawText in
          ret (mkOpResult true
                 (successReplaced (negb (0 <? len replacementText)) (len (spans r))) None)
  end.

Record ReplaceMatchingTextParams := mkReplaceParams {
  rp_filePath : option string;
  rp_searchText : option text;
  rp_replacementText : option text;
  rp_replaceAllOccurrencesOfSearchText : bool
}.

Definition replaceMatchingTextImpl (params : ReplaceMatchingTextParams) : Op OpResult :=
  tryCatch
    (let* filePath := required (rp_filePath params) in
     let* search := required (rp_searchText params) in
     let* replacement := required (rp_replacementText params) in
     searchTextAndReplace filePath search replacement
       (rp_replaceAllOccurrencesOfSearchText params) true)
    (failure unexpectedError).

Record DeleteMatchingTextParams := mkDeleteParams {
  dp_filePath : option string;
  dp_searchText : option text;
  dp_deleteAllOccurrencesOfSearchText : bool
}.

Definition deleteMatchingTextImpl (params : DeleteMatchingTextParams) : Op OpResult :=
  tryCatch
    (let* filePath := required (dp_filePath params) in
     let* search := required (dp_searchText params) in
     searchTextAndReplace filePath search []
       (dp_deleteAllOccurrencesOfSearchText params) false)
    (failure unexpectedError).

(** ** Resolving the block markers and the anchor (insert and move) *)

(** [xs.filter(callback)] for a callback that may throw; [None] is the
    thrown exception. *)
Fixpoint filterThrowing {A} (callback : A -> option bool) (xs : list A) : option (list A) :=
  match xs with
  | [] => Some []
  | x :: r =>
      match callback x with
      | None => None
      | Some keep =>
          match filterThrowing callback r with
          | None => None
          | Some r' => Some (if keep then x :: r' else r')
          end
      end
  end.

(** [xs[xs.length - 1]] *)
Definition lastOf (xs : list MatchSpan) : option MatchSpan := List.last (map Some xs) None.

Definition inBlock (blockStartOffset blockEndOffset : Z) (s : MatchSpan) : bool :=
  (blockStartOffset <=? rawStart s) && (rawEndExclusive s <=? blockEndOffset).

Section Resolve.

Variable h : FlatHelpers.

Definition find (x : text) : MatchResult :=
  findMatchSpans (flatRawText h) (normalizeText x) (rawTextChars h) (flatRawToRaw h)
    (rawToFlatRaw h).

Definition issues (sp : list MatchSpan) (msg : ParamName -> Message) (name : ParamName)
    : OpResult :=
  handleSearchTextMatchIssues sp (rawTextChars h) (flatRawText h) (rawToFlatRaw h) msg name.

(** The block start marker of both operations: [inl] is the result returned
    at once, [inr] the value of [blockStartSpan] ([None] for [null]). *)
Definition resolveBlockStart (marker : option text) : OpResult + option MatchSpan :=
  if truthy marker then
    let startMatches := find (default [] marker) in
    if negb (isExactMatch startMatches) || (len (spans startMatches) =? 0)
    then inl (issues (spans startMatches) noMatchFound anchorBlockStartMarker)
    else inr (head (spans startMatches))
  else inr None.

(** The end-marker filter of [insertTextImpl],
    [(e) => e.rawStart >= blockStartSpan.rawEndExclusive]: reading a field of
    [null] throws. *)
Definition insertEndFilter (blockStartSpan : option MatchSpan) (e : MatchSpan) : option bool :=
  match blockStartSpan with
  | Some b => Some (rawEndExclusive b <=? rawStart e)
  | None => None
  end.

(** The end-marker filter of [moveTextImpl],
    [(e) => !blockStartSpan || e.rawStart >= blockStartSpan.rawEndExclusive]. *)
Definition moveEndFilter (blockStartSpan : option MatchSpan) (e : MatchSpan) : option bool :=
  match blockStartSpan with
  | Some b => Some (rawEndExclusive b <=? rawStart e)
  | None => Some true
  end.

(** The block end marker, with the filter of the operation; the outer
    [None] is a thrown exception. *)
Definition resolveBlockEnd (endFilter : option MatchSpan -> MatchSpan -> option bool)
    (blockStartSpan : option MatchSpan) (marker : option text)
    : option (OpResult + option MatchSpan) :=
  if truthy marker then
    let endMatches := find (default [] marker) in
    match filterThrowing (endFilter blockStartSpan) (spans endMatches) with
    | None => None
    | Some validEndSpans =>
        if negb (isExactMatch endMatches) || (len validEndSpans =? 0)
        then Some (inl (issues (spans endMatches) noMatchFound anchorBlockEndMarker))
        else Some (inr (lastOf validEndSpans))
    end
  else Some (inr None).

(** The anchor inside the block: exactly one exact match is required. *)
Definition resolveAnchor (blockStartSpan blockEndSpan : option MatchSpan) (anchor : text)
    : option (OpResult + MatchSpan) :=
  let allSearchMatches := find anchor in
  let blockStartOffset := match blockStartSpan with Some b => rawStart b | None => 0 end in
  let blockEndOffset :=
    match blockEndSpan with
    | Some b => rawEndExclusive b
    | None => len (rawTextChars h)
    end in
  let searchMatchesInBlock :=
    List.filter (inBlock blockStartOffset blockEndOffset) (spans allSearchMatches) in
  if negb (isExactMatch allSearchMatches) || (len searchMatchesInBlock =? 0)
  then Some (inl (issues searchMatchesInBlock noMatchFound anchorText))
  else if 1 <? len searchMatchesInBlock
  then Some (inl (issues searchMatchesInBlock multipleMatches anchorText))
  else
    match searchMatchesInBlock with
    | [] => None
    | span :: _ => Some (inr span)
    end.

(** Markers, then anchor: the part that [insertTextImpl] and [moveTextImpl]
    share, up to the end-marker filter. *)
Definition resolveAnchorInBlock (endFilter : option MatchSpan -> MatchSpan -> option bool)
    (startMarker endMarker : option text) (anchor : text) : option (OpResult + MatchSpan) :=
  match resolveBlockStart startMarker with
  | inl res => Some (inl res)
  | inr blockStartSpan =>
      match resolveBlockEnd endFilter blockStartSpan endMarker with
      | None => None
      | Some (inl res) => Some (inl res)
      | Some (inr blockEndSpan) => resolveAnchor blockStartSpan blockEndSpan anchor
      end
  end.

(** The text to be moved: exactly one exact match is required. *)
Definition resolveMoveSpan (textToMoveP : text) : option (OpResult + MatchSpan) :=
  let allMoveMatches := find textToMoveP in
  if negb (isExactMatch allMoveMatches) || (len (spans allMoveMatches) =? 0)
  then Some (inl (issues (spans allMoveMatches) noMatchFound textToBeMoved))
  else if 1 <? len (spans allMoveMatches)
  then Some (inl (issues (spans allMoveMatches) multipleMatches textToBeMoved))
  else
    match spans allMoveMatches with
    | [] => None
    | moveSpan :: _ => Some (inr moveSpan)
    end.

End Resolve.

(** An exception thrown by the pure part of an operation. *)
Definition orThrow {A} (x : option A) : Op A :=
  match x with Some a => ret a | None => throw end.

(** ** insert_text *)

Record InsertTextParams := mkInsertParams {
  ip_filePath : option string;
  ip_textToBeInserted : option text;
  ip_anchorText : option text;
  ip_positionRelativeToAnchorText : option Position;
  ip_anchorBlockStartMarker : option text;
  ip_anchorBlockEndMarker : option text;
  ip_addNewLine : bool
}.

Definition insertAt (h : FlatHelpers) (rawText textToBeInserted : text)
    (position : Position) (addNewLine : bool) (span : MatchSpan) : text :=
  let insertionPoint :=
    match position with
    | before => rawStart span
    | after => rawEndExclusive span
    end in
  let textToInsert :=
    if addNewLine then
      let lineEnding := detectLineEnding rawText in
      match position with
      | before => textToBeInserted ++ lineEnding
      | after => lineEnding ++ textToBeInserted
      end
    else textToBeInserted in
  replaceBySpan (rawTextChars h) insertionPoint insertionPoint textToInsert.

Definition insertTextImpl (params : InsertTextParams) : Op OpResult :=
  tryCatch
    (let* filePath := required (ip_filePath params) in
     let* textToBeInserted := required (ip_textToBeInserted params) in
     let* anchor := required (ip_anchorText params) in
     let* position := required (ip_positionRelativeToAnchorText params) in
     let* fileValidation := validateTextFileToEdit filePath true in
     match fileValidation with
     | Some m => ret (failure m)
     | None =>
         let* rawText := readFile filePath in
         let h := buildFlatRawTextHelpers rawText in
         let* resolved :=
           orThrow
             (resolveAnchorInBlock h insertEndFilter (ip_anchorBlockStartMarker params)
                (ip_anchorBlockEndMarker params) anchor) in
         match resolved with
         | inl res => ret res
         | inr span =>
             let newRawText :=
               insertAt h rawText textToBeInserted position (ip_addNewLine params) span in
             run writeFile filePath newRawText in
             ret (mkOpResult true (successInserted position) None)
         end
     end)
    (failure unexpectedError).

(** ** move_text *)

Record MoveTextParams := mkMoveParams {
  mp_filePath : option string;
  mp_textToBeMoved : option text;
  mp_anchorText : option text;
  mp_positionRelativeToAnchorText : option Position;
  mp_anchorBlockStartMarker : option text;
  mp_anchorBlockEndMarker : option text
}.

(** The geometry of a move, computed from the two resolved spans. *)
Record MovePlan := mkMovePlan {
  isLineBoundaryMove : bool;
  deletionStart : Z;
  deletionEndExcl : Z;
  insertionPoint : Z;
  textToMoveEndExcl : Z
}.

Definition planMove (rawTextChars : text) (position : Position)
    (moveSpan anchorSpan : MatchSpan) : MovePlan :=
  let moveSpanLineBoundaryStartPos := findLineBoundaryToLeft rawTextChars (rawStart moveSpan) in
  let moveSpanLineBoundaryEndPos :=
    findLineBoundaryToRight rawTextChars (rawEndExclusive moveSpan) in
  let anchorSpanLineBoundaryStartPos :=
    findLineBoundaryToLeft rawTextChars (rawStart anchorSpan) in
  let anchorSpanLineBoundaryEndPos :=
    findLineBoundaryToRight rawTextChars (rawEndExclusive anchorSpan) in
  let isAnchorTextAtLineBoundary :=
    match position with
    | before => 0 <=? anchorSpanLineBoundaryStartPos
    | after => 0 <=? anchorSpanLineBoundaryEndPos
    end in
  let isLineBoundaryMove :=
    (0 <=? moveSpanLineBoundaryStartPos) && (0 <=? moveSpanLineBoundaryEndPos)
    && isAnchorTextAtLineBoundary in
  mkMovePlan isLineBoundaryMove
    (if isLineBoundaryMove then moveSpanLineBoundaryStartPos else rawStart moveSpan)
    (if isLineBoundaryMove
     then expandEndLineBoundaryToIncludeTrailingNewLine rawTextChars moveSpanLineBoundaryEndPos
     else rawEndExclusive moveSpan)
    (match position with
     | before =>
         if isLineBoundaryMove then anchorSpanLineBoundaryStartPos else rawStart anchorSpan
     | after =>
         if isLineBoundaryMove then anchorSpanLineBoundaryEndPos
         else rawEndExclusive anchorSpan
     end)
    (if isLineBoundaryMove then moveSpanLineBoundaryEndPos else rawEndExclusive moveSpan).

(** The overlap test of [moveTextImpl]. *)
Definition insertionInsideDeletion (pl : MovePlan) : bool :=
  (deletionStart pl <? insertionPoint pl) && (insertionPoint pl <? deletionEndExcl pl).

(** The two splices on a copy of [rawTextChars]. *)
Definition applyMove (rawTextChars lineEnding : text) (position : Position)
    (pl : MovePlan) : text :=
  let textToMove0 := sliceBySpan rawTextChars (deletionStart pl) (textToMoveEndExcl pl) in
  let textToMove :=
    if isLineBoundaryMove pl then
      match position with
      | before => textToMove0 ++ lineEnding
      | after => lineEnding ++ textToMove0
      end
    else textToMove0 in
  let newRawTextChars :=
    splice rawTextChars (deletionStart pl) (deletionEndExcl pl - deletionStart pl) [] in
  let adjustedInsertPoint :=
    if insertionPoint pl <=? deletionStart pl then insertionPoint pl
    else insertionPoint pl - (deletionEndExcl pl - deletionStart pl) in
  splice newRawTextChars adjustedInsertPoint 0 textToMove.

Definition moveTextImpl (params : MoveTextParams) : Op OpResult :=
  tryCatch
    (let* filePath := required (mp_filePath params) in
     let* textToMoveP := required (mp_textToBeMoved params) in
     let* anchor := required (mp_anchorText params) in
     let* position := required (mp_positionRelativeToAnchorText params) in
     let* fileValidation := validateTextFileToEdit filePath true in
     match fileValidation with
     | Some m => ret (failure m)
     | None =>
         let* rawText := readFile filePath in
         let h := buildFlatRawTextHelpers rawText in
         let lineEnding := detectLineEnding rawText in
         let* resolvedMove := orThrow (resolveMoveSpan h textToMoveP) in
         match resolvedMove with
         | inl res => ret res
         | inr moveSpan =>
             let* resolved :=
               orThrow
                 (resolveAnchorInBlock h moveEndFilter (mp_anchorBlockStartMarker params)
                    (mp_anchorBlockEndMarker params) anchor) in
             match resolved with
             | inl res => ret res
             | inr anchorSpan =>
                 let pl := planMove (rawTextChars h) position moveSpan anchorSpan in
                 if insertionInsideDeletion pl
                 then ret (mkOpResult false overlapError None)
                 else
                   run writeFile filePath
                         (applyMove (rawTextChars h) lineEnding position pl) in
                   ret (mkOpResult true (successMoved position) None)
             end
         end
     end)
    (failure unexpectedError).

(** ** The request dispatcher (the four search-driven tools) *)

Inductive Request :=
  | replace_matching_text (params : ReplaceMatchingTextParams)
  | delete_matching_text (params : DeleteMatchingTextParams)
  | insert_text (params : InsertTextParams)
  | move_text (params : MoveTextParams).

Definition dispatch (req : Request) : Op OpResult :=
  match req with
  | replace_matching_text p => replaceMatchingTextImpl p
  | delete_matching_text p => deleteMatchingTextImpl p
  | insert_text p => insertTextImpl p
  | move_text p => moveTextImpl p
  end.


(** ** overwrite_file_content, append_text_to_file and delete_file

    The three tools return [{ success, result: { message } }], without
    suggested values. *)

Inductive FileMessage :=
  | editMessage (m : Message)   (* a message shared with the search-driven tools *)
  | successOverwritten
  | successAppended
  | successFileDeleted.

Record FileOpResult := mkFileOpResult {
  fo_success : bool;
  fo_message : FileMessage
}.

Definition fileFailure (m : Message) : FileOpResult := mkFileOpResult false (editMessage m).

(** [fs.promises.unlink]: removes the entry; rejects when there is none. *)
Definition unlink (path : string) : Op unit :=
  fun fs => match fs !! path with
            | Some _ => (delete path fs, Some tt)
            | None => (fs, None)
            end.

(** [s.endsWith(suffix)] *)
Definition endsWith (s suffix : text) : bool :=
  bool_decide (drop (length s - length suffix) s = suffix).

Record OverwriteFileContentParams := mkOverwriteParams {
  owp_filePath : option string;
  owp_fileContent : option text
}.

Definition overwriteFileContentImpl (params : OverwriteFileContentParams)
    : Op FileOpResult :=
  tryCatch
    (let* filePath := required (owp_filePath params) in
     let* fileContent := required (owp_fileContent params) in
     let* fileValidation := validateTextFileToEdit filePath true in
     match fileValidation with
     | Some m => ret (fileFailure m)
     | None =>
         run writeFile filePath fileContent in
         ret (mkFileOpResult true successOverwritten)
     end)
    (fileFailure unexpectedError).

(** [addNewLineBeforeAppending] is the parsed value of an optional
    parameter: [None] is [undefined], which is falsy. *)
Record AppendTextToFileParams := mkAppendParams {
  atp_filePath : option string;
  atp_appendText : option text;
  atp_addNewLineBeforeAppending : option bool
}.

(** The content that [appendTextToFileImpl] writes. *)
Definition appendedContent (content appendText : text)
    (addNewLineBeforeAppending : option bool) : text :=
  let content1 :=
    if default false addNewLineBeforeAppending then
      let lineEnding := detectLineEnding content in
      if negb (endsWith content lineEnding) then content ++ lineEnding else content
    else content in
  content1 ++ appendText.

Definition appendTextToFileImpl (params : AppendTextToFileParams) : Op FileOpResult :=
  tryCatch
    (let* filePath := required (atp_filePath params) in
     let* appendText := required (atp_appendText params) in
     let* fileValidation := validateTextFileToEdit filePath true in
     match fileValidation with
     | Some m => ret (fileFailure m)
     | None =>
         let* content := readFile filePath in
         run writeFile filePath
               (appendedContent content appendText
                  (atp_addNewLineBeforeAppending params)) in
         ret (mkFileOpResult true successAppended)
     end)
    (fileFailure unexpectedError).

Record DeleteFileParams := mkDeleteFileParams {
  dfp_filePath : option string
}.

Definition deleteFileImpl (params : DeleteFileParams) : Op FileOpResult :=
  tryCatch
    (let* filePath := required (dfp_filePath params) in
     let* fileValidation := validateTextFileToEdit filePath false in
     match fileValidation with
     | Some m => ret (fileFailure m)
     | None =>
         run unlink filePath in
         ret (mkFileOpResult true successFileDeleted)
     end)
    (fileFailure unexpectedError).
(** * Specification predicates *)

Definition strictlyIncreasing (l : list Z) : Prop :=
  forall (j k : nat) (a b : Z),
    (j < k)%nat -> l !! j = Some a -> l !! k = Some b -> a < b.

Definition nonDecreasing (l : list Z) : Prop :=
  forall (j k : nat) (a b : Z),
    (j <= k)%nat -> l !! j = Some a -> l !! k = Some b -> a <= b.

(** The loop invariant of the flat-view builder at raw index [fs_i]. *)
Record FlatInv (raw : text) (st : FlatState) : Prop := mkFlatInv {
  fi_range : 0 <= fs_i st <= len raw;
  fi_r2f_len : len (fs_rawToFlatRaw st) = fs_i st;
  fi_f2r_len : len (fs_flatRawToRaw st) = fs_flatIndex st;
  fi_chars_len : len (fs_flatChars st) = fs_flatIndex st;
  fi_f2r_incr : strictlyIncreasing (fs_flatRawToRaw st);
  fi_f2r_bound : forall j a, fs_flatRawToRaw st !! j = Some a -> 0 <= a < fs_i st;
  fi_r2f_mono : nonDecreasing (fs_rawToFlatRaw st);
  fi_r2f_bound : forall k a, fs_rawToFlatRaw st !! k = Some a -> 0 <= a <= fs_flatIndex st;
  fi_inverse :
    forall (k : nat) c,
      raw !! k = Some c -> Z.of_nat k < fs_i st -> isWhitespace c = false ->
      exists j : nat,
        fs_rawToFlatRaw st !! k = Some (Z.of_nat j)
        /\ fs_flatRawToRaw st !! j = Some (Z.of_nat k)
        /\ fs_flatChars st !! j = Some c;
  fi_inverse2 :
    forall (j : nat) a,
      fs_flatRawToRaw st !! j = Some a ->
      fs_rawToFlatRaw st !! Z.to_nat a = Some (Z.of_nat j)
      /\ exists c, raw !! Z.to_nat a = Some c /\ isWhitespace c = false;
  fi_chars : fs_flatChars st = normalizeText (take (Z.to_nat (fs_i st)) raw)
}.

(** The occurrences of the pattern [P] in the text [T], left to right: every
    position whose slice of length [|P|] equals [P], overlapping ones
    included. *)
Definition occurrences (T P : text) : list Z :=
  List.filter (fun i => bool_decide (slice T i (i + len P) = P)) (seqZ 0 (len T)).

(** The same list, by recursion on the remaining text from position [pos]. *)
Fixpoint occurrencesFrom (s P : text) (pos : Z) : list Z :=
  match s with
  | [] => []
  | _ :: s' =>
      (if startsWith s P then [pos] else []) ++ occurrencesFrom s' P (pos + 1)
  end.

(** A list is sorted by a key. *)
Definition sortedByKey {A} (key : A -> Z) (l : list A) : Prop :=
  Sorted (fun a b => key a <= key b) l.

(** A computation that leaves the file system as it found it. *)
Definition readOnly {A} (m : Op A) : Prop := forall fs, fst (m fs) = fs.

(** An operation that changes the file system only when it goes on to
    return a success. *)
Definition writesOnlyOnSuccess (m : Op OpResult) : Prop :=
  forall fs, fst (m fs) = fs \/ exists r, snd (m fs) = Some r /\ success r = true.

(** The file [f] at [path] exists, is readable and writable, is not binary,
    and can be read. *)
Definition editableFile (fs : FileSystem) (path : string) (f : File) : Prop :=
  fs !! path = Some f /\ f_accessible f = true /\ f_binary f = false
  /\ f_readFails f = false.

(** The file system after [fs.promises.writeFile] on the existing file [f]. *)
Definition written (fs : FileSystem) (path : string) (f : File) (content : text) : FileSystem :=
  <[path := mkFile content (f_accessible f) (f_binary f) (f_readFails f)]> fs.

(** The raw span of the occurrence of a pattern of length [m] at the flat
    position [o]: from the raw index of its first scalar to just after the
    raw index of its last one. *)
Definition rawStartOf (h : FlatHelpers) (o : Z) : Z := getZ (flatRawToRaw h) o.
Definition rawEndOf (h : FlatHelpers) (o m : Z) : Z := getZ (flatRawToRaw h) (o + m - 1) + 1.

(** The state [(state, len)] of the streaming scan after it has consumed the
    characters of [T] up to and including index [i]. *)
Definition scanAt (ns : list SuffixAutomaton.SAMNode) (T : text) (i : nat) : Z * Z :=
  fold_left (samAdvance ns) (take (S i) T) (0, 0).

(** The mid raw-match that position [i] gives rise to, if any: the match
    length reaches [minMatchLen] and the state is neither a prefix occurrence
    ([minEnd = len - 1]) nor a suffix occurrence ([maxEnd = m - 1]). *)
Definition midAt (ns : list SuffixAutomaton.SAMNode) (minMatchLen m : Z) (T : text)
    (i : nat) : option RawMatch :=
  let '(state, l) := scanAt ns T i in
  let isPrefixOccurrence :=
    SuffixAutomaton.xeqZ (SuffixAutomaton.minEnd (SuffixAutomaton.node ns state)) (l - 1) in
  let isSuffixOccurrence :=
    SuffixAutomaton.xeqZ (SuffixAutomaton.maxEnd (SuffixAutomaton.node ns state)) (m - 1) in
  if (minMatchLen <=? l) && negb isPrefixOccurrence && negb isSuffixOccurrence
  then Some (mkRaw mid (Z.of_nat i - l + 1) (Z.of_nat i + 1) l)
  else None.

(** ** The structure of the suffix automaton

    The automaton seen as a graph: its size, and the suffix link, the [len]
    and the transitions of each state. *)
Record graph := mkGraph {
  gsize : Z;
  glink : Z -> Z;
  glen : Z -> Z;
  gtr : Z -> char -> option Z
}.

Definition view (ns : list SuffixAutomaton.SAMNode) : graph :=
  mkGraph (len ns)
    (fun v => SuffixAutomaton.link (SuffixAutomaton.node ns v))
    (fun v => SuffixAutomaton.nlen (SuffixAutomaton.node ns v))
    (fun v c => SuffixAutomaton.next (SuffixAutomaton.node ns v) !! c).

(** [anc g v w]: [w] is reached from [v] by following suffix links. *)
Inductive anc (g : graph) : Z -> Z -> Prop :=
  | anc_refl v : anc g v v
  | anc_step v w : 0 < v < gsize g -> anc g (glink g v) w -> anc g v w.

(** The states on the suffix-link path from [a], strictly before [b] (all of
    the path when [b = -1]). *)
Definition segment (g : graph) (a b x : Z) : Prop :=
  anc g a x /\ (b = -1 \/ (anc g x b /\ x <> b)).

(** The invariant of the construction. Besides the shape of the links (every
    link of a state other than the root leads to a state of strictly smaller
    [len]), it records how transitions and links fit together: the sources
    of the transitions into a state lie on one suffix-link path and carry the
    same character ([inv_F]), and the link of a source leads either to
    another source or to a source of the target's link ([inv_E]). *)
Record Inv (g : graph) (last : Z) : Prop := mkInv {
  inv_size : 1 <= gsize g;
  inv_root_link : glink g 0 = -1;
  inv_root_len : glen g 0 = 0;
  inv_last : 0 <= last < gsize g;
  inv_last_next : forall c, gtr g last c = None;
  inv_link : forall v, 0 < v < gsize g ->
    0 <= glink g v < gsize g /\ glen g (glink g v) < glen g v;
  inv_len_nonneg : forall v, 0 <= v < gsize g -> 0 <= glen g v;
  inv_len_last : forall v, 0 <= v < gsize g -> glen g v <= glen g last;
  inv_last_small : glen g last < gsize g;
  inv_tr : forall p c q, 0 <= p < gsize g -> gtr g p c = Some q ->
    0 < q < gsize g /\ glen g p + 1 <= glen g q;
  inv_E : forall p c q, 0 < p < gsize g -> gtr g p c = Some q ->
    gtr g (glink g p) c = Some q
    \/ (gtr g (glink g p) c = Some (glink g q)
        /\ glen g (glink g q) = glen g (glink g p) + 1);
  inv_E0 : forall c q, gtr g 0 c = Some q -> glink g q = 0;
  inv_F : forall p p2 c c2 q, 0 <= p < gsize g -> 0 <= p2 < gsize g ->
    gtr g p c = Some q -> gtr g p2 c2 = Some q ->
    c = c2 /\ (anc g p p2 \/ anc g p2 p)
}.


(** The two loops of [addChar] have one shape: follow the suffix links from
    [p] while the transition on [c] passes [test], pointing it at [target]. *)
Fixpoint walk (fuel : nat) (test : option Z -> bool) (c : char) (target : Z)
    (ns : list SuffixAutomaton.SAMNode) (p : Z) : list SuffixAutomaton.SAMNode * Z :=
  match fuel with
  | O => (ns, p)
  | S fuel' =>
      if negb (p =? -1)
         && test (SuffixAutomaton.next (SuffixAutomaton.node ns p) !! c) then
        walk fuel' test c target
          (SuffixAutomaton.update ns p (SuffixAutomaton.setNext c target))
          (SuffixAutomaton.link (SuffixAutomaton.node ns p))
      else (ns, p)
  end.

(** The state of such a loop that started at [a] on the array [nsB], whose
    states below [gsize g] carry the links and the [c]-transitions of [g]:
    the loop stands at [p], and [xs] are the states it has visited. *)
Record WalkState (g : graph) (a : Z) (c : char) (target : Z) (test : option Z -> bool)
    (nsB ns : list SuffixAutomaton.SAMNode) (p : Z) (xs : list Z) : Prop := mkWalkState {
  ws_len : len ns = len nsB;
  ws_pos : p = -1 \/ (0 <= p < gsize g /\ anc g a p);
  ws_seg : forall x, In x xs <-> segment g a p x;
  ws_test : forall x, In x xs -> test (gtr g x c) = true;
  ws_link : forall v,
    SuffixAutomaton.link (SuffixAutomaton.node ns v)
    = SuffixAutomaton.link (SuffixAutomaton.node nsB v);
  ws_nlen : forall v,
    SuffixAutomaton.nlen (SuffixAutomaton.node ns v)
    = SuffixAutomaton.nlen (SuffixAutomaton.node nsB v);
  ws_set : forall x, In x xs ->
    SuffixAutomaton.next (SuffixAutomaton.node ns x) !! c = Some target;
  ws_keep : forall v d, ~ (d = c /\ In v xs) ->
    SuffixAutomaton.next (SuffixAutomaton.node ns v) !! d
    = SuffixAutomaton.next (SuffixAutomaton.node nsB v) !! d
}.

(** The augmentation at the state [v] with suffix link [u]: [u] is a state,
    [u.minEnd <= v.minEnd] and [u.maxEnd >= v.maxEnd]. *)
Definition linkDominates (ns : list SuffixAutomaton.SAMNode) (v : Z) : Prop :=
  let u := SuffixAutomaton.link (SuffixAutomaton.node ns v) in
  0 <= u < len ns
  /\ SuffixAutomaton.xle (SuffixAutomaton.minEnd (SuffixAutomaton.node ns u))
       (SuffixAutomaton.minEnd (SuffixAutomaton.node ns v))
  /\ SuffixAutomaton.xle (SuffixAutomaton.maxEnd (SuffixAutomaton.node ns v))
       (SuffixAutomaton.maxEnd (SuffixAutomaton.node ns u)).

(** ** The minimum fuzzy match length, exactly

    The minimum match length as the specification words it, over the
    rationals: [min(3, m)] up to 8, and the ceiling of
    [m * (0.4 + 0.4 * min(m / 1500, 1))] above. *)
Definition exactMinMatchLen (m : Z) : Z :=
  if m <=? 8 then Z.min 3 m
  else
    let q := QArith_base.inject_Z in
    let percent :=
      QArith_base.Qplus (QArith_base.Qmake 4 10)
        (QArith_base.Qmult (QArith_base.Qmake 4 10)
           (Qminmax.Qmin (QArith_base.Qdiv (q m) (q 1500)) (q 1))) in
    Qround.Qceiling (QArith_base.Qmult (q m) percent).

(** The lengths at which the double-precision product lands just above an
    integer that the exact product equals. *)
Definition roundsAbove (m : Z) : bool :=
  (m =? 150) || (m =? 600) || (m =? 750) || (m =? 1200).

(** [computeMinMatchLen] against the exact value at one length. *)
Definition agrees (m : Z) : bool :=
  computeMinMatchLen m =? exactMinMatchLen m + (if roundsAbove m then 1 else 0).

(** [f] holds at [start], [start + 1], ..., [start + n - 1]. *)
Fixpoint allFrom (f : Z -> bool) (start : Z) (n : nat) : bool :=
  match n with
  | O => true
  | S k => if f start then allFrom f (start + 1) k else false
  end.

(** ** The room left to the disambiguation expander

    What the expandable spans can still grow by (one more per span for the
    round that retires it): every round of the loop that finds duplicates
    lowers it. *)
Definition sliceMeasure (rawTextChars : text) (slices : list Slice) : nat :=
  foldr
    (fun s acc =>
       ((if sl_nonExpandable s then O
         else S (Z.to_nat (rawStart (sl_span s))
                 + Z.to_nat (len rawTextChars - rawEndExclusive (sl_span s)))) + acc)%nat)
    O slices.

(** ** Longest common prefixes and suffixes *)

(** The length of the longest common prefix of two texts. *)
Fixpoint commonPrefixLen (a b : text) : Z :=
  match a, b with
  | x :: a', y :: b' => if (x =? y)%N then 1 + commonPrefixLen a' b' else 0
  | _, _ => 0
  end.

(** The length of the longest common suffix of two texts. *)
Definition commonSuffixLen (a b : text) : Z := commonPrefixLen (reverse a) (reverse b).

(** A span that lies in the raw text, is not empty, and whose flat offsets
    are the numbers of kept scalars before its raw offsets. *)
Definition spanInText (raw : text) (sp : MatchSpan) : Prop :=
  0 <= rawStart sp < rawEndExclusive sp
  /\ rawEndExclusive sp <= len raw
  /\ flatStart sp = len (normalizeText (slice raw 0 (rawStart sp)))
  /\ flatEndExclusive sp = len (normalizeText (slice raw 0 (rawEndExclusive sp))).

(** A position that can end a span: the end of the text, or just after a
    scalar that is kept. *)
Definition endOk (raw : text) (e : Z) : Prop :=
  e = len raw \/ exists c, get raw (e - 1) = Some c /\ isWhitespace c = false.

(** What the disambiguation loop keeps of a slice that started as the span
    [orig]: its span lies in the text around [orig], its flat range holds
    the raw text of the span stripped, and it is retired as not expandable
    only when it has grown to the whole text. *)
Definition sliceOk (raw : text) (orig : MatchSpan) (s : Slice) : Prop :=
  let sp := sl_span s in
  0 <= rawStart sp <= rawStart orig
  /\ rawEndExclusive orig <= rawEndExclusive sp <= len raw
  /\ rawStart sp < rawEndExclusive sp
  /\ slice (normalizeText raw) (flatStart sp) (flatEndExclusive sp)
     = normalizeText (slice raw (rawStart sp) (rawEndExclusive sp))
  /\ (sl_nonExpandable s = true -> rawStart sp = 0 /\ rawEndExclusive sp = len raw).

(** What keeps a path from being edited as text, if anything: the file is
    missing, cannot be read and written, or is binary. *)
Definition fileIssue (fs : FileSystem) (path : string) : option Message :=
  match fs !! path with
  | None => Some fileNotExist
  | Some f =>
      if negb (f_accessible f) then Some filePermissionError
      else if f_binary f then Some binaryFileError
      else None
  end.

(** ** What the suffix automaton recognises *)

(** The state reached from [v] by spelling the word [w] along the
    transitions. *)
Fixpoint spell (g : graph) (v : Z) (w : text) : option Z :=
  match w with
  | [] => Some v
  | c :: w' => match gtr g v c with Some q => spell g q w' | None => None end
  end.

(** [w] occurs in [s] as a contiguous block. *)
Definition occursIn (w s : text) : Prop := exists a b, s = a ++ w ++ b.

(** The length below which a word no longer belongs to the state [v]: the
    [len] of its suffix link. *)
Definition lo (g : graph) (v : Z) : Z := if v =? 0 then -1 else glen g (glink g v).

(** The meaning of the automaton of the text [s], with [L v] the longest
    word of the state [v]: the words that lead from the root to [v] are the
    suffixes of [L v] longer than the longest word of its link; the longest
    word of the link is a suffix of [L v]; the longest word of [last] is [s]
    itself; and the words that can be spelled from the root are the blocks
    of [s]. *)
Record Sem (g : graph) (last : Z) (s : text) (L : Z -> text) : Prop := mkSem {
  sem_len : forall v, 0 <= v < gsize g -> len (L v) = glen g v;
  sem_sound : forall w v, spell g 0 w = Some v -> w `suffix_of` L v /\ lo g v < len w;
  sem_reach : forall w v, 0 <= v < gsize g -> w `suffix_of` L v -> lo g v < len w ->
    spell g 0 w = Some v;
  sem_link : forall v, 0 < v < gsize g -> L (glink g v) `suffix_of` L v;
  sem_last : L last = s;
  sem_occ : forall v, 0 <= v < gsize g -> occursIn (L v) s;
  sem_total : forall w, occursIn w s -> is_Some (spell g 0 w)
}.

(** What [addChar] does to the graph [g] when it makes no clone: the first
    loop has visited the states [xs] of the suffix-link path of [last] and
    stopped at [p'], and the new state [gsize g] gets the link [lcur]. *)
Record NoCloneStep (g g' : graph) (last : Z) (c : char) (p' lcur : Z) (xs : list Z)
    : Prop := mkNoCloneStep {
  snc_xs : forall x, In x xs <-> segment g last p' x;
  snc_none : forall x, In x xs -> gtr g x c = None;
  snc_stop :
    (p' = -1 /\ lcur = 0)
    \/ (0 <= p' < gsize g /\ anc g last p' /\ gtr g p' c = Some lcur
        /\ glen g p' + 1 = glen g lcur);
  snc_size : gsize g' = gsize g + 1;
  snc_link : forall v, 0 <= v < gsize g -> glink g' v = glink g v;
  snc_link_cur : glink g' (gsize g) = lcur;
  snc_len : forall v, 0 <= v < gsize g -> glen g' v = glen g v;
  snc_len_cur : glen g' (gsize g) = glen g last + 1;
  snc_tr_cur : forall d, gtr g' (gsize g) d = None;
  snc_tr_X : forall x, In x xs -> gtr g' x c = Some (gsize g);
  snc_tr_old :
    forall v d, 0 <= v < gsize g -> ~ (d = c /\ In v xs) -> gtr g' v d = gtr g v d
}.

(** What [addChar] does to the graph [g] when it clones the state [q]: the
    second loop has visited the states [rs] of the suffix-link path of [p']
    and stopped at [r']; the new state is [gsize g], the clone
    [gsize g + 1]. *)
Record CloneStep (g g' : graph) (last : Z) (c : char) (p' q r' : Z) (xs rs : list Z)
    : Prop := mkCloneStep {
  scl_xs : forall x, In x xs <-> segment g last p' x;
  scl_none : forall x, In x xs -> gtr g x c = None;
  scl_p : 0 <= p' < gsize g;
  scl_ap : anc g last p';
  scl_tp : gtr g p' c = Some q;
  scl_lenq : glen g p' + 1 <> glen g q;
  scl_rs : forall x, In x rs <-> segment g p' r' x;
  scl_Rq : forall x, In x rs -> gtr g x c = Some q;
  scl_r : r' = -1 \/ (0 <= r' < gsize g /\ anc g p' r' /\ gtr g r' c <> Some q);
  scl_size : gsize g' = gsize g + 2;
  scl_link_cur : glink g' (gsize g) = gsize g + 1;
  scl_link_clone : glink g' (gsize g + 1) = glink g q;
  scl_link_q : glink g' q = gsize g + 1;
  scl_link : forall v, 0 <= v < gsize g -> v <> q -> glink g' v = glink g v;
  scl_len : forall v, 0 <= v < gsize g -> glen g' v = glen g v;
  scl_len_cur : glen g' (gsize g) = glen g last + 1;
  scl_len_clone : glen g' (gsize g + 1) = glen g p' + 1;
  scl_tr_cur : forall d, gtr g' (gsize g) d = None;
  scl_tr_X : forall x, In x xs -> gtr g' x c = Some (gsize g);
  scl_tr_R : forall x, In x rs -> gtr g' x c = Some (gsize g + 1);
  scl_tr_old :
    forall v d, 0 <= v < gsize g -> ~ (d = c /\ (In v xs \/ In v rs)) ->
    gtr g' v d = gtr g v d;
  scl_tr_clone_X : In q xs -> gtr g' (gsize g + 1) c = Some (gsize g);
  scl_tr_clone_old :
    forall d, ~ (d = c /\ In q xs) -> gtr g' (gsize g + 1) d = gtr g q d
}.

(** The state [(state, l)] of the streaming scan after the text [U], against
    the automaton [g] of [P]: the last [l] scalars of [U] lead to [state],
    and no longer suffix of [U] occurs in [P]. *)
Definition scanOk (g : graph) (P U : text) (state l : Z) : Prop :=
  exists w, w `suffix_of` U /\ len w = l /\ spell g 0 w = Some state
            /\ forall x, x `suffix_of` U -> occursIn x P -> len x <= l.

(** The occurrence data of a state: [firstPos], [minEnd], [maxEnd]. *)
Definition payload (x : SuffixAutomaton.SAMNode)
    : Z * SuffixAutomaton.xnum * SuffixAutomaton.xnum :=
  (SuffixAutomaton.firstPos x, SuffixAutomaton.minEnd x, SuffixAutomaton.maxEnd x).

(** What [addChar] does to the occurrence data: the old states keep theirs,
    the new state gets the index of the scalar just added, and the clone of
    [q], if there is one, the [firstPos] of [q]. *)
Definition payloadStep (ns ns' : list SuffixAutomaton.SAMNode) (last : Z) (oq : option Z)
    : Prop :=
  (forall v, 0 <= v < len ns ->
     payload (SuffixAutomaton.node ns' v) = payload (SuffixAutomaton.node ns v))
  /\ payload (SuffixAutomaton.node ns' (len ns))
     = (SuffixAutomaton.nlen (SuffixAutomaton.node ns last),
        SuffixAutomaton.Fin (SuffixAutomaton.nlen (SuffixAutomaton.node ns last)),
        SuffixAutomaton.Fin (SuffixAutomaton.nlen (SuffixAutomaton.node ns last)))
  /\ (forall q, oq = Some q ->
       payload (SuffixAutomaton.node ns' (len ns + 1))
       = (SuffixAutomaton.firstPos (SuffixAutomaton.node ns q),
          SuffixAutomaton.Fin (SuffixAutomaton.firstPos (SuffixAutomaton.node ns q)),
          SuffixAutomaton.Fin (SuffixAutomaton.firstPos (SuffixAutomaton.node ns q)))).

(** [w] occurs in [s] with its last scalar at index [e]. *)
Definition endsAt (w s : text) (e : Z) : Prop :=
  0 <= e < len s /\ w `suffix_of` take (Z.to_nat (e + 1)) s.

(** The occurrence data right after the construction, for the automaton of
    [s] with [n] states: every state other than the root has
    [minEnd = maxEnd = firstPos], an index where its longest word ends; and
    every prefix of [s] is the longest word of a state whose [firstPos] is
    the last index of the prefix. *)
Record Ends (n : Z) (pay : Z -> Z * SuffixAutomaton.xnum * SuffixAutomaton.xnum)
    (s : text) (L : Z -> text) : Prop := mkEnds {
  ends_init : forall v, 0 < v < n ->
    exists e, pay v = (e, SuffixAutomaton.Fin e, SuffixAutomaton.Fin e) /\ endsAt (L v) s e;
  ends_prefix : forall e, 0 <= e < len s ->
    exists u, 0 < u < n /\ L u = take (Z.to_nat (e + 1)) s /\ fst (fst (pay u)) = e
}.

(** The occurrence data after the propagation pass, for the automaton of
    [P]: [firstPos] is an index where the longest word of the state ends,
    every prefix of [P] has its state, and [minEnd] and [maxEnd] of a state
    are the least and the greatest [firstPos] among the states whose
    suffix-link path passes through it. *)
Record Flags (ns : list SuffixAutomaton.SAMNode) (P : text) (L : Z -> text) : Prop :=
  mkFlags {
  fl_ends : forall u, 0 < u < len ns ->
    endsAt (L u) P (SuffixAutomaton.firstPos (SuffixAutomaton.node ns u));
  fl_prefix : forall e, 0 <= e < len P ->
    exists u, 0 < u < len ns /\ L u = take (Z.to_nat (e + 1)) P
              /\ SuffixAutomaton.firstPos (SuffixAutomaton.node ns u) = e;
  fl_min : forall v, 0 < v < len ns ->
    exists u, 0 < u < len ns /\ anc (view ns) u v
              /\ SuffixAutomaton.minEnd (SuffixAutomaton.node ns v)
                 = SuffixAutomaton.Fin (SuffixAutomaton.firstPos (SuffixAutomaton.node ns u));
  fl_max : forall v, 0 < v < len ns ->
    exists u, 0 < u < len ns /\ anc (view ns) u v
              /\ SuffixAutomaton.maxEnd (SuffixAutomaton.node ns v)
                 = SuffixAutomaton.Fin (SuffixAutomaton.firstPos (SuffixAutomaton.node ns u));
  fl_bound : forall u v, 0 < v -> 0 < u < len ns -> anc (view ns) u v ->
    SuffixAutomaton.xle (SuffixAutomaton.minEnd (SuffixAutomaton.node ns v))
      (SuffixAutomaton.Fin (SuffixAutomaton.firstPos (SuffixAutomaton.node ns u)))
    /\ SuffixAutomaton.xle
         (SuffixAutomaton.Fin (SuffixAutomaton.firstPos (SuffixAutomaton.node ns u)))
         (SuffixAutomaton.maxEnd (SuffixAutomaton.node ns v))
}.
(** * Lemmas *)

Section ListFacts.
Context {A : Type}.

Lemma len_nonneg (l : list A) : 0 <= len l.
Proof. unfold len. lia. Qed.

Lemma len_app (l1 l2 : list A) : len (l1 ++ l2) = len l1 + len l2.
Proof. unfold len. rewrite length_app. lia. Qed.

Lemma get_Some (l : list A) (i : Z) (x : A) :
  get l i = Some x <-> 0 <= i /\ l !! Z.to_nat i = Some x.
Proof.
  unfold get. destruct (Z.ltb_spec i 0); split; intros H'; try easy; try lia.
Qed.

Lemma get_of_nat (l : list A) (k : nat) : get l (Z.of_nat k) = l !! k.
Proof.
  unfold get. destruct (Z.ltb_spec (Z.of_nat k) 0); [lia |].
  now rewrite Nat2Z.id.
Qed.

Lemma get_lt_len (l : list A) (i : Z) :
  0 <= i < len l -> exists x, get l i = Some x.
Proof.
  intros [H0 H1]. unfold get, len in *.
  destruct (Z.ltb_spec i 0); [lia |].
  destruct (lookup_lt_is_Some_2 l (Z.to_nat i)) as [x Hx]; [lia |].
  eauto.
Qed.

Lemma get_ge_len (l : list A) (i : Z) : len l <= i -> get l i = None.
Proof.
  intros H. unfold get, len in *.
  destruct (Z.ltb_spec i 0); [easy |].
  apply lookup_ge_None_2. lia.
Qed.
End ListFacts.

Lemma strictlyIncreasing_snoc (l : list Z) (x : Z) :
  strictlyIncreasing l -> (forall j a, l !! j = Some a -> a < x) ->
  strictlyIncreasing (l ++ [x]).
Proof.
  intros Hl Hx j k a b Hjk Ha Hb.
  destruct (decide (k < length l)%nat) as [Hk | Hk].
  - rewrite lookup_app_l in Ha by lia. rewrite lookup_app_l in Hb by lia. eauto.
  - assert (k = length l) as ->.
    { apply lookup_lt_Some in Hb. rewrite length_app in Hb. simpl in Hb. lia. }
    rewrite lookup_app_l in Ha by lia.
    rewrite lookup_app_r, Nat.sub_diag in Hb by lia. simpl in Hb.
    inversion Hb; subst. eauto.
Qed.

Lemma nonDecreasing_snoc (l : list Z) (x : Z) :
  nonDecreasing l -> (forall j a, l !! j = Some a -> a <= x) ->
  nonDecreasing (l ++ [x]).
Proof.
  intros Hl Hx j k a b Hjk Ha Hb.
  destruct (decide (k < length l)%nat) as [Hk | Hk].
  - rewrite lookup_app_l in Ha by lia. rewrite lookup_app_l in Hb by lia. eauto.
  - assert (k = length l) as ->.
    { apply lookup_lt_Some in Hb. rewrite length_app in Hb. simpl in Hb. lia. }
    rewrite lookup_app_r, Nat.sub_diag in Hb by lia. simpl in Hb.
    inversion Hb; subst.
    destruct (decide (j < length l)%nat) as [Hj | Hj].
    + rewrite lookup_app_l in Ha by lia. eauto.
    + assert (j = length l) as -> by lia.
      rewrite lookup_app_r, Nat.sub_diag in Ha by lia. simpl in Ha.
      inversion Ha; subst. lia.
Qed.

Lemma normalizeText_app (a b : text) :
  normalizeText (a ++ b) = normalizeText a ++ normalizeText b.
Proof. unfold normalizeText. apply filter_app. Qed.

Lemma take_S_snoc {A} (l : list A) (n : nat) (x : A) :
  l !! n = Some x -> take (S n) l = take n l ++ [x].
Proof. intros H. now apply take_S_r. Qed.

Lemma normalizeText_single (c : char) :
  normalizeText [c] = if isWhitespace c then [] else [c].
Proof.
  unfold normalizeText. rewrite filter_cons, filter_nil.
  destruct (isWhitespace c); reflexivity.
Qed.

Lemma FlatInv_init (raw : text) : FlatInv raw (mkFlatState 0 0 [] [] []).
Proof.
  constructor; simpl; try (unfold len; simpl; lia).
  - intros j k a b _ H. rewrite lookup_nil in H. discriminate.
  - intros j a H. rewrite lookup_nil in H. discriminate.
  - intros j k a b _ H. rewrite lookup_nil in H. discriminate.
  - intros j a H. rewrite lookup_nil in H. discriminate.
  - intros j a H. rewrite lookup_nil in H. discriminate.
  - reflexivity.
Qed.

Lemma FlatInv_step_ws (raw : text) (st : FlatState) (c : char) :
  FlatInv raw st -> get raw (fs_i st) = Some c -> isWhitespace c = true ->
  FlatInv raw
    (mkFlatState (fs_i st + 1) (fs_flatIndex st) (fs_flatChars st)
       (fs_flatRawToRaw st) (fs_rawToFlatRaw st ++ [fs_flatIndex st])).
Proof.
  intros [Hr Hl1 Hl2 Hl3 Hinc Hb1 Hmono Hb2 Hinv Hinv2 Hch] Hget Hws.
  apply get_Some in Hget as [Hi0 Hget].
  assert (Hlt : fs_i st < len raw).
  { apply lookup_lt_Some in Hget. unfold len. lia. }
  constructor; simpl; try lia.
  - rewrite len_app. unfold len at 2. simpl. lia.
  - exact Hinc.
  - intros j a H. apply Hb1 in H. lia.
  - apply nonDecreasing_snoc; [exact Hmono |].
    intros j a H. apply Hb2 in H. lia.
  - intros k a H.
    destruct (decide (k < length (fs_rawToFlatRaw st))%nat) as [Hk | Hk].
    + rewrite lookup_app_l in H by lia. apply Hb2 in H. lia.
    + apply lookup_lt_Some in H as Hk'. rewrite length_app in Hk'. simpl in Hk'.
      rewrite lookup_app_r in H by lia.
      replace (k - length (fs_rawToFlatRaw st))%nat with 0%nat in H by lia.
      simpl in H. inversion H; subst.
      pose proof (len_nonneg (fs_flatRawToRaw st)). lia.
  - intros k d Hk Hki Hd.
    assert (Z.of_nat k <> fs_i st).
    { intros E. rewrite <- E, Nat2Z.id in Hget. congruence. }
    destruct (Hinv k d Hk ltac:(lia) Hd) as (j & H1 & H2 & H3).
    exists j. split; [| easy].
    rewrite lookup_app_l; [easy |]. apply lookup_lt_Some in H1. lia.
  - intros j a H. destruct (Hinv2 j a H) as [H1 H2]. split; [| easy].
    rewrite lookup_app_l; [easy |]. apply lookup_lt_Some in H1. lia.
  - replace (Z.to_nat (fs_i st + 1)) with (S (Z.to_nat (fs_i st))) by lia.
    rewrite (take_S_snoc _ _ _ Hget), normalizeText_app, <- Hch.
    rewrite normalizeText_single, Hws, app_nil_r. reflexivity.
Qed.

Lemma FlatInv_step_nonws (raw : text) (st : FlatState) (c : char) :
  FlatInv raw st -> get raw (fs_i st) = Some c -> isWhitespace c = false ->
  FlatInv raw
    (mkFlatState (fs_i st + 1) (fs_flatIndex st + 1) (fs_flatChars st ++ [c])
       (fs_flatRawToRaw st ++ [fs_i st]) (fs_rawToFlatRaw st ++ [fs_flatIndex st])).
Proof.
  intros [Hr Hl1 Hl2 Hl3 Hinc Hb1 Hmono Hb2 Hinv Hinv2 Hch] Hget Hws.
  apply get_Some in Hget as [Hi0 Hget].
  assert (Hlt : fs_i st < len raw).
  { apply lookup_lt_Some in Hget. unfold len. lia. }
  assert (Hf0 : 0 <= fs_flatIndex st).
  { pose proof (len_nonneg (fs_flatRawToRaw st)). lia. }
  constructor; simpl; try lia.
  - rewrite len_app. unfold len at 2. simpl. lia.
  - rewrite len_app. unfold len at 2. simpl. lia.
  - rewrite len_app. unfold len at 2. simpl. lia.
  - apply strictlyIncreasing_snoc; [exact Hinc |].
    intros j a H. apply Hb1 in H. lia.
  - intros j a H.
    destruct (decide (j < length (fs_flatRawToRaw st))%nat) as [Hk | Hk].
    + rewrite lookup_app_l in H by lia. apply Hb1 in H. lia.
    + apply lookup_lt_Some in H as Hk'. rewrite length_app in Hk'. simpl in Hk'.
      rewrite lookup_app_r in H by lia.
      replace (j - length (fs_flatRawToRaw st))%nat with 0%nat in H by lia.
      simpl in H. inversion H; subst. lia.
  - apply nonDecreasing_snoc; [exact Hmono |].
    intros j a H. apply Hb2 in H. lia.
  - intros k a H.
    destruct (decide (k < length (fs_rawToFlatRaw st))%nat) as [Hk | Hk].
    + rewrite lookup_app_l in H by lia. apply Hb2 in H. lia.
    + apply lookup_lt_Some in H as Hk'. rewrite length_app in Hk'. simpl in Hk'.
      rewrite lookup_app_r in H by lia.
      replace (k - length (fs_rawToFlatRaw st))%nat with 0%nat in H by lia.
      simpl in H. inversion H; subst. lia.
  - intros k d Hk Hki Hd.
    destruct (decide (Z.of_nat k = fs_i st)) as [E | E].
    + exists (Z.to_nat (fs_flatIndex st)).
      assert (d = c) as ->.
      { rewrite <- E, Nat2Z.id in Hget. congruence. }
      assert (k = length (fs_rawToFlatRaw st)) as Hk1 by (unfold len in *; lia).
      assert (Z.to_nat (fs_flatIndex st) = length (fs_flatRawToRaw st)) as Hk2
        by (unfold len in *; lia).
      assert (Z.to_nat (fs_flatIndex st) = length (fs_flatChars st)) as Hk3
        by (unfold len in *; lia).
      repeat split.
      * rewrite Hk1 at 1. rewrite lookup_app_r, Nat.sub_diag by lia. simpl.
        f_equal. lia.
      * rewrite Hk2. rewrite lookup_app_r, Nat.sub_diag by lia. simpl.
        f_equal. lia.
      * rewrite Hk3. rewrite lookup_app_r, Nat.sub_diag by lia. reflexivity.
    + destruct (Hinv k d Hk ltac:(lia) Hd) as (j & H1 & H2 & H3).
      exists j. repeat split.
      * rewrite lookup_app_l; [easy |]. apply lookup_lt_Some in H1. lia.
      * rewrite lookup_app_l; [easy |]. apply lookup_lt_Some in H2. lia.
      * rewrite lookup_app_l; [easy |]. apply lookup_lt_Some in H3. lia.
  - intros j a H.
    destruct (decide (j < length (fs_flatRawToRaw st))%nat) as [Hk | Hk].
    + rewrite lookup_app_l in H by lia. destruct (Hinv2 j a H) as [H1 H2].
      split; [| easy].
      rewrite lookup_app_l; [easy |]. apply lookup_lt_Some in H1. lia.
    + apply lookup_lt_Some in H as Hk'. rewrite length_app in Hk'. simpl in Hk'.
      rewrite lookup_app_r in H by lia.
      replace (j - length (fs_flatRawToRaw st))%nat with 0%nat in H by lia.
      simpl in H. inversion H; subst. split; [| eauto].
      replace (Z.to_nat (fs_i st)) with (length (fs_rawToFlatRaw st))
        by (unfold len in *; lia).
      rewrite lookup_app_r, Nat.sub_diag by lia. simpl. f_equal.
      unfold len in *. lia.
  - replace (Z.to_nat (fs_i st + 1)) with (S (Z.to_nat (fs_i st))) by lia.
    rewrite (take_S_snoc _ _ _ Hget), normalizeText_app, <- Hch.
    rewrite normalizeText_single, Hws. reflexivity.
Qed.

Lemma skipWhitespaceRun_inv (raw : text) (fuel : nat) (st : FlatState) :
  FlatInv raw st ->
  FlatInv raw (skipWhitespaceRun fuel raw st)
  /\ fs_i st <= fs_i (skipWhitespaceRun fuel raw st).
Proof.
  revert st. induction fuel as [| fuel IH]; intros st Hinv; simpl.
  - split; [easy | lia].
  - destruct (fs_i st <? len raw) eqn:Hlt; simpl; [| split; [easy | lia]].
    destruct (get raw (fs_i st)) as [c |] eqn:Hget; simpl; [| split; [easy | lia]].
    destruct (isWhitespace c) eqn:Hws; [| split; [easy | lia]].
    destruct (IH _ (FlatInv_step_ws raw st c Hinv Hget Hws)) as [H1 H2].
    simpl in H2. split; [easy | lia].
Qed.

Lemma skipWhitespaceRun_progress (raw : text) (fuel : nat) (st : FlatState) (c : char) :
  FlatInv raw st -> get raw (fs_i st) = Some c -> isWhitespace c = true ->
  fs_i st < fs_i (skipWhitespaceRun (S fuel) raw st).
Proof.
  intros Hinv Hget Hws. simpl.
  assert (Hlt : (fs_i st <? len raw) = true).
  { apply get_Some in Hget as [? Hget]. apply lookup_lt_Some in Hget.
    apply Z.ltb_lt. unfold len. lia. }
  rewrite Hlt, Hget. simpl. rewrite Hws.
  destruct (skipWhitespaceRun_inv raw fuel _ (FlatInv_step_ws raw st c Hinv Hget Hws))
    as [_ H].
  simpl in H. lia.
Qed.

Lemma buildFlatLoop_inv (raw : text) (fuel : nat) (st : FlatState) :
  FlatInv raw st ->
  FlatInv raw (buildFlatLoop fuel raw st)
  /\ (len raw - fs_i st <= Z.of_nat fuel ->
      fs_i (buildFlatLoop fuel raw st) = len raw).
Proof.
  revert st. induction fuel as [| fuel IH]; intros st Hinv.
  - simpl. split; [easy |]. destruct Hinv. lia.
  - cbn [buildFlatLoop].
    destruct (Z.ltb_spec (fs_i st) (len raw)) as [Hlt | Hge].
    + destruct (get_lt_len raw (fs_i st)) as [c Hget]; [destruct Hinv; lia |].
      rewrite Hget.
      destruct (isWhitespace c) eqn:Hws.
      * destruct raw as [| r0 raw'] eqn:Eraw; [unfold len in Hlt; simpl in Hlt; destruct Hinv; simpl in *; lia |].
        rewrite <- Eraw in *.
        assert (length raw = S (length raw')) as -> by (subst; reflexivity).
        pose proof (skipWhitespaceRun_progress raw (length raw') st c Hinv Hget Hws) as Hp.
        destruct (skipWhitespaceRun_inv raw (S (length raw')) st Hinv) as [Hinv' _].
        destruct (IH _ Hinv') as [H1 H2].
        split; [easy |]. intros Hf. apply H2. lia.
      * destruct (IH _ (FlatInv_step_nonws raw st c Hinv Hget Hws)) as [H1 H2].
        split; [easy |]. intros Hf. apply H2. simpl. lia.
    + split; [easy |]. intros _. destruct Hinv. lia.
Qed.

Lemma buildFlat_inv (raw : text) :
  let st := buildFlatLoop (length raw) raw (mkFlatState 0 0 [] [] []) in
  FlatInv raw st /\ fs_i st = len raw.
Proof.
  intros st.
  destruct (buildFlatLoop_inv raw (length raw) _ (FlatInv_init raw)) as [H1 H2].
  split; [easy |]. apply H2. simpl. unfold len. lia.
Qed.

Lemma buildFlat_lengths (raw : text) :
  let h := buildFlatRawTextHelpers raw in
  len (rawToFlatRaw h) = len raw
  /\ len (flatRawToRaw h) = len (flatRawText h)
  /\ flatRawText h = normalizeText raw.
Proof.
  destruct (buildFlat_inv raw) as [[] Hi]. simpl in *.
  repeat split; try lia.
  rewrite fi_chars0, Hi. unfold len. rewrite Nat2Z.id, firstn_all. reflexivity.
Qed.

(** C4. For every raw scalar vector, the flat-view builder returns maps such
    that F->R is strictly increasing, R->F is non-decreasing (and defined on
    every raw index), F->R[R->F[i]] = i for every non-whitespace raw index i,
    and conversely R->F[F->R[j]] = j for every flat index j, whose image
    F->R[j] is a non-whitespace raw index. *)
Theorem flat_maps_monotone_and_inverse (raw : text) :
  let h := buildFlatRawTextHelpers raw in
  strictlyIncreasing (flatRawToRaw h)
  /\ nonDecreasing (rawToFlatRaw h)
  /\ len (rawToFlatRaw h) = len raw
  /\ (forall (i : Z) (c : char),
        get raw i = Some c -> isWhitespace c = false ->
        get (flatRawToRaw h) (getZ (rawToFlatRaw h) i) = Some i)
  /\ (forall (j i : Z),
        get (flatRawToRaw h) j = Some i ->
        get (rawToFlatRaw h) i = Some j
        /\ exists c, get raw i = Some c /\ isWhitespace c = false).
Proof.
  destruct (buildFlat_inv raw) as [Hinv Hi]. destruct Hinv. simpl in *.
  repeat split; try easy; try lia.
  - intros i c Hget Hws. apply get_Some in Hget as [Hi0 Hget].
    destruct (fi_inverse0 (Z.to_nat i) c Hget) as (j & H1 & H2 & _); [| easy |].
    { apply lookup_lt_Some in Hget. unfold len in *. lia. }
    unfold getZ. rewrite (proj2 (get_Some _ i (Z.of_nat j))) by easy.
    simpl. rewrite get_of_nat, H2. f_equal. lia.
  - destruct (fi_inverse3 (Z.to_nat j) i) as [H1 _].
    { apply get_Some in H. easy. }
    apply get_Some in H as [Hj H]. apply get_Some. split.
    + apply fi_f2r_bound0 in H. lia.
    + rewrite H1. f_equal. lia.
  - apply get_Some in H as [Hj H].
    destruct (fi_inverse3 (Z.to_nat j) i H) as [_ (c & H2 & H3)].
    exists c. split; [| easy]. apply get_Some. split; [| easy].
    apply fi_f2r_bound0 in H. lia.
Qed.

(** ** The exact phase *)

Lemma startsWith_take (s p : text) :
  startsWith s p = true <-> take (length p) s = p.
Proof.
  revert s. induction p as [| a p IH]; intros s; simpl.
  - destruct s; split; reflexivity.
  - destruct s as [| b s]; simpl; [split; easy |].
    rewrite andb_true_iff, N.eqb_eq, IH. split.
    + intros [-> ->]. reflexivity.
    + intros H. inversion H; subst. rewrite H2. easy.
Qed.

Lemma slice_drop_take (T : text) (i m : Z) :
  0 <= m -> slice T i (i + m) = take (Z.to_nat m) (drop (Z.to_nat i) T).
Proof. intros Hm. unfold slice. do 2 f_equal. lia. Qed.

Lemma occurs_startsWith (T P : text) (i : Z) :
  bool_decide (slice T i (i + len P) = P) = startsWith (drop (Z.to_nat i) T) P.
Proof.
  rewrite slice_drop_take by apply len_nonneg. unfold len. rewrite Nat2Z.id.
  destruct (startsWith (drop (Z.to_nat i) T) P) eqn:E.
  - apply bool_decide_eq_true. now apply startsWith_take.
  - apply bool_decide_eq_false. intros H. apply startsWith_take in H. congruence.
Qed.

Lemma occurrencesFrom_filter (T P : text) (n : nat) (from : Z) :
  0 <= from -> Z.of_nat n = len T - from ->
  occurrencesFrom (drop (Z.to_nat from) T) P from
  = List.filter (fun i => bool_decide (slice T i (i + len P) = P)) (seqZ from (Z.of_nat n)).
Proof.
  revert from. induction n as [| n IH]; intros from H0 Hn.
  - rewrite drop_ge by (unfold len in *; lia). reflexivity.
  - destruct (drop (Z.to_nat from) T) as [| x s'] eqn:Ed.
    { apply (f_equal length) in Ed. rewrite length_drop in Ed. simpl in Ed.
      unfold len in *. lia. }
    assert (Es : s' = drop (Z.to_nat (from + 1)) T).
    { replace (Z.to_nat (from + 1)) with (Z.to_nat from + 1)%nat by lia.
      rewrite <- drop_drop, Ed. reflexivity. }
    replace (Z.of_nat (S n)) with (Z.succ (Z.of_nat n)) by lia.
    rewrite seqZ_cons by lia. simpl List.filter.
    rewrite occurs_startsWith, Ed. cbn [occurrencesFrom].
    replace (Z.pred (Z.succ (Z.of_nat n))) with (Z.of_nat n) by lia.
    rewrite Es, (IH (from + 1)) by lia.
    replace (Z.succ from) with (from + 1) by lia.
    destruct (startsWith _ P); reflexivity.
Qed.

Lemma occurrences_from_zero (T P : text) :
  occurrences T P = occurrencesFrom T P 0.
Proof.
  unfold occurrences. change (seqZ 0 (len T)) with (seqZ 0 (Z.of_nat (length T))).
  rewrite <- (occurrencesFrom_filter T P (length T) 0) by (unfold len; lia).
  reflexivity.
Qed.

Lemma occurrencesFrom_lower (s P : text) (pos k : Z) :
  In k (occurrencesFrom s P pos) -> pos <= k < pos + len s.
Proof.
  revert pos. induction s as [| x s IH]; intros pos; cbn [occurrencesFrom]; [intros [] |].
  rewrite in_app_iff. unfold len. simpl length. intros [H | H].
  - destruct (startsWith (x :: s) P); simpl in H; [| easy].
    destruct H as [<- | []]. lia.
  - apply IH in H. unfold len in H. lia.
Qed.

Lemma indexOfAux_occurrencesFrom (s P : text) (pos : Z) :
  P <> [] ->
  indexOfAux s P pos = match occurrencesFrom s P pos with [] => -1 | k :: _ => k end.
Proof.
  intros HP. revert pos. induction s as [| x s IH]; intros pos.
  - simpl. destruct P; [congruence | reflexivity].
  - cbn [indexOfAux occurrencesFrom].
    destruct (startsWith (x :: s) P); [reflexivity |]. simpl. apply IH.
Qed.

Lemma occurrencesFrom_rest (s P : text) (pos k : Z) (rest : list Z) :
  occurrencesFrom s P pos = k :: rest ->
  occurrencesFrom (drop (Z.to_nat (k + 1 - pos)) s) P (k + 1) = rest.
Proof.
  revert pos. induction s as [| x s IH]; intros pos; [easy |].
  cbn [occurrencesFrom]. destruct (startsWith (x :: s) P).
  - simpl. intros H. inversion H; subst.
    replace (Z.to_nat (k + 1 - k)) with 1%nat by lia. reflexivity.
  - simpl. intros H.
    assert (pos + 1 <= k).
    { pose proof (occurrencesFrom_lower s P (pos + 1) k) as Hl.
      rewrite H in Hl. specialize (Hl (or_introl eq_refl)). lia. }
    replace (Z.to_nat (k + 1 - pos)) with (S (Z.to_nat (k + 1 - (pos + 1)))) by lia.
    simpl. now apply IH.
Qed.

Lemma drop_drop_Z {A} (l : list A) (a b : Z) :
  0 <= a -> 0 <= b -> drop (Z.to_nat b) (drop (Z.to_nat a) l) = drop (Z.to_nat (a + b)) l.
Proof.
  intros Ha Hb. rewrite drop_drop. f_equal. lia.
Qed.

(** The flat starts of the exact loop are the first [remaining] occurrences
    from [searchStart] on. *)
Lemma exactLoop_flatStarts (remaining : nat) (T P : text) (f2r : list Z)
    (rawLen searchStart : Z) :
  P <> [] -> 0 <= searchStart <= len T ->
  map flatStart (exactLoop remaining T P f2r rawLen searchStart)
  = take remaining (occurrencesFrom (drop (Z.to_nat searchStart) T) P searchStart).
Proof.
  intros HP. revert searchStart.
  induction remaining as [| n IH]; intros start Hs; [now rewrite take_0 |].
  cbn [exactLoop].
  destruct (Z.ltb_spec start (len T)) as [Hlt | Hge].
  - unfold indexOf. destruct (Z.ltb_spec (len T) start) as [? | _]; [lia |].
    rewrite indexOfAux_occurrencesFrom by easy.
    destruct (occurrencesFrom (drop (Z.to_nat start) T) P start) as [| k rest] eqn:Eo.
    + reflexivity.
    + pose proof (occurrencesFrom_lower (drop (Z.to_nat start) T) P start k) as Hk.
      rewrite Eo in Hk. specialize (Hk (or_introl eq_refl)).
      unfold len in Hk. rewrite length_drop in Hk.
      destruct (Z.eqb_spec k (-1)) as [? | _]; [lia |].
      cbn [map flatStart take]. f_equal.
      rewrite IH by (unfold len in *; lia).
      apply occurrencesFrom_rest in Eo. rewrite drop_drop_Z in Eo by lia.
      replace (start + (k + 1 - start)) with (k + 1) in Eo by lia.
      now rewrite Eo.
  - rewrite drop_ge by (unfold len in *; lia). reflexivity.
Qed.

(** Every span of the exact loop covers exactly one occurrence and carries
    the raw span reconstructed from it. *)
Lemma exactLoop_spans (remaining : nat) (T P : text) (f2r : list Z)
    (rawLen searchStart : Z) (sp : MatchSpan) :
  In sp (exactLoop remaining T P f2r rawLen searchStart) ->
  flatEndExclusive sp = flatStart sp + len P
  /\ (rawStart sp, rawEndExclusive sp)
     = reconstructRawSpan (flatStart sp) (flatEndExclusive sp) f2r rawLen.
Proof.
  revert searchStart. induction remaining as [| n IH]; intros start; [easy |].
  cbn [exactLoop].
  destruct (start <? len T); [| easy].
  destruct (indexOf T P start =? -1); [easy |].
  intros [<- | H]; [| now apply IH in H].
  cbn [flatStart flatEndExclusive rawStart rawEndExclusive].
  split; [reflexivity | symmetry; apply surjective_pairing].
Qed.

Lemma occurrencesFrom_increasing (s P : text) (pos : Z) :
  strictlyIncreasing (occurrencesFrom s P pos).
Proof.
  revert pos. induction s as [| x s IH]; intros pos.
  - intros j k a b _ H. cbn [occurrencesFrom] in H. now rewrite lookup_nil in H.
  - cbn [occurrencesFrom].
    assert (Hrest : forall k b, occurrencesFrom s P (pos + 1) !! k = Some b -> pos < b).
    { intros k b H. apply list_elem_of_lookup_2, list_elem_of_In in H.
      apply occurrencesFrom_lower in H. lia. }
    destruct (startsWith (x :: s) P); simpl; [| apply IH].
    intros j k a b Hjk Ha Hb. destruct k as [| k]; [lia |]. simpl in Hb.
    destruct j as [| j]; simpl in Ha.
    + inversion Ha; subst. eauto.
    + eapply (IH (pos + 1) j k); [lia | easy | easy].
Qed.

Lemma strictlyIncreasing_take (l : list Z) (n : nat) :
  strictlyIncreasing l -> strictlyIncreasing (take n l).
Proof.
  intros H j k a b Hjk Ha Hb.
  apply lookup_take_Some in Ha as [Ha _]. apply lookup_take_Some in Hb as [Hb _].
  eauto.
Qed.

Lemma strictlyIncreasing_sortedByKey {A} (key : A -> Z) (l : list A) :
  strictlyIncreasing (map key l) -> sortedByKey key l.
Proof.
  unfold sortedByKey. induction l as [| x l IH]; intros H; [constructor |].
  constructor.
  - apply IH. intros j k a b Hjk Ha Hb. apply (H (S j) (S k)); [lia | easy | easy].
  - destruct l as [| y l]; constructor.
    specialize (H 0%nat 1%nat (key x) (key y)). simpl in H.
    specialize (H ltac:(lia) eq_refl eq_refl). lia.
Qed.

(** A stable sort leaves a sorted array as it is. *)
Lemma sortByKey_sorted {A} (key : A -> Z) (l : list A) :
  sortedByKey key l -> sortByKey key l = l.
Proof.
  unfold sortedByKey, sortByKey. induction 1 as [| x l Hs IH Hhd]; [easy |].
  simpl. rewrite IH. destruct Hhd as [| y l' Hxy]; [easy |].
  simpl. destruct (Z.leb_spec (key x) (key y)); [easy | lia].
Qed.

Lemma take_eq_nil_iff {A} (n : nat) (l : list A) :
  (0 < n)%nat -> (take n l = [] <-> l = []).
Proof.
  intros Hn. destruct l as [| x l]; [now rewrite take_nil |].
  destruct n; [lia |]. simpl. split; discriminate.
Qed.

(** The exact phase against the specification [occurrences], for any flat
    text and any non-empty pattern. *)
Lemma findMatchSpans_exact (T P raw : text) (f2r r2f : list Z) :
  P <> [] ->
  let r := findMatchSpans T P raw f2r r2f in
  let occ := occurrences T P in
  isExactMatch r = bool_decide (occ <> [])
  /\ (isExactMatch r = true ->
      map flatStart (spans r) = take 3 occ
      /\ strictlyIncreasing (map flatStart (spans r))
      /\ Forall
           (fun sp =>
              slice T (flatStart sp) (flatEndExclusive sp) = P
              /\ flatEndExclusive sp = flatStart sp + len P
              /\ (rawStart sp, rawEndExclusive sp)
                 = reconstructRawSpan (flatStart sp) (flatEndExclusive sp) f2r (len raw))
           (spans r)).
Proof.
  intros HP r occ. subst r. unfold findMatchSpans, findMatchSpansMax.
  destruct (Z.eqb_spec (len T) 0) as [HT | HT].
  { split; [| discriminate]. subst occ. unfold occurrences. rewrite HT. reflexivity. }
  destruct (Z.eqb_spec (len P) 0) as [HP0 | _].
  { destruct P; [congruence | discriminate]. }
  pose proof (exactLoop_flatStarts 3 T P f2r (len raw) 0 HP) as Hst.
  specialize (Hst ltac:(pose proof (len_nonneg T); lia)).
  change (drop (Z.to_nat 0) T) with T in Hst.
  rewrite <- occurrences_from_zero in Hst. fold occ in Hst.
  set (em := exactLoop 3 T P f2r (len raw) 0) in *.
  assert (Hinc : strictlyIncreasing (map flatStart em)).
  { rewrite Hst. apply strictlyIncreasing_take. subst occ.
    rewrite occurrences_from_zero. apply occurrencesFrom_increasing. }
  assert (Hsort : sortByKey flatStart em = em).
  { apply sortByKey_sorted, strictlyIncreasing_sortedByKey, Hinc. }
  destruct (Z.ltb_spec 0 (len em)) as [Hne | He]; cbn [isExactMatch spans].
  - assert (occ <> []).
    { intros E. rewrite E, take_nil in Hst. destruct em; [unfold len in Hne; simpl in Hne; lia | discriminate]. }
    split; [symmetry; now apply bool_decide_eq_true |].
    intros _. rewrite Hsort. repeat split; try easy.
    apply Forall_forall. intros sp Hsp. apply list_elem_of_In in Hsp.
    destruct (exactLoop_spans 3 T P f2r (len raw) 0 sp Hsp) as [He1 He2].
    repeat split; try easy.
    assert (Hin : In (flatStart sp) occ).
    { apply (in_map flatStart) in Hsp. rewrite Hst in Hsp.
      apply list_elem_of_In, elem_of_take in Hsp as (i & Hi & _).
      apply list_elem_of_In. eapply list_elem_of_lookup_2. apply Hi. }
    subst occ. unfold occurrences in Hin. apply filter_In in Hin as [_ Hin].
    apply bool_decide_eq_true in Hin. now rewrite He1.
  - split; [| discriminate]. symmetry. apply bool_decide_eq_false. intros Hocc. apply Hocc.
    assert (em = []) as Eem by (destruct em; [easy | unfold len in He; simpl in He; lia]).
    rewrite Eem in Hst. simpl in Hst. symmetry in Hst.
    now apply take_eq_nil_iff in Hst; [| lia].
Qed.



(** ** Writes happen last *)

Create HintDb op_safe.

Lemma readOnly_ret {A} (a : A) : readOnly (ret a).
Proof. intros fs. reflexivity. Qed.

Lemma readOnly_throw {A} : readOnly (@throw A).
Proof. intros fs. reflexivity. Qed.

Lemma readOnly_required {A} (x : option A) : readOnly (required x).
Proof. destruct x; intros fs; reflexivity. Qed.

Lemma readOnly_orThrow {A} (x : option A) : readOnly (orThrow x).
Proof. destruct x; intros fs; reflexivity. Qed.

Lemma readOnly_existsSync (p : string) : readOnly (existsSync p).
Proof. intros fs. reflexivity. Qed.

Lemma readOnly_accessOk (p : string) : readOnly (accessOk p).
Proof. intros fs. reflexivity. Qed.

Lemma readOnly_isBinaryFile (p : string) : readOnly (isBinaryFile p).
Proof. intros fs. reflexivity. Qed.

Lemma readOnly_readFile (p : string) : readOnly (readFile p).
Proof.
  intros fs. unfold readFile. destruct (fs !! p) as [f |]; [| reflexivity].
  destruct (f_readFails f); reflexivity.
Qed.

Lemma readOnly_bind {A B} (m : Op A) (k : A -> Op B) :
  readOnly m -> (forall a, readOnly (k a)) -> readOnly (bind m k).
Proof.
  intros Hm Hk fs. unfold bind. specialize (Hm fs).
  destruct (m fs) as [fs' [a |]]; simpl in *; subst; [apply Hk | reflexivity].
Qed.

#[global] Hint Resolve readOnly_ret readOnly_throw readOnly_required readOnly_orThrow
  readOnly_existsSync readOnly_accessOk readOnly_isBinaryFile readOnly_readFile : op_safe.

Lemma readOnly_validate (p : string) (b : bool) : readOnly (validateTextFileToEdit p b).
Proof.
  unfold validateTextFileToEdit.
  apply readOnly_bind; [auto with op_safe |]. intros ex.
  destruct (negb ex); [auto with op_safe |].
  apply readOnly_bind; [auto with op_safe |]. intros ok.
  destruct (negb ok); [auto with op_safe |].
  destruct b; [| auto with op_safe].
  apply readOnly_bind; [auto with op_safe |]. intros bin.
  destruct bin; auto with op_safe.
Qed.

#[global] Hint Resolve readOnly_validate : op_safe.

Lemma safe_ret (r : OpResult) : writesOnlyOnSuccess (ret r).
Proof. intros fs. left. reflexivity. Qed.

Lemma safe_throw : writesOnlyOnSuccess throw.
Proof. intros fs. left. reflexivity. Qed.

Lemma safe_bind {A} (m : Op A) (k : A -> Op OpResult) :
  readOnly m -> (forall a, writesOnlyOnSuccess (k a)) -> writesOnlyOnSuccess (bind m k).
Proof.
  intros Hm Hk fs. unfold bind. specialize (Hm fs).
  destruct (m fs) as [fs' [a |]]; simpl in *; subst; [apply Hk | now left].
Qed.

Lemma safe_write_then_success (p : string) (content : text) (r : OpResult) :
  success r = true -> writesOnlyOnSuccess (run writeFile p content in ret r).
Proof. intros Hr fs. right. exists r. split; [reflexivity | exact Hr]. Qed.

Lemma safe_tryCatch (m : Op OpResult) (handler : OpResult) :
  writesOnlyOnSuccess m -> writesOnlyOnSuccess (tryCatch m handler).
Proof.
  intros Hm fs. unfold tryCatch. specialize (Hm fs).
  destruct (m fs) as [fs' [r |]]; simpl in *; [exact Hm |].
  destruct Hm as [-> | (r & Hr & _)]; [now left | discriminate].
Qed.

#[global] Hint Resolve safe_ret safe_throw safe_write_then_success : op_safe.

(** Peels one monadic step off a goal of the form [writesOnlyOnSuccess _]. *)
Ltac safe_step :=
  match goal with
  | |- writesOnlyOnSuccess (tryCatch _ _) => apply safe_tryCatch
  | |- writesOnlyOnSuccess (bind (writeFile _ _) _) =>
      apply safe_write_then_success; reflexivity
  | |- writesOnlyOnSuccess (bind _ _) => apply safe_bind; [auto with op_safe | intros ?]
  | |- writesOnlyOnSuccess (match ?x with _ => _ end) => destruct x
  | |- writesOnlyOnSuccess (if ?x then _ else _) => destruct x
  | |- writesOnlyOnSuccess _ => solve [auto with op_safe]
  end.

Lemma safe_searchTextAndReplace (p : string) (s r : text) (allMatches validate : bool) :
  writesOnlyOnSuccess (searchTextAndReplace p s r allMatches validate).
Proof. unfold searchTextAndReplace. repeat safe_step. Qed.

Lemma safe_replace (params : ReplaceMatchingTextParams) :
  writesOnlyOnSuccess (replaceMatchingTextImpl params).
Proof.
  unfold replaceMatchingTextImpl. do 4 safe_step. apply safe_searchTextAndReplace.
Qed.

Lemma safe_delete (params : DeleteMatchingTextParams) :
  writesOnlyOnSuccess (deleteMatchingTextImpl params).
Proof.
  unfold deleteMatchingTextImpl. do 3 safe_step. apply safe_searchTextAndReplace.
Qed.

Lemma safe_insert (params : InsertTextParams) :
  writesOnlyOnSuccess (insertTextImpl params).
Proof. unfold insertTextImpl. repeat safe_step. Qed.

Lemma safe_move (params : MoveTextParams) :
  writesOnlyOnSuccess (moveTextImpl params).
Proof. unfold moveTextImpl. repeat safe_step. Qed.

Lemma tryCatch_returns {A} (m : Op A) (handler : A) (fs : FileSystem) :
  exists a, snd (tryCatch m handler fs) = Some a.
Proof. unfold tryCatch. destruct (m fs) as [fs' [a |]]; eauto. Qed.

Lemma dispatch_returns (req : Request) (fs : FileSystem) :
  exists res, snd (dispatch req fs) = Some res.
Proof. destruct req; apply tryCatch_returns. Qed.


(** ** Requests on a well-formed text file *)

Lemma validate_editable (fs : FileSystem) (path : string) (f : File) :
  editableFile fs path f ->
  validateTextFileToEdit path true fs = (fs, Some None)
  /\ readFile path fs = (fs, Some (f_content f)).
Proof.
  intros (Hf & Ha & Hb & Hr).
  unfold validateTextFileToEdit, readFile, bind, existsSync, accessOk, isBinaryFile, ret.
  repeat (rewrite ?Hf, ?Ha, ?Hb, ?Hr; simpl). easy.
Qed.

Lemma searchTextAndReplace_editable (fs : FileSystem) (path : string) (f : File)
    (search replacement : text) (allMatches validate : bool) :
  editableFile fs path f ->
  (validate && bool_decide (search = replacement)) = false ->
  let h := buildFlatRawTextHelpers (f_content f) in
  let r := find h search in
  searchTextAndReplace path search replacement allMatches validate fs
  = if negb (isExactMatch r) || (len (spans r) =? 0) then
      (fs, Some (issues h (spans r) noMatchFound searchText))
    else if negb allMatches && (1 <? len (spans r)) then
      (fs, Some (issues h (spans r) multipleMatches searchText))
    else
      (written fs path f (spliceAll (f_content f) (spans r) replacement),
       Some (mkOpResult true
               (successReplaced (negb (0 <? len replacement)) (len (spans r))) None)).
Proof.
  intros Hed Hid h r. destruct (validate_editable fs path f Hed) as [Hv Hr].
  unfold searchTextAndReplace, bind. rewrite Hv, Hid, Hr. fold h. fold (find h search).
  fold r. unfold issues.
  destruct (negb (isExactMatch r) || (len (spans r) =? 0)); [reflexivity |].
  destruct (negb allMatches && (1 <? len (spans r))); [reflexivity |].
  unfold writeFile, written. destruct Hed as [-> _]. reflexivity.
Qed.

Lemma insertTextImpl_editable (fs : FileSystem) (path : string) (f : File)
    (params : InsertTextParams) (textToBeInserted anchor : text) (position : Position) :
  editableFile fs path f ->
  ip_filePath params = Some path ->
  ip_textToBeInserted params = Some textToBeInserted ->
  ip_anchorText params = Some anchor ->
  ip_positionRelativeToAnchorText params = Some position ->
  let h := buildFlatRawTextHelpers (f_content f) in
  insertTextImpl params fs
  = match resolveAnchorInBlock h insertEndFilter (ip_anchorBlockStartMarker params)
            (ip_anchorBlockEndMarker params) anchor with
    | None => (fs, Some (failure unexpectedError))
    | Some (inl res) => (fs, Some res)
    | Some (inr span) =>
        (written fs path f
           (insertAt h (f_content f) textToBeInserted position (ip_addNewLine params) span),
         Some (mkOpResult true (successInserted position) None))
    end.
Proof.
  intros Hed H1 H2 H3 H4 h. destruct (validate_editable fs path f Hed) as [Hv Hr].
  unfold insertTextImpl, tryCatch, bind. rewrite H1, H2, H3, H4. simpl.
  rewrite Hv, Hr. fold h.
  destruct (resolveAnchorInBlock h insertEndFilter _ _ anchor) as [[res | span] |];
    simpl; try reflexivity.
  unfold writeFile, written. destruct Hed as [-> _]. reflexivity.
Qed.

Lemma moveTextImpl_editable (fs : FileSystem) (path : string) (f : File)
    (params : MoveTextParams) (textToMoveP anchor : text) (position : Position) :
  editableFile fs path f ->
  mp_filePath params = Some path ->
  mp_textToBeMoved params = Some textToMoveP ->
  mp_anchorText params = Some anchor ->
  mp_positionRelativeToAnchorText params = Some position ->
  let h := buildFlatRawTextHelpers (f_content f) in
  moveTextImpl params fs
  = match resolveMoveSpan h textToMoveP with
    | None => (fs, Some (failure unexpectedError))
    | Some (inl res) => (fs, Some res)
    | Some (inr moveSpan) =>
        match resolveAnchorInBlock h moveEndFilter (mp_anchorBlockStartMarker params)
                (mp_anchorBlockEndMarker params) anchor with
        | None => (fs, Some (failure unexpectedError))
        | Some (inl res) => (fs, Some res)
        | Some (inr anchorSpan) =>
            let pl := planMove (rawTextChars h) position moveSpan anchorSpan in
            if insertionInsideDeletion pl
            then (fs, Some (mkOpResult false overlapError None))
            else
              (written fs path f
                 (applyMove (rawTextChars h) (detectLineEnding (f_content f)) position pl),
               Some (mkOpResult true (successMoved position) None))
        end
    end.
Proof.
  intros Hed H1 H2 H3 H4 h. destruct (validate_editable fs path f Hed) as [Hv Hr].
  unfold moveTextImpl, tryCatch, bind. rewrite H1, H2, H3, H4. simpl.
  rewrite Hv, Hr. fold h.
  destruct (resolveMoveSpan h textToMoveP) as [[res | moveSpan] |]; simpl; try reflexivity.
  destruct (resolveAnchorInBlock h moveEndFilter _ _ anchor) as [[res | span] |];
    simpl; try reflexivity.
  destruct (insertionInsideDeletion _); simpl; [reflexivity |].
  unfold writeFile, written. destruct Hed as [-> _]. reflexivity.
Qed.

(** Each resolver yields a span exactly when the search is an exact match
    with a single span (in the block, for the anchor). *)
Lemma resolveMoveSpan_inr (h : FlatHelpers) (textToMoveP : text) (moveSpan : MatchSpan) :
  resolveMoveSpan h textToMoveP = Some (inr moveSpan)
  <-> isExactMatch (find h textToMoveP) = true /\ spans (find h textToMoveP) = [moveSpan].
Proof.
  unfold resolveMoveSpan.
  destruct (isExactMatch (find h textToMoveP)); simpl; [| split; [discriminate | easy]].
  destruct (spans (find h textToMoveP)) as [| a [| b l]]; unfold len; simpl.
  - split; [discriminate | intros [_ ?]; discriminate].
  - split; [intros H; inversion H; easy | intros [_ H]; inversion H; easy].
  - destruct (Z.ltb_spec 1 (Z.of_nat (S (S (length l))))) as [_ | ?]; [| lia].
    split; [discriminate | intros [_ H]; inversion H].
Qed.

Lemma resolveAnchor_inr (h : FlatHelpers) (bs be : option MatchSpan) (anchor : text)
    (span : MatchSpan) :
  resolveAnchor h bs be anchor = Some (inr span)
  <-> isExactMatch (find h anchor) = true
      /\ List.filter
           (inBlock (match bs with Some b => rawStart b | None => 0 end)
              (match be with Some b => rawEndExclusive b | None => len (rawTextChars h) end))
           (spans (find h anchor)) = [span].
Proof.
  unfold resolveAnchor.
  destruct (isExactMatch (find h anchor)); simpl; [| split; [discriminate | easy]].
  destruct (List.filter _ (spans (find h anchor))) as [| a [| b l]]; unfold len; simpl.
  - split; [discriminate | intros [_ ?]; discriminate].
  - split; [intros H; inversion H; easy | intros [_ H]; inversion H; easy].
  - destruct (Z.ltb_spec 1 (Z.of_nat (S (S (length l))))) as [_ | ?]; [| lia].
    split; [discriminate | intros [_ H]; inversion H].
Qed.

(** C9. For every move_text request on an editable file whose text to be
    moved and whose anchor (inside the block the markers select) each resolve
    to exactly one exact match: when the computed insertion point lies
    strictly inside the computed deletion span, the operation returns the
    overlap failure, with no suggestions, and writes nothing. *)
Theorem move_overlap_is_rejected (fs : FileSystem) (path : string) (f : File)
    (params : MoveTextParams) (textToMoveP anchor : text) (position : Position)
    (moveSpan anchorSpan : MatchSpan) :
  editableFile fs path f ->
  mp_filePath params = Some path ->
  mp_textToBeMoved params = Some textToMoveP ->
  mp_anchorText params = Some anchor ->
  mp_positionRelativeToAnchorText params = Some position ->
  let h := buildFlatRawTextHelpers (f_content f) in
  resolveMoveSpan h textToMoveP = Some (inr moveSpan) ->
  resolveAnchorInBlock h moveEndFilter (mp_anchorBlockStartMarker params)
    (mp_anchorBlockEndMarker params) anchor = Some (inr anchorSpan) ->
  let pl := planMove (rawTextChars h) position moveSpan anchorSpan in
  deletionStart pl < insertionPoint pl < deletionEndExcl pl ->
  moveTextImpl params fs = (fs, Some (mkOpResult false overlapError None)).
Proof.
  intros Hed H1 H2 H3 H4 h Hm Ha pl Hin.
  rewrite (moveTextImpl_editable fs path f params textToMoveP anchor position Hed H1 H2 H3 H4).
  fold h. rewrite Hm, Ha. fold pl. cbv zeta.
  unfold insertionInsideDeletion.
  destruct (Z.ltb_spec (deletionStart pl) (insertionPoint pl)); [| lia].
  destruct (Z.ltb_spec (insertionPoint pl) (deletionEndExcl pl)); [| lia].
  reflexivity.
Qed.

Lemma move_overlap_is_rejected_witness :
  (* the file "a b c": moving "a b c" before its own "b" *)
  let raw := [97; 32; 98; 32; 99]%N in
  let f := mkFile raw true false false in
  let fs : FileSystem := {[ "f"%string := f ]} in
  let params :=
    mkMoveParams (Some "f"%string) (Some raw) (Some [98%N]) (Some before) None None in
  moveTextImpl params fs = (fs, Some (mkOpResult false overlapError None)).
Proof.
  intros raw f fs params.
  apply (move_overlap_is_rejected fs "f"%string f params raw [98%N] before
           (mkSpan 0 3 0 5) (mkSpan 1 2 2 3)).
  - repeat split; reflexivity.
  - reflexivity.
  - reflexivity.
  - reflexivity.
  - reflexivity.
  - vm_compute. reflexivity.
  - vm_compute. reflexivity.
  - vm_compute. split; reflexivity.
Defined.

(** ** insert_text with an end marker and no start marker *)

Lemma filterThrowing_insert_null (xs : list MatchSpan) :
  filterThrowing (insertEndFilter None) xs = match xs with [] => Some [] | _ :: _ => None end.
Proof. destruct xs; reflexivity. Qed.

Lemma resolve_insert_without_start (h : FlatHelpers) (startMarker endMarker : option text)
    (anchor : text) :
  truthy startMarker = false -> truthy endMarker = true ->
  resolveAnchorInBlock h insertEndFilter startMarker endMarker anchor
  = match spans (find h (default [] endMarker)) with
    | [] => Some (inl (issues h [] noMatchFound anchorBlockEndMarker))
    | _ :: _ => None
    end.
Proof.
  intros Hs He. unfold resolveAnchorInBlock, resolveBlockStart, resolveBlockEnd.
  rewrite Hs, He, filterThrowing_insert_null.
  destruct (spans (find h (default [] endMarker))); [| reflexivity].
  change (len [] =? 0) with true. rewrite orb_true_r. reflexivity.
Qed.

Lemma issues_fail (h : FlatHelpers) (sp : list MatchSpan) (msg : ParamName -> Message)
    (name : ParamName) :
  success (issues h sp msg name) = false.
Proof. reflexivity. Qed.

Lemma insert_without_start_fails (params : InsertTextParams) (fs : FileSystem) :
  truthy (ip_anchorBlockStartMarker params) = false ->
  truthy (ip_anchorBlockEndMarker params) = true ->
  exists res, insertTextImpl params fs = (fs, Some res) /\ success res = false.
Proof.
  intros Hs He.
  destruct (dispatch_returns (insert_text params) fs) as (res & Hres).
  simpl in Hres. exists res.
  assert (Hfail : success res = false).
  { revert Hres. unfold insertTextImpl, tryCatch, bind.
    destruct (required (ip_filePath params) fs) as [fs1 [path |]];
      [| intros H; inversion H; reflexivity].
    destruct (required (ip_textToBeInserted params) fs1) as [fs2 [ins |]];
      [| intros H; inversion H; reflexivity].
    destruct (required (ip_anchorText params) fs2) as [fs3 [anchor |]];
      [| intros H; inversion H; reflexivity].
    destruct (required (ip_positionRelativeToAnchorText params) fs3) as [fs4 [pos |]];
      [| intros H; inversion H; reflexivity].
    destruct (validateTextFileToEdit path true fs4) as [fs5 [[m |] |]];
      [intros H; inversion H; reflexivity | | intros H; inversion H; reflexivity].
    destruct (readFile path fs5) as [fs6 [raw |]];
      [| intros H; inversion H; reflexivity].
    rewrite (resolve_insert_without_start _ _ _ anchor Hs He).
    destruct (spans (find (buildFlatRawTextHelpers raw) _));
      intros H; inversion H; reflexivity. }
  split; [| exact Hfail].
  assert (Hfs : fst (insertTextImpl params fs) = fs).
  { destruct (safe_insert params fs) as [H | (r & Hr & Hsucc)]; [exact H |].
    rewrite Hres in Hr. inversion Hr; subst. congruence. }
  rewrite <- Hfs at 2. rewrite <- Hres.
  now destruct (insertTextImpl params fs).
Qed.

(** C10 (as amended). For every insert_text request that supplies a non-empty
    anchorBlockEndMarker and no (or an empty) anchorBlockStartMarker: the
    operation returns a failure and leaves the file system unchanged; on an
    editable file with all required parameters, the failure is the
    unexpected-error result when the end-marker search returns at least one
    span (the filter reads a field of the null block start), and the no-match
    result for anchorBlockEndMarker, with no suggestion, when it returns none.
    move_text guards the same filter: a request with the same marker
    parameters can succeed. *)
Theorem insert_end_marker_without_start_marker_fails
    (params : InsertTextParams) (fs : FileSystem) :
  truthy (ip_anchorBlockStartMarker params) = false ->
  truthy (ip_anchorBlockEndMarker params) = true ->
  (exists res, insertTextImpl params fs = (fs, Some res) /\ success res = false)
  /\ (forall path f textToBeInserted anchor position,
        editableFile fs path f ->
        ip_filePath params = Some path ->
        ip_textToBeInserted params = Some textToBeInserted ->
        ip_anchorText params = Some anchor ->
        ip_positionRelativeToAnchorText params = Some position ->
        let h := buildFlatRawTextHelpers (f_content f) in
        insertTextImpl params fs
        = (fs,
           Some (match spans (find h (default [] (ip_anchorBlockEndMarker params))) with
                 | [] => issues h [] noMatchFound anchorBlockEndMarker
                 | _ :: _ => failure unexpectedError
                 end)))
  /\ (exists (mparams : MoveTextParams) (mfs : FileSystem) (r : OpResult),
        truthy (mp_anchorBlockStartMarker mparams) = false
        /\ truthy (mp_anchorBlockEndMarker mparams) = true
        /\ snd (moveTextImpl mparams mfs) = Some r /\ success r = true).
Proof.
  intros Hs He. split; [now apply insert_without_start_fails |]. split.
  - intros path f ins anchor pos Hed H1 H2 H3 H4 h.
    rewrite (insertTextImpl_editable fs path f params ins anchor pos Hed H1 H2 H3 H4).
    fold h. rewrite (resolve_insert_without_start h _ _ anchor Hs He).
    destruct (spans (find h _)); reflexivity.
  - (* the file "a\nb\nE": moving "b" before "a", with the end marker "E" *)
    exists (mkMoveParams (Some "f"%string) (Some [98%N]) (Some [97%N]) (Some before)
              None (Some [69%N])),
      ({[ "f"%string := mkFile [97; 10; 98; 10; 69]%N true false false ]} : FileSystem),
      (mkOpResult true (successMoved before) None).
    repeat split; vm_compute; reflexivity.
Qed.

Lemma insert_end_marker_without_start_marker_fails_witness :
  (* the file "a\nb\nE": inserting "c" after "a", with the end marker "E" *)
  let fs : FileSystem := {[ "f"%string := mkFile [97; 10; 98; 10; 69]%N true false false ]} in
  let params :=
    mkInsertParams (Some "f"%string) (Some [99%N]) (Some [97%N]) (Some after)
      None (Some [69%N]) false in
  insertTextImpl params fs = (fs, Some (failure unexpectedError)).
Proof.
  intros fs params.
  destruct (insert_end_marker_without_start_marker_fails params fs eq_refl eq_refl)
    as (_ & H & _).
  rewrite (H "f"%string (mkFile [97; 10; 98; 10; 69]%N true false false)
             [99%N] [97%N] after); try reflexivity.
  repeat split; reflexivity.
Defined.

(** The claim as stated fails where the end-marker search returns no span
    at all: the filter callback never runs, no exception is raised, and the
    failure is the no-match result (on the file "abc" with the end marker
    "z"). *)
Lemma insert_end_marker_no_span_is_no_match :
  let fs : FileSystem := {[ "f"%string := mkFile [97; 98; 99]%N true false false ]} in
  let params :=
    mkInsertParams (Some "f"%string) (Some [99%N]) (Some [97%N]) (Some after)
      None (Some [122%N]) false in
  insertTextImpl params fs
  = (fs, Some (mkOpResult false (noMatchFound anchorBlockEndMarker) (Some []))).
Proof. vm_compute. reflexivity. Qed.


(** ** Replacing all occurrences *)

Lemma replaceBySpan_take_drop (l R : text) (s e : Z) :
  replaceBySpan l s e R = take (Z.to_nat s) l ++ R ++ drop (Z.to_nat e) l.
Proof.
  unfold replaceBySpan, slice, sliceFrom. rewrite drop_0. do 2 f_equal. lia.
Qed.

Lemma splice_take_drop (l R : text) (s e : Z) :
  0 <= s <= e ->
  splice l s (e - s) R = take (Z.to_nat s) l ++ R ++ drop (Z.to_nat e) l.
Proof. intros H. unfold splice. do 3 f_equal. lia. Qed.

Lemma slice_drop_take' (l : text) (s e : Z) :
  0 <= s -> slice l s e = drop (Z.to_nat s) (take (Z.to_nat e) l).
Proof.
  intros Hs. unfold slice.
  destruct (Z.le_gt_cases s e).
  - rewrite take_drop_commute. do 2 f_equal. lia.
  - replace (Z.to_nat (e - s)) with 0%nat by lia. rewrite take_0.
    symmetry. apply drop_ge. rewrite length_take. lia.
Qed.

(** Three disjoint spans in ascending order, spliced from the last to the
    first. *)
Lemma spliceAll_three (raw R : text) (sp1 sp2 sp3 : MatchSpan) :
  0 <= rawStart sp1 <= rawEndExclusive sp1 ->
  rawEndExclusive sp1 <= rawStart sp2 <= rawEndExclusive sp2 ->
  rawEndExclusive sp2 <= rawStart sp3 <= rawEndExclusive sp3 ->
  rawEndExclusive sp3 <= len raw ->
  spliceAll raw [sp1; sp2; sp3] R
  = slice raw 0 (rawStart sp1) ++ R
    ++ slice raw (rawEndExclusive sp1) (rawStart sp2) ++ R
    ++ slice raw (rawEndExclusive sp2) (rawStart sp3) ++ R
    ++ sliceFrom raw (rawEndExclusive sp3).
Proof.
  intros H1 H2 H3 H4. unfold len in H4.
  unfold spliceAll. cbn [reverse rev_append fold_left spliceStep fst snd].
  change (reverse [sp1; sp2; sp3]) with [sp3; sp2; sp1].
  cbn [fold_left spliceStep fst snd].
  rewrite replaceBySpan_take_drop, !splice_take_drop by lia.
  rewrite !slice_drop_take' by lia. unfold sliceFrom. rewrite drop_0.
  set (a1 := Z.to_nat (rawStart sp1)). set (b1 := Z.to_nat (rawEndExclusive sp1)).
  set (a2 := Z.to_nat (rawStart sp2)). set (b2 := Z.to_nat (rawEndExclusive sp2)).
  set (a3 := Z.to_nat (rawStart sp3)). set (b3 := Z.to_nat (rawEndExclusive sp3)).
  assert (Hl3 : length (take a3 raw) = a3) by (rewrite length_take; lia).
  assert (Hl2 : length (take a2 raw) = a2) by (rewrite length_take; lia).
  assert (E2 : take a2 (take a3 raw ++ R ++ drop b3 raw) = take a2 raw).
  { rewrite take_app_le by lia. rewrite take_take. f_equal. lia. }
  assert (D2 : drop b2 (take a3 raw ++ R ++ drop b3 raw)
               = drop b2 (take a3 raw) ++ R ++ drop b3 raw).
  { rewrite drop_app_le by lia. reflexivity. }
  rewrite E2, D2.
  assert (E1 : take a1 (take a2 raw ++ R ++ drop b2 (take a3 raw) ++ R ++ drop b3 raw)
               = take a1 raw).
  { rewrite take_app_le by lia. rewrite take_take. f_equal. lia. }
  assert (D1 : drop b1 (take a2 raw ++ R ++ drop b2 (take a3 raw) ++ R ++ drop b3 raw)
               = drop b1 (take a2 raw) ++ R ++ drop b2 (take a3 raw) ++ R ++ drop b3 raw).
  { rewrite drop_app_le by lia. reflexivity. }
  rewrite E1, D1. reflexivity.
Qed.

Lemma occurrences_bounds (T P : text) (o : Z) :
  In o (occurrences T P) ->
  0 <= o /\ o + len P <= len T /\ slice T o (o + len P) = P.
Proof.
  unfold occurrences. rewrite filter_In. intros [Hin Hb].
  apply bool_decide_eq_true in Hb.
  apply list_elem_of_In, elem_of_seqZ in Hin.
  split; [lia |]. split; [| exact Hb].
  apply (f_equal length) in Hb. unfold slice in Hb.
  rewrite length_take, length_drop in Hb. unfold len in *. lia.
Qed.

Lemma getZ_lookup (l : list Z) (i : Z) :
  0 <= i < len l -> l !! Z.to_nat i = Some (getZ l i).
Proof.
  intros Hi. destruct (get_lt_len l i Hi) as [x Hx].
  unfold getZ. rewrite Hx. simpl. now apply get_Some in Hx.
Qed.

Lemma reconstructRawSpan_inside (f2r : list Z) (rawLen o m : Z) :
  0 <= o -> 1 <= m -> o + m <= len f2r ->
  reconstructRawSpan o (o + m) f2r rawLen = (getZ f2r o, getZ f2r (o + m - 1) + 1).
Proof.
  intros Ho Hm Hl. unfold reconstructRawSpan, reconstructRawOffset.
  destruct (Z.leb_spec (len f2r) o); [lia |].
  destruct (Z.ltb_spec 0 (o + m)); [| lia].
  destruct (Z.leb_spec (len f2r) (o + m - 1)); [lia |]. reflexivity.
Qed.

(** The raw spans of flat occurrences keep their order: an occurrence that
    ends before another begins in the flat view ends before it begins in the
    raw text. *)
Lemma raw_spans_ordered (raw : text) (o o' m : Z) :
  let h := buildFlatRawTextHelpers raw in
  0 <= o -> 1 <= m -> o + m <= o' -> o' < len (flatRawText h) ->
  0 <= rawStartOf h o < rawEndOf h o m
  /\ rawEndOf h o m <= rawStartOf h o'
  /\ rawStartOf h o' < len raw.
Proof.
  intros h Ho Hm Hoo Hl.
  destruct (buildFlat_inv raw) as [Hinv Hi].
  destruct Hinv as [_ _ _ _ Hincr Hbound _ _ _ _ _].
  destruct (buildFlat_lengths raw) as (_ & Hlen & _).
  fold h in Hlen. unfold rawStartOf, rawEndOf. subst h. simpl in *.
  set (f2r := fs_flatRawToRaw _) in *.
  pose proof (getZ_lookup f2r o ltac:(lia)) as L1.
  pose proof (getZ_lookup f2r (o + m - 1) ltac:(lia)) as L2.
  pose proof (getZ_lookup f2r o' ltac:(lia)) as L3.
  pose proof (Hbound _ _ L1). pose proof (Hbound _ _ L3).
  assert (getZ f2r o <= getZ f2r (o + m - 1)).
  { destruct (Z.eq_dec m 1) as [-> | ?].
    - replace (o + 1 - 1) with o by lia. lia.
    - pose proof (Hincr (Z.to_nat o) (Z.to_nat (o + m - 1)) _ _ ltac:(lia) L1 L2).
      lia. }
  pose proof (Hincr (Z.to_nat (o + m - 1)) (Z.to_nat o') _ _ ltac:(lia) L2 L3).
  lia.
Qed.

Lemma raw_span_last (raw : text) (o m : Z) :
  let h := buildFlatRawTextHelpers raw in
  0 <= o -> 1 <= m -> o + m <= len (flatRawText h) ->
  0 <= rawStartOf h o < rawEndOf h o m /\ rawEndOf h o m <= len raw.
Proof.
  intros h Ho Hm Hl.
  destruct (buildFlat_inv raw) as [Hinv Hi].
  destruct Hinv as [_ _ _ _ Hincr Hbound _ _ _ _ _].
  destruct (buildFlat_lengths raw) as (_ & Hlen & _).
  fold h in Hlen. unfold rawStartOf, rawEndOf. subst h. simpl in *.
  set (f2r := fs_flatRawToRaw _) in *.
  pose proof (getZ_lookup f2r o ltac:(lia)) as L1.
  pose proof (getZ_lookup f2r (o + m - 1) ltac:(lia)) as L2.
  pose proof (Hbound _ _ L1). pose proof (Hbound _ _ L2).
  assert (getZ f2r o <= getZ f2r (o + m - 1)).
  { destruct (Z.eq_dec m 1) as [-> | ?].
    - replace (o + 1 - 1) with o by lia. lia.
    - pose proof (Hincr (Z.to_nat o) (Z.to_nat (o + m - 1)) _ _ ltac:(lia) L1 L2).
      lia. }
  lia.
Qed.




(** ** The streaming scan *)

Import SuffixAutomaton.

Lemma scanStep_state (ns : list SAMNode) (minMatchLen m : Z) (st : ScanState) (c : char) :
  let st' := scanStep ns minMatchLen m st c in
  sc_i st' = sc_i st + 1
  /\ (sc_state st', sc_len st') = samAdvance ns (sc_state st, sc_len st) c.
Proof.
  unfold scanStep. destruct (samAdvance ns (sc_state st, sc_len st) c) as [state l].
  simpl. easy.
Qed.

Lemma scanStep_mid (ns : list SAMNode) (minMatchLen m : Z) (st : ScanState) (c : char) :
  sc_midMatches (scanStep ns minMatchLen m st c)
  = sc_midMatches st
    ++ (let '(state, l) := samAdvance ns (sc_state st, sc_len st) c in
        if (minMatchLen <=? l) && negb (xeqZ (minEnd (node ns state)) (l - 1))
           && negb (xeqZ (maxEnd (node ns state)) (m - 1))
        then [mkRaw mid (sc_i st - l + 1) (sc_i st + 1) l]
        else []).
Proof.
  unfold scanStep. destruct (samAdvance ns (sc_state st, sc_len st) c) as [state l].
  simpl. destruct (minMatchLen <=? l); simpl; [| now rewrite app_nil_r].
  destruct (negb (xeqZ (minEnd (node ns state)) (l - 1))
            && negb (xeqZ (maxEnd (node ns state)) (m - 1)));
    [reflexivity | now rewrite app_nil_r].
Qed.

Lemma omap_ext_in {A B} (f g : A -> option B) (l : list A) :
  (forall x, In x l -> f x = g x) -> omap f l = omap g l.
Proof.
  induction l as [| x l IH]; intros H; [reflexivity |].
  cbn [omap list_omap]. rewrite (H x) by (left; reflexivity).
  rewrite IH by (intros y Hy; apply H; right; exact Hy). reflexivity.
Qed.

Lemma scan_loop_spec (ns : list SAMNode) (minMatchLen m : Z) (T : text) :
  let st := fold_left (scanStep ns minMatchLen m) T (mkScan 0 0 0 []) in
  sc_i st = len T
  /\ (sc_state st, sc_len st) = fold_left (samAdvance ns) T (0, 0)
  /\ sc_midMatches st = omap (midAt ns minMatchLen m T) (seq 0 (length T)).
Proof.
  induction T as [| c T IH] using rev_ind; [easy |].
  cbv zeta in *. rewrite !fold_left_app. cbn [fold_left].
  destruct IH as (Hi & Hs & Hm).
  set (st := fold_left (scanStep ns minMatchLen m) T (mkScan 0 0 0 [])) in *.
  destruct (scanStep_state ns minMatchLen m st c) as [Hi' Hs'].
  cbv zeta in Hi', Hs'.
  split; [rewrite Hi', Hi, len_app; reflexivity |].
  split; [rewrite Hs', Hs; reflexivity |].
  rewrite scanStep_mid, Hm, length_app, Nat.add_1_r, seq_S, omap_app. cbn [plus].
  f_equal.
  - apply omap_ext_in. intros i Hin. apply in_seq in Hin.
    unfold midAt, scanAt. rewrite take_app_le by lia. reflexivity.
  - cbn [omap list_omap]. unfold midAt, scanAt.
    rewrite take_ge by (rewrite length_app; simpl; lia).
    rewrite fold_left_app. cbn [fold_left]. rewrite <- Hs.
    destruct (samAdvance ns (sc_state st, sc_len st) c) as [state l].
    rewrite Hi. unfold len.
    destruct ((minMatchLen <=? l) && negb (xeqZ (minEnd (node ns state)) (l - 1))
              && negb (xeqZ (maxEnd (node ns state)) (m - 1))); reflexivity.
Qed.



(** ** Combined candidates *)

(** Every combined candidate that the inner loop emits comes from a suffix
    of its list that starts at or after the end of the prefix, with a span
    between [0.75 m] and [1.25 m] and a combined length of at least
    [minMatchLen]. *)
Lemma combineWith_sound (pre : RawMatch) (m minMatchLen : Z) (sufs : list RawMatch)
    (rm : RawMatch) :
  In rm (combineWith pre m minMatchLen sufs) ->
  exists suf,
    In suf sufs
    /\ rmFlatEndExclusive pre <= rmFlatStart suf
    /\ 3 * m <= 4 * (rmFlatEndExclusive suf - rmFlatStart pre) <= 5 * m
    /\ minMatchLen <= matchedLen pre + matchedLen suf
    /\ rm = mkRaw combined (rmFlatStart pre) (rmFlatEndExclusive suf)
              (matchedLen pre + matchedLen suf).
Proof.
  induction sufs as [| suf rest IH]; cbn [combineWith]; [easy |].
  assert (Hrest : In rm (combineWith pre m minMatchLen rest) ->
                  exists suf0, In suf0 (suf :: rest)
                    /\ rmFlatEndExclusive pre <= rmFlatStart suf0
                    /\ 3 * m <= 4 * (rmFlatEndExclusive suf0 - rmFlatStart pre) <= 5 * m
                    /\ minMatchLen <= matchedLen pre + matchedLen suf0
                    /\ rm = mkRaw combined (rmFlatStart pre) (rmFlatEndExclusive suf0)
                              (matchedLen pre + matchedLen suf0)).
  { intros H. destruct (IH H) as (s & Hs & Hrestc). exists s. split; [now right | easy]. }
  destruct (Z.ltb_spec (rmFlatStart suf) (rmFlatEndExclusive pre)); [exact Hrest |].
  destruct (Z.ltb_spec (4 * (rmFlatEndExclusive suf - rmFlatStart pre)) (3 * m));
    [exact Hrest |].
  destruct (Z.ltb_spec (5 * m) (4 * (rmFlatEndExclusive suf - rmFlatStart pre))); [easy |].
  intros Hin. apply in_app_or in Hin as [Hin | Hin]; [| now apply Hrest].
  destruct (Z.leb_spec minMatchLen (matchedLen pre + matchedLen suf)); [| easy].
  destruct Hin as [<- | []]. exists suf. split; [now left |]. repeat split; lia.
Qed.

Lemma In_drop {A} (n : nat) (l : list A) (x : A) : In x (drop n l) -> In x l.
Proof.
  revert l. induction n as [| n IH]; intros [| y l] H; try easy.
  right. now apply IH.
Qed.

(** The combined candidates of the fuzzy phase are sound: each one joins a
    kept prefix and a kept suffix that meet the conditions of the combined
    step. The converse fails, as the evaluation below shows. *)
Lemma combinedMatches_sound (T P : text) (rm : RawMatch) :
  let fr := fuzzyRawMatches T P in
  let m := len P in
  In rm (combinedMatches fr) ->
  exists pre suf,
    In pre (filteredPrefixes fr) /\ In suf (filteredSuffixes fr)
    /\ rmFlatEndExclusive pre <= rmFlatStart suf
    /\ 3 * m <= 4 * (rmFlatEndExclusive suf - rmFlatStart pre) <= 5 * m
    /\ computeMinMatchLen m <= matchedLen pre + matchedLen suf
    /\ rm = mkRaw combined (rmFlatStart pre) (rmFlatEndExclusive suf)
              (matchedLen pre + matchedLen suf).
Proof.
  intros fr m. unfold fr, fuzzyRawMatches.
  match goal with
  | |- In rm (combinedMatches (if ?b then _ else _)) -> _ => destruct b
  end; cbn [combinedMatches filteredPrefixes filteredSuffixes]; [| easy].
  unfold combinedMatchesOf. intros H. apply in_flat_map in H as (pre & Hpre & H).
  apply combineWith_sound in H as (suf & Hsuf & Hrest).
  exists pre, suf. split; [exact Hpre |]. split; [exact (In_drop _ _ _ Hsuf) | exact Hrest].
Qed.


(** C6 (the code departs from the claim). On the flat text "aazzzxcbdcb" and
    the stripped pattern "aaxcbdcb" ([m = 8], [minMatchLen = 3],
    [halfThreshold = 1]) no exact match exists; the prefix raw-match
    [0, 2) of length 2 and the suffix raw-match [6, 8) of length 2 are both
    kept, the suffix starts after the prefix ends, their span 8 lies between
    [0.75 m = 6] and [1.25 m = 10], and their lengths add up to [4 >= 3]: the
    pair meets every condition of the claim. No combined candidate [0, 8) is
    emitted: the suffixes sorted by [flatStart] are [5, 11) and [6, 8), and
    the inner loop breaks at the first one, whose span 11 exceeds 10. *)
Lemma combined_pair_lost_by_early_break :
  let T := [97; 97; 122; 122; 122; 120; 99; 98; 100; 99; 98]%N in
  let P := [97; 97; 120; 99; 98; 100; 99; 98]%N in
  let m := len P in
  let fr := fuzzyRawMatches T P in
  let pre := mkRaw prefix 0 2 2 in
  let suf := mkRaw suffix 6 8 2 in
  occurrences T P = []
  /\ computeMinMatchLen m = 3
  /\ filteredPrefixes fr = [pre; mkRaw prefix 1 2 1]
  /\ filteredSuffixes fr = [mkRaw suffix 5 11 6; suf]
  /\ rmFlatEndExclusive pre <= rmFlatStart suf
  /\ 3 * m <= 4 * (rmFlatEndExclusive suf - rmFlatStart pre) <= 5 * m
  /\ computeMinMatchLen m <= matchedLen pre + matchedLen suf
  /\ combinedMatches fr = [mkRaw combined 1 11 7; mkRaw combined 1 8 3].
Proof. vm_compute. repeat split; congruence. Qed.

(** ** Suffix-link paths *)

Section Paths.

Variable g : graph.
Variable last : Z.
Hypothesis Hinv : Inv g last.

Lemma anc_trans (a b c : Z) : anc g a b -> anc g b c -> anc g a c.
Proof. induction 1 as [| v w Hv _ IH]; [easy |]. intros H. apply anc_step; auto. Qed.

Lemma anc_valid (a b : Z) : 0 <= a < gsize g -> anc g a b -> 0 <= b < gsize g.
Proof.
  intros Ha H. induction H as [| v w Hv _ IH]; [easy |].
  apply IH. destruct (inv_link g last Hinv v Hv). lia.
Qed.

Lemma anc_len (a b : Z) : anc g a b -> glen g b <= glen g a.
Proof.
  induction 1 as [| v w Hv _ IH]; [lia |].
  destruct (inv_link g last Hinv v Hv). lia.
Qed.

Lemma anc_len_eq (a b : Z) : anc g a b -> glen g a <= glen g b -> a = b.
Proof.
  intros H Hl. destruct H as [| v w Hv H]; [easy |].
  apply anc_len in H. destruct (inv_link g last Hinv v Hv). lia.
Qed.

Lemma anc_antisym (a b : Z) : anc g a b -> anc g b a -> a = b.
Proof. intros H1 H2. apply anc_len_eq; [easy |]. now apply anc_len. Qed.

(** A suffix-link path is linear. *)
Lemma anc_linear (a b c : Z) : anc g a b -> anc g a c -> anc g b c \/ anc g c b.
Proof.
  intros Hb. revert c. induction Hb as [| v w Hv Hb IH]; intros c Hc; [now left |].
  destruct Hc as [| v c Hv' Hc]; [right; now apply anc_step |].
  now apply IH.
Qed.

Lemma anc_strict (a b : Z) : anc g a b -> a <> b -> 0 < a < gsize g /\ anc g (glink g a) b.
Proof. intros H Hne. destruct H; [congruence | easy]. Qed.

(** The last step of a non-empty path. *)
Lemma anc_last_step (a b : Z) :
  anc g a b -> a <> b -> exists y, anc g a y /\ 0 < y < gsize g /\ glink g y = b.
Proof.
  induction 1 as [| v w Hv H IH]; [congruence |]. intros _.
  destruct (Z.eq_dec (glink g v) w) as [E | E].
  - exists v. split; [apply anc_refl | easy].
  - destruct (IH E) as (y & Hy & Hy' & Hl). exists y.
    split; [now apply anc_step | easy].
Qed.

Lemma anc_root (a : Z) : 0 <= a < gsize g -> anc g a 0.
Proof.
  intros Ha.
  assert (H : forall k : nat, forall v, 0 <= v < gsize g -> glen g v <= Z.of_nat k -> anc g v 0).
  { induction k as [| k IH]; intros v Hv Hk.
    - destruct (Z.eq_dec v 0) as [-> | Hne]; [apply anc_refl |].
      destruct (inv_link g last Hinv v ltac:(lia)) as [Hl1 Hl2].
      pose proof (inv_len_nonneg g last Hinv _ Hl1). lia.
    - destruct (Z.eq_dec v 0) as [-> | Hne]; [apply anc_refl |].
      destruct (inv_link g last Hinv v ltac:(lia)) as [Hl1 Hl2].
      apply anc_step; [lia |]. apply IH; [easy | lia]. }
  apply (H (Z.to_nat (glen g a))); [easy |].
  pose proof (inv_len_nonneg g last Hinv a Ha). lia.
Qed.

Lemma anc_from_root (b : Z) : anc g 0 b -> b = 0.
Proof. intros H. inversion H; subst; [easy | lia]. Qed.

(** Along a path, a transition on [c] persists and its target moves along
    the path of targets. *)
Lemma tr_along (a b : Z) (c : char) (x : Z) :
  anc g a b -> 0 <= a < gsize g -> gtr g a c = Some x ->
  exists y, gtr g b c = Some y /\ anc g x y.
Proof.
  intros H. revert x. induction H as [| v w Hv H IH]; intros x Ha Hx.
  - exists x. split; [easy | apply anc_refl].
  - destruct (inv_link g last Hinv v Hv) as [Hl _].
    destruct (inv_E g last Hinv v c x Hv Hx) as [HE | [HE _]].
    + now apply IH.
    + destruct (IH _ Hl HE) as (y & Hy & Hxy). exists y. split; [easy |].
      destruct (inv_tr g last Hinv v c x Ha Hx) as [Hx' _].
      now apply anc_step.
Qed.

(** The link of the target of a transition is no longer than its source. *)
Lemma tr_link_len (p : Z) (c : char) (q : Z) :
  0 <= p < gsize g -> gtr g p c = Some q -> glen g (glink g q) <= glen g p.
Proof.
  intros Hp Hq.
  destruct (tr_along p 0 c q (anc_root p Hp) Hp Hq) as (y & Hy & Hqy).
  pose proof (inv_E0 g last Hinv c y Hy) as Hy0.
  destruct (inv_tr g last Hinv 0 c y ltac:(pose proof (inv_size g last Hinv); lia) Hy)
    as [Hyv _].
  destruct (Z.eq_dec q y) as [-> | Hne].
  - rewrite Hy0, (inv_root_len g last Hinv). now apply (inv_len_nonneg g last Hinv).
  - (* walk down from p while the target stays q *)
    assert (H : forall k : nat, forall v, 0 <= v < gsize g -> glen g v <= Z.of_nat k ->
              gtr g v c = Some q -> glen g (glink g q) <= glen g v).
    { induction k as [| k IH]; intros v Hv Hk Hvq.
      - destruct (Z.eq_dec v 0) as [-> | Hv0].
        + rewrite Hy in Hvq. congruence.
        + destruct (inv_link g last Hinv v ltac:(lia)) as [Hl1 Hl2].
          pose proof (inv_len_nonneg g last Hinv _ Hl1). lia.
      - destruct (Z.eq_dec v 0) as [-> | Hv0].
        + rewrite Hy in Hvq. congruence.
        + destruct (inv_link g last Hinv v ltac:(lia)) as [Hl1 Hl2].
          destruct (inv_E g last Hinv v c q ltac:(lia) Hvq) as [HE | [_ HE]].
          * specialize (IH _ Hl1 ltac:(lia) HE). lia.
          * lia. }
    apply (H (Z.to_nat (glen g p))); [easy | | easy].
    pose proof (inv_len_nonneg g last Hinv p Hp). lia.
Qed.

(** Segments. *)
Lemma segment_valid (a b x : Z) : 0 <= a < gsize g -> segment g a b x -> 0 <= x < gsize g.
Proof. intros Ha [H _]. now apply (anc_valid a). Qed.

Lemma segment_closed (a b x : Z) :
  0 <= a < gsize g -> segment g a b x -> x <> 0 ->
  segment g a b (glink g x) \/ glink g x = b.
Proof.
  intros Ha [Hax Hb] Hx0.
  pose proof (anc_valid a x Ha Hax) as Hx.
  assert (Hstep : anc g x (glink g x)) by (apply anc_step; [lia | apply anc_refl]).
  destruct (Z.eq_dec (glink g x) b) as [E | E]; [now right | left].
  split; [now apply (anc_trans a x) |].
  destruct Hb as [-> | [Hxb Hne]]; [now left | right].
  split; [| easy]. now apply anc_strict.
Qed.

Lemma segment_root (a b : Z) : 0 <= a < gsize g -> segment g a b 0 -> b = -1.
Proof.
  intros Ha [_ [-> | [H Hne]]]; [easy |]. apply anc_from_root in H. congruence.
Qed.

Lemma segment_convex (a b x y : Z) :
  segment g a b y -> anc g a x -> anc g x y -> segment g a b x.
Proof.
  intros [Hay Hb] Hax Hxy. split; [easy |].
  destruct Hb as [-> | [Hyb Hne]]; [now left | right].
  split; [now apply (anc_trans x y) |].
  intros ->. apply Hne. now apply anc_antisym.
Qed.

Lemma segment_below (a b x : Z) :
  anc g a b -> anc g a x -> ~ segment g a b x -> b <> -1 -> anc g b x.
Proof.
  intros Hab Hax Hn Hb.
  destruct (anc_linear a b x Hab Hax) as [H | H]; [easy |].
  destruct (Z.eq_dec x b) as [-> | Hne]; [apply anc_refl |].
  exfalso. apply Hn. split; [easy | right; easy].
Qed.

Lemma segment_first (a b : Z) : a <> b -> anc g a b \/ b = -1 -> segment g a b a.
Proof.
  intros Hne [H | ->]; (split; [apply anc_refl |]); [right | left]; easy.
Qed.

End Paths.

(** ** One construction step without a clone *)

Section StepNoClone.

Variables (g g' : graph) (last : Z) (c : char) (p' lcur : Z) (xs : list Z).
Let n := gsize g.
Let cur := gsize g.

Hypothesis Hinv : Inv g last.
Hypothesis Hxs : forall x, In x xs <-> segment g last p' x.
Hypothesis Hnone : forall x, In x xs -> gtr g x c = None.
Hypothesis Hstop :
  (p' = -1 /\ lcur = 0)
  \/ (0 <= p' < n /\ anc g last p' /\ gtr g p' c = Some lcur
      /\ glen g p' + 1 = glen g lcur).
Hypothesis Hsize' : gsize g' = n + 1.
Hypothesis Hlink' : forall v, 0 <= v < n -> glink g' v = glink g v.
Hypothesis Hlink_cur : glink g' cur = lcur.
Hypothesis Hlen' : forall v, 0 <= v < n -> glen g' v = glen g v.
Hypothesis Hlen_cur : glen g' cur = glen g last + 1.
Hypothesis Htr_cur : forall d, gtr g' cur d = None.
Hypothesis Htr_X : forall x, In x xs -> gtr g' x c = Some cur.
Hypothesis Htr_old :
  forall v d, 0 <= v < n -> ~ (d = c /\ In v xs) -> gtr g' v d = gtr g v d.

Local Lemma nc_n_pos : 1 <= n.
Proof. apply (inv_size g last Hinv). Qed.

Local Lemma nc_xs_valid (x : Z) : In x xs -> 0 <= x < n.
Proof.
  intros H. apply Hxs in H. apply (segment_valid g last Hinv last p'); [| easy].
  apply (inv_last g last Hinv).
Qed.

Local Lemma nc_tr_cases (v : Z) (d : char) :
  0 <= v < n ->
  (d = c /\ In v xs /\ gtr g' v d = Some cur)
  \/ (~ (d = c /\ In v xs) /\ gtr g' v d = gtr g v d).
Proof.
  intros Hv. destruct (N.eq_dec d c) as [-> | Hd].
  - destruct (in_dec Z.eq_dec v xs) as [Hin | Hin].
    + left. auto.
    + right. split; [tauto |]. apply Htr_old; tauto.
  - right. split; [tauto |]. apply Htr_old; tauto.
Qed.

Local Lemma nc_anc (a b : Z) : anc g a b -> 0 <= a < n -> anc g' a b.
Proof.
  induction 1 as [| v w Hv H IH]; intros Ha; [apply anc_refl |].
  apply anc_step; [fold n in Hv; lia |].
  rewrite Hlink' by easy. apply IH.
  destruct (inv_link g last Hinv v Hv). easy.
Qed.

Local Lemma nc_lcur : 0 <= lcur < n /\ glen g lcur < glen g last + 1.
Proof.
  pose proof nc_n_pos.
  destruct Hstop as [[_ ->] | (Hp & Ha & Ht & Hl)].
  - rewrite (inv_root_len g last Hinv).
    pose proof (inv_len_nonneg g last Hinv last (inv_last g last Hinv)). lia.
  - destruct (inv_tr g last Hinv p' c lcur Hp Ht) as [Hq _]. split; [fold n in Hq; lia |].
    assert (Hne : last <> p').
    { intros <-. rewrite (inv_last_next g last Hinv) in Ht. discriminate. }
    destruct (anc_strict g last p' Ha Hne) as [Hl0 Ha'].
    apply (anc_len g last Hinv) in Ha'.
    destruct (inv_link g last Hinv last Hl0). lia.
Qed.

Lemma step_noclone : Inv g' cur.
Proof.
  pose proof nc_n_pos as Hn. pose proof nc_lcur as [Hlc1 Hlc2].
  pose proof (inv_last g last Hinv) as Hlast.
  constructor.
  - lia.
  - rewrite Hlink' by lia. apply (inv_root_link g last Hinv).
  - rewrite Hlen' by lia. apply (inv_root_len g last Hinv).
  - unfold cur. fold n. lia.
  - apply Htr_cur.
  - (* links *)
    intros v Hv. rewrite Hsize' in Hv.
    destruct (Z.eq_dec v cur) as [-> | Hne].
    + rewrite Hlink_cur, Hlen_cur, Hlen' by easy. lia.
    + unfold cur in Hne. fold n in Hne.
      destruct (inv_link g last Hinv v ltac:(fold n; lia)) as [H1 H2]. fold n in H1.
      rewrite Hlink', !Hlen' by lia. lia.
  - intros v Hv. rewrite Hsize' in Hv.
    destruct (Z.eq_dec v cur) as [-> | Hne].
    + rewrite Hlen_cur. pose proof (inv_len_nonneg g last Hinv last Hlast). lia.
    + unfold cur in Hne. fold n in Hne. rewrite Hlen' by lia.
      apply (inv_len_nonneg g last Hinv). fold n. lia.
  - intros v Hv. rewrite Hsize' in Hv. rewrite Hlen_cur.
    destruct (Z.eq_dec v cur) as [-> | Hne].
    + rewrite Hlen_cur. lia.
    + unfold cur in Hne. fold n in Hne. rewrite Hlen' by lia.
      pose proof (inv_len_last g last Hinv v ltac:(fold n; lia)). lia.
  - rewrite Hlen_cur, Hsize'. pose proof (inv_last_small g last Hinv). fold n in H. lia.
  - (* transitions *)
    intros p d q Hp Hq. rewrite Hsize' in Hp |- *.
    destruct (Z.eq_dec p cur) as [-> | Hne]; [rewrite Htr_cur in Hq; discriminate |].
    unfold cur in Hne. fold n in Hne.
    destruct (nc_tr_cases p d ltac:(lia)) as [(-> & Hin & Ht) | [_ Ht]];
      rewrite Ht in Hq.
    + inversion Hq; subst. rewrite Hlen_cur, Hlen' by lia.
      pose proof (inv_len_last g last Hinv p ltac:(fold n; lia)).
      unfold cur. fold n. lia.
    + destruct (inv_tr g last Hinv p d q ltac:(fold n; lia) Hq) as [H1 H2]. fold n in H1.
      rewrite !Hlen' by lia. lia.
  - (* E *)
    intros p d q Hp Hq. rewrite Hsize' in Hp.
    destruct (Z.eq_dec p cur) as [-> | Hne]; [rewrite Htr_cur in Hq; discriminate |].
    unfold cur in Hne. fold n in Hne.
    destruct (inv_link g last Hinv p ltac:(fold n; lia)) as [Hl1 Hl2]. fold n in Hl1.
    rewrite Hlink' by lia.
    destruct (nc_tr_cases p d ltac:(lia)) as [(-> & Hin & Ht) | [_ Ht]];
      rewrite Ht in Hq.
    + inversion Hq; subst q. apply Hxs in Hin as Hseg.
      destruct (segment_closed g last Hinv last p' p Hlast Hseg ltac:(lia)) as [Hs | Hs].
      * left. apply Htr_X. now apply Hxs.
      * right. destruct Hstop as [[-> _] | (Hp' & Ha & Htp & Hlp)]; [lia |].
        rewrite Hs, Hlink_cur, Htr_old, !Hlen' by
          (try lia; intros [_ Hi]; apply Hnone in Hi; congruence).
        split; [easy | lia].
    + destruct (inv_tr g last Hinv p d q ltac:(fold n; lia) Hq) as [Hq1 Hq2]. fold n in Hq1.
      destruct (inv_link g last Hinv q ltac:(fold n; lia)) as [Hlq _]. fold n in Hlq.
      rewrite Hlink', !Hlen' by lia.
      assert (Hsame : forall t, gtr g (glink g p) d = Some t ->
                gtr g' (glink g p) d = Some t).
      { intros t Ht'. rewrite Htr_old; [easy | lia |].
        intros [-> Hi]. apply Hnone in Hi. congruence. }
      destruct (inv_E g last Hinv p d q ltac:(fold n; lia) Hq) as [HE | [HE HE']].
      * left. now apply Hsame.
      * right. split; [now apply Hsame | easy].
  - (* E0 *)
    intros d q Hq.
    destruct (nc_tr_cases 0 d ltac:(lia)) as [(-> & Hin & Ht) | [_ Ht]];
      rewrite Ht in Hq.
    + inversion Hq; subst q. rewrite Hlink_cur.
      apply Hxs in Hin. apply segment_root in Hin; [| exact Hlast].
      destruct Hstop as [[_ ->] | (Hp' & _)]; [easy | lia].
    + destruct (inv_tr g last Hinv 0 d q ltac:(fold n; lia) Hq) as [Hq1 _]. fold n in Hq1.
      rewrite Hlink' by lia. apply (inv_E0 g last Hinv d q Hq).
  - (* F *)
    intros p1 p2 d1 d2 q Hp1 Hp2 H1 H2. rewrite Hsize' in Hp1, Hp2.
    destruct (Z.eq_dec p1 cur) as [-> | Hne1]; [rewrite Htr_cur in H1; discriminate |].
    destruct (Z.eq_dec p2 cur) as [-> | Hne2]; [rewrite Htr_cur in H2; discriminate |].
    unfold cur in Hne1, Hne2. fold n in Hne1, Hne2.
    destruct (nc_tr_cases p1 d1 ltac:(lia)) as [(-> & Hin1 & Ht1) | [_ Ht1]];
      rewrite Ht1 in H1;
      destruct (nc_tr_cases p2 d2 ltac:(lia)) as [(-> & Hin2 & Ht2) | [_ Ht2]];
      rewrite Ht2 in H2.
    + split; [easy |].
      apply Hxs in Hin1 as [Ha1 _]. apply Hxs in Hin2 as [Ha2 _].
      destruct (anc_linear g last p1 p2 Ha1 Ha2); [left | right]; apply nc_anc; (easy || lia).
    + inversion H1; subst q.
      destruct (inv_tr g last Hinv p2 d2 cur ltac:(fold n; lia) H2) as [Hq1 _].
      unfold cur in Hq1. lia.
    + inversion H2; subst q.
      destruct (inv_tr g last Hinv p1 d1 cur ltac:(fold n; lia) H1) as [Hq1 _].
      unfold cur in Hq1. lia.
    + destruct (inv_F g last Hinv p1 p2 d1 d2 q ltac:(fold n; lia) ltac:(fold n; lia) H1 H2)
        as [Hd [Ha | Ha]]; (split; [easy |]); [left | right]; apply nc_anc; (easy || lia).
Qed.

End StepNoClone.

(** ** One construction step with a clone *)

Section StepClone.

Variables (g g' : graph) (last : Z) (c : char) (p' q r' : Z) (xs rs : list Z).
Let n := gsize g.
Let cur := gsize g.
Let clone := gsize g + 1.

Hypothesis Hinv : Inv g last.
Hypothesis Hxs : forall x, In x xs <-> segment g last p' x.
Hypothesis Hnone : forall x, In x xs -> gtr g x c = None.
Hypothesis Hp' : 0 <= p' < n.
Hypothesis Hap : anc g last p'.
Hypothesis Htp : gtr g p' c = Some q.
Hypothesis Hlenq : glen g p' + 1 <> glen g q.
Hypothesis Hrs : forall x, In x rs <-> segment g p' r' x.
Hypothesis HRq : forall x, In x rs -> gtr g x c = Some q.
Hypothesis Hr' : r' = -1 \/ (0 <= r' < n /\ anc g p' r' /\ gtr g r' c <> Some q).
Hypothesis Hsize' : gsize g' = n + 2.
Hypothesis Hlink_cur : glink g' cur = clone.
Hypothesis Hlink_clone : glink g' clone = glink g q.
Hypothesis Hlink_q : glink g' q = clone.
Hypothesis Hlink' : forall v, 0 <= v < n -> v <> q -> glink g' v = glink g v.
Hypothesis Hlen' : forall v, 0 <= v < n -> glen g' v = glen g v.
Hypothesis Hlen_cur : glen g' cur = glen g last + 1.
Hypothesis Hlen_clone : glen g' clone = glen g p' + 1.
Hypothesis Htr_cur : forall d, gtr g' cur d = None.
Hypothesis Htr_X : forall x, In x xs -> gtr g' x c = Some cur.
Hypothesis Htr_R : forall x, In x rs -> gtr g' x c = Some clone.
Hypothesis Htr_old :
  forall v d, 0 <= v < n -> ~ (d = c /\ (In v xs \/ In v rs)) -> gtr g' v d = gtr g v d.
Hypothesis Htr_clone_X : In q xs -> gtr g' clone c = Some cur.
Hypothesis Htr_clone_old :
  forall d, ~ (d = c /\ In q xs) -> gtr g' clone d = gtr g q d.

Local Lemma cl_n_pos : 1 <= n.
Proof. apply (inv_size g last Hinv). Qed.

Local Lemma cl_last : 0 <= last < n.
Proof. apply (inv_last g last Hinv). Qed.

Local Lemma cl_q : 0 < q < n /\ glen g p' + 1 < glen g q.
Proof.
  destruct (inv_tr g last Hinv p' c q Hp' Htp) as [H1 H2]. fold n in H1. lia.
Qed.

Local Lemma cl_lq : 0 <= glink g q < n /\ glen g (glink g q) <= glen g p'.
Proof.
  destruct cl_q as [Hq _].
  destruct (inv_link g last Hinv q Hq) as [H1 _]. split; [easy |].
  apply (tr_link_len g last Hinv p' c q Hp' Htp).
Qed.

Local Lemma cl_p'_len : glen g p' < glen g last.
Proof.
  assert (Hne : last <> p').
  { intros <-. rewrite (inv_last_next g last Hinv) in Htp. discriminate. }
  destruct (anc_strict g last p' Hap Hne) as [Hl0 Ha'].
  apply (anc_len g last Hinv) in Ha'.
  destruct (inv_link g last Hinv last Hl0). lia.
Qed.

Local Lemma cl_xs_valid (x : Z) : In x xs -> 0 <= x < n.
Proof. intros H. apply Hxs in H. apply (segment_valid g last Hinv last p'); [apply cl_last | easy]. Qed.

Local Lemma cl_rs_valid (x : Z) : In x rs -> 0 <= x < n /\ glen g x <= glen g p'.
Proof.
  intros H. apply Hrs in H. split.
  - apply (segment_valid g last Hinv p' r'); easy.
  - destruct H as [H _]. now apply (anc_len g last Hinv).
Qed.

Local Lemma cl_p'_rs : In p' rs.
Proof.
  apply Hrs, segment_first.
  - intros <-. destruct Hr' as [-> | (_ & _ & H)]; [lia | congruence].
  - destruct Hr' as [-> | (_ & H & _)]; [now right | now left].
Qed.

Local Lemma cl_q_not_rs : ~ In q rs.
Proof.
  intros H. apply HRq in H. destruct cl_q as [Hq _].
  destruct (inv_tr g last Hinv q c q ltac:(fold n; lia) H). lia.
Qed.

Local Lemma cl_disjoint (x : Z) : In x xs -> In x rs -> False.
Proof. intros H1 H2. apply Hnone in H1. apply HRq in H2. congruence. Qed.

Local Lemma cl_tr_cases (v : Z) (d : char) :
  0 <= v < n ->
  (d = c /\ In v xs /\ gtr g' v d = Some cur)
  \/ (d = c /\ In v rs /\ gtr g' v d = Some clone)
  \/ (~ (d = c /\ (In v xs \/ In v rs)) /\ gtr g' v d = gtr g v d).
Proof.
  intros Hv. destruct (N.eq_dec d c) as [-> | Hd].
  - destruct (in_dec Z.eq_dec v xs) as [Hin | Hin]; [left; auto |].
    destruct (in_dec Z.eq_dec v rs) as [Hin2 | Hin2]; [right; left; auto |].
    right; right. split; [tauto |]. apply Htr_old; tauto.
  - right; right. split; [tauto |]. apply Htr_old; tauto.
Qed.

Local Lemma cl_clone_cases (d : char) :
  (d = c /\ In q xs /\ gtr g' clone d = Some cur)
  \/ (~ (d = c /\ In q xs) /\ gtr g' clone d = gtr g q d).
Proof.
  destruct (N.eq_dec d c) as [-> | Hd].
  - destruct (in_dec Z.eq_dec q xs) as [Hin | Hin]; [left; auto |].
    right. split; [tauto |]. apply Htr_clone_old; tauto.
  - right. split; [tauto |]. apply Htr_clone_old; tauto.
Qed.

Local Lemma cl_anc (a b : Z) : anc g a b -> 0 <= a < n -> anc g' a b.
Proof.
  induction 1 as [| v w Hv H IH]; intros Ha; [apply anc_refl |].
  destruct (inv_link g last Hinv v Hv) as [Hl _]. fold n in Hl.
  destruct (Z.eq_dec v q) as [-> | Hne].
  - apply anc_step; [rewrite Hsize'; lia |]. rewrite Hlink_q.
    apply anc_step; [rewrite Hsize'; unfold clone; fold n; lia |].
    rewrite Hlink_clone. now apply IH.
  - apply anc_step; [rewrite Hsize'; lia |]. rewrite Hlink' by easy. now apply IH.
Qed.

(** A state comparable with [q] is comparable with the clone. *)
Local Lemma cl_clone_cmp (p : Z) :
  0 <= p < n -> anc g p q \/ anc g q p -> anc g' p clone \/ anc g' clone p.
Proof.
  intros Hp H. destruct cl_q as [Hq _]. destruct cl_lq as [Hlq _].
  assert (Hqc : anc g' q clone).
  { apply anc_step; [rewrite Hsize'; lia |]. rewrite Hlink_q. apply anc_refl. }
  destruct H as [H | H].
  - left. apply (anc_trans g' p q clone); [now apply cl_anc | easy].
  - destruct (Z.eq_dec q p) as [<- | Hne]; [now left |]. right.
    destruct (anc_strict g q p H Hne) as [_ H'].
    apply anc_step; [rewrite Hsize'; unfold clone; fold n; lia |].
    rewrite Hlink_clone. apply cl_anc; easy.
Qed.

(** No source of [q] outside [rs] lies on the path from [p']. *)
Local Lemma cl_not_below (p : Z) :
  0 <= p < n -> gtr g p c = Some q -> ~ In p rs -> anc g p' p -> False.
Proof.
  intros Hp Hpq Hnr Ha.
  assert (Hns : ~ segment g p' r' p) by (intros H; now apply Hnr, Hrs).
  destruct Hr' as [-> | (Hr & Har & Hrq)].
  { apply Hns. split; [easy | now left]. }
  assert (Hb : anc g r' p).
  { apply (segment_below g p' r' p); try easy. lia. }
  destruct (tr_along g last Hinv p' r' c q Har Hp' Htp) as (b & Hb1 & Hb2).
  destruct (tr_along g last Hinv r' p c b Hb Hr Hb1) as (y & Hy1 & Hy2).
  rewrite Hpq in Hy1. inversion Hy1; subst y.
  apply Hrq. rewrite Hb1. f_equal. symmetry. now apply (anc_antisym g last Hinv).
Qed.

Local Lemma cl_source_above (p : Z) (d : char) :
  0 <= p < n -> gtr g p d = Some q -> ~ In p rs ->
  d = c /\ anc g p p' /\ p <> p' /\ 0 < p.
Proof.
  intros Hp Hpq Hnr.
  destruct (inv_F g last Hinv p p' d c q Hp Hp' Hpq Htp) as [-> Hcmp].
  split; [easy |].
  assert (Hne : p <> p') by (intros ->; apply Hnr, cl_p'_rs).
  destruct Hcmp as [H | H]; [| exfalso; now apply (cl_not_below p)].
  split; [easy |]. split; [easy |].
  destruct (anc_strict g p p' H Hne). lia.
Qed.

Lemma step_clone : Inv g' cur.
Proof.
  pose proof cl_n_pos as Hn. pose proof cl_last as Hlast.
  destruct cl_q as [Hq Hqlen]. destruct cl_lq as [Hlq Hlqlen].
  pose proof cl_p'_len as Hplen.
  pose proof (inv_len_nonneg g last Hinv) as Hnonneg. fold n in Hnonneg.
  constructor.
  - lia.
  - rewrite Hlink' by lia. apply (inv_root_link g last Hinv).
  - rewrite Hlen' by lia. apply (inv_root_len g last Hinv).
  - unfold cur. fold n. lia.
  - apply Htr_cur.
  - (* links *)
    intros v Hv. rewrite Hsize' in Hv |- *.
    destruct (Z.eq_dec v cur) as [-> | Hne1].
    { rewrite Hlink_cur, Hlen_cur, Hlen_clone. unfold clone. fold n. lia. }
    destruct (Z.eq_dec v clone) as [-> | Hne2].
    { rewrite Hlink_clone, Hlen_clone, Hlen' by easy. lia. }
    unfold cur, clone in Hne1, Hne2. fold n in Hne1, Hne2.
    destruct (Z.eq_dec v q) as [-> | Hne3].
    { rewrite Hlink_q, Hlen_clone, Hlen' by lia. unfold clone. fold n. lia. }
    destruct (inv_link g last Hinv v ltac:(fold n; lia)) as [H1 H2]. fold n in H1.
    rewrite Hlink', !Hlen' by lia. lia.
  - intros v Hv. rewrite Hsize' in Hv.
    destruct (Z.eq_dec v cur) as [-> | Hne1].
    { rewrite Hlen_cur. specialize (Hnonneg last Hlast). lia. }
    destruct (Z.eq_dec v clone) as [-> | Hne2].
    { rewrite Hlen_clone. specialize (Hnonneg p' Hp'). lia. }
    unfold cur, clone in Hne1, Hne2. fold n in Hne1, Hne2.
    rewrite Hlen' by lia. apply Hnonneg. lia.
  - intros v Hv. rewrite Hsize' in Hv. rewrite Hlen_cur.
    destruct (Z.eq_dec v cur) as [-> | Hne1]; [rewrite Hlen_cur; lia |].
    destruct (Z.eq_dec v clone) as [-> | Hne2]; [rewrite Hlen_clone; lia |].
    unfold cur, clone in Hne1, Hne2. fold n in Hne1, Hne2.
    rewrite Hlen' by lia.
    pose proof (inv_len_last g last Hinv v ltac:(fold n; lia)). lia.
  - rewrite Hlen_cur, Hsize'. pose proof (inv_last_small g last Hinv). fold n in H. lia.
  - (* transitions *)
    intros p d t Hp Ht. rewrite Hsize' in Hp |- *.
    destruct (Z.eq_dec p cur) as [-> | Hne1]; [rewrite Htr_cur in Ht; discriminate |].
    destruct (Z.eq_dec p clone) as [-> | Hne2].
    { destruct (cl_clone_cases d) as [(-> & Hin & Hc) | [_ Hc]]; rewrite Hc in Ht.
      - inversion Ht; subst t. rewrite Hlen_cur, Hlen_clone. unfold cur. fold n. lia.
      - destruct (inv_tr g last Hinv q d t ltac:(fold n; lia) Ht) as [H1 H2]. fold n in H1.
        rewrite Hlen_clone, Hlen' by lia. lia. }
    unfold cur, clone in Hne1, Hne2. fold n in Hne1, Hne2.
    destruct (cl_tr_cases p d ltac:(lia)) as [(-> & Hin & Hc) | [(-> & Hin & Hc) | [_ Hc]]];
      rewrite Hc in Ht.
    + inversion Ht; subst t. rewrite Hlen_cur, Hlen' by lia.
      pose proof (inv_len_last g last Hinv p ltac:(fold n; lia)).
      unfold cur. fold n. lia.
    + inversion Ht; subst t. rewrite Hlen_clone, Hlen' by lia.
      destruct (cl_rs_valid p Hin). unfold clone. fold n. lia.
    + destruct (inv_tr g last Hinv p d t ltac:(fold n; lia) Ht) as [H1 H2]. fold n in H1.
      rewrite !Hlen' by lia. lia.
  - (* E *)
    intros p d t Hp Ht. rewrite Hsize' in Hp.
    destruct (Z.eq_dec p cur) as [-> | Hne1]; [rewrite Htr_cur in Ht; discriminate |].
    destruct (Z.eq_dec p clone) as [-> | Hne2].
    { rewrite Hlink_clone.
      destruct (cl_clone_cases d) as [(-> & Hin & Hc) | [Hnx Hc]]; rewrite Hc in Ht.
      - inversion Ht; subst t. apply Hxs in Hin as Hseg.
        destruct (segment_closed g last Hinv last p' q Hlast Hseg ltac:(lia)) as [Hs | Hs].
        + left. apply Htr_X. now apply Hxs.
        + right. rewrite Hs, Hlink_cur, Hlen_clone, Hlen' by easy.
          split; [apply Htr_R, cl_p'_rs | easy].
      - destruct (inv_tr g last Hinv q d t ltac:(fold n; lia) Ht) as [Ht1 Ht2]. fold n in Ht1.
        destruct (inv_link g last Hinv t ltac:(fold n; lia)) as [Hlt _]. fold n in Hlt.
        assert (Htq : t <> q) by (intros ->; lia).
        rewrite (Hlink' t) by lia. rewrite !Hlen' by lia.
        assert (Hsame : gtr g' (glink g q) d = gtr g (glink g q) d).
        { apply Htr_old; [easy |]. intros [-> [Hi | Hi]].
          - apply Hnone in Hi.
            destruct (inv_E g last Hinv q c t ltac:(fold n; lia) Ht) as [HE | [HE _]];
              congruence.
          - destruct (cl_rs_valid _ Hi) as [_ Hil]. apply HRq in Hi.
            destruct (inv_E g last Hinv q c t ltac:(fold n; lia) Ht) as [HE | [HE HE']].
            + congruence.
            + rewrite Hi in HE. inversion HE as [E]. rewrite <- E in HE'. lia. }
        rewrite Hsame. apply (inv_E g last Hinv q d t); [fold n; lia | easy]. }
    unfold cur, clone in Hne1, Hne2. fold n in Hne1, Hne2.
    destruct (cl_tr_cases p d ltac:(lia)) as [(-> & Hin & Hc) | [(-> & Hin & Hc) | [Hno Hc]]];
      rewrite Hc in Ht.
    + (* p in xs *)
      inversion Ht; subst t.
      destruct (Z.eq_dec p q) as [-> | Hpq].
      { left. rewrite Hlink_q. now apply Htr_clone_X. }
      rewrite Hlink' by lia. apply Hxs in Hin as Hseg.
      destruct (segment_closed g last Hinv last p' p Hlast Hseg ltac:(lia)) as [Hs | Hs].
      * left. apply Htr_X. now apply Hxs.
      * right. rewrite Hs, Hlink_cur, Hlen_clone, Hlen' by easy.
        split; [apply Htr_R, cl_p'_rs | easy].
    + (* p in rs *)
      inversion Ht; subst t.
      assert (Hpq : p <> q) by (intros ->; now apply cl_q_not_rs).
      destruct (cl_rs_valid p Hin) as [Hpv _].
      destruct (inv_link g last Hinv p ltac:(fold n; lia)) as [Hl1 _]. fold n in Hl1.
      rewrite Hlink', Hlink_clone by lia. apply Hrs in Hin as Hseg.
      destruct (segment_closed g last Hinv p' r' p Hp' Hseg ltac:(lia)) as [Hs | Hs].
      * left. apply Htr_R. now apply Hrs.
      * right. rewrite !Hlen' by lia.
        destruct Hr' as [-> | (Hr & Har & Hrq)]; [lia |].
        assert (Hsame : gtr g' r' c = gtr g r' c).
        { apply Htr_old; [easy |]. intros [_ [Hi | Hi]].
          - apply Hnone in Hi. apply HRq in Hin.
            destruct (inv_E g last Hinv p c q ltac:(fold n; lia) Hin) as [HE | [HE _]];
              rewrite Hs in HE; congruence.
          - apply HRq in Hi. congruence. }
        apply HRq in Hin.
        destruct (inv_E g last Hinv p c q ltac:(fold n; lia) Hin) as [HE | [HE HE']];
          rewrite Hs in HE; [congruence |].
        rewrite Hs, Hsame. rewrite Hs in HE'. easy.
    + (* an old transition *)
      destruct (inv_tr g last Hinv p d t ltac:(fold n; lia) Ht) as [Ht1 Ht2]. fold n in Ht1.
      destruct (Z.eq_dec p q) as [-> | Hpq].
      { left. rewrite Hlink_q, Htr_clone_old; [easy | tauto]. }
      destruct (inv_link g last Hinv p ltac:(fold n; lia)) as [Hl1 Hl2]. fold n in Hl1.
      rewrite Hlink' by lia.
      destruct (Z.eq_dec t q) as [-> | Htq].
      * (* a source of q that is not redirected *)
        assert (Hnr : ~ In p rs).
        { intros Hi. apply Hno. split; [| now right].
          apply HRq in Hi.
          now destruct (inv_F g last Hinv p p d c q ltac:(fold n; lia) ltac:(fold n; lia) Ht Hi). }
        destruct (cl_source_above p d ltac:(lia) Ht Hnr) as (-> & Hpa & Hpne & Hp0).
        destruct (anc_strict g p p' Hpa Hpne) as [_ Hpa'].
        rewrite Hlink_q, Hlen_clone, Hlen' by lia.
        destruct (inv_E g last Hinv p c q ltac:(fold n; lia) Ht) as [HE | [HE HE']].
        -- destruct (in_dec Z.eq_dec (glink g p) rs) as [Hi | Hi].
           ++ right. split; [now apply Htr_R |].
              apply Hrs in Hi as [Hi _].
              rewrite (anc_antisym g last Hinv _ _ Hpa' Hi). reflexivity.
           ++ left. rewrite Htr_old; [easy | easy |].
              intros [_ [Hx | Hx]]; [apply Hnone in Hx; congruence | easy].
        -- exfalso.
           destruct (tr_along g last Hinv (glink g p) p' c (glink g q) Hpa' Hl1 HE)
             as (y & Hy1 & Hy2).
           rewrite Htp in Hy1. inversion Hy1; subst y.
           apply (anc_len g last Hinv) in Hy2.
           destruct (inv_link g last Hinv q Hq). lia.
      * destruct (inv_link g last Hinv t ltac:(fold n; lia)) as [Hlt _]. fold n in Hlt.
        rewrite (Hlink' t), !Hlen' by lia.
        assert (Hsame : gtr g' (glink g p) d = gtr g (glink g p) d).
        { apply Htr_old; [easy |]. intros [-> [Hi | Hi]].
          - apply Hnone in Hi.
            destruct (inv_E g last Hinv p c t ltac:(fold n; lia) Ht) as [HE | [HE _]];
              congruence.
          - destruct (cl_rs_valid _ Hi) as [_ Hil]. apply HRq in Hi.
            destruct (inv_E g last Hinv p c t ltac:(fold n; lia) Ht) as [HE | [HE HE']].
            + congruence.
            + rewrite Hi in HE. inversion HE as [E]. rewrite <- E in HE'.
              (* glen q = glen (glink p) + 1 <= glen p' + 1 *)
              lia. }
        rewrite Hsame. apply (inv_E g last Hinv p d t); [fold n; lia | easy].
  - (* E0 *)
    intros d t Ht.
    destruct (cl_tr_cases 0 d ltac:(lia)) as [(-> & Hin & Hc) | [(-> & Hin & Hc) | [Hno Hc]]];
      rewrite Hc in Ht.
    + apply Hxs in Hin. apply segment_root in Hin; [lia | exact Hlast].
    + inversion Ht; subst t. rewrite Hlink_clone.
      apply HRq in Hin. apply (inv_E0 g last Hinv c q Hin).
    + destruct (inv_tr g last Hinv 0 d t ltac:(fold n; lia) Ht) as [Ht1 _]. fold n in Ht1.
      destruct (Z.eq_dec t q) as [-> | Htq].
      * exfalso.
        assert (Hnr : ~ In 0 rs).
        { intros Hi. apply Hno. split; [| now right]. apply HRq in Hi.
          now destruct (inv_F g last Hinv 0 0 d c q ltac:(fold n; lia) ltac:(fold n; lia) Ht Hi). }
        destruct (cl_source_above 0 d ltac:(lia) Ht Hnr) as (_ & _ & _ & H0). lia.
      * rewrite Hlink' by lia. apply (inv_E0 g last Hinv d t Ht).
  - (* F *)
    intros p1 p2 d1 d2 t Hp1 Hp2 H1 H2. rewrite Hsize' in Hp1, Hp2.
    destruct (Z.eq_dec p1 cur) as [-> | Hn1]; [rewrite Htr_cur in H1; discriminate |].
    destruct (Z.eq_dec p2 cur) as [-> | Hn2]; [rewrite Htr_cur in H2; discriminate |].
    assert (Hcc : forall d, gtr g' clone d = Some t ->
              (d = c /\ In q xs /\ t = cur) \/ (gtr g q d = Some t /\ 0 < t < n)).
    { intros d Hd. destruct (cl_clone_cases d) as [(-> & Hin & Hc) | [_ Hc]];
        rewrite Hc in Hd.
      - left. inversion Hd. easy.
      - right. split; [easy |].
        destruct (inv_tr g last Hinv q d t ltac:(fold n; lia) Hd) as [Ht1 _]. easy. }
    assert (Hoo : forall p d, 0 <= p < n -> gtr g' p d = Some t ->
              (d = c /\ In p xs /\ t = cur) \/ (d = c /\ In p rs /\ t = clone)
              \/ (gtr g p d = Some t /\ 0 < t < n)).
    { intros p d Hp Hd.
      destruct (cl_tr_cases p d Hp) as [(-> & Hin & Hc) | [(-> & Hin & Hc) | [_ Hc]]];
        rewrite Hc in Hd.
      - left. inversion Hd. easy.
      - right; left. inversion Hd. easy.
      - right; right. split; [easy |].
        destruct (inv_tr g last Hinv p d t ltac:(fold n; lia) Hd) as [Ht1 _]. easy. }
    assert (Hflip : forall a b, anc g' a b \/ anc g' b a -> anc g' b a \/ anc g' a b) by tauto.
    unfold cur, clone in Hn1, Hn2, Hcc, Hoo |- *. fold n in Hn1, Hn2, Hcc, Hoo |- *.
    destruct (Z.eq_dec p1 (n + 1)) as [-> | Hc1]; destruct (Z.eq_dec p2 (n + 1)) as [-> | Hc2].
    + (* clone, clone *)
      split; [| left; apply anc_refl].
      destruct (Hcc d1 H1) as [(-> & _ & ->) | [Hq1 Ht1]];
        destruct (Hcc d2 H2) as [(-> & _ & E) | [Hq2 Ht2]]; try easy; try lia.
      now destruct (inv_F g last Hinv q q d1 d2 t ltac:(fold n; lia) ltac:(fold n; lia) Hq1 Hq2).
    + (* clone, old *)
      destruct (Hcc d1 H1) as [(-> & Hqx & ->) | [Hq1 Ht1]];
        destruct (Hoo p2 d2 ltac:(lia) H2) as [(-> & Hi2 & E) | [(-> & Hi2 & E) | [Ho2 Ht2]]];
        try lia.
      * split; [easy |]. apply Hflip, cl_clone_cmp; [lia |].
        apply Hxs in Hqx as [Ha1 _]. apply Hxs in Hi2 as [Ha2 _].
        destruct (anc_linear g last q p2 Ha1 Ha2); tauto.
      * destruct (inv_F g last Hinv q p2 d1 d2 t ltac:(fold n; lia) ltac:(fold n; lia) Hq1 Ho2)
          as [-> Hcmp].
        split; [easy |]. apply Hflip, cl_clone_cmp; [lia | tauto].
    + (* old, clone *)
      destruct (Hcc d2 H2) as [(-> & Hqx & ->) | [Hq2 Ht2]];
        destruct (Hoo p1 d1 ltac:(lia) H1) as [(-> & Hi1 & E) | [(-> & Hi1 & E) | [Ho1 Ht1]]];
        try lia.
      * split; [easy |]. apply cl_clone_cmp; [lia |].
        apply Hxs in Hqx as [Ha1 _]. apply Hxs in Hi1 as [Ha2 _].
        destruct (anc_linear g last q p1 Ha1 Ha2); tauto.
      * destruct (inv_F g last Hinv p1 q d1 d2 t ltac:(fold n; lia) ltac:(fold n; lia) Ho1 Hq2)
          as [-> Hcmp].
        split; [easy |]. apply cl_clone_cmp; [lia | tauto].
    + (* old, old *)
      destruct (Hoo p1 d1 ltac:(lia) H1) as [(-> & Hi1 & E1) | [(-> & Hi1 & E1) | [Ho1 Ht1]]];
        destruct (Hoo p2 d2 ltac:(lia) H2) as [(-> & Hi2 & E2) | [(-> & Hi2 & E2) | [Ho2 Ht2]]];
        try lia.
      * split; [easy |].
        apply Hxs in Hi1 as [Ha1 _]. apply Hxs in Hi2 as [Ha2 _].
        destruct (anc_linear g last p1 p2 Ha1 Ha2); [left | right]; apply cl_anc; (easy || lia).
      * split; [easy |].
        apply Hrs in Hi1 as [Ha1 _]. apply Hrs in Hi2 as [Ha2 _].
        destruct (anc_linear g p' p1 p2 Ha1 Ha2); [left | right]; apply cl_anc; (easy || lia).
      * destruct (inv_F g last Hinv p1 p2 d1 d2 t ltac:(fold n; lia) ltac:(fold n; lia) Ho1 Ho2)
          as [Hd [Ha | Ha]]; (split; [easy |]); [left | right]; apply cl_anc; (easy || lia).
Qed.

End StepClone.

(** ** Reading and writing the array of states *)

Section NodeAccess.

Import SuffixAutomaton.

Lemma node_app_old (ns : list SAMNode) (x : SAMNode) (v : Z) :
  0 <= v < len ns -> node (ns ++ [x]) v = node ns v.
Proof.
  intros Hv. unfold node, get, len in *.
  destruct (Z.ltb_spec v 0); [lia |]. rewrite lookup_app_l by lia. reflexivity.
Qed.

Lemma node_app_new (ns : list SAMNode) (x : SAMNode) : node (ns ++ [x]) (len ns) = x.
Proof.
  unfold node, get, len. destruct (Z.ltb_spec (Z.of_nat (length ns)) 0); [lia |].
  rewrite list_lookup_middle by lia. reflexivity.
Qed.

Lemma len_update (ns : list SAMNode) (i : Z) (f : SAMNode -> SAMNode) :
  len (update ns i f) = len ns.
Proof.
  unfold update, len. destruct (i <? 0); [easy |]. now rewrite length_alter.
Qed.

Lemma length_update (ns : list SAMNode) (i : Z) (f : SAMNode -> SAMNode) :
  length (update ns i f) = length ns.
Proof.
  unfold update. destruct (i <? 0); [easy |]. now rewrite length_alter.
Qed.

Lemma node_update_same (ns : list SAMNode) (i : Z) (f : SAMNode -> SAMNode) :
  0 <= i < len ns -> node (update ns i f) i = f (node ns i).
Proof.
  intros Hi. unfold node, update, get, len in *.
  destruct (Z.ltb_spec i 0); [lia |].
  rewrite list_lookup_alter. destruct (decide (Z.to_nat i = Z.to_nat i)); [| easy].
  destruct (lookup_lt_is_Some_2 ns (Z.to_nat i) ltac:(lia)) as [y Hy].
  rewrite Hy. reflexivity.
Qed.

Lemma node_update_other (ns : list SAMNode) (i v : Z) (f : SAMNode -> SAMNode) :
  v <> i -> node (update ns i f) v = node ns v.
Proof.
  intros Hne. unfold node, update, get.
  destruct (Z.ltb_spec i 0); [easy |].
  destruct (Z.ltb_spec v 0); [easy |].
  rewrite list_lookup_alter_ne by lia. reflexivity.
Qed.

Lemma node_outside (ns : list SAMNode) (v : Z) : len ns <= v -> node ns v = newNode 0.
Proof. intros H. unfold node. now rewrite get_ge_len. Qed.

Lemma extendLoop_walk (fuel : nat) (c : char) (cur : Z) (ns : list SAMNode) (p : Z) :
  extendLoop fuel c cur ns p
  = walk fuel (fun o => negb (bool_decide (is_Some o))) c cur ns p.
Proof.
  revert ns p. induction fuel as [| fuel IH]; intros ns p; [reflexivity |].
  cbn [extendLoop walk]. unfold hasNext. rewrite IH. reflexivity.
Qed.

Lemma redirectLoop_walk (fuel : nat) (c : char) (q clone : Z) (ns : list SAMNode) (p : Z) :
  redirectLoop fuel c q clone ns p
  = walk fuel (fun o => bool_decide (o = Some q)) c clone ns p.
Proof.
  revert ns p. induction fuel as [| fuel IH]; intros ns p; [reflexivity |].
  cbn [redirectLoop walk]. rewrite IH. reflexivity.
Qed.

End NodeAccess.

(** ** The loops of [addChar] *)

Section Walk.

Import SuffixAutomaton.

Variables (g : graph) (last a : Z) (c : char) (target : Z) (test : option Z -> bool).
Variable nsB : list SAMNode.

Hypothesis Hinv : Inv g last.
Hypothesis Ha : 0 <= a < gsize g.
Hypothesis Hsize : gsize g <= len nsB.
Hypothesis Hlink : forall v, 0 <= v < gsize g -> link (node nsB v) = glink g v.
Hypothesis Htr : forall v, 0 <= v < gsize g -> anc g a v -> next (node nsB v) !! c = gtr g v c.

Lemma segment_extend (p x : Z) :
  0 <= p < gsize g -> anc g a p ->
  segment g a (glink g p) x <-> x = p \/ segment g a p x.
Proof.
  intros Hp Hap. split.
  - intros [Hax Hx].
    destruct (Z.eq_dec x p) as [-> | Hne]; [now left | right].
    split; [easy | right]. split; [| easy].
    destruct (anc_linear g a x p Hax Hap) as [H | H]; [easy |].
    destruct (anc_strict g p x H ltac:(congruence)) as [Hp0 H'].
    destruct Hx as [Hx | [Hx Hx']].
    + destruct (inv_link g last Hinv p Hp0). lia.
    + exfalso. apply Hx'. now apply (anc_antisym g last Hinv).
  - intros [-> | [Hax Hx]].
    + split; [easy |].
      destruct (Z.eq_dec p 0) as [-> | Hp0].
      * left. apply (inv_root_link g last Hinv).
      * right. destruct (inv_link g last Hinv p ltac:(lia)) as [_ Hl].
        split; [apply anc_step; [lia | apply anc_refl] | intros E; rewrite <- E in Hl; lia].
    + split; [easy |].
      destruct Hx as [-> | [Hx Hx']]; [lia |].
      destruct (Z.eq_dec p 0) as [-> | Hp0].
      * left. apply (inv_root_link g last Hinv).
      * right. destruct (inv_link g last Hinv p ltac:(lia)) as [_ Hl].
        split.
        -- apply (anc_trans g x p); [easy |]. apply anc_step; [lia | apply anc_refl].
        -- intros E. apply (anc_len g last Hinv) in Hx. rewrite <- E in Hl. lia.
Qed.

Lemma walk_start : WalkState g a c target test nsB nsB a [].
Proof.
  constructor; try easy.
  - right. split; [easy | apply anc_refl].
  - intros x. split; [easy |]. intros [H1 [H2 | [H2 H3]]]; [lia |].
    apply H3. now apply (anc_antisym g last Hinv).
Qed.

Lemma walk_spec (fuel : nat) :
  forall ns p xs,
    WalkState g a c target test nsB ns p xs ->
    (p = -1 \/ glen g p < Z.of_nat fuel) ->
    exists ns' p' xs',
      walk fuel test c target ns p = (ns', p')
      /\ WalkState g a c target test nsB ns' p' xs'
      /\ (p' = -1 \/ test (gtr g p' c) = false).
Proof.
  induction fuel as [| fuel IH]; intros ns p xs Hs Hm.
  { exists ns, p, xs. split; [reflexivity |]. split; [easy |]. left.
    destruct Hm as [-> | Hm]; [easy |].
    destruct (ws_pos _ _ _ _ _ _ _ _ _ Hs) as [-> | [Hp _]]; [easy |].
    pose proof (inv_len_nonneg g last Hinv p Hp). lia. }
  cbn [walk].
  destruct (Z.eqb_spec p (-1)) as [-> | Hp1].
  { exists ns, (-1), xs. cbn. auto. }
  destruct (ws_pos _ _ _ _ _ _ _ _ _ Hs) as [-> | [Hp Hap]]; [easy |].
  assert (Hnotin : ~ In p xs).
  { intros H. apply (ws_seg _ _ _ _ _ _ _ _ _ Hs) in H as [_ [H | [_ H]]]; [lia | easy]. }
  assert (Hread : next (node ns p) !! c = gtr g p c).
  { rewrite (ws_keep _ _ _ _ _ _ _ _ _ Hs) by tauto. now apply Htr. }
  rewrite Hread. cbn [negb andb].
  destruct (test (gtr g p c)) eqn:Htest.
  2:{ exists ns, p, xs. auto. }
  rewrite (ws_link _ _ _ _ _ _ _ _ _ Hs), Hlink by easy.
  assert (Hpl : 0 <= p < len ns).
  { rewrite (ws_len _ _ _ _ _ _ _ _ _ Hs). lia. }
  apply (IH _ _ (p :: xs)).
  - constructor.
    + rewrite len_update. apply (ws_len _ _ _ _ _ _ _ _ _ Hs).
    + destruct (Z.eq_dec p 0) as [-> | Hp0].
      * left. apply (inv_root_link g last Hinv).
      * right. destruct (inv_link g last Hinv p ltac:(lia)) as [Hl _].
        split; [easy |]. apply (anc_trans g a p); [easy |].
        apply anc_step; [lia | apply anc_refl].
    + intros x. rewrite (segment_extend p x Hp Hap). cbn [In].
      rewrite (ws_seg _ _ _ _ _ _ _ _ _ Hs). intuition congruence.
    + intros x [<- | Hx]; [easy |]. now apply (ws_test _ _ _ _ _ _ _ _ _ Hs).
    + intros v. destruct (Z.eq_dec v p) as [-> | Hne].
      * rewrite node_update_same by easy. cbn. apply (ws_link _ _ _ _ _ _ _ _ _ Hs).
      * rewrite node_update_other by easy. apply (ws_link _ _ _ _ _ _ _ _ _ Hs).
    + intros v. destruct (Z.eq_dec v p) as [-> | Hne].
      * rewrite node_update_same by easy. cbn. apply (ws_nlen _ _ _ _ _ _ _ _ _ Hs).
      * rewrite node_update_other by easy. apply (ws_nlen _ _ _ _ _ _ _ _ _ Hs).
    + intros x Hx. destruct (Z.eq_dec x p) as [-> | Hne].
      * rewrite node_update_same by easy. cbn. apply lookup_insert_eq.
      * rewrite node_update_other by easy. destruct Hx as [<- | Hx]; [easy |].
        now apply (ws_set _ _ _ _ _ _ _ _ _ Hs).
    + intros v d Hvd. destruct (Z.eq_dec v p) as [-> | Hne].
      * rewrite node_update_same by easy. cbn.
        rewrite lookup_insert_ne.
        -- apply (ws_keep _ _ _ _ _ _ _ _ _ Hs). cbn [In] in Hvd. tauto.
        -- intros <-. apply Hvd. split; [easy | now left].
      * rewrite node_update_other by easy.
        apply (ws_keep _ _ _ _ _ _ _ _ _ Hs). cbn [In] in Hvd. tauto.
  - destruct (Z.eq_dec p 0) as [-> | Hp0].
    + left. apply (inv_root_link g last Hinv).
    + right. destruct (inv_link g last Hinv p ltac:(lia)) as [_ Hl].
      destruct Hm as [-> | Hm]; [easy | lia].
Qed.

End Walk.

(** ** [addChar] preserves the invariant *)

Section AddChar.

Import SuffixAutomaton.

Lemma addChar_inv (c : char) (sam : t) :
  Inv (view (nodes sam)) (last sam) ->
  Inv (view (nodes (addChar c sam))) (last (addChar c sam)).
Proof.
  destruct sam as [ns l]. cbn [nodes last]. intros Hinv.
  pose proof (inv_last _ _ Hinv) as Hl.
  pose proof (inv_last_small _ _ Hinv) as Hsmall.
  pose proof (inv_len_last _ _ Hinv) as Hlenlast.
  pose proof (inv_len_nonneg _ _ Hinv) as Hnonneg.
  unfold addChar. cbn [nodes last].
  remember (view ns) as g eqn:Eg.
  assert (Hgs : gsize g = len ns) by now subst g.
  assert (Hgl : forall v, glink g v = link (node ns v)) by now subst g.
  assert (Hgn : forall v, glen g v = nlen (node ns v)) by now subst g.
  assert (Hgt : forall v d, gtr g v d = next (node ns v) !! d) by now subst g.
  rewrite <- !Hgn. rewrite <- Hgs in *.
  set (n := gsize g) in *.
  set (curNode := mkNode ∅ (-1) (glen g l + 1) (glen g l + 1 - 1)
                    (Fin (glen g l + 1 - 1)) (Fin (glen g l + 1 - 1))).
  set (ns0 := ns ++ [curNode]).
  assert (Hlen0 : len ns0 = n + 1).
  { unfold ns0. rewrite len_app, <- Hgs. reflexivity. }
  assert (Hold0 : forall v, 0 <= v < n -> node ns0 v = node ns v).
  { intros v Hv. apply node_app_old. rewrite <- Hgs. exact Hv. }
  assert (Hcur0 : node ns0 n = curNode).
  { rewrite Hgs. apply node_app_new. }
  rewrite extendLoop_walk.
  assert (Hlink0 : forall v, 0 <= v < n -> link (node ns0 v) = glink g v).
  { intros v Hv. now rewrite Hold0, Hgl. }
  assert (Htr0 : forall v d, 0 <= v < n -> next (node ns0 v) !! d = gtr g v d).
  { intros v d Hv. now rewrite Hold0, Hgt. }
  destruct (walk_spec g l l c n (fun o => negb (bool_decide (is_Some o))) ns0
              Hinv Hl ltac:(lia) Hlink0 (fun v Hv _ => Htr0 v c Hv)
              (length ns0) ns0 l [] (walk_start g l l c n _ ns0 Hinv Hl))
    as (ns1 & p & xs & Hw & Hs & Hstop).
  { right. unfold len in Hlen0. lia. }
  rewrite Hw. cbn [nodes last].
  destruct Hs as [Hlen1 Hpos Hseg Htest Hlink1 Hnlen1 Hset Hkeep].
  assert (Hxs_valid : forall x, In x xs -> 0 <= x < n).
  { intros x Hx. apply Hseg in Hx. now apply (segment_valid g l Hinv l p). }
  assert (Hnone : forall x, In x xs -> gtr g x c = None).
  { intros x Hx. apply Htest in Hx. apply negb_true_iff, bool_decide_eq_false in Hx.
    destruct (gtr g x c); [exfalso; apply Hx; eauto | reflexivity]. }
  assert (A1 : forall v, 0 <= v < n -> link (node ns1 v) = glink g v).
  { intros v Hv. now rewrite Hlink1, Hlink0. }
  assert (A2 : forall v, 0 <= v < n -> nlen (node ns1 v) = glen g v).
  { intros v Hv. now rewrite Hnlen1, Hold0, Hgn. }
  assert (A3 : nlen (node ns1 n) = glen g l + 1).
  { now rewrite Hnlen1, Hcur0. }
  assert (A4 : forall d, next (node ns1 n) !! d = None).
  { intros d. rewrite Hkeep, Hcur0; [reflexivity |].
    intros [_ Hx]. apply Hxs_valid in Hx. lia. }
  assert (A6 : forall v d, 0 <= v < n -> ~ (d = c /\ In v xs) ->
            next (node ns1 v) !! d = gtr g v d).
  { intros v d Hv Hvd. now rewrite Hkeep, Htr0. }
  rewrite Hlen0 in Hlen1.
  assert (Hfin : forall lcur,
            (p = -1 /\ lcur = 0)
            \/ (0 <= p < n /\ anc g l p /\ gtr g p c = Some lcur
                /\ glen g p + 1 = glen g lcur) ->
            Inv (view (update ns1 n (setLink lcur))) n).
  { intros lcur Hcase.
    assert (Hn' : forall v, v <> n ->
              node (update ns1 n (setLink lcur)) v = node ns1 v).
    { intros v Hv. now apply node_update_other. }
    assert (Hc' : node (update ns1 n (setLink lcur)) n = setLink lcur (node ns1 n)).
    { apply node_update_same. lia. }
    apply (step_noclone g _ l c p lcur xs Hinv Hseg Hnone Hcase); cbn [view gsize glink glen gtr].
    - rewrite len_update. exact Hlen1.
    - intros v Hv. rewrite Hn' by (unfold n in *; lia). now apply A1.
    - fold n. now rewrite Hc'.
    - intros v Hv. rewrite Hn' by (unfold n in *; lia). now apply A2.
    - fold n. rewrite Hc'. exact A3.
    - intros d. fold n. rewrite Hc'. apply A4.
    - intros x Hx. fold n. specialize (Hxs_valid x Hx). rewrite Hn' by lia. now apply Hset.
    - intros v d Hv Hvd. rewrite Hn' by (unfold n in *; lia). now apply A6. }
  destruct (Z.eqb_spec p (-1)) as [Hp1 | Hp1].
  { apply Hfin. now left. }
  destruct Hpos as [Hpos | [Hp Hap]]; [easy |].
  destruct Hstop as [Hstop | Hstop]; [easy |].
  apply negb_false_iff, bool_decide_eq_true in Hstop. destruct Hstop as [q Hq].
  assert (Hpx : ~ In p xs).
  { intros Hx. apply Hnone in Hx. congruence. }
  assert (Hgq : getNext ns1 p c = q).
  { unfold getNext. rewrite A6, Hq by tauto. reflexivity. }
  rewrite Hgq.
  destruct (inv_tr g l Hinv p c q Hp Hq) as [Hqv Hqlen]. fold n in Hqv.
  rewrite !A2 by lia.
  destruct (Z.eqb_spec (glen g p + 1) (glen g q)) as [Heq | Hneq].
  { apply Hfin. right. auto. }
  rewrite Hlen1.
  set (cloneNode := mkNode (next (node ns1 q)) (link (node ns1 q)) (glen g p + 1)
                      (firstPos (node ns1 q)) (Fin (firstPos (node ns1 q)))
                      (Fin (firstPos (node ns1 q)))).
  set (ns2 := ns1 ++ [cloneNode]).
  rewrite redirectLoop_walk.
  assert (Hlen2 : len ns2 = n + 2).
  { unfold ns2. rewrite len_app, Hlen1. unfold len. cbn. lia. }
  assert (Hold2 : forall v, 0 <= v <= n -> node ns2 v = node ns1 v).
  { intros v Hv. apply node_app_old. lia. }
  assert (Hclone2 : node ns2 (n + 1) = cloneNode).
  { rewrite <- Hlen1. apply node_app_new. }
  assert (Hlink2 : forall v, 0 <= v < n -> link (node ns2 v) = glink g v).
  { intros v Hv. rewrite Hold2 by lia. now apply A1. }
  assert (Htr2 : forall v, 0 <= v < n -> anc g p v -> next (node ns2 v) !! c = gtr g v c).
  { intros v Hv Hpv. rewrite Hold2 by lia. apply A6; [easy |].
    intros [_ Hx]. apply Hseg in Hx as [_ [Hx | [Hx Hx']]]; [lia |].
    apply Hx'. now apply (anc_antisym g l Hinv). }
  destruct (walk_spec g l p c (n + 1) (fun o => bool_decide (o = Some q)) ns2
              Hinv Hp ltac:(fold n; lia) Hlink2 Htr2
              (length ns2) ns2 p [] (walk_start g l p c (n + 1) _ ns2 Hinv Hp))
    as (ns3 & r & rs & Hw2 & Hs2 & Hstop2).
  { right. specialize (Hlenlast p Hp). unfold len in Hlen2. lia. }
  rewrite Hw2.
  destruct Hs2 as [Hlen3 Hpos2 Hseg2 Htest2 Hlink3 Hnlen3 Hset2 Hkeep2].
  rewrite Hlen2 in Hlen3.
  assert (Hrs_valid : forall x, In x rs -> 0 <= x < n).
  { intros x Hx. apply Hseg2 in Hx. now apply (segment_valid g l Hinv p r). }
  assert (HRq : forall x, In x rs -> gtr g x c = Some q).
  { intros x Hx. apply Htest2 in Hx. now apply bool_decide_eq_true in Hx. }
  assert (Hr : r = -1 \/ (0 <= r < n /\ anc g p r /\ gtr g r c <> Some q)).
  { destruct Hpos2 as [-> | [Hr1 Hr2]]; [now left |].
    destruct Hstop2 as [-> | Hstop2]; [now left | right].
    apply bool_decide_eq_false in Hstop2. auto. }
  set (ns' := update (update ns3 q (setLink (n + 1))) n (setLink (n + 1))).
  assert (Hnode_n : node ns' n = setLink (n + 1) (node ns3 n)).
  { unfold ns'. rewrite node_update_same by (rewrite len_update; lia).
    rewrite node_update_other by lia. reflexivity. }
  assert (Hnode_q : node ns' q = setLink (n + 1) (node ns3 q)).
  { unfold ns'. rewrite node_update_other by lia.
    apply node_update_same. lia. }
  assert (Hnode_o : forall v, v <> n -> v <> q -> node ns' v = node ns3 v).
  { intros v H1 H2. unfold ns'. now rewrite !node_update_other. }
  assert (Hnext' : forall v, next (node ns' v) = next (node ns3 v)).
  { intros v. destruct (Z.eq_dec v n) as [-> | H1]; [now rewrite Hnode_n |].
    destruct (Z.eq_dec v q) as [-> | H2]; [now rewrite Hnode_q |].
    now rewrite Hnode_o. }
  assert (Hnlen' : forall v, nlen (node ns' v) = nlen (node ns3 v)).
  { intros v. destruct (Z.eq_dec v n) as [-> | H1]; [now rewrite Hnode_n |].
    destruct (Z.eq_dec v q) as [-> | H2]; [now rewrite Hnode_q |].
    now rewrite Hnode_o. }
  apply (step_clone g (view ns') l c p q r xs rs Hinv Hseg Hnone Hp Hap Hq Hneq
           Hseg2 HRq Hr); cbn [view gsize glink glen gtr]; fold n.
  - unfold ns'. rewrite !len_update. exact Hlen3.
  - now rewrite Hnode_n.
  - rewrite Hnode_o by lia. rewrite Hlink3, Hclone2. unfold cloneNode. cbn [link]. apply A1. lia.
  - now rewrite Hnode_q.
  - intros v Hv Hvq. rewrite Hnode_o by lia. rewrite Hlink3. now apply Hlink2.
  - intros v Hv. rewrite Hnlen', Hnlen3, Hold2 by lia. apply A2. lia.
  - rewrite Hnlen', Hnlen3, Hold2 by lia. exact A3.
  - rewrite Hnlen', Hnlen3, Hclone2. reflexivity.
  - intros d. rewrite Hnext', Hkeep2; [rewrite Hold2 by lia; apply A4 |].
    intros [_ Hx]. apply Hrs_valid in Hx. lia.
  - intros x Hx. specialize (Hxs_valid x Hx).
    rewrite Hnext', Hkeep2; [rewrite Hold2 by lia; now apply Hset |].
    intros [_ Hx']. apply HRq in Hx'. apply Hnone in Hx. congruence.
  - intros x Hx. rewrite Hnext'. now apply Hset2.
  - intros v d Hv Hvd. rewrite Hnext', Hkeep2 by tauto. rewrite Hold2 by lia.
    apply A6; [lia | tauto].
  - intros Hx. rewrite Hnext', Hkeep2, Hclone2.
    + unfold cloneNode. cbn [next]. now apply Hset.
    + intros [_ Hx']. apply Hrs_valid in Hx'. lia.
  - intros d Hd. rewrite Hnext', Hkeep2, Hclone2.
    + unfold cloneNode. cbn [next]. apply A6; [lia | easy].
    + intros [_ Hx']. apply Hrs_valid in Hx'. lia.
Qed.

End AddChar.

(** ** The construction keeps the invariant *)

Section Construct.

Import SuffixAutomaton.

Lemma initial_inv : Inv (view [newNode 0]) 0.
Proof.
  assert (Hnode : forall v, node [newNode 0] v = newNode 0).
  { intros v. unfold node, get. destruct (v <? 0); [reflexivity |].
    destruct (Z.to_nat v) as [| k]; [reflexivity |]. now destruct k. }
  constructor; cbn [view gsize glink glen gtr]; unfold len; cbn [length];
    intros; rewrite ?Hnode in *; cbn [newNode next link nlen] in *;
    rewrite ?lookup_empty in *; try discriminate; try reflexivity; lia.
Qed.

Lemma fold_addChar_inv (s : text) (sam : t) :
  Inv (view (nodes sam)) (last sam) ->
  Inv (view (nodes (fold_left (fun sam ch => addChar ch sam) s sam)))
      (last (fold_left (fun sam ch => addChar ch sam) s sam)).
Proof.
  revert sam. induction s as [| ch s IH]; intros sam H; [exact H |].
  cbn [fold_left]. apply IH. now apply addChar_inv.
Qed.

Lemma construct_inv (s : text) : Inv (view (nodes (construct s))) (last (construct s)).
Proof. unfold construct. apply fold_addChar_inv. exact initial_inv. Qed.

End Construct.

(** ** The propagation pass *)

Section Propagate.

Import SuffixAutomaton.

Lemma xle_refl (a : xnum) : xle a a.
Proof. destruct a; cbn; lia. Qed.

Lemma xle_trans (a b c : xnum) : xle a b -> xle b c -> xle a c.
Proof. destruct a, b, c; cbn; try easy. lia. Qed.

Lemma xmin_le_l (a b : xnum) : xle (xmin a b) a.
Proof. unfold xmin. destruct a, b; cbn; try easy; try lia. destruct (Z.leb_spec z z0); cbn; lia. Qed.

Lemma xmin_le_r (a b : xnum) : xle (xmin a b) b.
Proof. unfold xmin. destruct a, b; cbn; try easy; try lia. destruct (Z.leb_spec z z0); cbn; lia. Qed.

Lemma xmax_ge_l (a b : xnum) : xle a (xmax a b).
Proof. unfold xmax. destruct a, b; cbn; try easy; try lia. destruct (Z.leb_spec z z0); cbn; lia. Qed.

Lemma xmax_ge_r (a b : xnum) : xle b (xmax a b).
Proof. unfold xmax. destruct a, b; cbn; try easy; try lia. destruct (Z.leb_spec z z0); cbn; lia. Qed.

Lemma insertByKey_perm {A} (key : A -> Z) (x : A) (l : list A) :
  insertByKey key x l ≡ₚ x :: l.
Proof.
  induction l as [| y l IH]; [reflexivity |]. cbn [insertByKey].
  destruct (key x <=? key y); [reflexivity |]. rewrite IH. apply Permutation_swap.
Qed.

Lemma sortByKey_perm {A} (key : A -> Z) (l : list A) : sortByKey key l ≡ₚ l.
Proof.
  unfold sortByKey. induction l as [| x l IH]; [reflexivity |]. cbn [foldr].
  rewrite insertByKey_perm. now rewrite IH.
Qed.

Lemma insertByKey_ssorted {A} (key : A -> Z) (x : A) (l : list A) :
  StronglySorted (fun a b => key a <= key b) l ->
  StronglySorted (fun a b => key a <= key b) (insertByKey key x l).
Proof.
  induction 1 as [| y l Hs IH Hy]; cbn [insertByKey]; [repeat constructor |].
  destruct (Z.leb_spec (key x) (key y)).
  - constructor; [now constructor |]. constructor; [easy |].
    eapply Forall_impl; [exact Hy |]. cbn. intros. lia.
  - constructor; [easy |]. rewrite insertByKey_perm. constructor; [lia | easy].
Qed.

Lemma sortByKey_ssorted {A} (key : A -> Z) (l : list A) :
  StronglySorted (fun a b => key a <= key b) (sortByKey key l).
Proof.
  unfold sortByKey. induction l as [| x l IH]; [constructor |]. cbn [foldr].
  now apply insertByKey_ssorted.
Qed.

Variable ns0 : list SAMNode.
Hypothesis Hshape : forall v, 0 < v < len ns0 ->
  0 <= link (node ns0 v) < len ns0
  /\ nlen (node ns0 (link (node ns0 v))) < nlen (node ns0 v).

Lemma propagateStep_spec (ns : list SAMNode) (v : Z) :
  len ns = len ns0 ->
  (forall x, link (node ns x) = link (node ns0 x)) ->
  0 < v < len ns0 ->
  let u := link (node ns0 v) in
  let ns' := propagateStep ns v in
  len ns' = len ns0
  /\ (forall x, link (node ns' x) = link (node ns0 x))
  /\ (forall x, x <> u -> node ns' x = node ns x)
  /\ minEnd (node ns' u) = xmin (minEnd (node ns u)) (minEnd (node ns v))
  /\ maxEnd (node ns' u) = xmax (maxEnd (node ns u)) (maxEnd (node ns v)).
Proof.
  intros Hlen Hlink Hv u ns'.
  destruct (Hshape v Hv) as [Hu Hul]. fold u in Hu, Hul.
  assert (Huv : v <> u) by (intros E; rewrite <- E in Hul; lia).
  unfold ns', propagateStep. rewrite Hlink. fold u.
  destruct (Z.leb_spec 0 u) as [_ | ?]; [| lia].
  set (ns1 := update ns u (setMinEnd (xmin (minEnd (node ns u)) (minEnd (node ns v))))).
  assert (H1 : node ns1 u = setMinEnd (xmin (minEnd (node ns u)) (minEnd (node ns v))) (node ns u)).
  { apply node_update_same. lia. }
  assert (H1' : forall x, x <> u -> node ns1 x = node ns x).
  { intros x Hx. now apply node_update_other. }
  assert (Hlen1 : len ns1 = len ns) by apply len_update.
  split; [now rewrite len_update, Hlen1 |].
  split.
  { intros x. destruct (Z.eq_dec x u) as [-> | Hx].
    - rewrite node_update_same by lia. rewrite H1. cbn. apply Hlink.
    - rewrite node_update_other, H1' by easy. apply Hlink. }
  split.
  { intros x Hx. rewrite node_update_other, H1' by easy. reflexivity. }
  rewrite node_update_same by lia. rewrite H1, (H1' v Huv). cbn. easy.
Qed.

Lemma propagate_sorted (tl : list Z) :
  StronglySorted (fun a b => nlen (node ns0 a) <= nlen (node ns0 b)) tl ->
  (forall v, In v tl -> 0 < v < len ns0) ->
  let ns' := fold_left propagateStep (reverse tl) ns0 in
  len ns' = len ns0
  /\ (forall x, link (node ns' x) = link (node ns0 x))
  /\ (forall v, In v tl -> linkDominates ns' v).
Proof.
  induction 1 as [| w tl Hs IH Hw]; intros Hvalid ns'.
  { cbn in ns'. unfold ns'. easy. }
  destruct IH as (Hlen & Hlink & Hgood).
  { intros v Hv. apply Hvalid. now right. }
  unfold ns'. rewrite reverse_cons, fold_left_app. cbn [fold_left].
  set (ns1 := fold_left propagateStep (reverse tl) ns0) in *.
  destruct (propagateStep_spec ns1 w Hlen Hlink (Hvalid w (or_introl eq_refl)))
    as (Hlen2 & Hlink2 & Hother & Hmin & Hmax).
  set (u := link (node ns0 w)) in *.
  destruct (Hshape w (Hvalid w (or_introl eq_refl))) as [Hu Hul]. fold u in Hu, Hul.
  split; [easy |]. split; [easy |].
  intros v [<- | Hv].
  - (* the state just processed *)
    unfold linkDominates. rewrite Hlink2. fold u. rewrite Hlen2.
    assert (Hwu : w <> u) by (intros E; rewrite <- E in Hul; lia).
    rewrite (Hother w Hwu), Hmin, Hmax.
    split; [easy |]. split; [apply xmin_le_r | apply xmax_ge_r].
  - (* a state processed before: its [len] is at least that of [w] *)
    specialize (Hgood v Hv). unfold linkDominates in *.
    rewrite Hlink2, Hlen2. rewrite Hlink, Hlen in Hgood.
    destruct Hgood as (Hl & Hmn & Hmx). split; [easy |].
    assert (Hvu : v <> u).
    { intros ->. rewrite Forall_forall in Hw. specialize (Hw u).
      rewrite list_elem_of_In in Hw. specialize (Hw Hv). cbn in Hw. lia. }
    rewrite (Hother v Hvu).
    destruct (Z.eq_dec (link (node ns0 v)) u) as [E | Hne].
    + rewrite E in *. rewrite Hmin, Hmax. split.
      * eapply xle_trans; [apply xmin_le_l | exact Hmn].
      * eapply xle_trans; [exact Hmx | apply xmax_ge_l].
    + rewrite (Hother _ Hne). easy.
Qed.

End Propagate.

(** ** The augmentation after [build] *)

Section Build.

Import SuffixAutomaton.

(** The root is the first state of the order by [len]; the other states
    follow it, sorted. *)
Lemma lenOrder_root_first (ns : list SAMNode) (l : Z) :
  Inv (view ns) l ->
  exists tl,
    lenOrder ns = 0 :: tl
    /\ StronglySorted (fun a b => nlen (node ns a) <= nlen (node ns b)) tl
    /\ (forall v, In v tl <-> 0 < v < len ns).
Proof.
  intros Hinv.
  pose proof (inv_size _ _ Hinv) as Hn. cbn [view gsize] in Hn.
  pose proof (sortByKey_perm (fun v => nlen (node ns v)) (seqZ 0 (len ns))) as Hperm.
  pose proof (sortByKey_ssorted (fun v => nlen (node ns v)) (seqZ 0 (len ns))) as Hss.
  fold (lenOrder ns) in Hperm, Hss.
  assert (Hmem : forall v, v ∈ lenOrder ns <-> 0 <= v < len ns).
  { intros v. rewrite Hperm, elem_of_seqZ. lia. }
  assert (Hnd : NoDup (lenOrder ns)).
  { rewrite Hperm. apply NoDup_seqZ. }
  assert (Hpos : forall v, 0 < v < len ns -> 0 < nlen (node ns v)).
  { intros v Hv. destruct (inv_link _ _ Hinv v Hv) as [H1 H2].
    pose proof (inv_len_nonneg _ _ Hinv _ H1) as H3.
    cbn [view gsize glink glen] in *. lia. }
  pose proof (inv_root_len _ _ Hinv) as H0. cbn [view glen] in H0.
  destruct (lenOrder ns) as [| h tl].
  { exfalso. assert (H : 0 ∈ @nil Z) by (apply Hmem; lia). inversion H. }
  apply StronglySorted_inv in Hss as [Hss Hh].
  apply NoDup_cons in Hnd as [Hhtl Hnd].
  assert (Hh0 : h = 0).
  { destruct (Z.eq_dec h 0) as [E | Hne]; [easy | exfalso].
    assert (Hhv : 0 <= h < len ns) by (apply Hmem; left).
    assert (H0in : 0 ∈ h :: tl) by (apply Hmem; lia).
    apply elem_of_cons in H0in as [E | H0in]; [congruence |].
    rewrite Forall_forall in Hh. specialize (Hh 0 H0in). cbn beta in Hh.
    specialize (Hpos h ltac:(lia)). lia. }
  subst h. exists tl. split; [reflexivity |]. split; [exact Hss |].
  intros v. rewrite <- list_elem_of_In. split.
  - intros Hv. assert (Hv' : 0 <= v < len ns) by (apply Hmem; now right).
    assert (v <> 0) by (intros ->; easy). lia.
  - intros Hv. assert (Hv' : v ∈ 0 :: tl) by (apply Hmem; lia).
    apply elem_of_cons in Hv' as [E | Hv']; [lia | easy].
Qed.

(** C8. After [SuffixAutomaton.build] (the construction over the pattern
    followed by the propagation pass in descending [len] order), every state
    [v] other than the root has a suffix link [u] that is a state of the
    automaton, with [u.minEnd <= v.minEnd] and [u.maxEnd >= v.maxEnd]. *)
Theorem build_links_dominate (s : text) (v : Z) :
  0 < v < len (nodes (build s)) -> linkDominates (nodes (build s)) v.
Proof.
  unfold build. cbn [nodes]. unfold propagate.
  pose proof (construct_inv s) as Hinv.
  set (ns0 := nodes (construct s)) in *.
  destruct (lenOrder_root_first ns0 _ Hinv) as (tl & Horder & Hss & Hmem).
  rewrite Horder. cbn [drop]. rewrite drop_0.
  assert (Hshape : forall v, 0 < v < len ns0 ->
            0 <= link (node ns0 v) < len ns0
            /\ nlen (node ns0 (link (node ns0 v))) < nlen (node ns0 v)).
  { intros w Hw. exact (inv_link _ _ Hinv w Hw). }
  destruct (propagate_sorted ns0 Hshape tl Hss (fun v Hv => proj1 (Hmem v) Hv))
    as (Hlen & _ & Hgood).
  rewrite Hlen. intros Hv. apply Hgood, Hmem, Hv.
Qed.

Lemma build_links_dominate_witness :
  0 < 1 < len (nodes (build [97%N])) /\ linkDominates (nodes (build [97%N])) 1.
Proof.
  split; [vm_compute; split; reflexivity |].
  apply (build_links_dominate [97%N] 1). vm_compute. split; reflexivity.
Defined.

End Build.

(** ** The minimum fuzzy match length *)

Lemma allFrom_spec (f : Z -> bool) (n : nat) :
  forall start, allFrom f start n = true ->
  forall m, start <= m < start + Z.of_nat n -> f m = true.
Proof.
  induction n as [| k IH]; intros start H m Hm; [lia |].
  cbn [allFrom] in H. destruct (f start) eqn:Hf; [| discriminate].
  destruct (Z.eq_dec m start) as [-> | Hne]; [easy |].
  apply (IH (start + 1)); [easy | lia].
Qed.

(** Every length from 9 to 100000, evaluated. *)
Lemma agrees_computed : allFrom agrees 9 (Z.to_nat 99992) = true.
Proof. vm_compute. reflexivity. Qed.




(** ** The streaming scan stays inside the automaton *)

Section ScanFuel.

Import SuffixAutomaton.

(** A write that keeps a field keeps it at every index. *)
Lemma node_update_proj {B} (proj : SAMNode -> B) (ns : list SAMNode) (i : Z)
    (f : SAMNode -> SAMNode) (x : Z) :
  (forall n, proj (f n) = proj n) ->
  proj (node (update ns i f) x) = proj (node ns x).
Proof.
  intros Hf. destruct (Z.eq_dec x i) as [-> | Hne].
  - destruct (Z.ltb_spec i 0) as [Hneg | Hpos].
    + unfold update. destruct (Z.ltb_spec i 0); [reflexivity | lia].
    + destruct (Z.ltb_spec i (len ns)) as [Hin | Hout].
      * rewrite node_update_same by lia. apply Hf.
      * rewrite !node_outside; [reflexivity | easy | now rewrite len_update].
  - now rewrite node_update_other.
Qed.

Lemma propagateStep_proj {B} (proj : SAMNode -> B) (ns : list SAMNode) (v x : Z) :
  (forall a n, proj (setMinEnd a n) = proj n) ->
  (forall a n, proj (setMaxEnd a n) = proj n) ->
  proj (node (propagateStep ns v) x) = proj (node ns x).
Proof.
  intros H1 H2. unfold propagateStep. destruct (0 <=? link (node ns v)); [| reflexivity].
  rewrite node_update_proj by (intros; apply H2).
  rewrite node_update_proj by (intros; apply H1). reflexivity.
Qed.

Lemma propagateStep_len (ns : list SAMNode) (v : Z) : len (propagateStep ns v) = len ns.
Proof.
  unfold propagateStep. destruct (0 <=? link (node ns v)); [| reflexivity].
  now rewrite !len_update.
Qed.

Lemma fold_propagateStep_proj {B} (proj : SAMNode -> B) (L : list Z) :
  (forall a n, proj (setMinEnd a n) = proj n) ->
  (forall a n, proj (setMaxEnd a n) = proj n) ->
  forall ns x, proj (node (fold_left propagateStep L ns) x) = proj (node ns x).
Proof.
  intros H1 H2. induction L as [| v L IH]; intros ns x; [reflexivity |].
  cbn [fold_left]. rewrite IH. now apply propagateStep_proj.
Qed.

Lemma fold_propagateStep_len (L : list Z) :
  forall ns, len (fold_left propagateStep L ns) = len ns.
Proof.
  induction L as [| v L IH]; intros ns; [reflexivity |].
  cbn [fold_left]. rewrite IH. apply propagateStep_len.
Qed.

Lemma anc_ext (g g' : graph) (a b : Z) :
  gsize g = gsize g' -> (forall v, glink g v = glink g' v) -> anc g a b -> anc g' a b.
Proof.
  intros Hs Hl. induction 1 as [| v w Hv _ IH]; [apply anc_refl |].
  apply anc_step; [now rewrite <- Hs | now rewrite <- Hl].
Qed.

Lemma Inv_ext (g g' : graph) (l : Z) :
  gsize g = gsize g' ->
  (forall v, glink g v = glink g' v) ->
  (forall v, glen g v = glen g' v) ->
  (forall v c, gtr g v c = gtr g' v c) ->
  Inv g l -> Inv g' l.
Proof.
  intros Hs Hl Hn Ht Hinv.
  constructor; rewrite <- ?Hs, <- ?Hl, <- ?Hn.
  - apply (inv_size g l Hinv).
  - apply (inv_root_link g l Hinv).
  - apply (inv_root_len g l Hinv).
  - apply (inv_last g l Hinv).
  - intros c. rewrite <- Ht. apply (inv_last_next g l Hinv).
  - intros v Hv. rewrite <- !Hl, <- !Hn. now apply (inv_link g l Hinv).
  - intros v Hv. rewrite <- Hn. now apply (inv_len_nonneg g l Hinv).
  - intros v Hv. rewrite <- !Hn. now apply (inv_len_last g l Hinv).
  - apply (inv_last_small g l Hinv).
  - intros p c q Hp Hq. rewrite <- Ht in Hq. rewrite <- !Hn.
    now apply (inv_tr g l Hinv p c q).
  - intros p c q Hp Hq. rewrite <- Ht in Hq. rewrite <- !Hl, <- !Ht, <- !Hn.
    now apply (inv_E g l Hinv p c q).
  - intros c q Hq. rewrite <- Ht in Hq. rewrite <- Hl. now apply (inv_E0 g l Hinv c q).
  - intros p p2 c c2 q Hp Hp2 Hq Hq2. rewrite <- Ht in Hq, Hq2.
    destruct (inv_F g l Hinv p p2 c c2 q Hp Hp2 Hq Hq2) as [Hc [Ha | Ha]].
    + split; [easy | left; now apply (anc_ext g g')].
    + split; [easy | right; now apply (anc_ext g g')].
Qed.

(** The propagation pass changes [minEnd] and [maxEnd] only: the automaton
    that [build] returns has the structure that the construction gave it. *)
Lemma build_inv (s : text) : Inv (view (nodes (build s))) (last (build s)).
Proof.
  unfold build. cbn [nodes last]. unfold propagate.
  apply (Inv_ext (view (nodes (construct s)))); cbn [view gsize glink glen gtr].
  - now rewrite fold_propagateStep_len.
  - intros v. now rewrite (fold_propagateStep_proj link).
  - intros v. now rewrite (fold_propagateStep_proj nlen).
  - intros v c. now rewrite (fold_propagateStep_proj next).
  - apply construct_inv.
Qed.

Variables (ns : list SAMNode) (l : Z).
Hypothesis Hinv : Inv (view ns) l.

Lemma followLinks_spec (c : char) (fuel : nat) :
  forall state,
    state = -1 \/ (0 <= state < len ns /\ nlen (node ns state) < Z.of_nat fuel) ->
    let s' := followLinks fuel ns c state in
    s' = -1 \/ (0 <= s' < len ns /\ hasNext ns s' c = true).
Proof.
  induction fuel as [| fuel IH]; intros state Hst.
  { destruct Hst as [-> | [Hv Hm]]; [now left |].
    pose proof (inv_len_nonneg _ _ Hinv state Hv) as H. cbn [view glen] in H. lia. }
  cbn [followLinks]. destruct (Z.eqb_spec state (-1)) as [-> | Hne]; [now left |].
  destruct Hst as [-> | [Hv Hm]]; [easy |].
  cbn [negb andb]. destruct (hasNext ns state c) eqn:Hh; cbn [negb]; [right; easy |].
  apply IH. destruct (Z.eq_dec state 0) as [-> | H0].
  - left. apply (inv_root_link _ _ Hinv).
  - right. destruct (inv_link _ _ Hinv state ltac:(cbn [view gsize]; lia)) as [H1 H2].
    cbn [view gsize glink glen] in H1, H2. split; [easy | lia].
Qed.

(** The fuel of [followLinks] in [samAdvance] suffices: the loop leaves at
    [-1] or at a state with a transition on [c]. *)
Lemma followLinks_stops (c : char) (state : Z) :
  0 <= state < len ns ->
  let s' := followLinks (length ns) ns c state in
  s' = -1 \/ (0 <= s' < len ns /\ hasNext ns s' c = true).
Proof.
  intros Hv. apply followLinks_spec. right. split; [easy |].
  pose proof (inv_len_last _ _ Hinv state Hv) as H1.
  pose proof (inv_last_small _ _ Hinv) as H2.
  cbn [view gsize glen] in H1, H2. unfold len in H2. lia.
Qed.

Lemma getNext_valid (c : char) (state : Z) :
  0 <= state < len ns -> hasNext ns state c = true ->
  0 < getNext ns state c < len ns.
Proof.
  intros Hv Hh. unfold hasNext in Hh. apply bool_decide_eq_true in Hh as [q Hq].
  unfold getNext. rewrite Hq. cbn [default].
  now destruct (inv_tr _ _ Hinv state c q Hv Hq).
Qed.

Lemma samAdvance_valid (c : char) (state n : Z) :
  0 <= state < len ns -> 0 <= fst (samAdvance ns (state, n) c) < len ns.
Proof.
  intros Hv. unfold samAdvance.
  destruct (hasNext ns state c) eqn:Hh.
  - cbn [fst]. pose proof (getNext_valid c state Hv Hh). lia.
  - destruct (followLinks_stops c state Hv) as [H | [H1 H2]].
    + rewrite H. cbn. pose proof (inv_size _ _ Hinv) as Hs. cbn [view gsize] in Hs. lia.
    + destruct (Z.eqb_spec (followLinks (length ns) ns c state) (-1)) as [E | _]; [lia |].
      cbn [fst]. pose proof (getNext_valid c _ H1 H2). lia.
Qed.

(** Every state that the scan reaches is a state of the automaton. *)
Lemma scan_valid (T : text) : 0 <= fst (fold_left (samAdvance ns) T (0, 0)) < len ns.
Proof.
  induction T as [| c T IH] using rev_ind.
  - cbn. pose proof (inv_size _ _ Hinv) as Hs. cbn [view gsize] in Hs. lia.
  - rewrite fold_left_app. cbn [fold_left].
    destruct (fold_left (samAdvance ns) T (0, 0)) as [state n].
    now apply samAdvance_valid.
Qed.

End ScanFuel.

(** ** The index loops leave through their conditions

    Each loop of the model carries a fuel argument. The lemmas below show
    that the fuel its callers pass is enough: the value returned is one at
    which the loop condition of the source is false. *)

Section IndexLoops.

Variable rawTextChars : text.

Lemma scanLeftWhile_exit (test : option char -> bool) (fuel : nat) :
  forall pos, pos <= Z.of_nat fuel ->
    let r := scanLeftWhile test fuel rawTextChars pos in
    (0 <? r) && test (get rawTextChars (r - 1)) = false.
Proof.
  induction fuel as [| fuel IH]; intros pos Hpos; cbn [scanLeftWhile].
  - destruct (Z.ltb_spec 0 pos); [lia | reflexivity].
  - destruct ((0 <? pos) && test (get rawTextChars (pos - 1))) eqn:E; [| exact E].
    apply IH. lia.
Qed.

Lemma scanRightWhile_exit (test : option char -> bool) (fuel : nat) :
  forall pos, len rawTextChars - pos <= Z.of_nat fuel ->
    let r := scanRightWhile test fuel rawTextChars pos in
    (r <? len rawTextChars) && test (get rawTextChars r) = false.
Proof.
  induction fuel as [| fuel IH]; intros pos Hpos; cbn [scanRightWhile].
  - destruct (Z.ltb_spec pos (len rawTextChars)); [lia | reflexivity].
  - destruct ((pos <? len rawTextChars) && test (get rawTextChars pos)) eqn:E; [| exact E].
    apply IH. lia.
Qed.

(** Both loops of [expandLeftToTokenBoundary] end at a position where their
    condition fails. *)
Lemma expandLeftToTokenBoundary_exits (rawIndex : Z) :
  let pos := scanLeftWhile WHITE_SPACE_test (Z.to_nat rawIndex) rawTextChars rawIndex in
  let r := expandLeftToTokenBoundary rawIndex rawTextChars in
  (0 <? pos) && WHITE_SPACE_test (get rawTextChars (pos - 1)) = false
  /\ (0 <? r) && NOT_WHITE_SPACE_test (get rawTextChars (r - 1)) = false.
Proof.
  split; [apply scanLeftWhile_exit; lia |].
  unfold expandLeftToTokenBoundary. apply scanLeftWhile_exit. lia.
Qed.

Lemma expandRightToTokenBoundary_exits (rawIndex : Z) :
  let pos :=
    scanRightWhile WHITE_SPACE_test (Z.to_nat (len rawTextChars - rawIndex))
      rawTextChars rawIndex in
  let r := expandRightToTokenBoundary rawIndex rawTextChars in
  (pos <? len rawTextChars) && WHITE_SPACE_test (get rawTextChars pos) = false
  /\ (r <? len rawTextChars) && NOT_WHITE_SPACE_test (get rawTextChars r) = false.
Proof.
  split; [apply scanRightWhile_exit; lia |].
  unfold expandRightToTokenBoundary. apply scanRightWhile_exit. lia.
Qed.

Lemma expandEndLineBoundary_exits (pos : Z) :
  let r := expandEndLineBoundaryToIncludeTrailingNewLine rawTextChars pos in
  (r <? len rawTextChars)
  && match get rawTextChars r with
     | Some c => (c =? 13)%N || (c =? 10)%N
     | None => false
     end = false.
Proof.
  unfold expandEndLineBoundaryToIncludeTrailingNewLine.
  apply (scanRightWhile_exit
           (fun x => match x with Some c => (c =? 13)%N || (c =? 10)%N | None => false end)).
  lia.
Qed.

Lemma lineBoundaryLeftLoop_exit (fuel : nat) :
  forall start, start <= Z.of_nat fuel ->
    let r := lineBoundaryLeftLoop fuel rawTextChars start in
    negb (hasStartReachedLineBoundary rawTextChars r)
    && WHITE_SPACE_test (get rawTextChars (r - 1)) = false.
Proof.
  induction fuel as [| fuel IH]; intros start Hs; cbn [lineBoundaryLeftLoop].
  - unfold hasStartReachedLineBoundary, get.
    destruct (Z.eqb_spec start 0) as [-> | Hne]; [reflexivity |].
    destruct (Z.ltb_spec (start - 1) 0); [| lia]. apply andb_false_r.
  - destruct (negb (hasStartReachedLineBoundary rawTextChars start)
              && WHITE_SPACE_test (get rawTextChars (start - 1))) eqn:E; [| exact E].
    apply IH. unfold hasStartReachedLineBoundary in E.
    destruct (Z.eqb_spec start 0) as [-> | Hne]; [discriminate | lia].
Qed.

Lemma lineBoundaryRightLoop_exit (fuel : nat) :
  forall e, len rawTextChars - e <= Z.of_nat fuel ->
    let r := lineBoundaryRightLoop fuel rawTextChars e in
    negb (hasEndReachedLineBoundary rawTextChars r)
    && WHITE_SPACE_test (get rawTextChars r) = false.
Proof.
  induction fuel as [| fuel IH]; intros e He; cbn [lineBoundaryRightLoop].
  - unfold hasEndReachedLineBoundary.
    destruct (Z.eqb_spec e (len rawTextChars)) as [-> | Hne]; [reflexivity |].
    rewrite get_ge_len by lia. apply andb_false_r.
  - destruct (negb (hasEndReachedLineBoundary rawTextChars e)
              && WHITE_SPACE_test (get rawTextChars e)) eqn:E; [| exact E].
    apply IH. unfold hasEndReachedLineBoundary in E.
    destruct (Z.eqb_spec e (len rawTextChars)) as [-> | Hne]; [discriminate |].
    destruct (Z.ltb_spec e (len rawTextChars)); [lia |].
    rewrite get_ge_len in E by lia. rewrite andb_false_r in E. discriminate.
Qed.

(** [findLineBoundaryToLeft] and [findLineBoundaryToRight] return the
    position at which their loop condition fails, or [-1] when that position
    is not a line boundary. *)
Lemma findLineBoundaryToLeft_exits (spanRawStart : Z) :
  let r := lineBoundaryLeftLoop (Z.to_nat spanRawStart) rawTextChars spanRawStart in
  negb (hasStartReachedLineBoundary rawTextChars r)
  && WHITE_SPACE_test (get rawTextChars (r - 1)) = false.
Proof. apply lineBoundaryLeftLoop_exit. lia. Qed.

Lemma findLineBoundaryToRight_exits (spanRawEndExcl : Z) :
  let r :=
    lineBoundaryRightLoop (Z.to_nat (len rawTextChars - spanRawEndExcl)) rawTextChars
      spanRawEndExcl in
  negb (hasEndReachedLineBoundary rawTextChars r)
  && WHITE_SPACE_test (get rawTextChars r) = false.
Proof. apply lineBoundaryRightLoop_exit. lia. Qed.

End IndexLoops.

(** ** The Z-array extension loop *)

Section ZArrayFuel.

Variables (pattern text_ : text) (reverse : bool) (vlen : Z).

(** With fuel for the distance to the end of the concatenation, the loop
    returns a length at which its condition fails: the end is reached, or the
    two characters differ (the separator differs from every character). *)
Lemma zExtend_exit (fuel : nat) :
  forall pos zp, vlen - (pos + zp) <= Z.of_nat fuel ->
    let r := zExtend fuel pattern text_ reverse vlen pos zp in
    zp <= r
    /\ ((pos + r <? vlen) = false
        \/ match charAt pattern text_ reverse r, charAt pattern text_ reverse (pos + r) with
           | Some a, Some b => (a =? b)%N = false
           | _, _ => True
           end).
Proof.
  induction fuel as [| fuel IH]; intros pos zp Hf; cbn [zExtend].
  - split; [lia |]. left. apply Z.ltb_ge. lia.
  - destruct (Z.ltb_spec (pos + zp) vlen) as [Hlt | Hge].
    2:{ split; [lia |]. left. apply Z.ltb_ge. lia. }
    destruct (charAt pattern text_ reverse zp) as [a |] eqn:Ea.
    2:{ split; [lia |]. right. now rewrite Ea. }
    destruct (charAt pattern text_ reverse (pos + zp)) as [b |] eqn:Eb.
    2:{ split; [lia |]. right. now rewrite Ea, Eb. }
    destruct (N.eqb_spec a b) as [Hab | Hab].
    + destruct (IH pos (zp + 1) ltac:(lia)) as [H1 H2].
      replace (pos + (zp + 1)) with (pos + zp + 1) in * by lia.
      split; [lia | exact H2].
    + split; [lia |]. right. rewrite Ea, Eb. now apply N.eqb_neq.
Qed.

Lemma getZ_nonneg (l : list Z) (i : Z) : Forall (fun x => 0 <= x) l -> 0 <= getZ l i.
Proof.
  intros H. unfold getZ, get. destruct (i <? 0); [cbn; lia |].
  destruct (l !! Z.to_nat i) as [x |] eqn:E; [| cbn; lia].
  cbn. rewrite Forall_forall in H. apply H. eapply list_elem_of_lookup_2, E.
Qed.

(** The entries of the Z-array stay non-negative, so the extension loop of
    a step at [pos >= 1] starts at most [vlen] short of the end: its fuel,
    [vlen], is enough. *)
Lemma zStep_nonneg (st : ZState) (pos : Z) :
  Forall (fun x => 0 <= x) (zs_z st) -> 1 <= pos ->
  let z0 :=
    if pos <=? zs_R st
    then Z.min (zs_R st - pos + 1) (getZ (zs_z st) (pos - zs_L st))
    else 0 in
  vlen - (pos + z0) <= Z.of_nat (Z.to_nat vlen)
  /\ Forall (fun x => 0 <= x) (zs_z (zStep pattern text_ reverse vlen st pos)).
Proof.
  intros Hz Hpos z0.
  assert (H0 : 0 <= z0).
  { unfold z0. destruct (Z.leb_spec pos (zs_R st)); [| lia].
    pose proof (getZ_nonneg (zs_z st) (pos - zs_L st) Hz). lia. }
  split; [lia |].
  unfold zStep. fold z0.
  destruct (zExtend_exit (Z.to_nat vlen) pos z0 ltac:(lia)) as [Hr _].
  set (zp := zExtend (Z.to_nat vlen) pattern text_ reverse vlen pos z0) in *.
  assert (Hins : Forall (fun x => 0 <= x) (<[Z.to_nat pos := zp]> (zs_z st))).
  { apply Forall_insert; [exact Hz | lia]. }
  destruct (zs_R st <? pos + zp - 1); exact Hins.
Qed.

Lemma fold_zStep_nonneg (L : list Z) :
  forall st, Forall (fun x => 0 <= x) (zs_z st) -> Forall (fun pos => 1 <= pos) L ->
    Forall (fun x => 0 <= x) (zs_z (fold_left (zStep pattern text_ reverse vlen) L st)).
Proof.
  induction L as [| pos L IH]; intros st Hz HL; [exact Hz |].
  cbn [fold_left]. apply Forall_cons in HL as [Hp HL].
  apply IH; [| exact HL]. now apply zStep_nonneg.
Qed.

End ZArrayFuel.

(** ** The binary search of [lowerBoundSuffix] *)

Section LowerBound.

Variables (filteredSuffixes : list RawMatch) (startPos : Z).

Hypothesis Hsorted : forall i j a b,
  i <= j -> get filteredSuffixes i = Some a -> get filteredSuffixes j = Some b ->
  rmFlatStart a <= rmFlatStart b.

Lemma lowerBoundLoop_spec (fuel : nat) :
  forall lo hi,
    0 <= lo <= hi -> hi <= len filteredSuffixes -> hi - lo < Z.of_nat fuel ->
    (forall j s, 0 <= j < lo -> get filteredSuffixes j = Some s -> rmFlatStart s < startPos) ->
    (forall j s, hi <= j -> get filteredSuffixes j = Some s -> startPos <= rmFlatStart s) ->
    let r := lowerBoundLoop fuel filteredSuffixes startPos lo hi in
    lo <= r <= hi
    /\ (forall j s, 0 <= j < r -> get filteredSuffixes j = Some s -> rmFlatStart s < startPos)
    /\ (forall j s, r <= j -> get filteredSuffixes j = Some s -> startPos <= rmFlatStart s).
Proof.
  induction fuel as [| fuel IH]; intros lo hi Hlo Hhi Hf Hbelow Habove; [lia |].
  cbn [lowerBoundLoop].
  destruct (Z.ltb_spec lo hi) as [Hlt | Hge].
  2:{ assert (lo = hi) by lia. subst hi. split; [lia |]. split; assumption. }
  rewrite Z.shiftr_div_pow2 by lia. change (2 ^ 1) with 2.
  assert (Hmd : lo <= (lo + hi) / 2 < hi).
  { split; [apply Z.div_le_lower_bound; lia | apply Z.div_lt_upper_bound; lia]. }
  set (md := (lo + hi) / 2) in *.
  destruct (get_lt_len filteredSuffixes md ltac:(lia)) as [s Hs]. rewrite Hs.
  destruct (Z.ltb_spec (rmFlatStart s) startPos) as [Hsmall | Hbig].
  - destruct (IH (md + 1) hi ltac:(lia) Hhi ltac:(lia)) as (H1 & H2 & H3);
      [| exact Habove | split; [lia | split; assumption]].
    intros j s' Hj Hs'. pose proof (Hsorted j md s' s ltac:(lia) Hs' Hs). lia.
  - destruct (IH lo md ltac:(lia) ltac:(lia) ltac:(lia)) as (H1 & H2 & H3);
      [exact Hbelow | | split; [lia | split; assumption]].
    intros j s' Hj Hs'. pose proof (Hsorted md j s s' ltac:(lia) Hs Hs'). lia.
Qed.

(** [lowerBoundSuffix] returns the index of the first suffix that starts at
    or after [startPos] (the number of suffixes when there is none). *)
Lemma lowerBoundSuffix_spec :
  let r := lowerBoundSuffix filteredSuffixes startPos in
  0 <= r <= len filteredSuffixes
  /\ (forall j s, 0 <= j < r -> get filteredSuffixes j = Some s -> rmFlatStart s < startPos)
  /\ (forall j s, r <= j -> get filteredSuffixes j = Some s -> startPos <= rmFlatStart s).
Proof.
  unfold lowerBoundSuffix. pose proof (len_nonneg filteredSuffixes) as Hn.
  apply lowerBoundLoop_spec; try lia.
  - unfold len. lia.
  - intros j s Hj Hs. rewrite get_ge_len in Hs by lia. discriminate.
Qed.

End LowerBound.

Lemma StronglySorted_get {A} (key : A -> Z) (l : list A) :
  StronglySorted (fun a b => key a <= key b) l ->
  forall i j a b, i <= j -> get l i = Some a -> get l j = Some b -> key a <= key b.
Proof.
  induction 1 as [| x l Hs IH Hx]; intros i j a b Hij Ha Hb.
  { apply get_Some in Ha as [_ Ha]. now rewrite lookup_nil in Ha. }
  apply get_Some in Ha as [Hi Ha]. apply get_Some in Hb as [Hj Hb].
  destruct (Z.eq_dec i j) as [-> | Hne]; [rewrite Ha in Hb; inversion Hb; lia |].
  destruct (Z.to_nat j) as [| j'] eqn:Ej; [lia |]. cbn in Hb.
  destruct (Z.to_nat i) as [| i'] eqn:Ei.
  - cbn in Ha. inversion Ha; subst a. rewrite Forall_forall in Hx.
    apply Hx. eapply list_elem_of_lookup_2, Hb.
  - cbn in Ha. apply (IH (Z.of_nat i') (Z.of_nat j')); [lia | |];
      now rewrite get_of_nat.
Qed.

(** The suffixes that [fuzzyRawMatches] hands to the binary search are sorted
    by [flatStart]. *)
Lemma sortByKey_get {A} (key : A -> Z) (l : list A) :
  forall i j a b, i <= j ->
    get (sortByKey key l) i = Some a -> get (sortByKey key l) j = Some b ->
    key a <= key b.
Proof. apply StronglySorted_get, sortByKey_ssorted. Qed.

(** ** The widening loops of the fuzzy candidates *)

Section Widen.

Variable rawTextChars : text.

Lemma scanLeftWhile_range (test : option char -> bool) (fuel : nat) :
  forall pos, 0 <= pos -> 0 <= scanLeftWhile test fuel rawTextChars pos <= pos.
Proof.
  induction fuel as [| fuel IH]; intros pos Hpos; cbn [scanLeftWhile]; [lia |].
  destruct (Z.ltb_spec 0 pos); cbn [andb]; [| lia].
  destruct (test (get rawTextChars (pos - 1))); [| lia].
  specialize (IH (pos - 1) ltac:(lia)). lia.
Qed.

Lemma scanRightWhile_range (test : option char -> bool) (fuel : nat) :
  forall pos, pos <= len rawTextChars ->
    pos <= scanRightWhile test fuel rawTextChars pos <= len rawTextChars.
Proof.
  induction fuel as [| fuel IH]; intros pos Hpos; cbn [scanRightWhile]; [lia |].
  destruct (Z.ltb_spec pos (len rawTextChars)); cbn [andb]; [| lia].
  destruct (test (get rawTextChars pos)); [| lia].
  specialize (IH (pos + 1) ltac:(lia)). lia.
Qed.

Lemma expandLeftToTokenBoundary_range (rawIndex : Z) :
  0 <= rawIndex -> 0 <= expandLeftToTokenBoundary rawIndex rawTextChars <= rawIndex.
Proof.
  intros H. unfold expandLeftToTokenBoundary.
  pose proof (scanLeftWhile_range WHITE_SPACE_test (Z.to_nat rawIndex) rawIndex H) as H1.
  pose proof (scanLeftWhile_range NOT_WHITE_SPACE_test
                (Z.to_nat (scanLeftWhile WHITE_SPACE_test (Z.to_nat rawIndex)
                             rawTextChars rawIndex)) _ (proj1 H1)).
  lia.
Qed.

Lemma expandRightToTokenBoundary_range (rawIndex : Z) :
  rawIndex <= len rawTextChars ->
  rawIndex <= expandRightToTokenBoundary rawIndex rawTextChars <= len rawTextChars.
Proof.
  intros H. unfold expandRightToTokenBoundary.
  pose proof (scanRightWhile_range WHITE_SPACE_test
                (Z.to_nat (len rawTextChars - rawIndex)) rawIndex H) as H1.
  pose proof (scanRightWhile_range NOT_WHITE_SPACE_test
                (Z.to_nat (len rawTextChars
                           - scanRightWhile WHITE_SPACE_test
                               (Z.to_nat (len rawTextChars - rawIndex)) rawTextChars
                               rawIndex)) _ (proj2 H1)).
  lia.
Qed.

(** [widenRight] returns an end at which the loop of [createPrefixCandidate]
    stops: the count has reached the target, the end of the text is reached,
    or the next token boundary is no further. *)
Lemma widenRight_exit (rawStart targetLen : Z) (fuel : nat) :
  forall e, len rawTextChars - e <= Z.of_nat fuel ->
    let r := widenRight fuel rawStart targetLen rawTextChars e in
    (countNonWsInRange rawStart r rawTextChars <? targetLen)
    && (r <? len rawTextChars) = false
    \/ expandRightToTokenBoundary (r + 1) rawTextChars <= r.
Proof.
  induction fuel as [| fuel IH]; intros e He; cbn [widenRight].
  - left. destruct (Z.ltb_spec e (len rawTextChars)); [lia | apply andb_false_r].
  - destruct ((countNonWsInRange rawStart e rawTextChars <? targetLen)
              && (e <? len rawTextChars)) eqn:E; [| now left].
    destruct (Z.leb_spec (expandRightToTokenBoundary (e + 1) rawTextChars) e) as [Hle | Hgt];
      [now right |].
    apply IH. lia.
Qed.

Lemma createPrefixCandidate_widens (rawStart targetLen : Z) :
  0 <= rawStart <= len rawTextChars ->
  let r :=
    widenRight (length rawTextChars) rawStart targetLen rawTextChars
      (expandRightToTokenBoundary rawStart rawTextChars) in
  (countNonWsInRange rawStart r rawTextChars <? targetLen)
  && (r <? len rawTextChars) = false
  \/ expandRightToTokenBoundary (r + 1) rawTextChars <= r.
Proof.
  intros H. apply widenRight_exit.
  pose proof (expandRightToTokenBoundary_range rawStart ltac:(lia)). unfold len in *. lia.
Qed.

Lemma widenLeft_exit (rawEndExcl targetLen : Z) (fuel : nat) :
  forall s, s <= Z.of_nat fuel ->
    let r := widenLeft fuel rawEndExcl targetLen rawTextChars s in
    (countNonWsInRange r rawEndExcl rawTextChars <? targetLen) && (0 <? r) = false
    \/ r <= expandLeftToTokenBoundary (Z.max 0 (r - 1)) rawTextChars.
Proof.
  induction fuel as [| fuel IH]; intros s Hs; cbn [widenLeft].
  - left. destruct (Z.ltb_spec 0 s); [lia | apply andb_false_r].
  - destruct ((countNonWsInRange s rawEndExcl rawTextChars <? targetLen) && (0 <? s)) eqn:E;
      [| now left].
    destruct (Z.leb_spec s (expandLeftToTokenBoundary (Z.max 0 (s - 1)) rawTextChars))
      as [Hle | Hgt]; [now right |].
    apply IH. lia.
Qed.

Lemma createSuffixCandidate_widens (rawEndExcl targetLen : Z) :
  rawEndExcl <= len rawTextChars ->
  let r :=
    widenLeft (length rawTextChars) rawEndExcl targetLen rawTextChars
      (expandLeftToTokenBoundary (Z.max 0 (rawEndExcl - 1)) rawTextChars) in
  (countNonWsInRange r rawEndExcl rawTextChars <? targetLen) && (0 <? r) = false
  \/ r <= expandLeftToTokenBoundary (Z.max 0 (r - 1)) rawTextChars.
Proof.
  intros H. apply widenLeft_exit.
  pose proof (expandLeftToTokenBoundary_range (Z.max 0 (rawEndExcl - 1)) ltac:(lia)).
  pose proof (len_nonneg rawTextChars). unfold len in *. lia.
Qed.

(** More fuel does not change the result of [widenBoth] once the fuel
    exceeds the room left on the two sides: a round that changes the count
    moves a boundary. *)
Lemma widenBoth_stable (targetLen : Z) (fuel : nat) :
  forall s e fuel',
    0 <= s -> e <= len rawTextChars -> s + (len rawTextChars - e) < Z.of_nat fuel ->
    (fuel <= fuel')%nat ->
    widenBoth fuel' targetLen rawTextChars s e = widenBoth fuel targetLen rawTextChars s e.
Proof.
  induction fuel as [| fuel IH]; intros s e fuel' Hs He Hm Hf; [lia |].
  destruct fuel' as [| fuel']; [lia |]. cbn [widenBoth].
  destruct (countNonWsInRange s e rawTextChars <? targetLen); [| reflexivity].
  set (s' := if 0 <? s
             then if expandLeftToTokenBoundary (Z.max 0 (s - 1)) rawTextChars <? s
                  then expandLeftToTokenBoundary (Z.max 0 (s - 1)) rawTextChars
                  else s
             else s).
  set (e' := if e <? len rawTextChars
             then if e <? expandRightToTokenBoundary (e + 1) rawTextChars
                  then expandRightToTokenBoundary (e + 1) rawTextChars
                  else e
             else e).
  assert (Hs' : 0 <= s' <= s).
  { unfold s'. destruct (Z.ltb_spec 0 s); [| lia].
    pose proof (expandLeftToTokenBoundary_range (Z.max 0 (s - 1)) ltac:(lia)).
    destruct (Z.ltb_spec (expandLeftToTokenBoundary (Z.max 0 (s - 1)) rawTextChars) s); lia. }
  assert (He' : e <= e' <= len rawTextChars).
  { unfold e'. destruct (Z.ltb_spec e (len rawTextChars)); [| lia].
    pose proof (expandRightToTokenBoundary_range (e + 1) ltac:(lia)).
    destruct (Z.ltb_spec e (expandRightToTokenBoundary (e + 1) rawTextChars)); lia. }
  destruct (Z.eqb_spec (countNonWsInRange s' e' rawTextChars)
              (countNonWsInRange s e rawTextChars)) as [Heq | Hne]; [reflexivity |].
  apply IH; try lia.
  assert (s' <> s \/ e' <> e) as Hmove.
  { destruct (Z.eq_dec s' s) as [E1 | ?]; [| now left].
    destruct (Z.eq_dec e' e) as [E2 | ?]; [| now right].
    rewrite E1, E2 in Hne. easy. }
  lia.
Qed.

Lemma createMidCandidate_widens (rawStart rawEndExcl targetLen : Z) (extra : nat) :
  0 <= rawStart <= rawEndExcl -> rawEndExcl <= len rawTextChars ->
  widenBoth (S (length rawTextChars) + extra) targetLen rawTextChars
    (expandLeftToTokenBoundary rawStart rawTextChars)
    (expandRightToTokenBoundary rawEndExcl rawTextChars)
  = widenBoth (S (length rawTextChars)) targetLen rawTextChars
      (expandLeftToTokenBoundary rawStart rawTextChars)
      (expandRightToTokenBoundary rawEndExcl rawTextChars).
Proof.
  intros H1 H2.
  pose proof (expandLeftToTokenBoundary_range rawStart ltac:(lia)).
  pose proof (expandRightToTokenBoundary_range rawEndExcl ltac:(lia)).
  apply widenBoth_stable; unfold len in *; lia.
Qed.

End Widen.

(** ** The disambiguation loop ends *)

Section Disambiguation.

Variables (rawTextChars flatRawText : text) (rawToFlatRaw : list Z).

Let step (s : Slice) (d : bool) : Slice :=
  if d then
    let expanded := expandSpanForDisambiguation (sl_span s) rawTextChars rawToFlatRaw in
    if negb (rawStart expanded =? rawStart (sl_span s))
       || negb (rawEndExclusive expanded =? rawEndExclusive (sl_span s))
    then mkSlice expanded (sl_nonExpandable s)
    else mkSlice (sl_span s) true
  else s.

Let weight (s : Slice) : nat :=
  if sl_nonExpandable s then O
  else S (Z.to_nat (rawStart (sl_span s))
          + Z.to_nat (len rawTextChars - rawEndExclusive (sl_span s))).

(** An expansion moves the start down to a position that is not negative and
    the end up to a position inside the text, or leaves them. *)
Lemma expandSpanForDisambiguation_range (sp : MatchSpan) :
  let sp' := expandSpanForDisambiguation sp rawTextChars rawToFlatRaw in
  (rawStart sp' = rawStart sp \/ 0 <= rawStart sp' < rawStart sp)
  /\ (rawEndExclusive sp' = rawEndExclusive sp
      \/ rawEndExclusive sp < rawEndExclusive sp' <= len rawTextChars).
Proof.
  unfold expandSpanForDisambiguation. cbn [rawStart rawEndExclusive].
  pose proof (len_nonneg rawTextChars) as Hn.
  pose proof (expandLeftToTokenBoundary_range rawTextChars (Z.max 0 (rawStart sp - 1))
                ltac:(lia)) as Hl.
  pose proof (expandRightToTokenBoundary_range rawTextChars
                (Z.min (len rawTextChars) (rawEndExclusive sp + 1)) ltac:(lia)) as Hr.
  split.
  - destruct (Z.ltb_spec (expandLeftToTokenBoundary (Z.max 0 (rawStart sp - 1)) rawTextChars)
                (rawStart sp)); [right; lia | now left].
  - destruct (Z.ltb_spec (rawEndExclusive sp)
                (expandRightToTokenBoundary
                   (Z.min (len rawTextChars) (rawEndExclusive sp + 1)) rawTextChars));
      [right; lia | now left].
Qed.

Lemma step_weight (s : Slice) (d : bool) :
  (weight (step s d) <= weight s)%nat
  /\ (d = true -> sl_nonExpandable s = false -> (weight (step s d) < weight s)%nat).
Proof.
  destruct d; [| split; [cbn; lia | discriminate]].
  unfold step.
  destruct (expandSpanForDisambiguation_range (sl_span s)) as [Hs He].
  set (sp' := expandSpanForDisambiguation (sl_span s) rawTextChars rawToFlatRaw) in *.
  cbv zeta in Hs, He.
  destruct (Z.eqb_spec (rawStart sp') (rawStart (sl_span s))) as [E1 | N1];
    destruct (Z.eqb_spec (rawEndExclusive sp') (rawEndExclusive (sl_span s))) as [E2 | N2];
    cbn [negb orb]; unfold weight; cbn [sl_span sl_nonExpandable];
    destruct (sl_nonExpandable s); split; intros; try discriminate; lia.
Qed.

Lemma sliceMeasure_zip_with (slices : list Slice) :
  forall dup,
    Forall2 (fun s (d : bool) => d = true -> sl_nonExpandable s = false) slices dup ->
    (sliceMeasure rawTextChars (zip_with step slices dup)
     <= sliceMeasure rawTextChars slices)%nat
    /\ (existsb id dup = true ->
        (sliceMeasure rawTextChars (zip_with step slices dup)
         < sliceMeasure rawTextChars slices)%nat).
Proof.
  induction 1 as [| s d slices dup Hd _ IH]; [split; [cbn; lia | discriminate] |].
  cbn [zip_with sliceMeasure foldr existsb].
  fold (sliceMeasure rawTextChars slices).
  fold (sliceMeasure rawTextChars (zip_with step slices dup)).
  fold (weight s). fold (weight (step s d)).
  destruct IH as [IH1 IH2]. destruct (step_weight s d) as [H1 H2].
  split; [lia |]. intros Hex. apply orb_true_iff in Hex as [Hex | Hex].
  - destruct d; [| discriminate]. specialize (H2 eq_refl (Hd eq_refl)). lia.
  - specialize (IH2 Hex). lia.
Qed.

Lemma Forall2_imap {A B} (R : A -> B -> Prop) (l : list A) :
  forall g : nat -> A -> B,
    (forall i x, l !! i = Some x -> R x (g i x)) -> Forall2 R l (imap g l).
Proof.
  induction l as [| x l IH]; intros g Hg; [constructor |].
  cbn [imap]. constructor; [apply (Hg 0%nat); reflexivity |].
  apply IH. intros i y Hy. apply (Hg (S i)). exact Hy.
Qed.

Lemma disambiguationRound_measure (slices : list Slice) :
  let r := disambiguationRound rawTextChars flatRawText rawToFlatRaw slices in
  snd r = true ->
  (sliceMeasure rawTextChars (fst r) < sliceMeasure rawTextChars slices)%nat.
Proof.
  unfold disambiguationRound. cbn [fst snd]. intros Hex.
  apply (sliceMeasure_zip_with slices); [| exact Hex].
  apply Forall2_imap. intros i s _ Hd.
  unfold inDuplicateGroup in Hd. apply andb_true_iff in Hd as [Hd _].
  now apply negb_true_iff in Hd.
Qed.

Lemma disambiguationLoop_ends (fuel : nat) :
  forall slices,
    (sliceMeasure rawTextChars slices < fuel)%nat ->
    snd (disambiguationLoop fuel rawTextChars flatRawText rawToFlatRaw slices) = true.
Proof.
  induction fuel as [| fuel IH]; intros slices Hm; [lia |].
  cbn [disambiguationLoop].
  pose proof (disambiguationRound_measure slices) as Hr. cbv zeta in Hr.
  destruct (disambiguationRound rawTextChars flatRawText rawToFlatRaw slices)
    as [slices' dupExist].
  cbn [fst snd] in Hr. destruct dupExist; [| reflexivity].
  apply IH. specialize (Hr eq_refl). lia.
Qed.

(** The loop of [generateDisambiguationSuggestionsFromSpans] ends by its own
    test within the rounds that the model allows it. *)
Lemma disambiguation_terminates (spans : list MatchSpan) :
  snd (disambiguationLoop (disambiguationFuel rawTextChars spans) rawTextChars
         flatRawText rawToFlatRaw (map (fun sp => mkSlice sp false) spans)) = true.
Proof.
  apply disambiguationLoop_ends. unfold disambiguationFuel.
  apply Nat.lt_succ_r.
  induction spans as [| sp spans IH]; [reflexivity |].
  cbn [map sliceMeasure foldr sl_nonExpandable sl_span].
  fold (sliceMeasure rawTextChars (map (fun sp => mkSlice sp false) spans)). lia.
Qed.

End Disambiguation.

(** ** The flat view, position by position *)

Section FlatPrefix.

Variable raw : text.

(** Every entry [a] of F->R at a flat index [j] splits the raw text where the
    flat text splits at [j]. *)
Let PrefixInv (st : FlatState) : Prop :=
  forall (j : nat) (a : Z),
    fs_flatRawToRaw st !! j = Some a ->
    normalizeText (take (Z.to_nat a) raw) = take j (fs_flatChars st).

Lemma skipWhitespaceRun_same (fuel : nat) (st : FlatState) :
  fs_flatRawToRaw (skipWhitespaceRun fuel raw st) = fs_flatRawToRaw st
  /\ fs_flatChars (skipWhitespaceRun fuel raw st) = fs_flatChars st.
Proof.
  revert st. induction fuel as [| fuel IH]; intros st; cbn [skipWhitespaceRun]; [easy |].
  destruct ((fs_i st <? len raw) && WHITE_SPACE_test (get raw (fs_i st))); [| easy].
  destruct (IH (mkFlatState (fs_i st + 1) (fs_flatIndex st) (fs_flatChars st)
                  (fs_flatRawToRaw st) (fs_rawToFlatRaw st ++ [fs_flatIndex st])))
    as [H1 H2].
  cbn in H1, H2. easy.
Qed.

Lemma buildFlatLoop_prefix (fuel : nat) :
  forall st, FlatInv raw st -> PrefixInv st -> PrefixInv (buildFlatLoop fuel raw st).
Proof.
  induction fuel as [| fuel IH]; intros st Hinv Hp; [exact Hp |].
  cbn [buildFlatLoop].
  destruct (Z.ltb_spec (fs_i st) (len raw)) as [Hlt | Hge]; [| exact Hp].
  destruct (get raw (fs_i st)) as [c |] eqn:Hget; [| exact Hp].
  destruct (isWhitespace c) eqn:Hws.
  - apply IH.
    + apply skipWhitespaceRun_inv, Hinv.
    + destruct (skipWhitespaceRun_same (length raw) st) as [E1 E2].
      intros j a Ha. rewrite E1 in Ha. rewrite E2. now apply Hp.
  - apply IH; [now apply (FlatInv_step_nonws raw st c) |].
    intros j a Ha. cbn [fs_flatRawToRaw fs_flatChars] in *.
    assert (Hlen : length (fs_flatRawToRaw st) = length (fs_flatChars st)).
    { pose proof (fi_f2r_len raw st Hinv). pose proof (fi_chars_len raw st Hinv).
      unfold len in *. lia. }
    destruct (decide (j < length (fs_flatRawToRaw st))%nat) as [Hj | Hj].
    + rewrite lookup_app_l in Ha by lia.
      rewrite take_app_le by lia. now apply Hp.
    + apply lookup_lt_Some in Ha as Hj'. rewrite length_app in Hj'. cbn in Hj'.
      assert (j = length (fs_flatRawToRaw st)) as -> by lia.
      rewrite list_lookup_middle in Ha by reflexivity. inversion Ha; subst a.
      rewrite Hlen, take_app_length. symmetry. apply (fi_chars raw st Hinv).
Qed.

Lemma buildFlat_prefix (j a : Z) :
  let h := buildFlatRawTextHelpers raw in
  get (flatRawToRaw h) j = Some a ->
  0 <= j < len (flatRawText h)
  /\ 0 <= a < len raw
  /\ normalizeText (take (Z.to_nat a) raw) = take (Z.to_nat j) (flatRawText h)
  /\ (exists c, get raw a = Some c /\ get (flatRawText h) j = Some c
                /\ isWhitespace c = false).
Proof.
  intros h Hget. apply get_Some in Hget as [Hj Hget].
  destruct (buildFlat_inv raw) as [Hinv Hi].
  assert (Hp : PrefixInv (buildFlatLoop (length raw) raw (mkFlatState 0 0 [] [] []))).
  { apply buildFlatLoop_prefix; [apply FlatInv_init |].
    intros j0 a0 H0. cbn in H0. now rewrite lookup_nil in H0. }
  cbn [h buildFlatRawTextHelpers flatRawToRaw flatRawText] in *.
  set (st := buildFlatLoop (length raw) raw (mkFlatState 0 0 [] [] [])) in *.
  pose proof (fi_f2r_bound raw st Hinv _ _ Hget) as Hb.
  pose proof (lookup_lt_Some _ _ _ Hget) as Hjl.
  pose proof (fi_f2r_len raw st Hinv) as L1. pose proof (fi_chars_len raw st Hinv) as L2.
  split; [unfold len in *; lia |]. split; [lia |]. split; [now apply Hp |].
  destruct (fi_inverse2 raw st Hinv _ _ Hget) as [Hr (c & Hc & Hws)].
  destruct (fi_inverse raw st Hinv (Z.to_nat a) c Hc ltac:(lia) Hws) as (j' & H1 & _ & H3).
  rewrite Hr in H1. inversion H1 as [E]. apply Nat2Z.inj in E. subst j'.
  exists c. split; [apply get_Some; split; [lia | easy] |].
  split; [apply get_Some; split; [lia | easy] | easy].
Qed.

End FlatPrefix.

Lemma normalizeText_take_drop (raw : text) (n : nat) :
  normalizeText raw = normalizeText (take n raw) ++ normalizeText (drop n raw).
Proof. now rewrite <- normalizeText_app, take_drop. Qed.

Lemma normalizeText_drop (raw : text) (n k : nat) :
  normalizeText (take n raw) = take k (normalizeText raw) ->
  (k <= length (normalizeText raw))%nat ->
  normalizeText (drop n raw) = drop k (normalizeText raw).
Proof.
  intros H Hk. pose proof (normalizeText_take_drop raw n) as E. rewrite H in E.
  rewrite E at 1. rewrite drop_app_length'; [reflexivity |].
  rewrite length_take. lia.
Qed.

(** The raw text strictly before the raw position of the flat index [j]
    strips to the first [j] flat scalars, and the raw text through that
    position to the first [j + 1]. *)
Lemma flat_split (raw : text) (j a : Z) :
  let h := buildFlatRawTextHelpers raw in
  get (flatRawToRaw h) j = Some a ->
  normalizeText (take (Z.to_nat a) raw) = take (Z.to_nat j) (normalizeText raw)
  /\ normalizeText (take (Z.to_nat (a + 1)) raw) = take (Z.to_nat (j + 1)) (normalizeText raw)
  /\ normalizeText (drop (Z.to_nat a) raw) = drop (Z.to_nat j) (normalizeText raw)
  /\ normalizeText (drop (Z.to_nat (a + 1)) raw)
     = drop (Z.to_nat (j + 1)) (normalizeText raw).
Proof.
  intros h Hget.
  destruct (buildFlat_prefix raw j a Hget) as (Hj & Ha & Hp & c & Hc & Hfc & Hws).
  destruct (buildFlat_lengths raw) as (_ & _ & Hflat). fold h in Hflat, Hj, Hp, Hfc.
  rewrite Hflat in Hj, Hp, Hfc.
  assert (H1 : normalizeText (take (Z.to_nat (a + 1)) raw)
               = take (Z.to_nat (j + 1)) (normalizeText raw)).
  { apply get_Some in Hc as [_ Hc]. apply get_Some in Hfc as [_ Hfc].
    replace (Z.to_nat (a + 1)) with (S (Z.to_nat a)) by lia.
    replace (Z.to_nat (j + 1)) with (S (Z.to_nat j)) by lia.
    rewrite (take_S_snoc _ _ _ Hc), (take_S_snoc _ _ _ Hfc), normalizeText_app, Hp.
    rewrite normalizeText_single, Hws. reflexivity. }
  split; [exact Hp |]. split; [exact H1 |].
  split; apply normalizeText_drop; try easy; unfold len in Hj; lia.
Qed.

(** ** R->F counts the scalars that are kept *)

Section FlatCount.

Variable raw : text.

Let CountInv (st : FlatState) : Prop :=
  forall (k : nat) (v : Z),
    fs_rawToFlatRaw st !! k = Some v -> v = len (normalizeText (take k raw)).

Lemma CountInv_snoc (st : FlatState) (i' fi' : Z) (chars' : text) (f2r' : list Z) :
  FlatInv raw st -> CountInv st ->
  CountInv (mkFlatState i' fi' chars' f2r' (fs_rawToFlatRaw st ++ [fs_flatIndex st])).
Proof.
  intros Hinv Hc k v Hk. cbn [fs_rawToFlatRaw] in Hk.
  pose proof (fi_r2f_len raw st Hinv) as L1.
  pose proof (fi_chars_len raw st Hinv) as L2.
  pose proof (fi_range raw st Hinv) as Hr.
  destruct (decide (k < length (fs_rawToFlatRaw st))%nat) as [Hlt | Hge].
  - rewrite lookup_app_l in Hk by lia. now apply Hc.
  - apply lookup_lt_Some in Hk as Hk'. rewrite length_app in Hk'. cbn in Hk'.
    assert (k = length (fs_rawToFlatRaw st)) as -> by lia.
    rewrite list_lookup_middle in Hk by reflexivity. inversion Hk; subst v.
    rewrite <- L2, (fi_chars raw st Hinv). do 3 f_equal. unfold len in L1. lia.
Qed.

Lemma skipWhitespaceRun_count (fuel : nat) :
  forall st, FlatInv raw st -> CountInv st -> CountInv (skipWhitespaceRun fuel raw st).
Proof.
  induction fuel as [| fuel IH]; intros st Hinv Hc; cbn [skipWhitespaceRun]; [exact Hc |].
  destruct (fs_i st <? len raw) eqn:Hlt; cbn [andb]; [| exact Hc].
  destruct (get raw (fs_i st)) as [c |] eqn:Hget; cbn [WHITE_SPACE_test]; [| exact Hc].
  destruct (isWhitespace c) eqn:Hws; [| exact Hc].
  apply IH; [now apply (FlatInv_step_ws raw st c) | now apply CountInv_snoc].
Qed.

Lemma buildFlatLoop_count (fuel : nat) :
  forall st, FlatInv raw st -> CountInv st -> CountInv (buildFlatLoop fuel raw st).
Proof.
  induction fuel as [| fuel IH]; intros st Hinv Hc; [exact Hc |].
  cbn [buildFlatLoop].
  destruct (Z.ltb_spec (fs_i st) (len raw)) as [Hlt | Hge]; [| exact Hc].
  destruct (get raw (fs_i st)) as [c |] eqn:Hget; [| exact Hc].
  destruct (isWhitespace c) eqn:Hws.
  - apply IH; [apply skipWhitespaceRun_inv, Hinv | now apply skipWhitespaceRun_count].
  - apply IH; [now apply (FlatInv_step_nonws raw st c) | now apply CountInv_snoc].
Qed.

Lemma buildFlat_count (i : Z) :
  let h := buildFlatRawTextHelpers raw in
  0 <= i < len raw ->
  get (rawToFlatRaw h) i = Some (len (normalizeText (take (Z.to_nat i) raw))).
Proof.
  intros h Hi.
  destruct (buildFlat_inv raw) as [Hinv Hl].
  assert (Hc : CountInv (buildFlatLoop (length raw) raw (mkFlatState 0 0 [] [] []))).
  { apply buildFlatLoop_count; [apply FlatInv_init |].
    intros k v H0. cbn in H0. now rewrite lookup_nil in H0. }
  cbn [h buildFlatRawTextHelpers rawToFlatRaw].
  set (st := buildFlatLoop (length raw) raw (mkFlatState 0 0 [] [] [])) in *.
  pose proof (fi_r2f_len raw st Hinv) as L1.
  destruct (get_lt_len (fs_rawToFlatRaw st) i ltac:(lia)) as [v Hv].
  rewrite Hv. f_equal. apply get_Some in Hv as [_ Hv]. now apply Hc.
Qed.

End FlatCount.

(** X1. The flat view is the raw text with its whitespace removed, and F->R
    lists the raw positions of the scalars that are kept: the entry [a] at the
    flat index [j] is the position of a scalar that is not whitespace, that
    scalar is the [j]-th of the flat text, and the raw text before [a] strips
    to the flat text before [j]. *)
Theorem flat_view_is_stripped_text (raw : text) :
  let h := buildFlatRawTextHelpers raw in
  rawTextChars h = raw
  /\ flatRawText h = normalizeText raw
  /\ len (flatRawToRaw h) = len (flatRawText h)
  /\ forall j a,
       get (flatRawToRaw h) j = Some a ->
       0 <= a < len raw
       /\ (exists c, get raw a = Some c /\ get (flatRawText h) j = Some c
                     /\ isWhitespace c = false)
       /\ normalizeText (slice raw 0 a) = slice (flatRawText h) 0 j.
Proof.
  intros h. destruct (buildFlat_lengths raw) as (_ & H2 & H3). fold h in H2, H3.
  split; [reflexivity |]. split; [exact H3 |]. split; [exact H2 |].
  intros j a Hget.
  destruct (buildFlat_prefix raw j a Hget) as (Hj & Ha & Hp & Hc).
  split; [exact Ha |]. split; [exact Hc |].
  unfold slice. rewrite !drop_0, !Z.sub_0_r. exact Hp.
Qed.

(** X2. R->F is defined on every raw position and holds the number of
    scalars before it that are not whitespace: a scalar that is kept is
    sent to its own flat index, a whitespace scalar to the flat index of the
    next scalar that is kept. *)
Theorem raw_to_flat_counts_kept_scalars (raw : text) :
  let h := buildFlatRawTextHelpers raw in
  len (rawToFlatRaw h) = len raw
  /\ forall i, 0 <= i < len raw ->
       get (rawToFlatRaw h) i = Some (len (normalizeText (slice raw 0 i))).
Proof.
  intros h. destruct (buildFlat_lengths raw) as (H1 & _). split; [exact H1 |].
  intros i Hi. unfold slice. rewrite drop_0, Z.sub_0_r. now apply buildFlat_count.
Qed.

(** ** The raw span of an exact match *)

Lemma take_slice_split {A} (l : list A) (a b : Z) :
  0 <= a <= b -> take (Z.to_nat b) l = take (Z.to_nat a) l ++ slice l a b.
Proof.
  intros H. unfold slice.
  rewrite <- (take_drop (Z.to_nat a) (take (Z.to_nat b) l)).
  rewrite take_take, Nat.min_l by lia. f_equal.
  rewrite take_drop_commute. do 2 f_equal. lia.
Qed.

(** The raw text between the raw positions of two flat indices strips to
    the flat text between them. *)
Lemma normalizeText_raw_slice (raw : text) (o m a b : Z) :
  let h := buildFlatRawTextHelpers raw in
  1 <= m ->
  get (flatRawToRaw h) o = Some a ->
  get (flatRawToRaw h) (o + m - 1) = Some b ->
  0 <= a <= b /\ b < len raw
  /\ normalizeText (slice raw a (b + 1)) = slice (normalizeText raw) o (o + m).
Proof.
  intros h Hm Ha Hb.
  destruct (buildFlat_prefix raw o a Ha) as (Ho & Har & _).
  destruct (buildFlat_prefix raw (o + m - 1) b Hb) as (Hom & Hbr & _).
  destruct (flat_split raw o a Ha) as (A1 & _).
  destruct (flat_split raw (o + m - 1) b Hb) as (_ & B2 & _).
  replace (o + m - 1 + 1) with (o + m) in B2 by lia.
  assert (Hab : a <= b).
  { destruct (buildFlat_inv raw) as [Hinv _].
    pose proof (fi_f2r_incr raw _ Hinv) as Hinc.
    apply get_Some in Ha as [_ Ha]. apply get_Some in Hb as [_ Hb].
    destruct (Z.eq_dec m 1) as [-> | Hne].
    - replace (o + 1 - 1) with o in Hb by lia.
      cbn [h buildFlatRawTextHelpers flatRawToRaw] in Ha, Hb. rewrite Ha in Hb.
      inversion Hb. lia.
    - pose proof (Hinc (Z.to_nat o) (Z.to_nat (o + m - 1)) a b ltac:(lia) Ha Hb). lia. }
  split; [lia |]. split; [lia |].
  pose proof (take_slice_split raw a (b + 1) ltac:(lia)) as E.
  apply (f_equal normalizeText) in E. rewrite normalizeText_app, A1, B2 in E.
  pose proof (take_slice_split (normalizeText raw) o (o + m) ltac:(lia)) as E'.
  rewrite E' in E. now apply app_inv_head in E.
Qed.

Lemma findMatchSpans_exact_nonempty (T P raw : text) (f2r r2f : list Z) :
  isExactMatch (findMatchSpans T P raw f2r r2f) = true -> P <> [].
Proof.
  intros H ->. unfold findMatchSpans, findMatchSpansMax in H.
  destruct (len T =? 0); [discriminate |]. cbn in H. discriminate.
Qed.

(** What an exact match span is, in the raw text. *)
Lemma exact_span_raw (raw search : text) (sp : MatchSpan) :
  let h := buildFlatRawTextHelpers raw in
  let P := normalizeText search in
  let r := find h search in
  isExactMatch r = true -> In sp (spans r) ->
  In (flatStart sp) (occurrences (flatRawText h) P)
  /\ flatEndExclusive sp = flatStart sp + len P
  /\ get (flatRawToRaw h) (flatStart sp) = Some (rawStart sp)
  /\ get (flatRawToRaw h) (flatStart sp + len P - 1) = Some (rawEndExclusive sp - 1)
  /\ 1 <= len P.
Proof.
  intros h P r Hex Hin.
  destruct (buildFlat_lengths raw) as (_ & Hlen & _). fold h in Hlen. clearbody h.
  pose proof (findMatchSpans_exact_nonempty _ _ _ _ _ Hex) as HP. fold P in HP.
  destruct (findMatchSpans_exact (flatRawText h) P (rawTextChars h) (flatRawToRaw h)
              (rawToFlatRaw h) HP) as [_ Hsp].
  destruct (Hsp Hex) as (Hst & _ & Hall).
  rewrite Forall_forall in Hall.
  destruct (Hall sp ltac:(now apply list_elem_of_In)) as (_ & He & Hr).
  assert (Hocc : In (flatStart sp) (occurrences (flatRawText h) P)).
  { apply (in_map flatStart) in Hin. unfold r, find in Hin. fold P in Hin.
    rewrite Hst in Hin. apply list_elem_of_In, elem_of_take in Hin as (i & Hi & _).
    apply list_elem_of_In. eapply list_elem_of_lookup_2, Hi. }
  destruct (occurrences_bounds _ _ _ Hocc) as (Ho & Hol & _).
  assert (Hm : 1 <= len P) by (destruct P; [easy | unfold len; cbn; lia]).
  rewrite He in Hr. rewrite reconstructRawSpan_inside in Hr by lia.
  injection Hr as E1 E2.
  split; [exact Hocc |]. split; [exact He |].
  split.
  - apply get_Some. split; [lia |]. rewrite E1. apply getZ_lookup. lia.
  - split; [| exact Hm]. apply get_Some. split; [lia |]. rewrite E2.
    replace (getZ (flatRawToRaw h) (flatStart sp + len P - 1) + 1 - 1)
      with (getZ (flatRawToRaw h) (flatStart sp + len P - 1)) by lia.
    apply getZ_lookup. lia.
Qed.



(** ** Token boundaries and line boundaries *)

Section Boundaries.

Variable rawTextChars : text.

Lemma scanLeftWhile_all (test : option char -> bool) (fuel : nat) :
  forall pos,
    let r := scanLeftWhile test fuel rawTextChars pos in
    r <= pos /\ forall k, r <= k < pos -> test (get rawTextChars k) = true.
Proof.
  induction fuel as [| fuel IH]; intros pos; cbn [scanLeftWhile]; [split; [lia | intros; lia] |].
  destruct ((0 <? pos) && test (get rawTextChars (pos - 1))) eqn:E;
    [| split; [lia | intros; lia]].
  apply andb_true_iff in E as [_ E]. destruct (IH (pos - 1)) as [H1 H2].
  split; [lia |]. intros k Hk. destruct (Z.eq_dec k (pos - 1)) as [-> | Hne]; [exact E |].
  apply H2. lia.
Qed.

Lemma scanRightWhile_all (test : option char -> bool) (fuel : nat) :
  forall pos,
    let r := scanRightWhile test fuel rawTextChars pos in
    pos <= r /\ forall k, pos <= k < r -> test (get rawTextChars k) = true.
Proof.
  induction fuel as [| fuel IH]; intros pos; cbn [scanRightWhile]; [split; [lia | intros; lia] |].
  destruct ((pos <? len rawTextChars) && test (get rawTextChars pos)) eqn:E;
    [| split; [lia | intros; lia]].
  apply andb_true_iff in E as [_ E]. destruct (IH (pos + 1)) as [H1 H2].
  split; [lia |]. intros k Hk. destruct (Z.eq_dec k pos) as [-> | Hne]; [exact E |].
  apply H2. lia.
Qed.

Lemma WHITE_SPACE_test_true (x : option char) :
  WHITE_SPACE_test x = true <-> exists c, x = Some c /\ isWhitespace c = true.
Proof.
  destruct x as [c |]; cbn; split; try easy.
  - intros H. now exists c.
  - now intros (c' & [= <-] & H).
  - now intros (c' & H & _).
Qed.

Lemma NOT_WHITE_SPACE_test_false (x : option char) :
  NOT_WHITE_SPACE_test x = false <-> exists c, x = Some c /\ isWhitespace c = true.
Proof.
  destruct x as [c |]; cbn; split; try easy.
  - intros H. exists c. split; [easy |]. now apply negb_false_iff.
  - intros (c' & [= <-] & H). now rewrite H.
  - now intros (c' & H & _).
Qed.

(** X4. [expandLeftToTokenBoundary] goes left from [rawIndex] over a run of
    whitespace and then over a run of scalars that are not whitespace, and
    stops at the start of the text or just after a whitespace scalar: the
    result is the start of the token at or before [rawIndex]. *)
Theorem expandLeftToTokenBoundary_finds_token_start (rawIndex : Z) :
  let r := expandLeftToTokenBoundary rawIndex rawTextChars in
  r <= rawIndex
  /\ (0 <= rawIndex -> 0 <= r)
  /\ (0 < r -> exists c, get rawTextChars (r - 1) = Some c /\ isWhitespace c = true)
  /\ exists p,
       r <= p <= rawIndex
       /\ (forall k, r <= k < p -> NOT_WHITE_SPACE_test (get rawTextChars k) = true)
       /\ (forall k, p <= k < rawIndex ->
             exists c, get rawTextChars k = Some c /\ isWhitespace c = true).
Proof.
  intros r.
  destruct (expandLeftToTokenBoundary_exits rawTextChars rawIndex) as [_ Hexit].
  fold r in Hexit.
  unfold expandLeftToTokenBoundary in r.
  set (p := scanLeftWhile WHITE_SPACE_test (Z.to_nat rawIndex) rawTextChars rawIndex) in *.
  destruct (scanLeftWhile_all WHITE_SPACE_test (Z.to_nat rawIndex) rawIndex) as [Hp1 Hp2].
  destruct (scanLeftWhile_all NOT_WHITE_SPACE_test (Z.to_nat p) p) as [Hr1 Hr2].
  fold p in Hp1, Hp2. fold r in Hr1, Hr2.
  split; [lia |]. split.
  { intros H0. pose proof (scanLeftWhile_range rawTextChars WHITE_SPACE_test
                             (Z.to_nat rawIndex) rawIndex H0) as Hp0. fold p in Hp0.
    pose proof (scanLeftWhile_range rawTextChars NOT_WHITE_SPACE_test (Z.to_nat p) p
                  ltac:(lia)) as Hr0. fold r in Hr0. lia. }
  split.
  { intros Hr. destruct (Z.ltb_spec 0 r); [| lia]. cbn [andb] in Hexit.
    now apply NOT_WHITE_SPACE_test_false. }
  exists p. split; [lia |]. split; [exact Hr2 |].
  intros k Hk. apply WHITE_SPACE_test_true. now apply Hp2.
Qed.

(** X5. [expandRightToTokenBoundary] goes right from [rawIndex] over a run
    of whitespace and then over a run of scalars that are not whitespace,
    and stops at the end of the text or on a whitespace scalar: the result is
    the end of the token at or after [rawIndex]. *)
Theorem expandRightToTokenBoundary_finds_token_end (rawIndex : Z) :
  let r := expandRightToTokenBoundary rawIndex rawTextChars in
  rawIndex <= r
  /\ (rawIndex <= len rawTextChars -> r <= len rawTextChars)
  /\ (r < len rawTextChars ->
      exists c, get rawTextChars r = Some c /\ isWhitespace c = true)
  /\ exists p,
       rawIndex <= p <= r
       /\ (forall k, rawIndex <= k < p ->
             exists c, get rawTextChars k = Some c /\ isWhitespace c = true)
       /\ (forall k, p <= k < r -> NOT_WHITE_SPACE_test (get rawTextChars k) = true).
Proof.
  intros r.
  destruct (expandRightToTokenBoundary_exits rawTextChars rawIndex) as [_ Hexit].
  fold r in Hexit.
  unfold expandRightToTokenBoundary in r.
  set (p := scanRightWhile WHITE_SPACE_test (Z.to_nat (len rawTextChars - rawIndex))
              rawTextChars rawIndex) in *.
  destruct (scanRightWhile_all WHITE_SPACE_test (Z.to_nat (len rawTextChars - rawIndex))
              rawIndex) as [Hp1 Hp2].
  destruct (scanRightWhile_all NOT_WHITE_SPACE_test (Z.to_nat (len rawTextChars - p)) p)
    as [Hr1 Hr2].
  fold p in Hp1, Hp2. fold r in Hr1, Hr2.
  split; [lia |]. split.
  { intros H0. pose proof (expandRightToTokenBoundary_range rawTextChars rawIndex H0) as H.
    unfold expandRightToTokenBoundary in H. fold p in H. fold r in H. lia. }
  split.
  { intros Hr. destruct (Z.ltb_spec r (len rawTextChars)); [| lia]. cbn [andb] in Hexit.
    now apply NOT_WHITE_SPACE_test_false. }
  exists p. split; [lia |]. split; [| exact Hr2].
  intros k Hk. apply WHITE_SPACE_test_true. now apply Hp2.
Qed.

Lemma lineBoundaryLeftLoop_all (fuel : nat) :
  forall start,
    let r := lineBoundaryLeftLoop fuel rawTextChars start in
    r <= start
    /\ (0 <= start -> 0 <= r)
    /\ forall k, r <= k < start ->
         exists c, get rawTextChars k = Some c /\ isWhitespace c = true
                   /\ c <> 10%N /\ c <> 13%N.
Proof.
  induction fuel as [| fuel IH]; intros start; cbn [lineBoundaryLeftLoop];
    [split; [lia | split; [lia | intros; lia]] |].
  destruct (negb (hasStartReachedLineBoundary rawTextChars start)
            && WHITE_SPACE_test (get rawTextChars (start - 1))) eqn:E;
    [| split; [lia | split; [lia | intros; lia]]].
  apply andb_true_iff in E as [E1 E2]. apply negb_true_iff in E1.
  unfold hasStartReachedLineBoundary in E1. apply orb_false_iff in E1 as [E0 E1].
  apply Z.eqb_neq in E0.
  apply WHITE_SPACE_test_true in E2 as (c & Hc & Hws).
  unfold isPosLineBoundary in E1. rewrite Hc in E1. apply orb_false_iff in E1 as [N1 N2].
  apply N.eqb_neq in N1, N2.
  destruct (IH (start - 1)) as (H1 & H2 & H3).
  split; [lia |]. split.
  { intros H0. apply H2. lia. }
  intros k Hk. destruct (Z.eq_dec k (start - 1)) as [-> | Hne]; [now exists c |].
  apply H3. lia.
Qed.

Lemma lineBoundaryRightLoop_all (fuel : nat) :
  forall e,
    let r := lineBoundaryRightLoop fuel rawTextChars e in
    e <= r
    /\ (e <= len rawTextChars -> r <= len rawTextChars)
    /\ forall k, e <= k < r ->
         exists c, get rawTextChars k = Some c /\ isWhitespace c = true
                   /\ c <> 10%N /\ c <> 13%N.
Proof.
  induction fuel as [| fuel IH]; intros e; cbn [lineBoundaryRightLoop];
    [split; [lia | split; [lia | intros; lia]] |].
  destruct (negb (hasEndReachedLineBoundary rawTextChars e)
            && WHITE_SPACE_test (get rawTextChars e)) eqn:E;
    [| split; [lia | split; [lia | intros; lia]]].
  apply andb_true_iff in E as [E1 E2]. apply negb_true_iff in E1.
  unfold hasEndReachedLineBoundary in E1. apply orb_false_iff in E1 as [E0 E1].
  apply Z.eqb_neq in E0.
  apply WHITE_SPACE_test_true in E2 as (c & Hc & Hws).
  unfold isPosLineBoundary in E1. rewrite Hc in E1. apply orb_false_iff in E1 as [N1 N2].
  apply N.eqb_neq in N1, N2.
  assert (Hlt : e < len rawTextChars).
  { destruct (Z.ltb_spec e (len rawTextChars)); [easy |].
    rewrite get_ge_len in Hc by lia. discriminate. }
  destruct (IH (e + 1)) as (H1 & H2 & H3).
  split; [lia |]. split.
  { intros H0. apply H2. lia. }
  intros k Hk. destruct (Z.eq_dec k e) as [-> | Hne]; [now exists c |].
  apply H3. lia.
Qed.

(** X6. [findLineBoundaryToLeft] returns the start of the line of
    [spanRawStart] when only whitespace lies between them (the start of the
    text, or the position just after a line feed or a carriage return), and
    [-1] when a scalar that is not whitespace stands in between. *)
Theorem findLineBoundaryToLeft_finds_line_start (spanRawStart : Z) :
  let r := findLineBoundaryToLeft rawTextChars spanRawStart in
  (r = -1 \/ 0 <= r <= spanRawStart)
  /\ (0 <= r ->
      (r = 0 \/ exists c, get rawTextChars (r - 1) = Some c /\ (c = 10%N \/ c = 13%N))
      /\ forall k, r <= k < spanRawStart ->
           exists c, get rawTextChars k = Some c /\ isWhitespace c = true
                     /\ c <> 10%N /\ c <> 13%N)
  /\ (r = -1 -> 0 <= spanRawStart ->
      exists q,
        0 < q <= spanRawStart
        /\ NOT_WHITE_SPACE_test (get rawTextChars (q - 1)) = true
        /\ forall k, q <= k < spanRawStart ->
             exists c, get rawTextChars k = Some c /\ isWhitespace c = true).
Proof.
  unfold findLineBoundaryToLeft. cbv zeta.
  set (s := lineBoundaryLeftLoop (Z.to_nat spanRawStart) rawTextChars spanRawStart).
  pose proof (findLineBoundaryToLeft_exits rawTextChars spanRawStart) as Hexit.
  cbv zeta in Hexit. fold s in Hexit.
  destruct (lineBoundaryLeftLoop_all (Z.to_nat spanRawStart) spanRawStart) as (H1 & H2 & H3).
  fold s in H1, H2, H3. clearbody s.
  destruct (hasStartReachedLineBoundary rawTextChars s) eqn:Hreach.
  - unfold hasStartReachedLineBoundary in Hreach.
    assert (Hs0 : 0 <= s).
    { destruct (Z.eqb_spec s 0); [lia |]. cbn [orb] in Hreach.
      unfold isPosLineBoundary, get in Hreach.
      destruct (Z.ltb_spec (s - 1) 0); [discriminate | lia]. }
    split; [right; lia |]. split; [| intros; lia].
    intros _. split; [| exact H3].
    destruct (Z.eqb_spec s 0) as [E | Hne]; [now left | right].
    cbn [orb] in Hreach. unfold isPosLineBoundary in Hreach.
    destruct (get rawTextChars (s - 1)) as [c |]; [| discriminate].
    exists c. split; [reflexivity |].
    apply orb_true_iff in Hreach as [E | E]; apply N.eqb_eq in E; auto.
  - split; [now left |]. split; [intros; lia |].
    intros _ H0. cbn [negb andb] in Hexit.
    unfold hasStartReachedLineBoundary in Hreach. apply orb_false_iff in Hreach as [E0 _].
    apply Z.eqb_neq in E0. specialize (H2 H0).
    exists s. split; [lia |]. split.
    + destruct (get rawTextChars (s - 1)) as [c |]; cbn in *; [now rewrite Hexit | easy].
    + intros k Hk. destruct (H3 k Hk) as (c & Hc & Hw & _). now exists c.
Qed.

(** X7. [findLineBoundaryToRight] returns the end of the line of
    [spanRawEndExcl] when only whitespace lies between them (the end of the
    text, or the position of a line feed or a carriage return), and [-1]
    when a scalar that is not whitespace stands in between. *)
Theorem findLineBoundaryToRight_finds_line_end (spanRawEndExcl : Z) :
  let r := findLineBoundaryToRight rawTextChars spanRawEndExcl in
  (r = -1 \/ spanRawEndExcl <= r)
  /\ (r <> -1 ->
      (r = len rawTextChars
       \/ exists c, get rawTextChars r = Some c /\ (c = 10%N \/ c = 13%N))
      /\ forall k, spanRawEndExcl <= k < r ->
           exists c, get rawTextChars k = Some c /\ isWhitespace c = true
                     /\ c <> 10%N /\ c <> 13%N)
  /\ (r = -1 -> 0 <= spanRawEndExcl <= len rawTextChars ->
      exists q,
        spanRawEndExcl <= q < len rawTextChars
        /\ (exists c, get rawTextChars q = Some c /\ isWhitespace c = false)
        /\ forall k, spanRawEndExcl <= k < q ->
             exists c, get rawTextChars k = Some c /\ isWhitespace c = true).
Proof.
  unfold findLineBoundaryToRight. cbv zeta.
  set (s := lineBoundaryRightLoop (Z.to_nat (len rawTextChars - spanRawEndExcl))
              rawTextChars spanRawEndExcl).
  pose proof (findLineBoundaryToRight_exits rawTextChars spanRawEndExcl) as Hexit.
  cbv zeta in Hexit. fold s in Hexit.
  destruct (lineBoundaryRightLoop_all (Z.to_nat (len rawTextChars - spanRawEndExcl))
              spanRawEndExcl) as (H1 & H2 & H3).
  fold s in H1, H2, H3. clearbody s.
  destruct (hasEndReachedLineBoundary rawTextChars s) eqn:Hreach.
  - split; [right; lia |]. split.
    + intros _. split; [| exact H3].
      unfold hasEndReachedLineBoundary in Hreach.
      destruct (Z.eqb_spec s (len rawTextChars)) as [E | Hne]; [now left | right].
      cbn [orb] in Hreach. unfold isPosLineBoundary in Hreach.
      destruct (get rawTextChars s) as [c |]; [| discriminate].
      exists c. split; [reflexivity |].
      apply orb_true_iff in Hreach as [E | E]; apply N.eqb_eq in E; auto.
    + intros Hs [H0 Hl]. exfalso.
      unfold hasEndReachedLineBoundary in Hreach.
      destruct (Z.eqb_spec s (len rawTextChars)) as [E | Hne]; [lia |].
      cbn [orb] in Hreach. unfold isPosLineBoundary, get in Hreach.
      destruct (Z.ltb_spec s 0); [discriminate | lia].
  - split; [now left |]. split; [easy |].
    intros _ [H0 Hl]. cbn [negb andb] in Hexit. specialize (H2 Hl).
    unfold hasEndReachedLineBoundary in Hreach. apply orb_false_iff in Hreach as [E0 _].
    apply Z.eqb_neq in E0.
    destruct (get_lt_len rawTextChars s ltac:(lia)) as [c Hc].
    exists s. split; [lia |]. split.
    + exists c. split; [exact Hc |]. rewrite Hc in Hexit. exact Hexit.
    + intros k Hk. destruct (H3 k Hk) as (c' & Hc' & Hw & _). now exists c'.
Qed.

End Boundaries.

(** ** Counting the scalars of a range *)

Lemma seqZ_snoc (a : Z) (n : nat) :
  seqZ a (Z.of_nat (S n)) = seqZ a (Z.of_nat n) ++ [a + Z.of_nat n].
Proof.
  replace (Z.of_nat (S n)) with (Z.of_nat n + 1) by lia.
  rewrite seqZ_app by lia. reflexivity.
Qed.

Lemma countNonWsInRange_slice (rawTextChars : text) (a : Z) (n : nat) :
  0 <= a -> a + Z.of_nat n <= len rawTextChars ->
  countNonWsInRange a (a + Z.of_nat n) rawTextChars
  = len (normalizeText (slice rawTextChars a (a + Z.of_nat n))).
Proof.
  intros Ha. unfold countNonWsInRange.
  replace (a + Z.of_nat n - a) with (Z.of_nat n) by lia.
  induction n as [| n IH]; intros Hb.
  { unfold slice. replace (Z.to_nat (a + Z.of_nat 0%nat - a)) with 0%nat by lia. reflexivity. }
  rewrite seqZ_snoc, fold_left_app. cbn [fold_left]. rewrite IH by lia.
  destruct (get_lt_len rawTextChars (a + Z.of_nat n) ltac:(lia)) as [c Hc].
  rewrite Hc. cbn [NOT_WHITE_SPACE_test].
  assert (E : slice rawTextChars a (a + Z.of_nat (S n))
              = slice rawTextChars a (a + Z.of_nat n) ++ [c]).
  { unfold slice.
    replace (Z.to_nat (a + Z.of_nat (S n) - a)) with (S n) by lia.
    replace (Z.to_nat (a + Z.of_nat n - a)) with n by lia.
    apply take_S_r. rewrite lookup_drop. apply get_Some in Hc as [_ Hc].
    rewrite <- Hc. f_equal. lia. }
  rewrite E, normalizeText_app, normalizeText_single, len_app.
  destruct (isWhitespace c); cbn [negb]; unfold len; cbn [length]; lia.
Qed.

(** X8. Inside the text, [countNonWsInRange] is the length of the stripped
    text of the range. *)
Theorem countNonWsInRange_counts_stripped_length (rawTextChars : text)
    (rawStart rawEndExcl : Z) :
  0 <= rawStart <= rawEndExcl -> rawEndExcl <= len rawTextChars ->
  countNonWsInRange rawStart rawEndExcl rawTextChars
  = len (normalizeText (sliceBySpan rawTextChars rawStart rawEndExcl)).
Proof.
  intros H1 H2. unfold sliceBySpan.
  replace rawEndExcl with (rawStart + Z.of_nat (Z.to_nat (rawEndExcl - rawStart))) by lia.
  apply countNonWsInRange_slice; lia.
Qed.

Lemma countNonWsInRange_counts_stripped_length_witness :
  0 <= 1 <= 5 /\ 5 <= len [32; 97; 32; 10; 98; 99]%N
  /\ countNonWsInRange 1 5 [32; 97; 32; 10; 98; 99]%N = 2.
Proof.
  split; [lia |]. split; [vm_compute; discriminate |].
  refine (eq_trans
            (countNonWsInRange_counts_stripped_length [32; 97; 32; 10; 98; 99]%N 1 5 _ _) _).
  - lia.
  - vm_compute. discriminate.
  - vm_compute. reflexivity.
Defined.

(** ** The Z-array *)

Lemma commonPrefixLen_spec (a b : text) :
  let c := commonPrefixLen a b in
  0 <= c <= len a /\ c <= len b
  /\ (forall j, 0 <= j < c -> exists x, get a j = Some x /\ get b j = Some x)
  /\ (c < len a -> c < len b ->
      exists x y, get a c = Some x /\ get b c = Some y /\ x <> y).
Proof.
  revert b. induction a as [| x a IH]; intros [| y b]; cbn [commonPrefixLen];
    try (unfold len; cbn [length]; split; [lia |]; split; [lia |];
         split; intros; lia).
  destruct (N.eqb_spec x y) as [-> | Hne].
  - destruct (IH b) as (H1 & H2 & H3 & H4).
    unfold len in *. cbn [length].
    split; [lia |]. split; [lia |]. split.
    + intros j Hj. destruct (Z.eq_dec j 0) as [-> | Hj0]; [exists y; easy |].
      destruct (H3 (j - 1) ltac:(lia)) as (c & Ha & Hb). exists c.
      apply get_Some in Ha as [_ Ha]. apply get_Some in Hb as [_ Hb].
      split; apply get_Some; (split; [lia |]);
        replace (Z.to_nat j) with (Datatypes.S (Z.to_nat (j - 1))) by lia; easy.
    + intros Ha Hb. destruct (H4 ltac:(lia) ltac:(lia)) as (u & v & Hu & Hv & Huv).
      exists u, v. apply get_Some in Hu as [_ Hu]. apply get_Some in Hv as [_ Hv].
      replace (1 + commonPrefixLen a b - 1) with (commonPrefixLen a b) by lia.
      split; [| split; [| exact Huv]]; apply get_Some; (split; [lia |]);
        replace (Z.to_nat (1 + commonPrefixLen a b))
          with (Datatypes.S (Z.to_nat (commonPrefixLen a b))) by lia; easy.
  - unfold len. cbn [length]. split; [lia |]. split; [lia |]. split; [intros; lia |].
    intros _ _. exists x, y. easy.
Qed.

Lemma getZ_insert_same (l : list Z) (i v : Z) :
  0 <= i < len l -> getZ (<[Z.to_nat i := v]> l) i = v.
Proof.
  intros Hi. unfold getZ, get. destruct (Z.ltb_spec i 0); [lia |].
  rewrite list_lookup_insert_eq by (unfold len in Hi; lia). reflexivity.
Qed.

Lemma getZ_insert_other (l : list Z) (i j v : Z) :
  0 <= i -> i <> j -> getZ (<[Z.to_nat i := v]> l) j = getZ l j.
Proof.
  intros Hi Hne. unfold getZ, get. destruct (Z.ltb_spec j 0); [reflexivity |].
  rewrite list_lookup_insert_ne by lia. reflexivity.
Qed.

Lemma len_insert {A} (l : list A) (i : nat) (v : A) : len (<[i := v]> l) = len l.
Proof. unfold len. now rewrite length_insert. Qed.

Lemma get_reverse {A} (l : list A) (j : Z) :
  0 <= j < len l -> get (reverse l) j = get l (len l - 1 - j).
Proof.
  intros Hj. unfold get, len in *.
  destruct (Z.ltb_spec j 0); [lia |].
  destruct (Z.ltb_spec (Z.of_nat (length l) - 1 - j) 0); [lia |].
  rewrite reverse_lookup by lia. f_equal. lia.
Qed.

Lemma get_drop {A} (l : list A) (n j : Z) :
  0 <= n -> 0 <= j -> get (drop (Z.to_nat n) l) j = get l (n + j).
Proof.
  intros Hn Hj. unfold get.
  destruct (Z.ltb_spec j 0); [lia |]. destruct (Z.ltb_spec (n + j) 0); [lia |].
  rewrite lookup_drop. f_equal. lia.
Qed.

Section ZArray.

Variables (pattern text_ : text) (backwards : bool).

Let vlen := len pattern + 1 + len text_.
Let S (idx : Z) : option char := charAt pattern text_ backwards idx.

(** The two characters at [j] and [i] of the virtual concatenation are
    characters (not the separator) and are equal. *)
Let eqAt (j i : Z) : bool :=
  match S j, S i with
  | Some a, Some b => (a =? b)%N
  | _, _ => false
  end.

(** [k] is the Z-value at [pos]: the length of the longest common prefix of
    the concatenation and its part from [pos]. *)
Let isZ (pos k : Z) : Prop :=
  0 <= k /\ pos + k <= vlen
  /\ (forall j, 0 <= j < k -> eqAt j (pos + j) = true)
  /\ (pos + k < vlen -> eqAt k (pos + k) = false).

Lemma eqAt_trans (a b c : Z) : eqAt a b = true -> eqAt b c = true -> eqAt a c = true.
Proof.
  unfold eqAt. destruct (S a), (S b), (S c); try easy.
  intros H1 H2. apply N.eqb_eq in H1, H2. apply N.eqb_eq. congruence.
Qed.

Lemma isZ_unique (pos k k' : Z) : isZ pos k -> isZ pos k' -> k = k'.
Proof.
  intros (H1 & H2 & H3 & H4) (H1' & H2' & H3' & H4').
  destruct (Z.lt_trichotomy k k') as [Hlt | [E | Hgt]]; [| exact E |].
  - specialize (H3' k ltac:(lia)). rewrite H4 in H3' by lia. discriminate.
  - specialize (H3 k' ltac:(lia)). rewrite H4' in H3 by lia. discriminate.
Qed.

Lemma zExtend_step (fuel : nat) (pos zp : Z) :
  zExtend (Datatypes.S fuel) pattern text_ backwards vlen pos zp
  = if (pos + zp <? vlen) && eqAt zp (pos + zp)
    then zExtend fuel pattern text_ backwards vlen pos (zp + 1)
    else zp.
Proof.
  cbn [zExtend]. unfold eqAt, S.
  destruct (pos + zp <? vlen); [| reflexivity]. cbn [andb].
  destruct (charAt pattern text_ backwards zp); [| reflexivity].
  destruct (charAt pattern text_ backwards (pos + zp)); reflexivity.
Qed.

Lemma zExtend_isZ (fuel : nat) :
  forall pos zp,
    0 <= zp -> pos + zp <= vlen -> vlen - (pos + zp) <= Z.of_nat fuel ->
    (forall j, 0 <= j < zp -> eqAt j (pos + j) = true) ->
    isZ pos (zExtend fuel pattern text_ backwards vlen pos zp).
Proof.
  induction fuel as [| fuel IH]; intros pos zp H0 Hle Hf Hm.
  { cbn [zExtend]. repeat split; try easy; lia. }
  rewrite zExtend_step.
  destruct (Z.ltb_spec (pos + zp) vlen) as [Hlt | Hge]; cbn [andb].
  2:{ repeat split; try easy; lia. }
  destruct (eqAt zp (pos + zp)) eqn:E.
  - apply IH; try lia. intros j Hj.
    destruct (Z.eq_dec j zp) as [-> | Hne]; [exact E | apply Hm; lia].
  - repeat split; easy.
Qed.

(** The state of the loop before the position [pos]: the entries below
    [pos] are Z-values, and [L, R] is a window that repeats the start of the
    concatenation. *)
Let ZInv (pos : Z) (st : ZState) : Prop :=
  len (zs_z st) = vlen
  /\ (forall p, 1 <= p < pos -> isZ p (getZ (zs_z st) p))
  /\ 0 <= zs_L st < pos
  /\ 0 <= zs_R st < vlen
  /\ (1 <= zs_R st -> 1 <= zs_L st)
  /\ (forall j, 1 <= zs_L st -> 0 <= j -> zs_L st + j <= zs_R st ->
        eqAt j (zs_L st + j) = true).

Lemma zStep_inv (st : ZState) (pos : Z) :
  1 <= pos < vlen -> ZInv pos st -> ZInv (pos + 1) (zStep pattern text_ backwards vlen st pos).
Proof.
  intros Hpos (Hlen & Hz & HL & HR & Hb0 & Hbox). unfold zStep.
  set (z0 := if pos <=? zs_R st
             then Z.min (zs_R st - pos + 1) (getZ (zs_z st) (pos - zs_L st))
             else 0).
  assert (Hz0 : 0 <= z0 /\ pos + z0 <= vlen
                /\ forall j, 0 <= j < z0 -> eqAt j (pos + j) = true).
  { unfold z0. destruct (Z.leb_spec pos (zs_R st)) as [Hin | Hout];
      [| split; [lia | split; [lia | intros; lia]]].
    assert (HL1 : 1 <= zs_L st) by (apply Hb0; lia).
    destruct (Hz (pos - zs_L st) ltac:(lia)) as (K1 & K2 & K3 & _).
    split; [lia |]. split; [lia |]. intros j Hj.
    apply (eqAt_trans j (pos - zs_L st + j)); [apply K3; lia |].
    replace (pos + j) with (zs_L st + (pos - zs_L st + j)) by lia.
    apply Hbox; lia. }
  destruct Hz0 as (Hz0 & Hz0' & Hm).
  pose proof (zExtend_isZ (Z.to_nat vlen) pos z0 Hz0 Hz0' ltac:(lia) Hm) as HisZ.
  set (zp := zExtend (Z.to_nat vlen) pattern text_ backwards vlen pos z0) in *.
  assert (Hzi : forall p, 1 <= p < pos + 1 ->
                  isZ p (getZ (<[Z.to_nat pos := zp]> (zs_z st)) p)).
  { intros p Hp. destruct (Z.eq_dec p pos) as [-> | Hne].
    - rewrite getZ_insert_same by lia. exact HisZ.
    - rewrite getZ_insert_other by lia. apply Hz. lia. }
  destruct HisZ as (Z1 & Z2 & Z3 & _).
  destruct (Z.ltb_spec (zs_R st) (pos + zp - 1)) as [Hnew | Hold];
    unfold ZInv; cbn [zs_z zs_L zs_R]; rewrite len_insert.
  - split; [easy |]. split; [exact Hzi |]. split; [lia |]. split; [lia |].
    split; [lia |]. intros j _ Hj0 Hj. apply Z3. lia.
  - split; [easy |]. split; [exact Hzi |]. split; [lia |]. split; [lia |].
    split; [easy | exact Hbox].
Qed.

Lemma fold_zStep_inv (n : nat) :
  forall pos st,
    1 <= pos -> pos + Z.of_nat n <= vlen -> ZInv pos st ->
    ZInv (pos + Z.of_nat n)
      (fold_left (zStep pattern text_ backwards vlen) (seqZ pos (Z.of_nat n)) st).
Proof.
  induction n as [| n IH]; intros pos st Hpos Hn Hinv.
  { cbn. now rewrite Z.add_0_r. }
  rewrite seqZ_cons by lia. cbn [fold_left].
  replace (Z.pred (Z.of_nat (Datatypes.S n))) with (Z.of_nat n) by lia.
  replace (pos + Z.of_nat (Datatypes.S n)) with (Z.succ pos + Z.of_nat n) by lia.
  apply IH; try lia. replace (Z.succ pos) with (pos + 1) by lia.
  apply zStep_inv; [lia | exact Hinv].
Qed.

(** Every entry of the Z-array after the first is the Z-value of its
    position. *)
Lemma computeZArray_isZ (p : Z) :
  1 <= p < vlen -> isZ p (getZ (computeZArray pattern text_ backwards) p).
Proof.
  intros Hp. unfold computeZArray. fold vlen.
  pose proof (len_nonneg pattern) as Hp0. pose proof (len_nonneg text_) as Ht0.
  assert (Hinit : ZInv 1 (mkZState (replicate (Z.to_nat vlen) 0) 0 0)).
  { unfold ZInv. cbn [zs_z zs_L zs_R]. split.
    - unfold len. rewrite length_replicate. lia.
    - repeat split; intros; lia. }
  pose proof (fold_zStep_inv (Z.to_nat (vlen - 1)) 1 _ ltac:(lia) ltac:(lia) Hinit) as Hfin.
  replace (Z.of_nat (Z.to_nat (vlen - 1))) with (vlen - 1) in Hfin by lia.
  rewrite (getZ_insert_other _ 0 p vlen) by lia.
  destruct Hfin as (_ & Hz & _). apply Hz. lia.
Qed.

(** The two texts as the concatenation reads them. *)
Let pat' : text := if backwards then reverse pattern else pattern.
Let txt' : text := if backwards then reverse text_ else text_.

Lemma S_pattern (j : Z) : 0 <= j < len pattern -> S j = get pat' j.
Proof.
  intros Hj. unfold S, charAt, pat'. destruct (Z.ltb_spec j (len pattern)); [| lia].
  destruct backwards; [| reflexivity]. now rewrite get_reverse.
Qed.

Lemma S_separator : S (len pattern) = None.
Proof.
  unfold S, charAt. destruct (Z.ltb_spec (len pattern) (len pattern)); [lia |].
  now rewrite Z.eqb_refl.
Qed.

Lemma S_text (j : Z) : 0 <= j < len text_ -> S (len pattern + 1 + j) = get txt' j.
Proof.
  intros Hj. unfold S, charAt, txt'.
  destruct (Z.ltb_spec (len pattern + 1 + j) (len pattern)); [lia |].
  destruct (Z.eqb_spec (len pattern + 1 + j) (len pattern)); [lia |].
  replace (len pattern + 1 + j - (len pattern + 1)) with j by lia.
  destruct backwards; [| reflexivity]. now rewrite get_reverse.
Qed.

Lemma len_pat' : len pat' = len pattern.
Proof. unfold pat', len. destruct backwards; [now rewrite length_reverse | easy]. Qed.

Lemma len_txt' : len txt' = len text_.
Proof. unfold txt', len. destruct backwards; [now rewrite length_reverse | easy]. Qed.

(** The entry of the Z-array at a position of the text is the length of the
    longest common prefix of the pattern and the text from that position, both
    read in the direction of the array. *)
Lemma computeZArray_text (pos : Z) :
  0 <= pos < len text_ ->
  getZ (computeZArray pattern text_ backwards) (len pattern + 1 + pos)
  = commonPrefixLen pat' (drop (Z.to_nat pos) txt').
Proof.
  intros Hpos. pose proof (len_nonneg pattern) as Hp0.
  apply (isZ_unique (len pattern + 1 + pos)).
  { apply computeZArray_isZ. unfold vlen. lia. }
  destruct (commonPrefixLen_spec pat' (drop (Z.to_nat pos) txt')) as (C1 & C2 & C3 & C4).
  cbv zeta in C1, C2, C3, C4.
  set (c := commonPrefixLen pat' (drop (Z.to_nat pos) txt')) in *.
  assert (Hld : len (drop (Z.to_nat pos) txt') = len text_ - pos).
  { pose proof len_txt' as E. unfold len in *. rewrite length_drop. lia. }
  rewrite len_pat' in C1, C4. rewrite Hld in C2, C4.
  unfold isZ. split; [lia |]. split; [unfold vlen; lia |]. split.
  - intros j Hj. destruct (C3 j Hj) as (x & Hx & Hy).
    unfold eqAt. rewrite S_pattern by lia.
    replace (len pattern + 1 + pos + j) with (len pattern + 1 + (pos + j)) by lia.
    rewrite S_text by lia. rewrite get_drop in Hy by lia.
    rewrite Hx, Hy. apply N.eqb_refl.
  - intros Hlt. unfold vlen in Hlt. unfold eqAt.
    destruct (Z.eq_dec c (len pattern)) as [E | Hne].
    + rewrite E, S_separator. reflexivity.
    + destruct (C4 ltac:(lia) ltac:(lia)) as (x & y & Hx & Hy & Hxy).
      rewrite S_pattern by lia.
      replace (len pattern + 1 + pos + c) with (len pattern + 1 + (pos + c)) by lia.
      rewrite S_text by lia. rewrite get_drop in Hy by lia.
      rewrite Hx, Hy. now apply N.eqb_neq.
Qed.

End ZArray.


(** X9. [computePrefixMatches] holds, for every position of the text, the
    length of the longest prefix of the pattern that the text carries from
    that position on. *)
Theorem computePrefixMatches_longest_prefix (pattern text_ : text) :
  computePrefixMatches pattern text_
  = map (fun pos => commonPrefixLen pattern (drop (Z.to_nat pos) text_))
      (seqZ 0 (len text_)).
Proof.
  unfold computePrefixMatches. apply map_ext_in. intros pos Hin.
  apply list_elem_of_In, elem_of_seqZ in Hin.
  pose proof (computeZArray_text pattern text_ false pos ltac:(lia)) as E.
  cbv zeta in E. cbn [negb] in E. rewrite E.
  destruct (commonPrefixLen_spec pattern (drop (Z.to_nat pos) text_)) as (C1 & _).
  cbv zeta in C1.
  destruct (Z.ltb_spec (len pattern) (commonPrefixLen pattern (drop (Z.to_nat pos) text_)));
    [lia | reflexivity].
Qed.

(** ** Suffix matches *)

Lemma commonPrefixLen_take (a b : text) :
  take (Z.to_nat (commonPrefixLen a b)) a = take (Z.to_nat (commonPrefixLen a b)) b.
Proof.
  revert b. induction a as [| x a IH]; intros [| y b]; cbn [commonPrefixLen]; try reflexivity.
  destruct (N.eqb_spec x y) as [-> | Hne]; [| reflexivity].
  destruct (commonPrefixLen_spec a b) as (H0 & _). cbv zeta in H0.
  replace (Z.to_nat (1 + commonPrefixLen a b))
    with (Datatypes.S (Z.to_nat (commonPrefixLen a b))) by lia.
  cbn [take]. now rewrite IH.
Qed.

(** The last [commonSuffixLen a b] elements of [a] and of [b] are the same. *)
Lemma commonSuffixLen_drop (a b : text) :
  let c := commonSuffixLen a b in
  0 <= c <= len a /\ c <= len b
  /\ drop (Z.to_nat (len a - c)) a = drop (Z.to_nat (len b - c)) b.
Proof.
  intros c. unfold commonSuffixLen in c.
  destruct (commonPrefixLen_spec (reverse a) (reverse b)) as (H1 & H2 & _).
  cbv zeta in H1, H2. fold c in H1, H2.
  unfold len in *. rewrite !length_reverse in *.
  split; [lia |]. split; [lia |].
  pose proof (commonPrefixLen_take (reverse a) (reverse b)) as E. fold c in E.
  rewrite !take_reverse in E. apply (inj reverse) in E.
  replace (Z.to_nat (Z.of_nat (length a) - c)) with (length a - Z.to_nat c)%nat by lia.
  replace (Z.to_nat (Z.of_nat (length b) - c)) with (length b - Z.to_nat c)%nat by lia.
  exact E.
Qed.

Section SuffixMatches.

Variables (pattern text_ : text).

Let textLen := len text_.

(** The length of the longest suffix of the pattern that ends at the
    position [e] of the text. *)
Let suf (e : Z) : Z := commonSuffixLen pattern (take (Z.to_nat e) text_).

Let stepFn (matches : list Z) (rpos : Z) : list Z :=
  let matchLen :=
    getZ (computeZArray pattern text_ true) (len pattern + 1 + rpos) in
  let matchLenCapped := if len pattern <? matchLen then len pattern else matchLen in
  if matchLenCapped <=? 0 then matches
  else
    let start := textLen - rpos - matchLenCapped in
    if (0 <=? start) && (start <? textLen) then
      if getZ matches start <? matchLenCapped
      then <[Z.to_nat start := matchLenCapped]> matches
      else matches
    else matches.

Lemma suf_range (e : Z) : 0 <= e <= textLen -> 0 <= suf e <= e /\ suf e <= len pattern.
Proof.
  intros He. destruct (commonSuffixLen_drop pattern (take (Z.to_nat e) text_)) as (H1 & H2 & _).
  cbv zeta in H1, H2. fold (suf e) in H1, H2.
  unfold len in H2. rewrite length_take in H2. unfold textLen, len in He. lia.
Qed.

Lemma stepFn_suf (matches : list Z) (rpos : Z) :
  0 <= rpos < textLen ->
  stepFn matches rpos
  = let c := suf (textLen - rpos) in
    if c <=? 0 then matches
    else if getZ matches (textLen - rpos - c) <? c
         then <[Z.to_nat (textLen - rpos - c) := c]> matches
         else matches.
Proof.
  intros Hr. unfold stepFn.
  pose proof (computeZArray_text pattern text_ true rpos Hr) as E.
  cbv zeta in E. cbn match in E. rewrite E.
  rewrite drop_reverse.
  replace (length text_ - Z.to_nat rpos)%nat with (Z.to_nat (textLen - rpos))
    by (unfold textLen, len; lia).
  fold (commonSuffixLen pattern (take (Z.to_nat (textLen - rpos)) text_)).
  fold (suf (textLen - rpos)).
  destruct (suf_range (textLen - rpos) ltac:(lia)) as [H1 H2].
  cbv zeta.
  destruct (Z.ltb_spec (len pattern) (suf (textLen - rpos))); [lia |].
  destruct (Z.leb_spec (suf (textLen - rpos)) 0); [reflexivity |].
  destruct (Z.leb_spec 0 (textLen - rpos - suf (textLen - rpos))); [| lia].
  destruct (Z.ltb_spec (textLen - rpos - suf (textLen - rpos)) textLen); [| lia].
  reflexivity.
Qed.

(** The array after the ends above [textLen - n] have been entered. *)
Let SufInv (n : Z) (m : list Z) : Prop :=
  len m = textLen
  /\ (forall s, 0 <= getZ m s)
  /\ (forall s v, getZ m s = v -> 0 < v ->
        exists e, textLen - n < e <= textLen /\ suf e = v /\ e - v = s)
  /\ (forall e, textLen - n < e <= textLen -> 0 < suf e -> suf e <= getZ m (e - suf e)).

Lemma stepFn_inv (n : Z) (m : list Z) :
  0 <= n < textLen -> SufInv n m -> SufInv (n + 1) (stepFn m n).
Proof.
  intros Hn (Hlen & Hnn & Hsound & Hmax). rewrite stepFn_suf by lia. cbv zeta.
  set (e0 := textLen - n). set (c := suf e0).
  destruct (suf_range e0 ltac:(unfold e0; lia)) as [Hc1 Hc2]. fold c in Hc1, Hc2.
  assert (Hkeep : SufInv (n + 1) m \/ (0 < c /\ getZ m (e0 - c) < c)).
  { destruct (Z.leb_spec c 0) as [Hc0 | Hc0].
    - left. split; [easy |]. split; [easy |]. split.
      + intros s v Hs Hv. destruct (Hsound s v Hs Hv) as (e & He & Hr).
        exists e. split; [lia | easy].
      + intros e He Hpos. destruct (Z.eq_dec e e0) as [-> | Hne]; [fold c in Hpos; lia |].
        apply Hmax; [unfold e0 in Hne; lia | easy].
    - destruct (Z.ltb_spec (getZ m (e0 - c)) c) as [Hlt | Hge]; [now right | left].
      split; [easy |]. split; [easy |]. split.
      + intros s v Hs Hv. destruct (Hsound s v Hs Hv) as (e & He & Hr).
        exists e. split; [lia | easy].
      + intros e He Hpos. destruct (Z.eq_dec e e0) as [-> | Hne]; [fold c; lia |].
        apply Hmax; [unfold e0 in Hne; lia | easy]. }
  destruct (Z.leb_spec c 0) as [Hc0 | Hc0].
  { destruct Hkeep as [H | [H _]]; [exact H | lia]. }
  destruct (Z.ltb_spec (getZ m (e0 - c)) c) as [Hlt | Hge].
  2:{ destruct Hkeep as [H | [_ H]]; [exact H | lia]. }
  clear Hkeep.
  assert (Hs0 : 0 <= e0 - c < len m) by (unfold e0 in *; lia).
  split; [now rewrite len_insert |]. split.
  { intros s. destruct (Z.eq_dec s (e0 - c)) as [-> | Hne].
    - rewrite getZ_insert_same by easy. lia.
    - rewrite getZ_insert_other by lia. apply Hnn. }
  split.
  - intros s v Hs Hv. destruct (Z.eq_dec s (e0 - c)) as [-> | Hne].
    + rewrite getZ_insert_same in Hs by easy. subst v.
      exists e0. unfold e0 in *. split; [lia |]. split; [reflexivity | lia].
    + rewrite getZ_insert_other in Hs by lia.
      destruct (Hsound s v Hs Hv) as (e & He & Hr). exists e. split; [lia | easy].
  - intros e He Hpos. destruct (Z.eq_dec (e - suf e) (e0 - c)) as [E | Hne].
    + rewrite E, getZ_insert_same by easy.
      destruct (Z.eq_dec e e0) as [-> | Hne]; [fold c; lia |].
      pose proof (Hmax e ltac:(unfold e0 in Hne; lia) Hpos) as H. rewrite E in H. lia.
    + rewrite getZ_insert_other by lia.
      destruct (Z.eq_dec e e0) as [-> | Hne']; [now fold c in Hne |].
      apply Hmax; [unfold e0 in Hne'; lia | easy].
Qed.

Lemma fold_stepFn_inv (k : nat) :
  forall n m,
    0 <= n -> n + Z.of_nat k <= textLen -> SufInv n m ->
    SufInv (n + Z.of_nat k) (fold_left stepFn (seqZ n (Z.of_nat k)) m).
Proof.
  induction k as [| k IH]; intros n m Hn Hk Hinv.
  { cbn. now rewrite Z.add_0_r. }
  rewrite seqZ_cons by lia. cbn [fold_left].
  replace (Z.pred (Z.of_nat (Datatypes.S k))) with (Z.of_nat k) by lia.
  replace (n + Z.of_nat (Datatypes.S k)) with (Z.succ n + Z.of_nat k) by lia.
  apply IH; try lia. replace (Z.succ n) with (n + 1) by lia.
  apply stepFn_inv; [lia | exact Hinv].
Qed.

Lemma computeSuffixMatches_inv : SufInv textLen (computeSuffixMatches pattern text_).
Proof.
  unfold computeSuffixMatches. fold textLen. fold stepFn.
  pose proof (len_nonneg text_) as Ht. fold textLen in Ht.
  assert (Hinit : SufInv 0 (replicate (Z.to_nat textLen) 0)).
  { split; [unfold len; rewrite length_replicate; lia |]. split.
    - intros s. apply getZ_nonneg, Forall_replicate. lia.
    - assert (Hz : forall s, getZ (replicate (Z.to_nat textLen) 0) s = 0).
      { intros s. unfold getZ, get. destruct (s <? 0); [reflexivity |].
        destruct (replicate (Z.to_nat textLen) 0 !! Z.to_nat s) as [x |] eqn:E;
          [| reflexivity].
        apply lookup_replicate in E as [-> _]. reflexivity. }
      split; [intros s v Hs Hv; rewrite Hz in Hs; lia | intros; lia]. }
  pose proof (fold_stepFn_inv (Z.to_nat textLen) 0 _ ltac:(lia) ltac:(lia) Hinit) as H.
  replace (Z.of_nat (Z.to_nat textLen)) with textLen in H by lia.
  exact H.
Qed.

End SuffixMatches.

(** X10. [computeSuffixMatches] enters, for every end position of the text,
    the length of the longest suffix of the pattern that ends there, at the
    position where that suffix starts, keeping the larger length when two
    ends share a start. An entry [v > 0] at [start] says that the text
    carries the last [v] scalars of the pattern from [start] on and that no
    longer suffix of the pattern ends at [start + v]; and the longest suffix
    ending at any [e] is covered by the entry at its start. *)
Theorem computeSuffixMatches_longest_suffix (pattern text_ : text) :
  let m := computeSuffixMatches pattern text_ in
  len m = len text_
  /\ (forall start v,
        getZ m start = v -> 0 < v ->
        0 <= start /\ start + v <= len text_ /\ v <= len pattern
        /\ slice text_ start (start + v) = sliceFrom pattern (len pattern - v)
        /\ commonSuffixLen pattern (take (Z.to_nat (start + v)) text_) = v)
  /\ (forall e,
        0 < e <= len text_ ->
        let c := commonSuffixLen pattern (take (Z.to_nat e) text_) in
        0 < c -> c <= getZ m (e - c)).
Proof.
  intros m. pose proof (computeSuffixMatches_inv pattern text_) as H.
  cbv zeta in H. fold m in H. destruct H as (Hlen & _ & Hsound & Hmax).
  split; [exact Hlen |]. split.
  - intros start v Hs Hv. destruct (Hsound start v Hs Hv) as (e & He & Hsuf & Hst).
    destruct (commonSuffixLen_drop pattern (take (Z.to_nat e) text_)) as (C1 & C2 & C3).
    cbv zeta in C1, C2, C3. rewrite Hsuf in C1, C2, C3.
    assert (Hle : len (take (Z.to_nat e) text_) = e).
    { unfold len in *. rewrite length_take. lia. }
    rewrite Hle in C2, C3.
    replace (start + v) with e by lia.
    split; [lia |]. split; [lia |]. split; [lia |]. split; [| exact Hsuf].
    unfold slice, sliceFrom. rewrite C3.
    replace (Z.to_nat (e - v)) with (Z.to_nat start) by lia.
    replace (Z.to_nat e) with (Z.to_nat start + Z.to_nat (e - start))%nat at 1 by lia.
    now rewrite <- take_drop_commute.
  - intros e He c Hc. apply Hmax; [lia | exact Hc].
Qed.
(** ** The spans of the match engine *)

Lemma length_omap_le {A B} (f : A -> option B) (l : list A) :
  (length (omap f l) <= length l)%nat.
Proof.
  induction l as [| x l IH]; [reflexivity |].
  cbn [omap list_omap]. destruct (f x); cbn [length]; lia.
Qed.

Lemma exactLoop_length (n : nat) (T P : text) (f2r : list Z) (rawLen : Z) :
  forall start, (length (exactLoop n T P f2r rawLen start) <= n)%nat.
Proof.
  induction n as [| n IH]; intros start; cbn [exactLoop]; [reflexivity |].
  destruct (start <? len T); [| cbn; lia].
  destruct (indexOf T P start =? -1); [cbn; lia |].
  cbn [length]. specialize (IH (indexOf T P start + 1)). lia.
Qed.

Lemma sortByKey_length {A} (key : A -> Z) (l : list A) :
  length (sortByKey key l) = length l.
Proof. apply Permutation_length, sortByKey_perm. Qed.

Lemma sortByKey_In {A} (key : A -> Z) (l : list A) (x : A) :
  In x (sortByKey key l) <-> In x l.
Proof.
  split; apply Permutation_in; [| symmetry]; apply sortByKey_perm.
Qed.

Lemma dedupe_In (ms : list RawMatch) :
  forall seen x, In x (dedupe seen ms) -> In x ms.
Proof.
  induction ms as [| m r IH]; intros seen x; cbn [dedupe]; [easy |].
  destruct (bool_decide _).
  - intros H. right. now apply (IH seen).
  - intros [-> | H]; [now left | right; eapply IH; exact H].
Qed.

Lemma In_take {A} (n : nat) (l : list A) (x : A) : In x (take n l) -> In x l.
Proof.
  intros H. apply list_elem_of_In in H. apply list_elem_of_In.
  now apply (subseteq_take n l).
Qed.

Section Counting.

Variable raw : text.

Local Abbreviation cnt i := (len (normalizeText (take (Z.to_nat i) raw))).
Local Abbreviation h := (buildFlatRawTextHelpers raw).

Lemma cnt_mono (a b : Z) : a <= b -> cnt a <= cnt b.
Proof.
  intros H. destruct (Z.le_gt_cases 0 a) as [Ha | Ha].
  - rewrite (take_slice_split raw a b) by lia.
    rewrite normalizeText_app, len_app.
    pose proof (len_nonneg (normalizeText (slice raw a b))). lia.
  - replace (Z.to_nat a) with 0%nat by lia. cbn [take]. apply len_nonneg.
Qed.

Lemma cnt_le_flat (a : Z) : cnt a <= len (normalizeText raw).
Proof.
  rewrite (normalizeText_take_drop raw (Z.to_nat a)), len_app.
  pose proof (len_nonneg (normalizeText (drop (Z.to_nat a) raw))). lia.
Qed.

Lemma cnt_all (a : Z) : len raw <= a -> cnt a = len (normalizeText raw).
Proof. intros H. rewrite take_ge by (unfold len in H; lia). reflexivity. Qed.

Lemma cnt_succ (a : Z) (c : char) :
  get raw a = Some c -> cnt (a + 1) = cnt a + (if isWhitespace c then 0 else 1).
Proof.
  intros Hc. apply get_Some in Hc as [Ha Hc].
  replace (Z.to_nat (a + 1)) with (S (Z.to_nat a)) by lia.
  rewrite (take_S_r _ _ _ Hc), normalizeText_app, normalizeText_single, len_app.
  destruct (isWhitespace c); reflexivity.
Qed.

Lemma f2r_fact (j a : Z) :
  get (flatRawToRaw h) j = Some a ->
  0 <= j < len (flatRawToRaw h) /\ 0 <= a < len raw /\ cnt a = j
  /\ exists c, get raw a = Some c /\ isWhitespace c = false.
Proof.
  intros H. destruct (buildFlat_prefix raw j a H) as (Hj & Ha & Hp & c & Hc & _ & Hw).
  destruct (buildFlat_lengths raw) as (_ & Hl & _).
  split; [lia |]. split; [exact Ha |]. split; [| now exists c].
  rewrite Hp. unfold len in *. rewrite length_take. lia.
Qed.

Lemma f2r_lt (j1 j2 a1 a2 : Z) :
  get (flatRawToRaw h) j1 = Some a1 -> get (flatRawToRaw h) j2 = Some a2 ->
  j1 < j2 -> a1 < a2.
Proof.
  intros H1 H2 Hlt.
  destruct (f2r_fact _ _ H1) as (_ & _ & E1 & _).
  destruct (f2r_fact _ _ H2) as (_ & _ & E2 & _).
  destruct (Z.lt_ge_cases a1 a2) as [Hc | Hc]; [exact Hc |].
  pose proof (cnt_mono a2 a1 Hc). lia.
Qed.

(** Between two neighbours of F->R there is only whitespace. *)
Lemma f2r_gap (j a b k : Z) :
  get (flatRawToRaw h) j = Some a -> get (flatRawToRaw h) (j + 1) = Some b ->
  a < k < b -> exists c, get raw k = Some c /\ isWhitespace c = true.
Proof.
  intros H1 H2 Hk.
  destruct (f2r_fact _ _ H1) as (_ & Ha & E1 & c1 & Hc1 & Hw1).
  destruct (f2r_fact _ _ H2) as (_ & Hb & E2 & _).
  destruct (get_lt_len raw k ltac:(lia)) as [c Hc]. exists c. split; [exact Hc |].
  destruct (isWhitespace c) eqn:Hw; [reflexivity |]. exfalso.
  pose proof (cnt_succ a c1 Hc1) as S1. rewrite Hw1 in S1.
  pose proof (cnt_succ k c Hc) as S2. rewrite Hw in S2.
  pose proof (cnt_mono (a + 1) k ltac:(lia)).
  pose proof (cnt_mono (k + 1) b ltac:(lia)). lia.
Qed.

Lemma reconstructRawOffset_get (j : Z) :
  0 <= j < len (flatRawToRaw h) ->
  get (flatRawToRaw h) j
  = Some (reconstructRawOffset j (flatRawToRaw h) (len raw)).
Proof.
  intros Hj. unfold reconstructRawOffset.
  destruct (Z.leb_spec (len (flatRawToRaw h)) j); [lia |].
  apply get_Some. split; [lia |]. now apply getZ_lookup.
Qed.

Lemma reconstructFlatOffset_cnt (s : Z) :
  0 <= s < len raw -> reconstructFlatOffset s (rawToFlatRaw h) = cnt s.
Proof.
  intros Hs. destruct (buildFlat_lengths raw) as (Hl & _).
  unfold reconstructFlatOffset.
  destruct (Z.leb_spec (len (rawToFlatRaw h)) s); [lia |].
  unfold getZ. now rewrite (buildFlat_count raw s Hs).
Qed.

Lemma rawEndExclusiveToFlatEndExclusive_cnt (e : Z) :
  0 <= e <= len raw -> endOk raw e ->
  rawEndExclusiveToFlatEndExclusive e (rawToFlatRaw h) (len raw) (len (flatRawToRaw h))
  = cnt e.
Proof.
  intros He Hok. destruct (buildFlat_lengths raw) as (_ & Hl & Hf).
  unfold rawEndExclusiveToFlatEndExclusive.
  destruct (Z.leb_spec (len raw) e) as [Hge | Hlt].
  { rewrite Hl, Hf. symmetry. now apply cnt_all. }
  destruct (Z.eqb_spec e 0) as [-> | Hne]; [reflexivity |].
  destruct Hok as [-> | (c & Hc & Hw)]; [lia |].
  rewrite reconstructFlatOffset_cnt by lia.
  pose proof (cnt_succ (e - 1) c Hc) as Hs. rewrite Hw in Hs.
  replace (e - 1 + 1) with e in Hs by lia.
  pose proof (cnt_le_flat e) as Hb. rewrite <- Hf, <- Hl in Hb.
  pose proof (len_nonneg (normalizeText (take (Z.to_nat (e - 1)) raw))). lia.
Qed.

Lemma expandRight_shape (i : Z) :
  0 <= i <= len raw ->
  let r := expandRightToTokenBoundary i raw in
  i <= r <= len raw /\ (i < len raw -> i < r) /\ endOk raw r.
Proof.
  intros Hi r.
  pose proof (expandRightToTokenBoundary_range raw i ltac:(lia)) as Hr. fold r in Hr.
  destruct (expandRightToTokenBoundary_exits raw i) as [Hp _]. cbv zeta in Hp.
  unfold expandRightToTokenBoundary in r.
  set (pos := scanRightWhile WHITE_SPACE_test (Z.to_nat (len raw - i)) raw i) in *.
  pose proof (scanRightWhile_range raw WHITE_SPACE_test (Z.to_nat (len raw - i)) i
                ltac:(lia)) as Hpos. fold pos in Hpos.
  destruct (scanRightWhile_all raw NOT_WHITE_SPACE_test (Z.to_nat (len raw - pos)) pos)
    as [Hr1 Hr2]. fold r in Hr1, Hr2.
  split; [lia |].
  destruct (Z.ltb_spec pos (len raw)) as [Hlt | Hge].
  - cbn [andb] in Hp.
    assert (Hstep : pos < r).
    { unfold r. destruct (Z.to_nat (len raw - pos)) as [| fuel] eqn:Ef; [lia |].
      cbn [scanRightWhile].
      destruct (Z.ltb_spec pos (len raw)); [| lia].
      destruct (get_lt_len raw pos ltac:(lia)) as [c Hc]. rewrite Hc in Hp |- *.
      cbn in Hp |- *. rewrite Hp. cbn [negb].
      pose proof (scanRightWhile_all raw NOT_WHITE_SPACE_test fuel (pos + 1)) as [Hs1 _].
      lia. }
    split; [lia |]. right.
    destruct (get_lt_len raw (r - 1) ltac:(lia)) as [c Hc]. exists c. split; [exact Hc |].
    specialize (Hr2 (r - 1) ltac:(lia)). rewrite Hc in Hr2. cbn in Hr2.
    now apply negb_true_iff.
  - split; [lia |]. left. lia.
Qed.

(** From a position that follows a kept scalar and whitespace only,
    [expandLeftToTokenBoundary] reaches that scalar or goes beyond it. *)
Lemma expandLeft_prev (a i : Z) (c : char) :
  0 <= a < i -> get raw a = Some c -> isWhitespace c = false ->
  (forall k, a < k < i -> exists c', get raw k = Some c' /\ isWhitespace c' = true) ->
  expandLeftToTokenBoundary i raw <= a.
Proof.
  intros Ha Hc Hw Hgap.
  destruct (expandLeftToTokenBoundary_exits raw i) as [Hp _]. cbv zeta in Hp.
  unfold expandLeftToTokenBoundary.
  set (pos := scanLeftWhile WHITE_SPACE_test (Z.to_nat i) raw i) in *.
  destruct (scanLeftWhile_all raw WHITE_SPACE_test (Z.to_nat i) i) as [Hp1 Hp2].
  fold pos in Hp1, Hp2.
  assert (Hgt : a < pos).
  { destruct (Z.lt_ge_cases a pos) as [Hlt | Hge]; [exact Hlt |].
    specialize (Hp2 a ltac:(lia)). rewrite Hc in Hp2. cbn in Hp2. congruence. }
  assert (Hle : pos <= a + 1).
  { destruct (Z.le_gt_cases pos (a + 1)) as [Hle | Hgt2]; [exact Hle |].
    destruct (Hgap (pos - 1) ltac:(lia)) as (c' & Hc' & Hw').
    destruct (Z.ltb_spec 0 pos); [| lia]. cbn [andb] in Hp.
    rewrite Hc' in Hp. cbn in Hp. congruence. }
  assert (E : pos = a + 1) by lia.
  destruct (Z.to_nat pos) as [| fuel] eqn:Ef; [lia |].
  cbn [scanLeftWhile]. destruct (Z.ltb_spec 0 pos); [| lia].
  replace (pos - 1) with a by lia. rewrite Hc. cbn. rewrite Hw. cbn [negb].
  pose proof (scanLeftWhile_all raw NOT_WHITE_SPACE_test fuel a) as [Hs1 _]. exact Hs1.
Qed.

Lemma widenRight_range (s t : Z) (fuel : nat) :
  forall e, 0 <= e <= len raw -> endOk raw e ->
    let r := widenRight fuel s t raw e in
    e <= r <= len raw /\ endOk raw r.
Proof.
  induction fuel as [| fuel IH]; intros e He Hok; cbn [widenRight]; [split; [lia | easy] |].
  destruct ((countNonWsInRange s e raw <? t) && (e <? len raw)) eqn:E;
    [| split; [lia | easy]].
  apply andb_true_iff in E as [_ E]. apply Z.ltb_lt in E.
  destruct (expandRight_shape (e + 1) ltac:(lia)) as (H1 & _ & H3).
  destruct (Z.leb_spec (expandRightToTokenBoundary (e + 1) raw) e); [split; [lia | easy] |].
  destruct (IH (expandRightToTokenBoundary (e + 1) raw) ltac:(lia) H3) as [H4 H5].
  split; [lia | easy].
Qed.

Lemma widenLeft_range (e t : Z) (fuel : nat) :
  forall s, 0 <= s -> 0 <= widenLeft fuel e t raw s <= s.
Proof.
  induction fuel as [| fuel IH]; intros s Hs; cbn [widenLeft]; [lia |].
  destruct ((countNonWsInRange s e raw <? t) && (0 <? s)); [| lia].
  pose proof (expandLeftToTokenBoundary_range raw (Z.max 0 (s - 1)) ltac:(lia)) as H.
  destruct (Z.leb_spec s (expandLeftToTokenBoundary (Z.max 0 (s - 1)) raw)); [lia |].
  specialize (IH (expandLeftToTokenBoundary (Z.max 0 (s - 1)) raw) ltac:(lia)). lia.
Qed.

Lemma widenBoth_range (t : Z) (fuel : nat) :
  forall s e, 0 <= s -> 0 <= e <= len raw -> endOk raw e ->
    let r := widenBoth fuel t raw s e in
    0 <= fst r <= s /\ e <= snd r <= len raw /\ endOk raw (snd r).
Proof.
  induction fuel as [| fuel IH]; intros s e Hs He Hok; cbn [widenBoth];
    [cbn [fst snd]; split; [lia |]; split; [lia | easy] |].
  destruct (countNonWsInRange s e raw <? t);
    [| cbn [fst snd]; split; [lia |]; split; [lia | easy]].
  set (s' := if 0 <? s
             then if expandLeftToTokenBoundary (Z.max 0 (s - 1)) raw <? s
                  then expandLeftToTokenBoundary (Z.max 0 (s - 1)) raw
                  else s
             else s).
  set (e' := if e <? len raw
             then if e <? expandRightToTokenBoundary (e + 1) raw
                  then expandRightToTokenBoundary (e + 1) raw
                  else e
             else e).
  assert (Hs' : 0 <= s' <= s).
  { unfold s'. destruct (0 <? s); [| lia].
    pose proof (expandLeftToTokenBoundary_range raw (Z.max 0 (s - 1)) ltac:(lia)).
    destruct (Z.ltb_spec (expandLeftToTokenBoundary (Z.max 0 (s - 1)) raw) s); lia. }
  assert (He' : e <= e' <= len raw /\ endOk raw e').
  { unfold e'. destruct (Z.ltb_spec e (len raw)); [| split; [lia | easy]].
    destruct (expandRight_shape (e + 1) ltac:(lia)) as (H1 & _ & H3).
    destruct (Z.ltb_spec e (expandRightToTokenBoundary (e + 1) raw));
      split; try lia; easy. }
  destruct He' as [He1 He2].
  destruct (countNonWsInRange s' e' raw =? countNonWsInRange s e raw);
    [cbn [fst snd]; split; [lia |]; split; [lia | easy] |].
  destruct (IH s' e' ltac:(lia) ltac:(lia) He2) as (H1 & H2 & H3).
  split; [lia |]. split; [lia | easy].
Qed.

Lemma spanInText_intro (fs fe s e : Z) :
  0 <= s < e -> e <= len raw -> endOk raw e ->
  fs = reconstructFlatOffset s (rawToFlatRaw h) ->
  fe = rawEndExclusiveToFlatEndExclusive e (rawToFlatRaw h) (len raw)
         (len (flatRawToRaw h)) ->
  spanInText raw (mkSpan fs fe s e).
Proof.
  intros Hs He Hok -> ->. unfold spanInText. cbn [rawStart rawEndExclusive flatStart
    flatEndExclusive].
  split; [lia |]. split; [lia |]. unfold slice. rewrite !drop_0, !Z.sub_0_r.
  split; [apply reconstructFlatOffset_cnt; lia |].
  apply rawEndExclusiveToFlatEndExclusive_cnt; [lia | easy].
Qed.

Lemma createPrefixCandidate_span (fs t : Z) (sp : MatchSpan) :
  0 <= fs ->
  createPrefixCandidate fs t raw (flatRawToRaw h) (rawToFlatRaw h) = Some sp ->
  spanInText raw sp.
Proof.
  intros Hfs. unfold createPrefixCandidate. cbv zeta.
  destruct (Z.leb_spec (len raw) (reconstructRawOffset fs (flatRawToRaw h) (len raw)))
    as [| Hlt]; [discriminate |].
  intros Heq; apply (inj Some) in Heq; subst sp.
  assert (Hin : fs < len (flatRawToRaw h)).
  { unfold reconstructRawOffset in Hlt.
    destruct (Z.leb_spec (len (flatRawToRaw h)) fs); lia. }
  pose proof (reconstructRawOffset_get fs ltac:(lia)) as Hget.
  set (a := reconstructRawOffset fs (flatRawToRaw h) (len raw)) in *.
  destruct (f2r_fact _ _ Hget) as (_ & Ha & _ & c & Hc & Hw).
  destruct (expandRight_shape a ltac:(lia)) as (H1 & H2 & H3).
  destruct (widenRight_range a t (length raw) (expandRightToTokenBoundary a raw)
              ltac:(lia) H3) as [H4 H5].
  clearbody a. apply spanInText_intro; try easy; lia.
Qed.

Lemma createSuffixCandidate_span (fe t : Z) (sp : MatchSpan) :
  0 <= fe ->
  createSuffixCandidate fe t raw (flatRawToRaw h) (rawToFlatRaw h) = Some sp ->
  spanInText raw sp.
Proof.
  intros Hfe. unfold createSuffixCandidate. cbv zeta.
  destruct (Z.ltb_spec (len raw) (reconstructRawOffset fe (flatRawToRaw h) (len raw) + 1))
    as [| Hle]; [discriminate |].
  intros Heq; apply (inj Some) in Heq; subst sp.
  assert (Hin : fe < len (flatRawToRaw h)).
  { unfold reconstructRawOffset in Hle.
    destruct (Z.leb_spec (len (flatRawToRaw h)) fe); lia. }
  pose proof (reconstructRawOffset_get fe ltac:(lia)) as Hget.
  set (a := reconstructRawOffset fe (flatRawToRaw h) (len raw)) in *.
  destruct (f2r_fact _ _ Hget) as (_ & Ha & _ & c & Hc & Hw).
  pose proof (expandLeftToTokenBoundary_range raw (Z.max 0 (a + 1 - 1)) ltac:(lia)) as H1.
  pose proof (widenLeft_range (a + 1) t (length raw)
                (expandLeftToTokenBoundary (Z.max 0 (a + 1 - 1)) raw) ltac:(lia)) as H2.
  clearbody a. apply spanInText_intro; try easy; try lia.
  right. exists c. split; [| exact Hw]. now replace (a + 1 - 1) with a by lia.
Qed.

Lemma createCombinedCandidate_span (ps se : Z) (sp : MatchSpan) :
  0 <= ps < se ->
  createCombinedCandidate ps se raw (flatRawToRaw h) (rawToFlatRaw h) = Some sp ->
  spanInText raw sp.
Proof.
  intros Hps. unfold createCombinedCandidate. cbv zeta.
  destruct (Z.leb_spec (len (flatRawToRaw h)) ps); [discriminate |].
  destruct (Z.leb_spec (len (flatRawToRaw h)) (se - 1)); [discriminate |].
  pose proof (reconstructRawOffset_get ps ltac:(lia)) as G1.
  pose proof (reconstructRawOffset_get (se - 1) ltac:(lia)) as G2.
  set (a := reconstructRawOffset ps (flatRawToRaw h) (len raw)) in *.
  set (b := reconstructRawOffset (se - 1) (flatRawToRaw h) (len raw)) in *.
  destruct (f2r_fact _ _ G1) as (_ & Ha & _).
  destruct (f2r_fact _ _ G2) as (_ & Hb & _ & c & Hc & Hw).
  destruct ((len raw <=? a) || (len raw <? b + 1)); [discriminate |].
  intros Heq; apply (inj Some) in Heq; subst sp.
  assert (Hab : a <= b).
  { destruct (Z.eq_dec ps (se - 1)) as [E | Hne].
    - rewrite <- E in G2. rewrite G1 in G2. injection G2 as ->. lia.
    - pose proof (f2r_lt _ _ _ _ G1 G2 ltac:(lia)). lia. }
  clearbody a b. apply spanInText_intro; try easy; try lia.
  right. exists c. split; [| exact Hw]. now replace (b + 1 - 1) with b by lia.
Qed.

Lemma createMidCandidate_span (fs fe t : Z) (sp : MatchSpan) :
  0 <= fs <= fe -> 1 <= fe ->
  createMidCandidate fs fe t raw (flatRawToRaw h) (rawToFlatRaw h) = Some sp ->
  spanInText raw sp.
Proof.
  intros Hfs Hfe. unfold createMidCandidate. cbv zeta.
  destruct (Z.leb_spec (len (flatRawToRaw h)) fs); [discriminate |].
  destruct (Z.leb_spec (len (flatRawToRaw h)) (fe - 1)); [discriminate |].
  pose proof (reconstructRawOffset_get fs ltac:(lia)) as G1.
  pose proof (reconstructRawOffset_get (fe - 1) ltac:(lia)) as G2.
  set (a := reconstructRawOffset fs (flatRawToRaw h) (len raw)) in *.
  set (b := reconstructRawOffset (fe - 1) (flatRawToRaw h) (len raw)) in *.
  destruct (f2r_fact _ _ G1) as (_ & Ha & _).
  destruct (f2r_fact _ _ G2) as (_ & Hb & _ & c & Hc & Hw).
  destruct ((len raw <=? a) || (len raw <? b + 1)); [discriminate |].
  assert (Hok : endOk raw (b + 1)).
  { right. exists c. split; [| exact Hw]. now replace (b + 1 - 1) with b by lia. }
  pose proof (expandLeftToTokenBoundary_range raw a ltac:(lia)) as HL.
  destruct (expandRight_shape (b + 1) ltac:(lia)) as (HR1 & _ & HR3).
  assert (Hlt : expandLeftToTokenBoundary a raw <= b).
  { destruct (Z.eq_dec fs fe) as [E | Hne].
    - (* the empty flat range: [a] is the neighbour of [b] in F->R *)
      subst fe. replace fs with (fs - 1 + 1) in G1 by lia.
      pose proof (f2r_lt _ _ _ _ G2 G1 ltac:(lia)) as Hba.
      apply (expandLeft_prev b a c); [lia | exact Hc | exact Hw |].
      intros k Hk. now apply (f2r_gap (fs - 1) b a k).
    - destruct (Z.eq_dec fs (fe - 1)) as [E | Hne2].
      + rewrite <- E in G2. rewrite G1 in G2. injection G2 as E2. lia.
      + pose proof (f2r_lt _ _ _ _ G1 G2 ltac:(lia)). lia. }
  destruct (widenBoth_range t (S (length raw)) (expandLeftToTokenBoundary a raw)
              (expandRightToTokenBoundary (b + 1) raw) ltac:(lia) ltac:(lia) HR3)
    as (W1 & W2 & W3).
  destruct (widenBoth (S (length raw)) t raw (expandLeftToTokenBoundary a raw)
              (expandRightToTokenBoundary (b + 1) raw)) as [s' e'].
  cbn [fst snd] in W1, W2, W3.
  intros Heq; apply (inj Some) in Heq; subst sp. clearbody a b. apply spanInText_intro; try easy; lia.
Qed.

End Counting.
(** ** The raw matches that the fuzzy phase materializes *)

Import SuffixAutomaton.

Section ScanLen.

Variables (ns : list SAMNode) (lst : Z).
Hypothesis Hinv : Inv (view ns) lst.

Lemma followLinks_gone (c : char) (fuel : nat) : followLinks fuel ns c (-1) = -1.
Proof. destruct fuel; reflexivity. Qed.

Lemma followLinks_anc (c : char) (fuel : nat) :
  forall state, 0 <= state < len ns ->
    let s' := followLinks fuel ns c state in
    s' = -1 \/ anc (view ns) state s'.
Proof.
  induction fuel as [| fuel IH]; intros state Hv; cbn [followLinks];
    [right; apply anc_refl |].
  destruct (negb (state =? -1) && negb (hasNext ns state c)); [| right; apply anc_refl].
  destruct (Z.eq_dec state 0) as [-> | H0].
  - pose proof (inv_root_link _ _ Hinv) as Hl. cbn [view glink] in Hl.
    rewrite Hl, followLinks_gone. now left.
  - destruct (inv_link _ _ Hinv state ltac:(cbn [view gsize]; lia)) as [H1 _].
    cbn [view gsize glink] in H1.
    destruct (IH _ H1) as [E | Ha]; [now left | right].
    apply anc_step; [cbn [view gsize]; lia | exact Ha].
Qed.

(** The match length of the scan stays within the lengths of the state it
    has reached, and grows by at most one per scalar. *)
Lemma samAdvance_len (c : char) (state l : Z) :
  (state = 0 /\ l = 0)
  \/ (0 < state < len ns
      /\ nlen (node ns (link (node ns state))) < l <= nlen (node ns state)) ->
  let r := samAdvance ns (state, l) c in
  ((fst r = 0 /\ snd r = 0)
   \/ (0 < fst r < len ns
       /\ nlen (node ns (link (node ns (fst r)))) < snd r <= nlen (node ns (fst r))))
  /\ snd r <= l + 1.
Proof.
  intros Hst.
  pose proof (inv_size _ _ Hinv) as Hsz. cbn [view gsize] in Hsz.
  pose proof (inv_root_len _ _ Hinv) as Hroot. cbn [view glen] in Hroot.
  assert (Hv : 0 <= state < len ns) by (destruct Hst as [[-> _] | [H _]]; lia).
  assert (Hl0 : 0 <= l).
  { destruct Hst as [[_ ->] | [Hpos Hl]]; [lia |].
    destruct (inv_link _ _ Hinv state Hpos) as [Hlv _].
    pose proof (inv_len_nonneg _ _ Hinv _ Hlv) as Hn. cbn [view glen glink] in Hn. lia. }
  unfold samAdvance. destruct (hasNext ns state c) eqn:Hh.
  - cbn [fst snd]. split; [right | lia].
    pose proof Hh as Hq. unfold hasNext in Hq. apply bool_decide_eq_true in Hq as [q Hq].
    unfold getNext. rewrite Hq. cbn [default from_option id].
    destruct (inv_tr _ _ Hinv state c q Hv Hq) as [Hqv Hql].
    cbn [view gsize glen] in Hqv, Hql.
    split; [exact Hqv |]. split; [| destruct Hst as [[-> ->] | [_ H]]; lia].
    destruct Hst as [[-> ->] | [Hpos Hl]].
    + pose proof (inv_E0 _ _ Hinv c q Hq) as E. cbn [view glink] in E. rewrite E. lia.
    + destruct (inv_link _ _ Hinv state Hpos) as [Hlv _]. cbn [view gsize glink] in Hlv.
      destruct (inv_E _ _ Hinv state c q Hpos Hq) as [HE | [HE HL]].
      * pose proof (tr_link_len _ _ Hinv _ c q Hlv HE) as Ht.
        cbn [view glen glink] in Ht. lia.
      * cbn [view glen glink] in HL. lia.
  - destruct (followLinks_stops ns lst Hinv c state Hv) as [E | [H1 H2]].
    + rewrite E. cbn. split; [now left | lia].
    + destruct (Z.eqb_spec (followLinks (length ns) ns c state) (-1)) as [E | _]; [lia |].
      set (s' := followLinks (length ns) ns c state) in *. cbn [fst snd].
      pose proof H2 as Hq. unfold hasNext in Hq. apply bool_decide_eq_true in Hq as [q Hq].
      unfold getNext. rewrite Hq. cbn [default from_option id].
      destruct (inv_tr _ _ Hinv s' c q H1 Hq) as [Hqv Hql].
      cbn [view gsize glen] in Hqv, Hql.
      pose proof (tr_link_len _ _ Hinv s' c q H1 Hq) as Ht. cbn [view glen glink] in Ht.
      split; [right; split; [exact Hqv | lia] |].
      destruct (followLinks_anc c (length ns) state Hv) as [E | Ha]; [fold s' in E; lia |].
      fold s' in Ha.
      assert (Hne : s' <> state) by (intros E; rewrite E in H2; congruence).
      destruct Ha as [| v w Hpos Ha]; [easy |].
      pose proof (anc_len _ _ Hinv _ _ Ha) as Hal. cbn [view glen glink] in Hal.
      destruct Hst as [[-> _] | [_ Hl]]; lia.
Qed.

Lemma scan_len (T : text) :
  let r := fold_left (samAdvance ns) T (0, 0) in
  ((fst r = 0 /\ snd r = 0)
   \/ (0 < fst r < len ns
       /\ nlen (node ns (link (node ns (fst r)))) < snd r <= nlen (node ns (fst r))))
  /\ snd r <= len T.
Proof.
  induction T as [| c T IH] using rev_ind.
  - cbn [fold_left fst snd]. split; [now left | unfold len; cbn [length]; lia].
  - cbv zeta in *. rewrite fold_left_app, len_app. cbn [fold_left].
    destruct (fold_left (samAdvance ns) T (0, 0)) as [state l]. cbn [fst snd] in IH.
    destruct IH as [H1 H2].
    destruct (samAdvance_len c state l H1) as [H3 H4].
    split; [exact H3 |]. unfold len at 2. cbn [length]. lia.
Qed.

Lemma scan_len_nonneg (T : text) : 0 <= snd (fold_left (samAdvance ns) T (0, 0)).
Proof.
  destruct (scan_len T) as [[[_ E] | [Hv Hl]] _]; [lia |].
  destruct (inv_link _ _ Hinv _ Hv) as [H1 _].
  pose proof (inv_len_nonneg _ _ Hinv _ H1) as H2. cbn [view glen glink] in H2. lia.
Qed.

End ScanLen.

Lemma midMatches_omap (T P : text) :
  midMatches (fuzzyRawMatches T P)
  = omap (midAt (nodes (build P)) (computeMinMatchLen (len P)) (len P) T)
      (seq 0 (length T)).
Proof.
  unfold fuzzyRawMatches.
  match goal with
  | |- midMatches (if ?b then _ else _) = _ => destruct b
  end; cbn [midMatches]; unfold scanMidMatches;
    apply (scan_loop_spec (nodes (build P)) (computeMinMatchLen (len P)) (len P) T).
Qed.

Lemma lengthMatches_In (kind : MatchType) (lens : list Z) (n m : Z) (rm : RawMatch) :
  In rm (lengthMatches kind lens n m) ->
  matchType rm = kind /\ 0 <= rmFlatStart rm < n /\ 0 < matchedLen rm <= m
  /\ rmFlatEndExclusive rm = rmFlatStart rm + matchedLen rm
  /\ matchedLen rm = Z.min (getZ lens (rmFlatStart rm)) m.
Proof.
  unfold lengthMatches. rewrite in_flat_map. intros (i & Hi & Hin).
  apply list_elem_of_In, elem_of_seqZ in Hi. cbv zeta in Hin.
  destruct (Z.ltb_spec 0 (Z.min (getZ lens i) m)); [| easy].
  destruct Hin as [<- | []]. cbn. repeat split; lia.
Qed.

Lemma fuzzy_prefix_In (T P : text) (rm : RawMatch) :
  In rm (filteredPrefixes (fuzzyRawMatches T P)) ->
  In rm (lengthMatches prefix (computePrefixMatches P T) (len T) (len P)).
Proof.
  unfold fuzzyRawMatches.
  match goal with
  | |- In rm (filteredPrefixes (if ?b then _ else _)) -> _ => destruct b
  end; cbn [filteredPrefixes]; intros H; now apply filter_In in H as [H _].
Qed.

Lemma fuzzy_suffix_In (T P : text) (rm : RawMatch) :
  In rm (filteredSuffixes (fuzzyRawMatches T P)) ->
  In rm (lengthMatches suffix (computeSuffixMatches P T) (len T) (len P)).
Proof.
  unfold fuzzyRawMatches.
  match goal with
  | |- In rm (filteredSuffixes (if ?b then _ else _)) -> _ => destruct b
  end; cbn [filteredSuffixes]; intros H; [apply sortByKey_In in H |];
    now apply filter_In in H as [H _].
Qed.

Lemma fuzzy_mid_In (T P : text) (rm : RawMatch) :
  In rm (midMatches (fuzzyRawMatches T P)) ->
  matchType rm = mid /\ 0 <= rmFlatStart rm <= rmFlatEndExclusive rm
  /\ 1 <= rmFlatEndExclusive rm <= len T
  /\ matchedLen rm = rmFlatEndExclusive rm - rmFlatStart rm
  /\ computeMinMatchLen (len P) <= matchedLen rm.
Proof.
  rewrite midMatches_omap, <- list_elem_of_In, list_elem_of_omap.
  intros (i & Hi & Hm). apply list_elem_of_In, in_seq in Hi.
  unfold midAt in Hm.
  pose proof (scan_len _ _ (build_inv P) (take (S i) T)) as [_ Hl].
  pose proof (scan_len_nonneg _ _ (build_inv P) (take (S i) T)) as H0.
  cbv zeta in Hl. fold (scanAt (nodes (build P)) T i) in Hl, H0.
  destruct (scanAt (nodes (build P)) T i) as [state l]. cbn [fst snd] in Hl, H0.
  assert (Hlen : len (take (S i) T) = Z.of_nat i + 1).
  { unfold len. rewrite length_take. lia. }
  destruct (Z.leb_spec (computeMinMatchLen (len P)) l); [| discriminate].
  cbn [andb] in Hm.
  destruct (negb _ && negb _); [| discriminate].
  injection Hm as <-. cbn [matchType rmFlatStart rmFlatEndExclusive matchedLen].
  unfold len in *. repeat split; lia.
Qed.

Lemma fuzzy_combined_In (T P : text) (rm : RawMatch) :
  In rm (combinedMatches (fuzzyRawMatches T P)) ->
  matchType rm = combined /\ 0 <= rmFlatStart rm < rmFlatEndExclusive rm.
Proof.
  intros H. destruct (combinedMatches_sound T P rm H)
    as (pre & suf & Hp & Hs & Hle & _ & _ & ->).
  apply fuzzy_prefix_In, lengthMatches_In in Hp.
  apply fuzzy_suffix_In, lengthMatches_In in Hs. cbn. split; [reflexivity | lia].
Qed.

Lemma materialize_span (raw T P : text) (rm : RawMatch) (sp : MatchSpan) :
  let h := buildFlatRawTextHelpers raw in
  let fr := fuzzyRawMatches T P in
  In rm (filteredPrefixes fr ++ filteredSuffixes fr ++ midMatches fr ++ combinedMatches fr) ->
  materialize (len P) raw (flatRawToRaw h) (rawToFlatRaw h) rm = Some sp ->
  spanInText raw sp.
Proof.
  intros h fr Hin. rewrite !in_app_iff in Hin. unfold materialize.
  destruct Hin as [Hin | [Hin | [Hin | Hin]]].
  - apply fuzzy_prefix_In, lengthMatches_In in Hin as (-> & H1 & _).
    apply createPrefixCandidate_span. lia.
  - apply fuzzy_suffix_In, lengthMatches_In in Hin as (-> & H1 & H2 & H3 & _).
    apply createSuffixCandidate_span. lia.
  - apply fuzzy_mid_In in Hin as (-> & H1 & H2 & _).
    apply createMidCandidate_span; lia.
  - apply fuzzy_combined_In in Hin as (-> & H1).
    apply createCombinedCandidate_span; lia.
Qed.

Lemma findPotentialMatches_span (raw T P : text) (sp : MatchSpan) :
  let h := buildFlatRawTextHelpers raw in
  In sp (findPotentialMatches T P raw (flatRawToRaw h) (rawToFlatRaw h)) ->
  spanInText raw sp.
Proof.
  intros h. unfold findPotentialMatches. cbv zeta.
  destruct ((len P =? 0) || (len T =? 0)); [easy |].
  match goal with |- In sp (if ?b then _ else _) -> _ => destruct b end; [easy |].
  rewrite <- list_elem_of_In, list_elem_of_omap. intros (rm & Hin & Hm).
  apply list_elem_of_In, In_take, sortByKey_In, dedupe_In, filter_In in Hin as [Hin _].
  apply (materialize_span raw T P rm sp); [| exact Hm].
  rewrite !in_app_iff in Hin |- *.
  destruct Hin as [Hin | [Hin | Hin]]; [left | right; left | right; right; exact Hin];
    now apply filter_In in Hin as [Hin _].
Qed.

Lemma spanInText_flat (raw : text) (sp : MatchSpan) :
  spanInText raw sp ->
  slice (normalizeText raw) (flatStart sp) (flatEndExclusive sp)
  = normalizeText (sliceBySpan raw (rawStart sp) (rawEndExclusive sp)).
Proof.
  intros (H1 & H2 & H3 & H4). unfold sliceBySpan.
  unfold slice in H3, H4. rewrite !drop_0, !Z.sub_0_r in H3, H4.
  pose proof (take_slice_split raw (rawStart sp) (rawEndExclusive sp) ltac:(lia)) as E.
  pose proof (normalizeText_take_drop raw (Z.to_nat (rawEndExclusive sp))) as E2.
  rewrite E, !normalizeText_app in E2. rewrite E, normalizeText_app, len_app in H4.
  set (A := normalizeText (take (Z.to_nat (rawStart sp)) raw)) in *.
  set (B := normalizeText (slice raw (rawStart sp) (rawEndExclusive sp))) in *.
  rewrite E2, H3, H4. unfold slice, len.
  rewrite Nat2Z.id, <- app_assoc, drop_app_length.
  replace (Z.to_nat (Z.of_nat (length A) + Z.of_nat (length B) - Z.of_nat (length A)))
    with (length B) by lia.
  now rewrite take_app_length.
Qed.

(** X11. [findMatchSpans] returns at most three spans, exact or not; it
    returns none, and no exact match, when the flat text or the stripped
    search text is empty; and an exact match always comes with a span. *)
Theorem findMatchSpans_returns_at_most_three (T P raw : text) (f2r r2f : list Z) :
  let r := findMatchSpans T P raw f2r r2f in
  len (spans r) <= 3
  /\ (T = [] \/ P = [] -> r = mkResult [] false)
  /\ (isExactMatch r = true -> spans r <> []).
Proof.
  intros r. unfold r, findMatchSpans, findMatchSpansMax.
  split; [| split].
  - destruct (len T =? 0); [unfold len; cbn [spans length]; lia |]. destruct (len P =? 0); [unfold len; cbn [spans length]; lia |].
    cbv zeta. destruct (0 <? len (exactLoop 3 T P f2r (len raw) 0)); cbn [spans].
    + pose proof (exactLoop_length 3 T P f2r (len raw) 0).
      unfold len at 1. rewrite sortByKey_length. lia.
    + unfold findPotentialMatches. cbv zeta.
      destruct ((len P =? 0) || (len T =? 0)); [unfold len; cbn [spans length]; lia |].
      match goal with |- len (if ?b then _ else _) <= 3 => destruct b end; [unfold len; cbn [spans length]; lia |].
      match goal with |- len (omap ?f (take 3 ?l)) <= 3 =>
        pose proof (length_omap_le f (take 3 l)) as H1 end.
      rewrite length_take in H1. unfold len at 1. lia.
  - intros [-> | ->]; [reflexivity |]. now destruct (len T =? 0).
  - destruct (len T =? 0); [easy |]. destruct (len P =? 0); [easy |]. cbv zeta.
    destruct (Z.ltb_spec 0 (len (exactLoop 3 T P f2r (len raw) 0))) as [Hlt | Hge];
      cbn [spans isExactMatch]; [| easy].
    intros _ E. apply (f_equal length) in E. rewrite sortByKey_length in E.
    unfold len at 1 in Hlt. cbn [length] in E. lia.
Qed.

(** Every span of the match engine lies in the raw text, with coherent flat
    offsets. *)
Lemma find_spanInText (raw search : text) (sp : MatchSpan) :
  In sp (spans (find (buildFlatRawTextHelpers raw) search)) -> spanInText raw sp.
Proof.
  intros Hin. set (h := buildFlatRawTextHelpers raw) in *.
  destruct (isExactMatch (find h search)) eqn:Hex.
  - destruct (exact_span_raw raw search sp Hex Hin) as (_ & He & G1 & G2 & Hm).
    destruct (f2r_fact raw _ _ G1) as (_ & Ha & C1 & _).
    destruct (f2r_fact raw _ _ G2) as (_ & Hb & C2 & c & Hc & Hw).
    pose proof (cnt_succ raw _ c Hc) as C3. rewrite Hw in C3.
    replace (rawEndExclusive sp - 1 + 1) with (rawEndExclusive sp) in C3 by lia.
    assert (Hab : rawStart sp <= rawEndExclusive sp - 1).
    { destruct (Z.eq_dec (len (normalizeText search)) 1) as [E | Hne].
      - rewrite E in G2. replace (flatStart sp + 1 - 1) with (flatStart sp) in G2 by lia.
        rewrite G1 in G2. injection G2 as E2. lia.
      - pose proof (f2r_lt raw _ _ _ _ G1 G2 ltac:(lia)). lia. }
    unfold spanInText, slice. rewrite !drop_0, !Z.sub_0_r.
    repeat split; lia.
  - unfold find, findMatchSpans, findMatchSpansMax in Hin, Hex.
    destruct (len (flatRawText h) =? 0); [easy |].
    destruct (len (normalizeText search) =? 0); [easy |]. cbv zeta in Hin, Hex.
    destruct (0 <? len _); [discriminate |]. cbn [spans] in Hin.
    exact (findPotentialMatches_span raw (flatRawText h) (normalizeText search) sp Hin).
Qed.

(** ** How far the fuzzy candidates are widened *)

Section Widening.

Variable raw : text.

Local Abbreviation cnt i := (len (normalizeText (take (Z.to_nat i) raw))).

Lemma count_cnt (a b : Z) :
  0 <= a <= b -> b <= len raw -> countNonWsInRange a b raw = cnt b - cnt a.
Proof.
  intros Ha Hb.
  replace b with (a + Z.of_nat (Z.to_nat (b - a))) at 1 by lia.
  rewrite countNonWsInRange_slice by lia.
  replace (a + Z.of_nat (Z.to_nat (b - a))) with b by lia.
  rewrite (take_slice_split raw a b) by lia. rewrite normalizeText_app, len_app. lia.
Qed.

Lemma cnt_zero : cnt 0 = 0.
Proof. reflexivity. Qed.

(** A token scan to the left that gains no kept scalar has reached the start
    of the text. *)
Lemma expandLeft_no_gain (i : Z) :
  0 <= i <= len raw ->
  cnt (expandLeftToTokenBoundary i raw) = cnt i -> expandLeftToTokenBoundary i raw = 0.
Proof.
  intros Hi Hc.
  pose proof (expandLeftToTokenBoundary_range raw i ltac:(lia)) as Hr.
  destruct (expandLeftToTokenBoundary_exits raw i) as [X1 X2]. cbv zeta in X1, X2.
  unfold expandLeftToTokenBoundary in *.
  set (p := scanLeftWhile WHITE_SPACE_test (Z.to_nat i) raw i) in *.
  set (r := scanLeftWhile NOT_WHITE_SPACE_test (Z.to_nat p) raw p) in *.
  destruct (scanLeftWhile_all raw WHITE_SPACE_test (Z.to_nat i) i) as [Hp1 _].
  fold p in Hp1.
  destruct (scanLeftWhile_all raw NOT_WHITE_SPACE_test (Z.to_nat p) p) as [Hr1 Hr2].
  fold r in Hr1, Hr2.
  assert (E : r = p).
  { destruct (Z.eq_dec r p) as [E | Hne]; [exact E | exfalso].
    destruct (get_lt_len raw r ltac:(lia)) as [c Hg].
    specialize (Hr2 r ltac:(lia)). rewrite Hg in Hr2. cbn in Hr2.
    apply negb_true_iff in Hr2.
    pose proof (cnt_succ raw r c Hg) as Hs. rewrite Hr2 in Hs.
    pose proof (cnt_mono raw (r + 1) p ltac:(lia)).
    pose proof (cnt_mono raw p i ltac:(lia)). lia. }
  destruct (Z.ltb_spec 0 r) as [Hpos | Hle]; [exfalso | lia].
  rewrite <- E in X1. destruct (Z.ltb_spec 0 r); [| lia]. cbn [andb] in X1, X2.
  destruct (get_lt_len raw (r - 1) ltac:(lia)) as [c Hg]. rewrite Hg in X1, X2.
  cbn in X1, X2. rewrite X1 in X2. discriminate.
Qed.

(** A token scan to the right that gains no kept scalar has reached the end
    of the text. *)
Lemma expandRight_no_gain (i : Z) :
  0 <= i <= len raw ->
  cnt (expandRightToTokenBoundary i raw) = cnt i ->
  expandRightToTokenBoundary i raw = len raw.
Proof.
  intros Hi Hc.
  pose proof (expandRightToTokenBoundary_range raw i ltac:(lia)) as Hr.
  destruct (expandRightToTokenBoundary_exits raw i) as [X1 X2]. cbv zeta in X1, X2.
  unfold expandRightToTokenBoundary in *.
  set (p := scanRightWhile WHITE_SPACE_test (Z.to_nat (len raw - i)) raw i) in *.
  set (r := scanRightWhile NOT_WHITE_SPACE_test (Z.to_nat (len raw - p)) raw p) in *.
  destruct (scanRightWhile_all raw WHITE_SPACE_test (Z.to_nat (len raw - i)) i) as [Hp1 _].
  fold p in Hp1.
  destruct (scanRightWhile_all raw NOT_WHITE_SPACE_test (Z.to_nat (len raw - p)) p)
    as [Hr1 Hr2].
  fold r in Hr1, Hr2.
  assert (E : r = p).
  { destruct (Z.eq_dec r p) as [E | Hne]; [exact E | exfalso].
    destruct (get_lt_len raw p ltac:(lia)) as [c Hg].
    specialize (Hr2 p ltac:(lia)). rewrite Hg in Hr2. cbn in Hr2.
    apply negb_true_iff in Hr2.
    pose proof (cnt_succ raw p c Hg) as Hs. rewrite Hr2 in Hs.
    pose proof (cnt_mono raw i p ltac:(lia)).
    pose proof (cnt_mono raw (p + 1) r ltac:(lia)). lia. }
  destruct (Z.ltb_spec r (len raw)) as [Hlt | Hge]; [exfalso | lia].
  rewrite <- E in X1. destruct (Z.ltb_spec r (len raw)); [| lia]. cbn [andb] in X1, X2.
  destruct (get_lt_len raw r ltac:(lia)) as [c Hg]. rewrite Hg in X1, X2.
  cbn in X1, X2. rewrite X1 in X2. discriminate.
Qed.

Lemma widenRight_target (s t : Z) (e : Z) :
  0 <= e <= len raw -> endOk raw e ->
  let r := widenRight (length raw) s t raw e in
  t <= countNonWsInRange s r raw \/ r = len raw.
Proof.
  intros He Hok r.
  destruct (widenRight_range raw s t (length raw) e He Hok) as [Hr _]. fold r in Hr.
  destruct (widenRight_exit raw s t (length raw) e ltac:(unfold len; lia)) as [X | X];
    fold r in X.
  - apply andb_false_iff in X as [X | X]; [left | right].
    + apply Z.ltb_ge in X. lia.
    + apply Z.ltb_ge in X. lia.
  - right. destruct (Z.eq_dec r (len raw)) as [E | Hne]; [exact E |].
    pose proof (expandRightToTokenBoundary_range raw (r + 1) ltac:(lia)). lia.
Qed.

Lemma widenLeft_target (e t : Z) (s : Z) :
  0 <= s <= len raw ->
  let r := widenLeft (length raw) e t raw s in
  t <= countNonWsInRange r e raw \/ r = 0.
Proof.
  intros Hs r.
  pose proof (widenLeft_range raw e t (length raw) s ltac:(lia)) as Hr. fold r in Hr.
  destruct (widenLeft_exit raw e t (length raw) s ltac:(unfold len in *; lia)) as [X | X];
    fold r in X.
  - apply andb_false_iff in X as [X | X]; [left | right].
    + apply Z.ltb_ge in X. lia.
    + apply Z.ltb_ge in X. lia.
  - right. destruct (Z.eq_dec r 0) as [E | Hne]; [exact E |].
    pose proof (expandLeftToTokenBoundary_range raw (Z.max 0 (r - 1)) ltac:(lia)). lia.
Qed.

Lemma widenBoth_target (t : Z) (fuel : nat) :
  forall s e,
    0 <= s <= e -> e <= len raw -> s + (len raw - e) < Z.of_nat fuel ->
    let r := widenBoth fuel t raw s e in
    t <= countNonWsInRange (fst r) (snd r) raw
    \/ countNonWsInRange (fst r) (snd r) raw = len (normalizeText raw).
Proof.
  induction fuel as [| fuel IH]; intros s e Hs He Hm; [lia |].
  cbn [widenBoth].
  destruct (Z.ltb_spec (countNonWsInRange s e raw) t) as [Hlt | Hge];
    [| cbn [fst snd]; left; lia].
  set (s' := if 0 <? s
             then if expandLeftToTokenBoundary (Z.max 0 (s - 1)) raw <? s
                  then expandLeftToTokenBoundary (Z.max 0 (s - 1)) raw
                  else s
             else s).
  set (e' := if e <? len raw
             then if e <? expandRightToTokenBoundary (e + 1) raw
                  then expandRightToTokenBoundary (e + 1) raw
                  else e
             else e).
  assert (Hs' : 0 <= s' <= s
                /\ (cnt s' = cnt s -> s' = 0)).
  { unfold s'. destruct (Z.ltb_spec 0 s); [| split; [lia | intros _; lia]].
    replace (Z.max 0 (s - 1)) with (s - 1) by lia.
    pose proof (expandLeftToTokenBoundary_range raw (s - 1) ltac:(lia)) as Hr.
    destruct (Z.ltb_spec (expandLeftToTokenBoundary (s - 1) raw) s); [| lia].
    split; [lia |]. intros Hc. apply expandLeft_no_gain; [lia |].
    pose proof (cnt_mono raw (expandLeftToTokenBoundary (s - 1) raw) (s - 1) ltac:(lia)).
    pose proof (cnt_mono raw (s - 1) s ltac:(lia)). lia. }
  assert (He' : e <= e' <= len raw
                /\ (cnt e' = cnt e -> e' = len raw)).
  { unfold e'. destruct (Z.ltb_spec e (len raw)); [| split; [lia | intros _; lia]].
    pose proof (expandRightToTokenBoundary_range raw (e + 1) ltac:(lia)) as Hr.
    destruct (Z.ltb_spec e (expandRightToTokenBoundary (e + 1) raw)); [| lia].
    split; [lia |]. intros Hc. apply expandRight_no_gain; [lia |].
    pose proof (cnt_mono raw (e + 1) (expandRightToTokenBoundary (e + 1) raw) ltac:(lia)).
    pose proof (cnt_mono raw e (e + 1) ltac:(lia)). lia. }
  destruct Hs' as [Hs1 Hs2]. destruct He' as [He1 He2].
  pose proof (count_cnt s e ltac:(lia) ltac:(lia)) as C1.
  pose proof (count_cnt s' e' ltac:(lia) ltac:(lia)) as C2.
  pose proof (cnt_mono raw s' s ltac:(lia)) as M1.
  pose proof (cnt_mono raw e e' ltac:(lia)) as M2.
  destruct (Z.eqb_spec (countNonWsInRange s' e' raw) (countNonWsInRange s e raw))
    as [Heq | Hne].
  - cbn [fst snd]. right.
    rewrite C2, (Hs2 ltac:(lia)), (He2 ltac:(lia)), cnt_zero, cnt_all by lia. lia.
  - apply IH; try lia.
    assert (s' <> s \/ e' <> e) as Hmove.
    { destruct (Z.eq_dec s' s) as [E1 | ?]; [| now left].
      destruct (Z.eq_dec e' e) as [E2 | ?]; [| now right].
      rewrite E1, E2 in Hne. easy. }
    lia.
Qed.

End Widening.


(** ** The ranking of the fuzzy phase and its binary search *)

Lemma fold_left_max_ge (r : list Z) :
  forall a, a <= fold_left Z.max r a /\ forall x, In x r -> x <= fold_left Z.max r a.
Proof.
  induction r as [| y r IH]; intros a; cbn [fold_left]; [split; [lia | easy] |].
  destruct (IH (Z.max a y)) as [H1 H2]. split; [lia |].
  intros x [<- | Hx]; [lia | now apply H2].
Qed.

Lemma fold_left_max_In (r : list Z) :
  forall a, fold_left Z.max r a = a \/ In (fold_left Z.max r a) r.
Proof.
  induction r as [| y r IH]; intros a; cbn [fold_left]; [now left |].
  destruct (IH (Z.max a y)) as [E | Hin]; [| right; now right].
  rewrite E. destruct (Z.max_spec a y) as [[_ ->] | [_ ->]]; [right; now left | now left].
Qed.

Lemma maxOf_ge (l : list Z) (x : Z) : In x l -> x <= maxOf l.
Proof.
  destruct l as [| a r]; [easy |]. cbn [maxOf].
  destruct (fold_left_max_ge r a) as [H1 H2]. intros [<- | Hx]; [exact H1 | now apply H2].
Qed.

Lemma maxOf_In (l : list Z) : l <> [] -> In (maxOf l) l.
Proof.
  destruct l as [| a r]; [easy |]. intros _. cbn [maxOf].
  destruct (fold_left_max_In r a) as [-> | H]; [now left | now right].
Qed.

Lemma dedupe_NoDup (ms : list RawMatch) :
  forall seen,
    NoDup (map (fun m => (rmFlatStart m, rmFlatEndExclusive m)) (dedupe seen ms))
    /\ forall m, In m (dedupe seen ms) -> (rmFlatStart m, rmFlatEndExclusive m) ∉ seen.
Proof.
  induction ms as [| m r IH]; intros seen; cbn [dedupe]; [split; [constructor | easy] |].
  destruct (bool_decide_reflect ((rmFlatStart m, rmFlatEndExclusive m) ∈ seen)) as [Hin | Hni].
  - apply IH.
  - destruct (IH ({[(rmFlatStart m, rmFlatEndExclusive m)]} ∪ seen)) as [H1 H2].
    split.
    + cbn [map]. constructor; [| exact H1].
      intros Hx. apply list_elem_of_In, in_map_iff in Hx as (m' & E & Hm').
      apply H2 in Hm'. rewrite E in Hm'. apply Hm', elem_of_union. left.
      now apply elem_of_singleton.
    + intros m' [<- | Hm']; [exact Hni |]. apply H2 in Hm'. intros Hs. apply Hm'.
      apply elem_of_union. now right.
Qed.

Lemma dedupe_nonempty (ms : list RawMatch) : ms <> [] -> dedupe ∅ ms <> [].
Proof.
  destruct ms as [| m r]; [easy |]. intros _. cbn [dedupe].
  destruct (bool_decide_reflect ((rmFlatStart m, rmFlatEndExclusive m) ∈ (∅ : gset (Z * Z))));
    [| easy].
  now apply elem_of_empty in e.
Qed.

Lemma StronglySorted_take {A} (R : A -> A -> Prop) (n : nat) (l : list A) :
  StronglySorted R l -> StronglySorted R (take n l).
Proof.
  intros H. revert n. induction H as [| x l Hs IH Hx]; intros [| n]; cbn [take];
    try constructor; [apply IH |].
  apply Forall_forall. intros y Hy. rewrite Forall_forall in Hx. apply Hx.
  now apply (subseteq_take n l).
Qed.


(** X15. On suffixes sorted by flat start, the binary search
    [lowerBoundSuffix] returns the index of the first suffix that starts at
    [startPos] or later: every suffix before it starts earlier, every suffix
    from it on does not. *)
Theorem lowerBoundSuffix_finds_first_not_before (filteredSuffixes : list RawMatch)
    (startPos : Z) :
  sortedByKey rmFlatStart filteredSuffixes ->
  let idx := lowerBoundSuffix filteredSuffixes startPos in
  0 <= idx <= len filteredSuffixes
  /\ (forall j s, 0 <= j < idx -> get filteredSuffixes j = Some s -> rmFlatStart s < startPos)
  /\ (forall j s, idx <= j -> get filteredSuffixes j = Some s -> startPos <= rmFlatStart s).
Proof.
  intros Hs. apply lowerBoundSuffix_spec.
  apply StronglySorted_get. apply Sorted_StronglySorted; [| exact Hs].
  intros a b c Hab Hbc. lia.
Qed.

Lemma lowerBoundSuffix_finds_first_not_before_witness :
  let l := [mkRaw suffix 1 3 2; mkRaw suffix 4 6 2; mkRaw suffix 4 7 3; mkRaw suffix 9 10 1] in
  sortedByKey rmFlatStart l /\ lowerBoundSuffix l 4 = 1
  /\ 0 <= 1 <= len l
  /\ (forall j s, 0 <= j < 1 -> get l j = Some s -> rmFlatStart s < 4)
  /\ (forall j s, 1 <= j -> get l j = Some s -> 4 <= rmFlatStart s).
Proof.
  intros l.
  assert (Hs : sortedByKey rmFlatStart l).
  { unfold sortedByKey, l. repeat constructor; cbn; lia. }
  split; [exact Hs |]. split; [vm_compute; reflexivity |].
  exact (lowerBoundSuffix_finds_first_not_before l 4 Hs).
Defined.
(** ** The disambiguation suggestions *)

Lemma existsb_false_lookup {A} (f : A -> bool) (l : list A) :
  existsb f l = false -> forall i x, l !! i = Some x -> f x = false.
Proof.
  induction l as [| y l IH]; intros H i x Hx; [now rewrite lookup_nil in Hx |].
  cbn [existsb] in H. apply orb_false_iff in H as [H1 H2].
  destruct i as [| i]; cbn in Hx; [now injection Hx as <- | now apply (IH H2 i)].
Qed.

Section Suggestions.

Variable raw : text.

Local Abbreviation cnt i := (len (normalizeText (take (Z.to_nat i) raw))).
Local Abbreviation h := (buildFlatRawTextHelpers raw).
Local Abbreviation flat := (flatRawText (buildFlatRawTextHelpers raw)).
Local Abbreviation r2f := (rawToFlatRaw (buildFlatRawTextHelpers raw)).

Lemma flat_slice (s e fe : Z) :
  0 <= s <= e -> e <= len raw ->
  fe = cnt e \/ (e = len raw /\ cnt e <= fe) ->
  slice (normalizeText raw) (cnt s) fe = normalizeText (slice raw s e).
Proof.
  intros Hs He Hfe.
  pose proof (take_slice_split raw s e ltac:(lia)) as E.
  pose proof (normalizeText_take_drop raw (Z.to_nat e)) as E2.
  assert (Hc : cnt e = cnt s + len (normalizeText (slice raw s e))).
  { rewrite E, normalizeText_app, len_app. reflexivity. }
  rewrite E, !normalizeText_app in E2.
  set (A := normalizeText (take (Z.to_nat s) raw)) in *.
  set (B := normalizeText (slice raw s e)) in *.
  set (C := normalizeText (drop (Z.to_nat e) raw)) in *.
  rewrite E2. unfold slice. unfold len at 2. rewrite Nat2Z.id, <- app_assoc, drop_app_length.
  destruct Hfe as [-> | [-> Hge]].
  - rewrite Hc. unfold len.
    replace (Z.to_nat (Z.of_nat (length A) + Z.of_nat (length B) - Z.of_nat (length A)))
      with (length B) by lia.
    now rewrite take_app_length.
  - assert (HC : C = []).
    { unfold C. rewrite drop_ge by (unfold len; lia). reflexivity. }
    rewrite HC, app_nil_r. apply take_ge. unfold len in *. lia.
Qed.

Lemma expand_not_moved (sp : MatchSpan) :
  0 <= rawStart sp -> rawEndExclusive sp <= len raw ->
  let sp' := expandSpanForDisambiguation sp raw r2f in
  rawStart sp' = rawStart sp -> rawEndExclusive sp' = rawEndExclusive sp ->
  rawStart sp = 0 /\ rawEndExclusive sp = len raw.
Proof.
  intros Hs He. unfold expandSpanForDisambiguation. cbn [rawStart rawEndExclusive].
  pose proof (len_nonneg raw) as Hn.
  pose proof (expandLeftToTokenBoundary_range raw (Z.max 0 (rawStart sp - 1))
                ltac:(lia)) as Hl.
  pose proof (expandRightToTokenBoundary_range raw
                (Z.min (len raw) (rawEndExclusive sp + 1)) ltac:(lia)) as Hr.
  destruct (Z.ltb_spec (expandLeftToTokenBoundary (Z.max 0 (rawStart sp - 1)) raw)
              (rawStart sp));
    destruct (Z.ltb_spec (rawEndExclusive sp)
                (expandRightToTokenBoundary
                   (Z.min (len raw) (rawEndExclusive sp + 1)) raw)); lia.
Qed.

Lemma expand_flat (sp : MatchSpan) :
  0 <= rawStart sp < rawEndExclusive sp -> rawEndExclusive sp <= len raw ->
  let sp' := expandSpanForDisambiguation sp raw r2f in
  slice (normalizeText raw) (flatStart sp') (flatEndExclusive sp')
  = normalizeText (slice raw (rawStart sp') (rawEndExclusive sp')).
Proof.
  intros Hs He.
  destruct (expandSpanForDisambiguation_range raw r2f sp) as [R1 R2]. cbv zeta in R1, R2.
  unfold expandSpanForDisambiguation in *.
  cbn [rawStart rawEndExclusive flatStart flatEndExclusive] in *.
  set (s' := if expandLeftToTokenBoundary (Z.max 0 (rawStart sp - 1)) raw <? rawStart sp
             then expandLeftToTokenBoundary (Z.max 0 (rawStart sp - 1)) raw
             else rawStart sp) in *.
  assert (Hok : endOk raw
                  (if rawEndExclusive sp
                      <? expandRightToTokenBoundary
                           (Z.min (len raw) (rawEndExclusive sp + 1)) raw
                   then expandRightToTokenBoundary
                          (Z.min (len raw) (rawEndExclusive sp + 1)) raw
                   else rawEndExclusive sp)).
  { destruct (expandRight_shape raw (Z.min (len raw) (rawEndExclusive sp + 1))
                ltac:(lia)) as (H1 & _ & H3).
    destruct (Z.ltb_spec (rawEndExclusive sp)
                (expandRightToTokenBoundary
                   (Z.min (len raw) (rawEndExclusive sp + 1)) raw)); [exact H3 |].
    left. lia. }
  set (e' := if rawEndExclusive sp
                <? expandRightToTokenBoundary (Z.min (len raw) (rawEndExclusive sp + 1)) raw
             then expandRightToTokenBoundary (Z.min (len raw) (rawEndExclusive sp + 1)) raw
             else rawEndExclusive sp) in *.
  rewrite reconstructFlatOffset_cnt by lia.
  replace (Z.max 0 (e' - 1)) with (e' - 1) by lia.
  rewrite reconstructFlatOffset_cnt by lia.
  apply flat_slice; [lia | lia |].
  destruct (get_lt_len raw (e' - 1) ltac:(lia)) as [c Hc].
  pose proof (cnt_succ raw (e' - 1) c Hc) as Hsucc.
  replace (e' - 1 + 1) with e' in Hsucc by lia.
  destruct (isWhitespace c) eqn:Hw.
  - right. destruct Hok as [E | (c' & Hc' & Hw')]; [split; [exact E | lia] |].
    rewrite Hc in Hc'. injection Hc' as <-. congruence.
  - left. lia.
Qed.

Local Abbreviation step :=
  (fun (s : Slice) (d : bool) =>
     if d then
       let expanded := expandSpanForDisambiguation (sl_span s) raw r2f in
       if negb (rawStart expanded =? rawStart (sl_span s))
          || negb (rawEndExclusive expanded =? rawEndExclusive (sl_span s))
       then mkSlice expanded (sl_nonExpandable s)
       else mkSlice (sl_span s) true
     else s).

Lemma step_ok (orig : MatchSpan) (s : Slice) (d : bool) :
  sliceOk raw orig s -> (d = true -> sl_nonExpandable s = false) ->
  sliceOk raw orig (step s d).
Proof.
  intros Hok Hd. destruct d; [| exact Hok]. specialize (Hd eq_refl).
  destruct Hok as (H1 & H2 & H3 & H4 & H5). cbv zeta in H1, H2, H3, H4, H5.
  destruct (expandSpanForDisambiguation_range raw r2f (sl_span s)) as [R1 R2].
  pose proof (expand_not_moved (sl_span s) ltac:(lia) ltac:(lia)) as Hnm.
  pose proof (expand_flat (sl_span s) ltac:(lia) ltac:(lia)) as Hf.
  cbv zeta in R1, R2, Hnm, Hf.
  cbv beta zeta.
  set (sp' := expandSpanForDisambiguation (sl_span s) raw r2f) in *.
  destruct (Z.eqb_spec (rawStart sp') (rawStart (sl_span s))) as [E1 | N1];
    destruct (Z.eqb_spec (rawEndExclusive sp') (rawEndExclusive (sl_span s))) as [E2 | N2];
    cbn [negb orb]; unfold sliceOk; cbn [sl_span sl_nonExpandable].
  - repeat split; try lia; try exact H4; now apply Hnm.
  - repeat split; try lia; try exact Hf; congruence.
  - repeat split; try lia; try exact Hf; congruence.
  - repeat split; try lia; try exact Hf; congruence.
Qed.

Lemma round_lookup (slices : list Slice) (i : nat) (s : Slice) :
  slices !! i = Some s ->
  fst (disambiguationRound raw flat r2f slices) !! i
  = Some (step s (inDuplicateGroup flat slices i s)).
Proof.
  intros Hs. unfold disambiguationRound. cbn [fst].
  rewrite lookup_zip_with, list_lookup_imap, Hs. reflexivity.
Qed.

Lemma round_length (slices : list Slice) :
  length (fst (disambiguationRound raw flat r2f slices)) = length slices.
Proof.
  unfold disambiguationRound. cbn [fst]. rewrite length_zip_with, length_imap. lia.
Qed.

Lemma round_ok (spans : list MatchSpan) (slices : list Slice) :
  Forall2 (sliceOk raw) spans slices ->
  Forall2 (sliceOk raw) spans (fst (disambiguationRound raw flat r2f slices)).
Proof.
  intros H. apply Forall2_same_length_lookup in H as [Hlen H].
  apply Forall2_same_length_lookup. split; [now rewrite round_length |].
  intros i sp s' Hsp Hs'.
  destruct (lookup_lt_is_Some_2 slices i) as [s Hs].
  { rewrite <- Hlen. now apply lookup_lt_Some in Hsp. }
  rewrite (round_lookup slices i s Hs) in Hs'. injection Hs' as <-.
  apply step_ok; [now apply (H i) |].
  intros Hd. unfold inDuplicateGroup in Hd. apply andb_true_iff in Hd as [Hd _].
  now apply negb_true_iff in Hd.
Qed.

Lemma round_no_duplicates (slices : list Slice) :
  snd (disambiguationRound raw flat r2f slices) = false ->
  fst (disambiguationRound raw flat r2f slices) = slices
  /\ forall i s, slices !! i = Some s -> inDuplicateGroup flat slices i s = false.
Proof.
  intros Hex.
  assert (Hall : forall i s, slices !! i = Some s -> inDuplicateGroup flat slices i s = false).
  { intros i s Hs. unfold disambiguationRound in Hex. cbn [snd] in Hex.
    apply (existsb_false_lookup id _ Hex i).
    now rewrite list_lookup_imap, Hs. }
  split; [| exact Hall].
  apply list_eq. intros i. destruct (slices !! i) as [s |] eqn:Hs.
  - rewrite (round_lookup slices i s Hs), (Hall i s Hs). reflexivity.
  - apply lookup_ge_None. rewrite round_length. now apply lookup_ge_None.
Qed.

Lemma loop_ok (spans : list MatchSpan) (fuel : nat) :
  forall slices,
    Forall2 (sliceOk raw) spans slices ->
    let r := disambiguationLoop fuel raw flat r2f slices in
    Forall2 (sliceOk raw) spans (fst r)
    /\ (snd r = true ->
        forall i s, fst r !! i = Some s -> inDuplicateGroup flat (fst r) i s = false).
Proof.
  induction fuel as [| fuel IH]; intros slices Hok; cbn [disambiguationLoop];
    [split; [exact Hok | discriminate] |].
  pose proof (round_ok spans slices Hok) as Hr.
  pose proof (round_no_duplicates slices) as Hn.
  destruct (disambiguationRound raw flat r2f slices) as [slices' dupExist].
  cbn [fst snd] in Hr, Hn. destruct dupExist; [now apply IH |].
  cbn [fst snd]. split; [exact Hr |]. intros _.
  destruct (Hn eq_refl) as [-> Hall]. exact Hall.
Qed.

Lemma inDuplicateGroup_false (slices : list Slice) (i j : nat) (s s' : Slice) :
  inDuplicateGroup flat slices i s = false ->
  slices !! j = Some s' -> j <> i ->
  sl_nonExpandable s = true \/ sl_nonExpandable s' = true
  \/ flatSliceOf flat s' <> flatSliceOf flat s.
Proof.
  intros H Hs' Hne. unfold inDuplicateGroup in H.
  destruct (sl_nonExpandable s); [now left | right]. cbn [negb andb] in H.
  pose proof (existsb_false_lookup _ _ H j (j, s')) as Hj.
  rewrite list_lookup_imap, Hs' in Hj. specialize (Hj eq_refl). cbn [fst snd] in Hj.
  destruct (Nat.eqb_spec j i); [easy |]. cbn [negb andb] in Hj.
  destruct (sl_nonExpandable s'); [now left | right]. cbn [negb andb] in Hj.
  now apply bool_decide_eq_false in Hj.
Qed.

End Suggestions.

Lemma disambiguationLoop_length (raw flat : text) (r2f : list Z) (fuel : nat) :
  forall slices,
    length (fst (disambiguationLoop fuel raw flat r2f slices)) = length slices.
Proof.
  induction fuel as [| fuel IH]; intros slices; cbn [disambiguationLoop]; [reflexivity |].
  assert (Hr : length (fst (disambiguationRound raw flat r2f slices)) = length slices).
  { unfold disambiguationRound. cbn [fst]. rewrite length_zip_with, length_imap. lia. }
  destruct (disambiguationRound raw flat r2f slices) as [slices' dupExist].
  cbn [fst] in Hr. destruct dupExist; [now rewrite IH | exact Hr].
Qed.

(** One suggestion per span. *)
Lemma suggestions_length (spans : list MatchSpan) (raw flat : text) (r2f : list Z) :
  length (generateDisambiguationSuggestionsFromSpans spans raw flat r2f) = length spans.
Proof.
  unfold generateDisambiguationSuggestionsFromSpans.
  destruct (Z.eqb_spec (len spans) 0) as [E | _].
  { destruct spans; [reflexivity | unfold len in E; cbn [length] in E; lia]. }
  pose proof (disambiguationLoop_length raw flat r2f (disambiguationFuel raw spans)
                (map (fun sp => mkSlice sp false) spans)) as H.
  destruct (disambiguationLoop _ _ _ _ _) as [slices' fl]. cbn [fst] in H.
  now rewrite length_map, H, length_map.
Qed.


(** ** Replacing and deleting: the outcomes of a request on a text file *)

Lemma len_pos {A} (l : list A) : l <> [] -> 1 <= len l.
Proof. destruct l; [easy |]. intros _. unfold len. cbn [length]. lia. Qed.

(** The spans of an exact match are one per occurrence, up to three, each
    with the raw span of its occurrence. *)
Lemma find_exact_spans (raw search : text) :
  let h := buildFlatRawTextHelpers raw in
  let P := normalizeText search in
  let occ := occurrences (flatRawText h) P in
  P <> [] -> occ <> [] ->
  isExactMatch (find h search) = true
  /\ spans (find h search)
     = map (fun o => mkSpan o (o + len P) (rawStartOf h o) (rawEndOf h o (len P)))
         (take 3 occ).
Proof.
  intros h P occ HP Hocc.
  destruct (buildFlat_lengths raw) as (_ & Hlen & _). fold h in Hlen.
  pose proof (findMatchSpans_exact (flatRawText h) P (rawTextChars h) (flatRawToRaw h)
              (rawToFlatRaw h) HP) as HH.
  cbv zeta in HH.
  change (findMatchSpans (flatRawText h) P (rawTextChars h) (flatRawToRaw h)
            (rawToFlatRaw h)) with (find h search) in HH.
  fold occ in HH. destruct HH as [Hex Hsp].
  rewrite bool_decide_eq_true_2 in Hex by exact Hocc.
  split; [exact Hex |]. destruct (Hsp Hex) as (Hst & _ & Hall).
  pose proof (len_pos P HP) as Hm.
  apply list_eq. intros i. rewrite list_lookup_fmap.
  pose proof (f_equal (fun l => l !! i) Hst) as Hi. cbn beta in Hi.
  rewrite list_lookup_fmap in Hi.
  destruct (spans (find h search) !! i) as [sp |] eqn:Esp; cbn in Hi; rewrite <- Hi;
    [| reflexivity].
  cbn. f_equal. rewrite Forall_forall in Hall.
  destruct (Hall sp (list_elem_of_lookup_2 _ _ _ Esp)) as (_ & He & Hr).
  assert (Hin : In (flatStart sp) occ).
  { apply (In_take 3). rewrite <- Hst. apply in_map.
    now apply list_elem_of_In, (list_elem_of_lookup_2 _ i). }
  destruct (occurrences_bounds _ _ _ Hin) as (B1 & B2 & _).
  rewrite He in Hr.
  rewrite (reconstructRawSpan_inside (flatRawToRaw h) (len (rawTextChars h))
             (flatStart sp) (len P) B1 Hm ltac:(lia)) in Hr.
  injection Hr as R1 R2. destruct sp as [a b c d]. cbn in *. subst.
  unfold rawStartOf, rawEndOf. reflexivity.
Qed.

Lemma searchTextAndReplace_unique (fs : FileSystem) (path : string) (f : File)
    (search replacement : text) (allMatches validate : bool) (o : Z) :
  editableFile fs path f ->
  (validate && bool_decide (search = replacement)) = false ->
  let raw := f_content f in
  let h := buildFlatRawTextHelpers raw in
  let P := normalizeText search in
  P <> [] -> occurrences (flatRawText h) P = [o] ->
  let newRaw :=
    slice raw 0 (rawStartOf h o) ++ replacement ++ sliceFrom raw (rawEndOf h o (len P)) in
  searchTextAndReplace path search replacement allMatches validate fs
  = (written fs path f newRaw,
     Some (mkOpResult true (successReplaced (negb (0 <? len replacement)) 1) None))
  /\ normalizeText newRaw
     = slice (flatRawText h) 0 o ++ normalizeText replacement
       ++ sliceFrom (flatRawText h) (o + len P)
  /\ normalizeText (slice raw (rawStartOf h o) (rawEndOf h o (len P))) = P.
Proof.
  intros Hed Hid raw h P HP Hocc newRaw.
  destruct (find_exact_spans raw search HP ltac:(fold h P; rewrite Hocc; easy))
    as [Hex Hsp].
  fold h P in Hex, Hsp. rewrite Hocc in Hsp. cbn [take map] in Hsp.
  pose proof (len_pos P HP) as Hm.
  destruct (occurrences_bounds (flatRawText h) P o ltac:(rewrite Hocc; now left))
    as (B1 & B2 & B3).
  destruct (buildFlat_lengths raw) as (_ & Hlen & Hf). fold h in Hlen, Hf.
  pose proof (getZ_lookup (flatRawToRaw h) o ltac:(lia)) as G1.
  pose proof (getZ_lookup (flatRawToRaw h) (o + len P - 1) ltac:(lia)) as G2.
  assert (G1' : get (flatRawToRaw h) o = Some (rawStartOf h o)).
  { apply get_Some. split; [lia | exact G1]. }
  assert (G2' : get (flatRawToRaw h) (o + len P - 1) = Some (rawEndOf h o (len P) - 1)).
  { apply get_Some. split; [lia |]. unfold rawEndOf. rewrite G2. f_equal. lia. }
  destruct (flat_split raw o _ G1') as (F1 & _).
  destruct (flat_split raw (o + len P - 1) _ G2') as (_ & _ & _ & F4).
  replace (rawEndOf h o (len P) - 1 + 1) with (rawEndOf h o (len P)) in F4 by lia.
  replace (o + len P - 1 + 1) with (o + len P) in F4 by lia.
  split; [| split].
  - rewrite (searchTextAndReplace_editable fs path f search replacement allMatches validate
               Hed Hid).
    fold raw h. cbv zeta. rewrite Hex, Hsp. cbn [negb orb].
    replace (len [_] =? 0) with false by reflexivity.
    replace (1 <? len [_]) with false by reflexivity.
    rewrite andb_false_r. reflexivity.
  - unfold newRaw. rewrite !normalizeText_app. unfold slice, sliceFrom.
    rewrite !drop_0, !Z.sub_0_r, Hf. now rewrite F1, F4.
  - destruct (normalizeText_raw_slice raw o (len P) _ _ Hm G1' G2') as (_ & _ & E).
    replace (rawEndOf h o (len P) - 1 + 1) with (rawEndOf h o (len P)) in E by lia.
    rewrite E, <- Hf. exact B3.
Qed.



(** The number of spans of an exact match. *)
Lemma find_exact_count (raw search : text) :
  let h := buildFlatRawTextHelpers raw in
  let P := normalizeText search in
  let occ := occurrences (flatRawText h) P in
  P <> [] -> occ <> [] -> len (spans (find h search)) = Z.min 3 (len occ).
Proof.
  intros h P occ HP Hocc. destruct (find_exact_spans raw search HP Hocc) as [_ E].
  fold h P occ in E. rewrite E. unfold len. rewrite length_map, length_take. lia.
Qed.




(** ** The checks that come before the search *)

Lemma validate_fileIssue (fs : FileSystem) (path : string) :
  validateTextFileToEdit path true fs = (fs, Some (fileIssue fs path)).
Proof.
  unfold validateTextFileToEdit, fileIssue, bind, existsSync, accessOk, isBinaryFile, ret.
  destruct (fs !! path) as [f |] eqn:E; cbn; [| reflexivity].
  rewrite E. destruct (f_accessible f); cbn; [| reflexivity].
  rewrite E. destruct (f_binary f); reflexivity.
Qed.

(** X20. Every search-driven operation validates the file before anything
    else it does with it: on a path that is missing, not accessible or
    binary, replace, delete, insert and move return the matching failure
    (in this order of precedence) and leave the file system alone, whatever
    their other parameters. On a file that passes, a replacement text equal
    to the search text is refused before the file is read. *)
Theorem file_is_validated_before_the_search (fs : FileSystem) (path : string) :
  (forall m, fileIssue fs path = Some m ->
     (forall search replacement all,
        replaceMatchingTextImpl
          (mkReplaceParams (Some path) (Some search) (Some replacement) all) fs
        = (fs, Some (failure m)))
     /\ (forall search all,
           deleteMatchingTextImpl (mkDeleteParams (Some path) (Some search) all) fs
           = (fs, Some (failure m)))
     /\ (forall textToBeInserted anchor position startMarker endMarker addNewLine,
           insertTextImpl
             (mkInsertParams (Some path) (Some textToBeInserted) (Some anchor)
                (Some position) startMarker endMarker addNewLine) fs
           = (fs, Some (failure m)))
     /\ (forall textToMove anchor position startMarker endMarker,
           moveTextImpl
             (mkMoveParams (Some path) (Some textToMove) (Some anchor) (Some position)
                startMarker endMarker) fs
           = (fs, Some (failure m))))
  /\ (fileIssue fs path = None ->
      forall search all,
        replaceMatchingTextImpl
          (mkReplaceParams (Some path) (Some search) (Some search) all) fs
        = (fs, Some (failure identicalText))).
Proof.
  pose proof (validate_fileIssue fs path) as Hv.
  split.
  - intros m Hm. rewrite Hm in Hv. repeat split; intros.
    + unfold replaceMatchingTextImpl, tryCatch, bind, required, ret, searchTextAndReplace.
      cbn [rp_filePath rp_searchText rp_replacementText]. unfold bind. now rewrite Hv.
    + unfold deleteMatchingTextImpl, tryCatch, bind, required, ret, searchTextAndReplace.
      cbn [dp_filePath dp_searchText]. unfold bind. now rewrite Hv.
    + unfold insertTextImpl, tryCatch, bind, required, ret.
      cbn [ip_filePath ip_textToBeInserted ip_anchorText ip_positionRelativeToAnchorText].
      now rewrite Hv.
    + unfold moveTextImpl, tryCatch, bind, required, ret.
      cbn [mp_filePath mp_textToBeMoved mp_anchorText mp_positionRelativeToAnchorText].
      now rewrite Hv.
  - intros Hn search all. rewrite Hn in Hv.
    unfold replaceMatchingTextImpl, tryCatch, bind, required, ret, searchTextAndReplace.
    cbn [rp_filePath rp_searchText rp_replacementText]. unfold bind. rewrite Hv.
    cbn [andb]. now rewrite bool_decide_eq_true_2.
Qed.
(** ** Inserting next to an anchor *)

Lemma normalizeText_detectLineEnding (s : text) : normalizeText (detectLineEnding s) = [].
Proof.
  induction s as [| c s IH]; [reflexivity |]. cbn [detectLineEnding].
  destruct (c =? 13)%N.
  - destruct s as [| d s']; [reflexivity |]. destruct (d =? 10)%N; reflexivity.
  - destruct (c =? 10)%N; [reflexivity | exact IH].
Qed.

(** Without block markers, an anchor whose stripped text occurs once in the
    flat view resolves to the span of that occurrence, whatever the filter
    of the end marker. *)
Lemma resolveAnchorInBlock_unique (raw anchor : text)
    (endFilter : option MatchSpan -> MatchSpan -> option bool)
    (startMarker endMarker : option text) (o : Z) :
  let h := buildFlatRawTextHelpers raw in
  let P := normalizeText anchor in
  truthy startMarker = false -> truthy endMarker = false ->
  P <> [] -> occurrences (flatRawText h) P = [o] ->
  resolveAnchorInBlock h endFilter startMarker endMarker anchor
  = Some (inr (mkSpan o (o + len P) (rawStartOf h o) (rawEndOf h o (len P)))).
Proof.
  intros h P Hs He HP Hocc.
  destruct (find_exact_spans raw anchor HP ltac:(fold h P; rewrite Hocc; easy))
    as [Hex Hsp].
  fold h P in Hex, Hsp. rewrite Hocc in Hsp. cbn [take map] in Hsp.
  pose proof (find_spanInText raw anchor
                (mkSpan o (o + len P) (rawStartOf h o) (rawEndOf h o (len P)))) as Hin.
  fold h in Hin. rewrite Hsp in Hin. specialize (Hin ltac:(now left)).
  destruct Hin as (I1 & I2 & _). cbn [rawStart rawEndExclusive] in I1, I2.
  unfold resolveAnchorInBlock, resolveBlockStart, resolveBlockEnd, resolveAnchor.
  rewrite Hs, He, Hex, Hsp. cbn [negb orb List.filter].
  unfold inBlock. cbn [rawStart rawEndExclusive rawTextChars h buildFlatRawTextHelpers].
  destruct (Z.leb_spec 0 (rawStartOf h o)); [| lia].
  destruct (Z.leb_spec (rawEndOf h o (len P)) (len raw)); [| lia].
  reflexivity.
Qed.

(** What the raw text before and after the span of an occurrence strips to. *)
Lemma occurrence_split (raw search : text) (o : Z) :
  let h := buildFlatRawTextHelpers raw in
  let P := normalizeText search in
  P <> [] -> In o (occurrences (flatRawText h) P) ->
  normalizeText (slice raw 0 (rawStartOf h o)) = slice (flatRawText h) 0 o
  /\ normalizeText (sliceFrom raw (rawStartOf h o)) = sliceFrom (flatRawText h) o
  /\ normalizeText (slice raw 0 (rawEndOf h o (len P))) = slice (flatRawText h) 0 (o + len P)
  /\ normalizeText (sliceFrom raw (rawEndOf h o (len P)))
     = sliceFrom (flatRawText h) (o + len P)
  /\ 0 <= rawStartOf h o < rawEndOf h o (len P) /\ rawEndOf h o (len P) <= len raw.
Proof.
  intros h P HP Hin.
  pose proof (len_pos P HP) as Hm.
  destruct (occurrences_bounds (flatRawText h) P o Hin) as (B1 & B2 & B3).
  destruct (buildFlat_lengths raw) as (_ & Hlen & Hf). fold h in Hlen, Hf.
  pose proof (getZ_lookup (flatRawToRaw h) o ltac:(lia)) as G1.
  pose proof (getZ_lookup (flatRawToRaw h) (o + len P - 1) ltac:(lia)) as G2.
  assert (G1' : get (flatRawToRaw h) o = Some (rawStartOf h o)).
  { apply get_Some. split; [lia | exact G1]. }
  assert (G2' : get (flatRawToRaw h) (o + len P - 1) = Some (rawEndOf h o (len P) - 1)).
  { apply get_Some. split; [lia |]. unfold rawEndOf. rewrite G2. f_equal. lia. }
  destruct (flat_split raw o _ G1') as (F1 & _ & F3 & _).
  destruct (flat_split raw (o + len P - 1) _ G2') as (_ & F2 & _ & F4).
  replace (rawEndOf h o (len P) - 1 + 1) with (rawEndOf h o (len P)) in F2, F4 by lia.
  replace (o + len P - 1 + 1) with (o + len P) in F2, F4 by lia.
  destruct (normalizeText_raw_slice raw o (len P) _ _ Hm G1' G2') as (R1 & R2 & _).
  unfold slice, sliceFrom. rewrite !drop_0, !Z.sub_0_r, Hf.
  repeat split; try easy; lia.
Qed.


(** ** Moving a text block *)

Lemma normalizeText_take_prefix (X : text) (a : nat) :
  normalizeText (take a X) = take (length (normalizeText (take a X))) (normalizeText X)
  /\ normalizeText (drop a X) = drop (length (normalizeText (take a X))) (normalizeText X).
Proof.
  pose proof (normalizeText_take_drop X a) as E. split.
  - rewrite E at 1. now rewrite take_app_length.
  - rewrite E at 1. now rewrite drop_app_length.
Qed.

Section MoveGeometry.

Variable raw : text.

Local Abbreviation cnt i := (len (normalizeText (take (Z.to_nat i) raw))).

(** A range of whitespace holds no kept scalar. *)
Lemma ws_range_cnt (a : Z) (n : nat) :
  0 <= a ->
  (forall k, a <= k < a + Z.of_nat n ->
     exists c, get raw k = Some c /\ isWhitespace c = true) ->
  cnt (a + Z.of_nat n) = cnt a.
Proof.
  intros Ha. induction n as [| n IH]; intros H.
  { now replace (a + Z.of_nat 0) with a by lia. }
  destruct (H (a + Z.of_nat n) ltac:(lia)) as (c & Hc & Hw).
  pose proof (cnt_succ raw _ c Hc) as Hs. rewrite Hw in Hs.
  replace (a + Z.of_nat (S n)) with (a + Z.of_nat n + 1) by lia.
  rewrite Hs, IH; [lia |]. intros k Hk. apply H. lia.
Qed.

Lemma ws_range_cnt' (a b : Z) :
  0 <= a <= b ->
  (forall k, a <= k < b -> exists c, get raw k = Some c /\ isWhitespace c = true) ->
  cnt b = cnt a.
Proof.
  intros Hab H. replace b with (a + Z.of_nat (Z.to_nat (b - a))) by lia.
  apply ws_range_cnt; [lia |]. intros k Hk. apply H. lia.
Qed.

Lemma findLineBoundaryToLeft_cnt (s : Z) :
  0 <= s ->
  let r := findLineBoundaryToLeft raw s in
  0 <= r -> r <= s /\ cnt r = cnt s.
Proof.
  intros Hs. unfold findLineBoundaryToLeft. cbv zeta.
  destruct (lineBoundaryLeftLoop_all raw (Z.to_nat s) s) as (H1 & H2 & H3).
  destruct (hasStartReachedLineBoundary raw _); [| lia].
  intros _. split; [exact H1 |]. symmetry. apply ws_range_cnt'; [lia |].
  intros k Hk. destruct (H3 k Hk) as (c & Hc & Hw & _). now exists c.
Qed.

Lemma findLineBoundaryToRight_cnt (e : Z) :
  0 <= e <= len raw ->
  let r := findLineBoundaryToRight raw e in
  0 <= r -> e <= r <= len raw /\ cnt r = cnt e.
Proof.
  intros He. unfold findLineBoundaryToRight. cbv zeta.
  destruct (lineBoundaryRightLoop_all raw (Z.to_nat (len raw - e)) e) as (H1 & H2 & H3).
  destruct (hasEndReachedLineBoundary raw _); [| lia].
  intros _. split; [lia |]. apply ws_range_cnt'; [lia |].
  intros k Hk. destruct (H3 k Hk) as (c & Hc & Hw & _). now exists c.
Qed.

Lemma expandEndLineBoundary_cnt (p : Z) :
  0 <= p <= len raw ->
  let r := expandEndLineBoundaryToIncludeTrailingNewLine raw p in
  p <= r <= len raw /\ cnt r = cnt p.
Proof.
  intros Hp. unfold expandEndLineBoundaryToIncludeTrailingNewLine. cbv zeta.
  set (test := fun x : option char =>
                 match x with Some c => (c =? 13)%N || (c =? 10)%N | None => false end).
  pose proof (scanRightWhile_range raw test (Z.to_nat (len raw - p)) p ltac:(lia)) as H1.
  destruct (scanRightWhile_all raw test (Z.to_nat (len raw - p)) p) as [_ H2].
  split; [exact H1 |]. apply ws_range_cnt'; [lia |].
  intros k Hk. specialize (H2 k Hk). unfold test in H2.
  destruct (get raw k) as [c |]; [| discriminate]. exists c. split; [reflexivity |].
  apply orb_true_iff in H2 as [E | E]; apply N.eqb_eq in E; subst c; reflexivity.
Qed.

(** The new text of a move, modulo whitespace: the block is cut out of the
    flat text and put in again at the flat position of the insertion point. *)
Lemma applyMove_flat (lineEnding : text) (position : Position) (pl : MovePlan)
    (om mm q : Z) :
  0 <= deletionStart pl <= textToMoveEndExcl pl ->
  textToMoveEndExcl pl <= deletionEndExcl pl -> deletionEndExcl pl <= len raw ->
  0 <= insertionPoint pl <= len raw ->
  insertionInsideDeletion pl = false ->
  cnt (deletionStart pl) = om -> cnt (textToMoveEndExcl pl) = om + mm ->
  cnt (deletionEndExcl pl) = om + mm -> cnt (insertionPoint pl) = q ->
  1 <= mm -> normalizeText lineEnding = [] ->
  let flat := normalizeText raw in
  let cut := slice flat 0 om ++ sliceFrom flat (om + mm) in
  let q' := if q <=? om then q else q - mm in
  normalizeText (applyMove raw lineEnding position pl)
  = slice cut 0 q' ++ slice flat om (om + mm) ++ sliceFrom cut q'.
Proof.
  intros H1 H2 H3 H4 Hover C1 C2 C3 C4 Hmm Hle flat cut q'.
  destruct pl as [lb ds de ip tme].
  unfold insertionInsideDeletion in Hover.
  cbn [deletionStart deletionEndExcl insertionPoint textToMoveEndExcl isLineBoundaryMove]
    in *.
  assert (Hlt : ds < de).
  { destruct (Z.eq_dec ds tme) as [E | Hne]; [| lia]. rewrite <- E in C2. lia. }
  assert (Hpos : ip <= ds \/ de <= ip).
  { apply andb_false_iff in Hover as [E | E]; apply Z.ltb_ge in E; lia. }
  pose proof (len_nonneg (normalizeText (take (Z.to_nat ds) raw))) as Hom. rewrite C1 in Hom.
  (* the moved text *)
  assert (HM : normalizeText
                 (if lb
                  then match position with
                       | before => sliceBySpan raw ds tme ++ lineEnding
                       | after => lineEnding ++ sliceBySpan raw ds tme
                       end
                  else sliceBySpan raw ds tme)
               = slice flat om (om + mm)).
  { assert (E : normalizeText (sliceBySpan raw ds tme) = slice flat om (om + mm)).
    { unfold sliceBySpan.
      pose proof (flat_slice raw ds tme (om + mm) ltac:(lia) ltac:(lia)
                    ltac:(left; lia)) as F.
      rewrite C1 in F. symmetry. exact F. }
    destruct lb; [| exact E].
    destruct position; rewrite normalizeText_app, Hle, E, ?app_nil_r; reflexivity. }
  unfold applyMove.
  cbn [deletionStart deletionEndExcl insertionPoint textToMoveEndExcl isLineBoundaryMove].
  cbv zeta. unfold splice at 2. cbn [app].
  replace (Z.to_nat ds + Z.to_nat (de - ds))%nat with (Z.to_nat de) by lia.
  set (M := if lb then _ else _) in *.
  destruct (normalizeText_take_prefix raw (Z.to_nat ds)) as [Pds _].
  destruct (normalizeText_take_prefix raw (Z.to_nat de)) as [_ Sde].
  destruct (normalizeText_take_prefix raw (Z.to_nat ip)) as [Pip Sip].
  fold flat in Pds, Sde, Pip, Sip.
  assert (L1 : length (normalizeText (take (Z.to_nat ds) raw)) = Z.to_nat om)
    by (unfold len in C1; lia).
  assert (L3 : length (normalizeText (take (Z.to_nat de) raw)) = Z.to_nat (om + mm))
    by (unfold len in C3; lia).
  assert (L4 : length (normalizeText (take (Z.to_nat ip) raw)) = Z.to_nat q)
    by (unfold len in C4; lia).
  rewrite L1 in Pds. rewrite L3 in Sde. rewrite L4 in Pip, Sip.
  assert (Hcut : cut = normalizeText (take (Z.to_nat ds) raw)
                       ++ normalizeText (drop (Z.to_nat de) raw)).
  { unfold cut, slice, sliceFrom. rewrite drop_0, Z.sub_0_r. now rewrite Pds, Sde. }
  assert (Hlraw : length raw = Z.to_nat (len raw)) by (unfold len; lia).
  unfold splice. rewrite !normalizeText_app, HM. f_equal; [| f_equal].
  - (* the text before the insertion point *)
    unfold slice. rewrite drop_0, Z.sub_0_r.
    destruct Hpos as [Hl | Hr].
    + destruct (Z.leb_spec ip ds); [| lia].
      pose proof (cnt_mono raw ip ds ltac:(lia)) as Hm'.
      unfold q'. destruct (Z.leb_spec q om); [| lia].
      rewrite take_app_le by (rewrite length_take; lia).
      rewrite take_take. replace (Z.to_nat ip `min` Z.to_nat ds)%nat with (Z.to_nat ip) by lia.
      rewrite Pip, Hcut, Pds.
      rewrite take_app_le by (rewrite length_take; unfold flat;
        pose proof (cnt_le_flat raw ds); unfold len in *; lia).
      rewrite take_take. f_equal. lia.
    + pose proof (cnt_mono raw de ip ltac:(lia)) as Hm'.
      destruct (Z.leb_spec ip ds); [lia |].
      unfold q'. destruct (Z.leb_spec q om); [lia |].
      rewrite take_app_ge by (rewrite length_take; lia).
      rewrite length_take.
      replace (Z.to_nat (ip - (de - ds)) - Z.to_nat ds `min` length raw)%nat
        with (Z.to_nat (ip - de)) by lia.
      rewrite normalizeText_app, Hcut.
      rewrite take_app_ge by (rewrite L1; lia).
      f_equal. rewrite L1.
      destruct (normalizeText_take_prefix (drop (Z.to_nat de) raw) (Z.to_nat (ip - de)))
        as [Pd _].
      rewrite Pd. f_equal.
      assert (E : take (Z.to_nat ip) raw
                  = take (Z.to_nat de) raw
                    ++ take (Z.to_nat (ip - de)) (drop (Z.to_nat de) raw)).
      { rewrite <- (take_drop (Z.to_nat de) raw) at 1.
        rewrite take_app_ge by (rewrite length_take; lia).
        rewrite length_take. f_equal. f_equal. lia. }
      apply (f_equal (fun l => length (normalizeText l))) in E.
      rewrite normalizeText_app, length_app, L4, L3 in E. lia.
  - (* the text after the insertion point *)
    unfold sliceFrom. rewrite Nat.add_0_r.
    destruct Hpos as [Hl | Hr].
    + destruct (Z.leb_spec ip ds); [| lia].
      pose proof (cnt_mono raw ip ds ltac:(lia)) as Hm'.
      unfold q'. destruct (Z.leb_spec q om); [| lia].
      rewrite drop_app_le by (rewrite length_take; lia).
      rewrite normalizeText_app, Hcut.
      rewrite drop_app_le by (rewrite L1; lia).
      f_equal.
      destruct (normalizeText_take_prefix (take (Z.to_nat ds) raw) (Z.to_nat ip)) as [_ Sd].
      rewrite Sd. f_equal. rewrite take_take.
      replace (Z.to_nat ip `min` Z.to_nat ds)%nat with (Z.to_nat ip) by lia. exact L4.
    + pose proof (cnt_mono raw de ip ltac:(lia)) as Hm'.
      destruct (Z.leb_spec ip ds); [lia |].
      unfold q'. destruct (Z.leb_spec q om); [lia |].
      rewrite drop_app_ge by (rewrite length_take; lia).
      rewrite length_take, drop_drop.
      replace (Z.to_nat de + (Z.to_nat (ip - (de - ds)) - Z.to_nat ds `min` length raw))%nat
        with (Z.to_nat ip) by lia.
      rewrite Sip, Hcut, Pds, Sde.
      rewrite drop_app_ge by (rewrite length_take; unfold flat;
        pose proof (cnt_le_flat raw ds); unfold len in *; lia).
      rewrite length_take, drop_drop. f_equal.
      pose proof (cnt_le_flat raw ds) as Hb. fold flat in Hb. unfold len in Hb. lia.
Qed.

End MoveGeometry.

(** What an exact match says about each of its spans. *)
Lemma exact_span_facts (raw x : text) (sp : MatchSpan) :
  let h := buildFlatRawTextHelpers raw in
  let P := normalizeText x in
  isExactMatch (find h x) = true -> In sp (spans (find h x)) ->
  0 <= rawStart sp < rawEndExclusive sp /\ rawEndExclusive sp <= len raw
  /\ len (normalizeText (take (Z.to_nat (rawStart sp)) raw)) = flatStart sp
  /\ len (normalizeText (take (Z.to_nat (rawEndExclusive sp)) raw)) = flatStart sp + len P
  /\ flatEndExclusive sp = flatStart sp + len P
  /\ slice (normalizeText raw) (flatStart sp) (flatStart sp + len P) = P
  /\ 1 <= len P.
Proof.
  intros h P Hex Hin. subst h P.
  destruct (find_spanInText raw x sp Hin) as (S1 & S2 & S3 & S4).
  destruct (exact_span_raw raw x sp Hex Hin) as (Ho & He & _ & _ & Hm).
  destruct (occurrences_bounds _ _ _ Ho) as (_ & _ & Hs).
  destruct (buildFlat_lengths raw) as (_ & _ & Hf). rewrite Hf in Hs.
  unfold slice in S3, S4. rewrite !drop_0, !Z.sub_0_r in S3, S4.
  repeat split; try lia; try easy.
Qed.

Lemma resolveAnchorInBlock_inr (h : FlatHelpers)
    (endFilter : option MatchSpan -> MatchSpan -> option bool)
    (startMarker endMarker : option text) (anchor : text) (span : MatchSpan) :
  resolveAnchorInBlock h endFilter startMarker endMarker anchor = Some (inr span) ->
  isExactMatch (find h anchor) = true /\ In span (spans (find h anchor)).
Proof.
  unfold resolveAnchorInBlock.
  destruct (resolveBlockStart h startMarker) as [res | bs]; [discriminate |].
  destruct (resolveBlockEnd h endFilter bs endMarker) as [[res | be] |]; try discriminate.
  intros H. apply resolveAnchor_inr in H as [Hex Hf]. split; [exact Hex |].
  assert (Hin : In span (List.filter
                           (inBlock (match bs with Some b => rawStart b | None => 0 end)
                              (match be with
                               | Some b => rawEndExclusive b
                               | None => len (rawTextChars h)
                               end))
                           (spans (find h anchor)))) by (rewrite Hf; now left).
  now apply filter_In in Hin as [Hin _].
Qed.

(** The geometry of a move: the deletion starts and the moved text ends
    where, modulo whitespace, the span to move starts and ends, and the
    insertion point is, modulo whitespace, the chosen side of the anchor. *)
Lemma planMove_facts (raw : text) (position : Position) (moveSpan anchorSpan : MatchSpan) :
  0 <= rawStart moveSpan <= rawEndExclusive moveSpan ->
  rawEndExclusive moveSpan <= len raw ->
  0 <= rawStart anchorSpan <= rawEndExclusive anchorSpan ->
  rawEndExclusive anchorSpan <= len raw ->
  let pl := planMove raw position moveSpan anchorSpan in
  let cnt i := len (normalizeText (take (Z.to_nat i) raw)) in
  0 <= deletionStart pl <= textToMoveEndExcl pl
  /\ textToMoveEndExcl pl <= deletionEndExcl pl <= len raw
  /\ 0 <= insertionPoint pl <= len raw
  /\ cnt (deletionStart pl) = cnt (rawStart moveSpan)
  /\ cnt (textToMoveEndExcl pl) = cnt (rawEndExclusive moveSpan)
  /\ cnt (deletionEndExcl pl) = cnt (rawEndExclusive moveSpan)
  /\ cnt (insertionPoint pl)
     = cnt (match position with
            | before => rawStart anchorSpan
            | after => rawEndExclusive anchorSpan
            end).
Proof.
  intros M1 M2 A1 A2 pl cnt. unfold pl, planMove. cbv zeta.
  pose proof (findLineBoundaryToLeft_cnt raw (rawStart moveSpan) ltac:(lia)) as L1.
  pose proof (findLineBoundaryToRight_cnt raw (rawEndExclusive moveSpan) ltac:(lia)) as L2.
  pose proof (findLineBoundaryToLeft_cnt raw (rawStart anchorSpan) ltac:(lia)) as L3.
  pose proof (findLineBoundaryToRight_cnt raw (rawEndExclusive anchorSpan) ltac:(lia)) as L4.
  cbv zeta in L1, L2, L3, L4.
  set (ms := findLineBoundaryToLeft raw (rawStart moveSpan)) in *.
  set (me := findLineBoundaryToRight raw (rawEndExclusive moveSpan)) in *.
  set (as_ := findLineBoundaryToLeft raw (rawStart anchorSpan)) in *.
  set (ae := findLineBoundaryToRight raw (rawEndExclusive anchorSpan)) in *.
  destruct (Z.leb_spec 0 ms) as [Hms | Hms]; cbn [andb];
    [destruct (Z.leb_spec 0 me) as [Hme | Hme]; cbn [andb] |].
  - specialize (L1 Hms). specialize (L2 Hme).
    pose proof (expandEndLineBoundary_cnt raw me ltac:(lia)) as L5. cbv zeta in L5.
    destruct position.
    + destruct (Z.leb_spec 0 as_) as [Ha | Ha];
        cbn [deletionStart deletionEndExcl insertionPoint textToMoveEndExcl]; unfold cnt.
      * specialize (L3 Ha). repeat split; lia.
      * repeat split; lia.
    + destruct (Z.leb_spec 0 ae) as [Ha | Ha];
        cbn [deletionStart deletionEndExcl insertionPoint textToMoveEndExcl]; unfold cnt.
      * specialize (L4 Ha). repeat split; lia.
      * repeat split; lia.
  - cbn [deletionStart deletionEndExcl insertionPoint textToMoveEndExcl]. unfold cnt.
    destruct position; repeat split; lia.
  - cbn [deletionStart deletionEndExcl insertionPoint textToMoveEndExcl]. unfold cnt.
    destruct position; repeat split; lia.
Qed.


(** ** Overwriting, appending and deleting a file *)

Lemma validate_delete (fs : FileSystem) (path : string) :
  validateTextFileToEdit path false fs
  = (fs, Some (match fs !! path with
               | None => Some fileNotExist
               | Some f => if f_accessible f then None else Some filePermissionError
               end)).
Proof.
  unfold validateTextFileToEdit, bind, existsSync, accessOk, ret.
  destruct (fs !! path) as [f |] eqn:E; cbn; [| reflexivity].
  rewrite E. destruct (f_accessible f); reflexivity.
Qed.

Lemma fileIssue_editable (fs : FileSystem) (path : string) (f : File) :
  editableFile fs path f -> fileIssue fs path = None.
Proof. intros (Hf & Ha & Hb & _). unfold fileIssue. now rewrite Hf, Ha, Hb. Qed.

Lemma overwrite_editable (fs : FileSystem) (path : string) (f : File) (content : text) :
  fs !! path = Some f -> fileIssue fs path = None ->
  overwriteFileContentImpl (mkOverwriteParams (Some path) (Some content)) fs
  = (written fs path f content, Some (mkFileOpResult true successOverwritten)).
Proof.
  intros Hf Hi.
  unfold overwriteFileContentImpl, tryCatch, bind, required, ret.
  cbn [owp_filePath owp_fileContent]. rewrite validate_fileIssue, Hi.
  unfold writeFile, written. now rewrite Hf.
Qed.

Lemma append_editable (fs : FileSystem) (path : string) (f : File) (appendText : text)
    (flag : option bool) :
  editableFile fs path f ->
  appendTextToFileImpl (mkAppendParams (Some path) (Some appendText) flag) fs
  = (written fs path f (appendedContent (f_content f) appendText flag),
     Some (mkFileOpResult true successAppended)).
Proof.
  intros Hed. pose proof (fileIssue_editable fs path f Hed) as Hi.
  destruct (validate_editable fs path f Hed) as [_ Hr]. destruct Hed as (Hf & _).
  unfold appendTextToFileImpl, tryCatch, bind, required, ret.
  cbn [atp_filePath atp_appendText atp_addNewLineBeforeAppending].
  rewrite validate_fileIssue, Hi, Hr. unfold writeFile, written. now rewrite Hf.
Qed.

(** X23. [overwrite_file_content] and [append_text_to_file] refuse a path
    that is missing, not accessible or binary, and change nothing then. On
    an editable text file, overwriting writes exactly the content given;
    appending keeps the old content as it is and puts the text after it,
    with the file's line ending in between when the flag is set and the old
    content does not end with that line ending; and an overwrite followed by
    an append without the flag leaves the two texts concatenated. *)
Theorem overwrite_and_append_write_what_they_are_given (fs : FileSystem) (path : string)
    (content appendText : text) (flag : option bool) :
  (forall m, fileIssue fs path = Some m ->
     overwriteFileContentImpl (mkOverwriteParams (Some path) (Some content)) fs
     = (fs, Some (fileFailure m))
     /\ appendTextToFileImpl (mkAppendParams (Some path) (Some appendText) flag) fs
        = (fs, Some (fileFailure m)))
  /\ (forall f, editableFile fs path f ->
        let old := f_content f in
        let lineEnding := detectLineEnding old in
        let sep :=
          if default false flag && negb (endsWith old lineEnding) then lineEnding else [] in
        overwriteFileContentImpl (mkOverwriteParams (Some path) (Some content)) fs
        = (written fs path f content, Some (mkFileOpResult true successOverwritten))
        /\ appendTextToFileImpl (mkAppendParams (Some path) (Some appendText) flag) fs
           = (written fs path f (old ++ sep ++ appendText),
              Some (mkFileOpResult true successAppended))
        /\ normalizeText (old ++ sep ++ appendText)
           = normalizeText old ++ normalizeText appendText
        /\ bind (overwriteFileContentImpl (mkOverwriteParams (Some path) (Some content)))
             (fun _ =>
                appendTextToFileImpl (mkAppendParams (Some path) (Some appendText) None)) fs
           = (written fs path f (content ++ appendText),
              Some (mkFileOpResult true successAppended))).
Proof.
  split.
  - intros m Hm. split.
    + unfold overwriteFileContentImpl, tryCatch, bind, required, ret.
      cbn [owp_filePath owp_fileContent]. now rewrite validate_fileIssue, Hm.
    + unfold appendTextToFileImpl, tryCatch, bind, required, ret.
      cbn [atp_filePath atp_appendText]. now rewrite validate_fileIssue, Hm.
  - intros f Hed old lineEnding sep.
    pose proof (fileIssue_editable fs path f Hed) as Hi.
    pose proof Hed as (Hf & Ha & Hb & Hr).
    pose proof (overwrite_editable fs path f content Hf Hi) as Ho.
    split; [exact Ho |]. split; [| split].
    + rewrite (append_editable fs path f appendText flag Hed). f_equal. f_equal.
      unfold appendedContent, sep. fold old lineEnding.
      destruct (default false flag); cbn [andb]; [| reflexivity].
      destruct (negb (endsWith old lineEnding)); [now rewrite <- app_assoc | reflexivity].
    + rewrite !normalizeText_app.
      assert (Hs : normalizeText sep = []).
      { unfold sep. destruct (_ && _); [apply normalizeText_detectLineEnding | reflexivity]. }
      now rewrite Hs.
    + unfold bind at 1. rewrite Ho.
      set (f' := mkFile content (f_accessible f) (f_binary f) (f_readFails f)).
      assert (Hed' : editableFile (written fs path f content) path f').
      { unfold editableFile, written. rewrite lookup_insert_eq. now cbn. }
      rewrite (append_editable _ path f' appendText None Hed').
      unfold written, appendedContent. cbn [default f_content f_accessible f_binary
        f_readFails f']. now rewrite insert_insert_eq.
Qed.

(** X24. [delete_file] removes a file that exists and is accessible, binary
    or not, and touches no other path; afterwards the path is missing, so
    that deleting, overwriting or appending again is refused with the
    file-not-found failure. A missing path and a path that is not accessible
    are refused, and nothing changes. *)
Theorem delete_file_removes_the_entry (fs : FileSystem) (path : string) :
  (forall f, fs !! path = Some f -> f_accessible f = true ->
     let fs' := delete path fs in
     deleteFileImpl (mkDeleteFileParams (Some path)) fs
     = (fs', Some (mkFileOpResult true successFileDeleted))
     /\ fs' !! path = None
     /\ (forall other, other <> path -> fs' !! other = fs !! other)
     /\ fileIssue fs' path = Some fileNotExist
     /\ deleteFileImpl (mkDeleteFileParams (Some path)) fs'
        = (fs', Some (fileFailure fileNotExist))
     /\ (forall content,
           overwriteFileContentImpl (mkOverwriteParams (Some path) (Some content)) fs'
           = (fs', Some (fileFailure fileNotExist)))
     /\ (forall appendText flag,
           appendTextToFileImpl (mkAppendParams (Some path) (Some appendText) flag) fs'
           = (fs', Some (fileFailure fileNotExist))))
  /\ (fs !! path = None ->
      deleteFileImpl (mkDeleteFileParams (Some path)) fs
      = (fs, Some (fileFailure fileNotExist)))
  /\ (forall f, fs !! path = Some f -> f_accessible f = false ->
        deleteFileImpl (mkDeleteFileParams (Some path)) fs
        = (fs, Some (fileFailure filePermissionError))).
Proof.
  assert (Hmiss : forall fs0 : FileSystem, fs0 !! path = None ->
            deleteFileImpl (mkDeleteFileParams (Some path)) fs0
            = (fs0, Some (fileFailure fileNotExist))).
  { intros fs0 H0. unfold deleteFileImpl, tryCatch, bind, required, ret.
    cbn [dfp_filePath]. now rewrite validate_delete, H0. }
  split; [| split].
  - intros f Hf Ha fs'.
    assert (Hgone : fs' !! path = None) by apply lookup_delete_eq.
    assert (Hiss : fileIssue fs' path = Some fileNotExist).
    { unfold fileIssue. now rewrite Hgone. }
    split.
    { unfold deleteFileImpl, tryCatch, bind, required, ret. cbn [dfp_filePath].
      rewrite validate_delete, Hf, Ha. unfold unlink. now rewrite Hf. }
    split; [exact Hgone |]. split.
    { intros other Hne. now apply lookup_delete_ne. }
    split; [exact Hiss |]. split; [now apply Hmiss |]. split.
    + intros content. unfold overwriteFileContentImpl, tryCatch, bind, required, ret.
      cbn [owp_filePath owp_fileContent]. now rewrite validate_fileIssue, Hiss.
    + intros appendText flag. unfold appendTextToFileImpl, tryCatch, bind, required, ret.
      cbn [atp_filePath atp_appendText]. now rewrite validate_fileIssue, Hiss.
  - apply Hmiss.
  - intros f Hf Ha. unfold deleteFileImpl, tryCatch, bind, required, ret.
    cbn [dfp_filePath]. now rewrite validate_delete, Hf, Ha.
Qed.
(** ** The prefix and suffix matches of the fuzzy phase *)

Lemma getZ_map_seqZ (f : Z -> Z) (n i : Z) :
  0 <= i < n -> getZ (map f (seqZ 0 n)) i = f i.
Proof.
  intros Hi. unfold getZ, get. destruct (Z.ltb_spec i 0); [lia |].
  rewrite list_lookup_fmap, lookup_seqZ_lt by lia. cbn. f_equal. lia.
Qed.

Lemma computePrefixMatches_get (pattern text_ : text) (i : Z) :
  0 <= i < len text_ ->
  getZ (computePrefixMatches pattern text_) i
  = commonPrefixLen pattern (drop (Z.to_nat i) text_).
Proof.
  intros Hi. unfold computePrefixMatches. cbv zeta.
  rewrite (getZ_map_seqZ _ (len text_) i Hi).
  pose proof (computeZArray_text pattern text_ false i ltac:(lia)) as E.
  cbv zeta in E. cbn [negb] in E. rewrite E.
  destruct (commonPrefixLen_spec pattern (drop (Z.to_nat i) text_)) as (C1 & _).
  cbv zeta in C1.
  destruct (Z.ltb_spec (len pattern) (commonPrefixLen pattern (drop (Z.to_nat i) text_)));
    [lia | reflexivity].
Qed.

Lemma computeSuffixMatches_entry (pattern text_ : text) (start v : Z) :
  getZ (computeSuffixMatches pattern text_) start = v -> 0 < v ->
  0 <= start /\ start + v <= len text_ /\ v <= len pattern
  /\ slice text_ start (start + v) = sliceFrom pattern (len pattern - v)
  /\ commonSuffixLen pattern (take (Z.to_nat (start + v)) text_) = v.
Proof.
  intros Hs Hv. pose proof (computeSuffixMatches_inv pattern text_) as H.
  cbv zeta in H. destruct H as (Hlen & _ & Hsound & _).
  destruct (Hsound start v Hs Hv) as (e & He & Hsuf & Hst).
  destruct (commonSuffixLen_drop pattern (take (Z.to_nat e) text_)) as (C1 & C2 & C3).
  cbv zeta in C1, C2, C3. rewrite Hsuf in C1, C2, C3.
  assert (Hle : len (take (Z.to_nat e) text_) = e).
  { unfold len in *. rewrite length_take. lia. }
  rewrite Hle in C2, C3.
  replace (start + v) with e by lia.
  split; [lia |]. split; [lia |]. split; [lia |]. split; [| exact Hsuf].
  unfold slice, sliceFrom. rewrite C3.
  replace (Z.to_nat (e - v)) with (Z.to_nat start) by lia.
  replace (Z.to_nat e) with (Z.to_nat start + Z.to_nat (e - start))%nat at 1 by lia.
  now rewrite <- take_drop_commute.
Qed.

(** X25. The prefix and suffix raw matches that the fuzzy phase works with
    are occurrences: a prefix match of length [L] at a flat position says
    that the flat text carries the first [L] scalars of the stripped search
    text there and no longer prefix of it; a suffix match says that it
    carries the last [L] scalars where the match lies and no longer suffix
    ends where the match ends. Each has at least
    [max 1 (minMatchLen div 2)] scalars, and every position that carries
    such a prefix gives a prefix match. *)
Theorem prefix_and_suffix_matches_are_occurrences (T P : text) :
  let fr := fuzzyRawMatches T P in
  let prefixThreshold := Z.max 1 (computeMinMatchLen (len P) / 2) in
  (forall rm, In rm (filteredPrefixes fr) ->
     let L := matchedLen rm in
     matchType rm = prefix
     /\ 0 <= rmFlatStart rm /\ rmFlatEndExclusive rm = rmFlatStart rm + L
     /\ rmFlatEndExclusive rm <= len T
     /\ prefixThreshold <= L <= len P
     /\ slice T (rmFlatStart rm) (rmFlatEndExclusive rm) = slice P 0 L
     /\ commonPrefixLen P (sliceFrom T (rmFlatStart rm)) = L)
  /\ (forall rm, In rm (filteredSuffixes fr) ->
        let L := matchedLen rm in
        matchType rm = suffix
        /\ 0 <= rmFlatStart rm /\ rmFlatEndExclusive rm = rmFlatStart rm + L
        /\ rmFlatEndExclusive rm <= len T
        /\ prefixThreshold <= L <= len P
        /\ slice T (rmFlatStart rm) (rmFlatEndExclusive rm) = sliceFrom P (len P - L)
        /\ commonSuffixLen P (slice T 0 (rmFlatEndExclusive rm)) = L)
  /\ (forall i, 0 <= i < len T ->
        prefixThreshold <= commonPrefixLen P (sliceFrom T i) ->
        In (mkRaw prefix i (i + commonPrefixLen P (sliceFrom T i))
              (commonPrefixLen P (sliceFrom T i)))
           (filteredPrefixes fr)).
Proof.
  intros fr prefixThreshold.
  assert (Hfp : filteredPrefixes fr
                = List.filter (fun m => prefixThreshold <=? matchedLen m)
                    (lengthMatches prefix (computePrefixMatches P T) (len T) (len P))).
  { unfold fr, fuzzyRawMatches. cbv zeta. fold prefixThreshold.
    match goal with |- filteredPrefixes (if ?b then _ else _) = _ => destruct b end;
      reflexivity. }
  assert (Hfs : forall rm, In rm (filteredSuffixes fr) ->
                  In rm (List.filter (fun m => prefixThreshold <=? matchedLen m)
                           (lengthMatches suffix (computeSuffixMatches P T) (len T)
                              (len P)))).
  { intros rm. unfold fr, fuzzyRawMatches. cbv zeta. fold prefixThreshold.
    match goal with |- In rm (filteredSuffixes (if ?b then _ else _)) -> _ => destruct b end;
      cbn [filteredSuffixes]; [| easy]. now rewrite sortByKey_In. }
  split; [| split].
  - intros rm Hin L. rewrite Hfp in Hin. apply filter_In in Hin as [Hin Hth].
    apply Z.leb_le in Hth.
    apply lengthMatches_In in Hin as (Hk & Hs & Hl & He & Hv). fold L in Hth, Hl, He, Hv.
    rewrite (computePrefixMatches_get P T _ Hs) in Hv.
    destruct (commonPrefixLen_spec P (drop (Z.to_nat (rmFlatStart rm)) T)) as (C1 & C2 & _).
    cbv zeta in C1, C2.
    pose proof (commonPrefixLen_take P (drop (Z.to_nat (rmFlatStart rm)) T)) as Ct.
    assert (Hc : commonPrefixLen P (drop (Z.to_nat (rmFlatStart rm)) T) = L) by lia.
    rewrite Hc in C2, Ct.
    assert (Hld : len (drop (Z.to_nat (rmFlatStart rm)) T) = len T - rmFlatStart rm).
    { pose proof Hs as Hs'. unfold len in Hs' |- *. rewrite length_drop. lia. }
    split; [exact Hk |]. split; [lia |]. split; [exact He |]. split; [lia |].
    split; [lia |]. split; [| exact Hc].
    unfold slice. rewrite drop_0, Z.sub_0_r, He.
    replace (rmFlatStart rm + L - rmFlatStart rm) with L by lia. now symmetry.
  - intros rm Hin L. apply Hfs, filter_In in Hin as [Hin Hth]. apply Z.leb_le in Hth.
    apply lengthMatches_In in Hin as (Hk & Hs & Hl & He & Hv). fold L in Hth, Hl, He, Hv.
    set (v := getZ (computeSuffixMatches P T) (rmFlatStart rm)) in *.
    destruct (computeSuffixMatches_entry P T (rmFlatStart rm) v eq_refl ltac:(lia))
      as (E1 & E2 & E3 & E4 & E5).
    assert (Hc : v = L) by lia. rewrite Hc in E2, E3, E4, E5.
    split; [exact Hk |]. split; [lia |]. split; [exact He |]. split; [lia |].
    split; [lia |]. rewrite He. split; [exact E4 |].
    unfold slice. now rewrite drop_0, Z.sub_0_r.
  - intros i Hi Hth. unfold sliceFrom in *. rewrite Hfp. apply filter_In.
    destruct (commonPrefixLen_spec P (drop (Z.to_nat i) T)) as (C1 & _). cbv zeta in C1.
    set (c := commonPrefixLen P (drop (Z.to_nat i) T)) in *.
    split; [| cbn [matchedLen]; apply Z.leb_le; exact Hth].
    unfold lengthMatches. apply in_flat_map. exists i.
    split; [apply list_elem_of_In, elem_of_seqZ; lia |]. cbv zeta.
    rewrite (computePrefixMatches_get P T i Hi). fold c.
    replace (Z.min c (len P)) with c by lia.
    destruct (Z.ltb_spec 0 c); [now left | lia].
Qed.
(** ** The size of the suffix automaton *)

Section AutomatonSize.

Import SuffixAutomaton.

Lemma walk_len (test : option Z -> bool) (c : char) (target : Z) (fuel : nat) :
  forall ns p, len (fst (walk fuel test c target ns p)) = len ns.
Proof.
  induction fuel as [| fuel IH]; intros ns p; cbn [walk]; [reflexivity |].
  destruct (negb (p =? -1) && test (next (node ns p) !! c)); [| reflexivity].
  now rewrite IH, len_update.
Qed.

Lemma walk_nlen (test : option Z -> bool) (c : char) (target : Z) (fuel : nat) :
  forall ns p v, nlen (node (fst (walk fuel test c target ns p)) v) = nlen (node ns v).
Proof.
  induction fuel as [| fuel IH]; intros ns p v; cbn [walk]; [reflexivity |].
  destruct (negb (p =? -1) && test (next (node ns p) !! c)); [| reflexivity].
  rewrite IH. now apply (node_update_proj nlen).
Qed.

(** One more scalar: one or two more states, the new [last] is the first of
    them, and its [len] is one more than that of the old [last]. *)
Lemma addChar_shape (c : char) (sam : t) :
  let sam' := addChar c sam in
  let n := len (nodes sam) in
  n + 1 <= len (nodes sam') <= n + 2
  /\ last sam' = n
  /\ nlen (node (nodes sam') n) = nlen (node (nodes sam) (last sam)) + 1.
Proof.
  destruct sam as [ns l]. cbn [nodes last]. unfold addChar. cbn [nodes last].
  set (curNode := mkNode ∅ (-1) (nlen (node ns l) + 1) (nlen (node ns l) + 1 - 1)
                    (Fin (nlen (node ns l) + 1 - 1)) (Fin (nlen (node ns l) + 1 - 1))).
  set (ns0 := ns ++ [curNode]).
  assert (L0 : len ns0 = len ns + 1) by (unfold ns0; now rewrite len_app).
  assert (N0 : nlen (node ns0 (len ns)) = nlen (node ns l) + 1).
  { unfold ns0. now rewrite node_app_new. }
  rewrite extendLoop_walk.
  pose proof (walk_len (fun o => negb (bool_decide (is_Some o))) c (len ns) (length ns0)
                ns0 l) as L1.
  pose proof (walk_nlen (fun o => negb (bool_decide (is_Some o))) c (len ns) (length ns0)
                ns0 l (len ns)) as N1.
  destruct (walk (length ns0) _ c (len ns) ns0 l) as [ns1 p]. cbn [fst] in L1, N1.
  cbn [nodes last].
  pose proof (len_nonneg ns) as Hn.
  destruct (p =? -1).
  { rewrite len_update, (node_update_proj nlen) by reflexivity. repeat split; lia. }
  destruct (nlen (node ns1 p) + 1 =? nlen (node ns1 (getNext ns1 p c))).
  { rewrite len_update, (node_update_proj nlen) by reflexivity. repeat split; lia. }
  set (cloneNode := mkNode _ _ _ _ _ _).
  rewrite redirectLoop_walk.
  pose proof (walk_len (fun o => bool_decide (o = Some (getNext ns1 p c))) c (len ns1)
                (length (ns1 ++ [cloneNode])) (ns1 ++ [cloneNode]) p) as L3.
  pose proof (walk_nlen (fun o => bool_decide (o = Some (getNext ns1 p c))) c (len ns1)
                (length (ns1 ++ [cloneNode])) (ns1 ++ [cloneNode]) p (len ns)) as N3.
  destruct (walk (length (ns1 ++ [cloneNode])) _ c (len ns1) (ns1 ++ [cloneNode]) p)
    as [ns3 p3].
  cbn [fst] in L3, N3. cbn [nodes last].
  rewrite !len_update, !(node_update_proj nlen) by reflexivity.
  rewrite len_app in L3. rewrite node_app_old in N3 by lia.
  unfold len in *. cbn [length] in L3.
  repeat split; lia.
Qed.

Lemma construct_shape (s : text) :
  let sam := construct s in
  len s + 1 <= len (nodes sam) <= 2 * len s + 1
  /\ nlen (node (nodes sam) (last sam)) = len s.
Proof.
  unfold construct. induction s as [| c s IH] using rev_ind.
  - cbn [fold_left nodes last]. split; [unfold len; cbn [length]; lia | reflexivity].
  - rewrite fold_left_app. cbn [fold_left]. cbv zeta in IH.
    set (sam := fold_left (fun sam ch => addChar ch sam) s (mkSam [newNode 0] 0)) in *.
    destruct (addChar_shape c sam) as (H1 & H2 & H3). cbv zeta in H1, H2, H3.
    rewrite H2, H3, len_app. unfold len in *. cbn [length]. lia.
Qed.

End AutomatonSize.

(** X26. The automaton built for a text of [n] scalars has between [n + 1]
    and [2 n + 1] states. Its root has no link and [len] 0; its [last] state
    has [len] [n], and no state has more; the link of every other state
    leads to a state of smaller [len], and every transition to a state other
    than the root, of greater [len]. *)
Theorem suffix_automaton_has_linear_size (s : text) :
  let sam := SuffixAutomaton.build s in
  let ns := SuffixAutomaton.nodes sam in
  let nlen v := SuffixAutomaton.nlen (SuffixAutomaton.node ns v) in
  let link v := SuffixAutomaton.link (SuffixAutomaton.node ns v) in
  len s + 1 <= len ns <= 2 * len s + 1
  /\ 0 <= SuffixAutomaton.last sam < len ns
  /\ nlen (SuffixAutomaton.last sam) = len s
  /\ link 0 = -1 /\ nlen 0 = 0
  /\ (forall v, 0 < v < len ns ->
        0 <= link v < len ns /\ 0 <= nlen (link v) < nlen v /\ nlen v <= len s)
  /\ (forall p c q,
        0 <= p < len ns ->
        SuffixAutomaton.next (SuffixAutomaton.node ns p) !! c = Some q ->
        0 < q < len ns /\ nlen p < nlen q).
Proof.
  intros sam ns nlen link.
  pose proof (build_inv s) as Hinv. fold sam in Hinv. fold ns in Hinv.
  destruct (construct_shape s) as [Hsize Hlast]. cbv zeta in Hsize, Hlast.
  assert (Hlen : len ns = len (SuffixAutomaton.nodes (SuffixAutomaton.construct s))).
  { unfold ns, sam, SuffixAutomaton.build. cbn [SuffixAutomaton.nodes].
    unfold SuffixAutomaton.propagate. now rewrite fold_propagateStep_len. }
  assert (Hn : forall v, nlen v
                         = SuffixAutomaton.nlen
                             (SuffixAutomaton.node
                                (SuffixAutomaton.nodes (SuffixAutomaton.construct s)) v)).
  { intros v. unfold nlen, ns, sam, SuffixAutomaton.build. cbn [SuffixAutomaton.nodes].
    unfold SuffixAutomaton.propagate.
    now rewrite (fold_propagateStep_proj SuffixAutomaton.nlen). }
  assert (Hl : nlen (SuffixAutomaton.last sam) = len s).
  { rewrite Hn. exact Hlast. }
  split; [lia |]. split; [apply (inv_last _ _ Hinv) |]. split; [exact Hl |].
  split; [apply (inv_root_link _ _ Hinv) |]. split; [apply (inv_root_len _ _ Hinv) |].
  split.
  - intros v Hv. destruct (inv_link _ _ Hinv v Hv) as [H1 H2].
    pose proof (inv_len_nonneg _ _ Hinv _ H1) as H3.
    pose proof (inv_len_last _ _ Hinv v ltac:(cbn [view gsize]; lia)) as H4.
    cbn [view gsize glink glen] in H1, H2, H3, H4. fold (nlen (SuffixAutomaton.last sam)) in H4.
    unfold link, nlen in *. split; [exact H1 | lia].
  - intros p c q Hp Hq. destruct (inv_tr _ _ Hinv p c q Hp Hq) as [H1 H2].
    cbn [view gsize glen] in H1, H2. unfold nlen. split; [exact H1 | lia].
Qed.
(** ** Words and runs *)

Lemma spell_app (g : graph) (v : Z) (u w : text) :
  spell g v (u ++ w) = match spell g v u with Some q => spell g q w | None => None end.
Proof.
  revert v. induction u as [| d u IH]; intros v; cbn [spell app]; [reflexivity |].
  destruct (gtr g v d); [apply IH | reflexivity].
Qed.

Lemma spell_snoc (g : graph) (v : Z) (u : text) (d : char) :
  spell g v (u ++ [d]) = match spell g v u with Some q => gtr g q d | None => None end.
Proof.
  rewrite spell_app. destruct (spell g v u) as [q |]; [| reflexivity].
  cbn [spell]. now destruct (gtr g q d).
Qed.

Lemma spell_snoc_Some (g : graph) (v : Z) (u : text) (d : char) (t : Z) :
  spell g v (u ++ [d]) = Some t -> exists q, spell g v u = Some q /\ gtr g q d = Some t.
Proof. rewrite spell_snoc. destruct (spell g v u) as [q |]; [eauto | discriminate]. Qed.

Lemma spell_prefix_Some (g : graph) (v : Z) (u w : text) :
  is_Some (spell g v (u ++ w)) -> is_Some (spell g v u).
Proof. rewrite spell_app. destruct (spell g v u); [eauto | intros [? ?]; discriminate]. Qed.

Lemma len_snoc {A} (u : list A) (d : A) : len (u ++ [d]) = len u + 1.
Proof. unfold len. rewrite length_app. cbn [length]. lia. Qed.

Lemma suffix_len (a b : text) : a `suffix_of` b -> len a <= len b.
Proof. intros H. apply suffix_length in H. unfold len. lia. Qed.

Lemma suffix_shorter (a b l : text) :
  a `suffix_of` l -> b `suffix_of` l -> len a <= len b -> a `suffix_of` b.
Proof.
  intros Ha Hb Hl. destruct (suffix_weak_total a b l Ha Hb) as [H | H]; [exact H |].
  rewrite (suffix_length_eq b a H); [reflexivity |]. unfold len in Hl. lia.
Qed.

Lemma suffix_same_len (a b : text) : a `suffix_of` b -> len b <= len a -> a = b.
Proof. intros H Hl. apply suffix_length_eq; [exact H |]. unfold len in Hl. lia. Qed.

Lemma suffix_snoc_cases (w s : text) (c : char) :
  w `suffix_of` (s ++ [c]) -> w = [] \/ exists u, w = u ++ [c] /\ u `suffix_of` s.
Proof.
  destruct w as [| x w] using rev_ind; [now left |].
  intros H. right. clear IHw.
  pose proof (suffix_snoc_inv_1 _ _ _ _ H) as ->.
  exists w. split; [reflexivity |]. exact (suffix_snoc_inv_2 _ _ _ _ H).
Qed.

Lemma suffix_trans (a b d : text) : a `suffix_of` b -> b `suffix_of` d -> a `suffix_of` d.
Proof. intros [k ->] [k' ->]. exists (k' ++ k). now rewrite app_assoc. Qed.

Lemma occursIn_refl (s : text) : occursIn s s.
Proof. exists [], []. now rewrite app_nil_r. Qed.

Lemma occursIn_suffix (w l s : text) : w `suffix_of` l -> occursIn l s -> occursIn w s.
Proof. intros [k ->] (a & b & ->). exists (a ++ k), b. now rewrite <- !app_assoc. Qed.

Lemma occursIn_prefix (u k s : text) : occursIn (u ++ k) s -> occursIn u s.
Proof. intros (a & b & ->). exists a, (k ++ b). now rewrite <- app_assoc. Qed.

Lemma occursIn_app_r (w s k : text) : occursIn w s -> occursIn w (s ++ k).
Proof. intros (a & b & ->). exists a, (b ++ k). now rewrite <- !app_assoc. Qed.

Lemma occursIn_suffix_of (w s : text) : w `suffix_of` s -> occursIn w s.
Proof. intros H. exact (occursIn_suffix w s s H (occursIn_refl s)). Qed.

Lemma occursIn_snoc (w s : text) (c : char) :
  occursIn w (s ++ [c]) -> occursIn w s \/ w `suffix_of` (s ++ [c]).
Proof.
  intros (a & b & E). destruct b as [| x b] using rev_ind.
  - right. rewrite app_nil_r in E. exists a. exact E.
  - left. clear IHb. rewrite !app_assoc in E. apply app_inj_tail in E as [E _].
    exists a, b. now rewrite app_assoc.
Qed.

Lemma occursIn_nil (s : text) : occursIn [] s.
Proof. exists [], s. reflexivity. Qed.

Lemma take_snoc_old (s : text) (c : char) (e : Z) :
  e < len s -> take (Z.to_nat (e + 1)) (s ++ [c]) = take (Z.to_nat (e + 1)) s.
Proof. intros H. apply take_app_le. unfold len in H. lia. Qed.

Lemma endsAt_snoc (w s : text) (c : char) (e : Z) : endsAt w s e -> endsAt w (s ++ [c]) e.
Proof.
  intros [He Hs]. split; [rewrite len_snoc; lia |]. now rewrite take_snoc_old by lia.
Qed.

Lemma endsAt_last (s : text) (c : char) : endsAt (s ++ [c]) (s ++ [c]) (len s).
Proof.
  split; [rewrite len_snoc; unfold len; lia |].
  rewrite take_ge; [reflexivity |]. rewrite length_app. unfold len. cbn [length]. lia.
Qed.

Lemma endsAt_suffix (w w' s : text) (e : Z) : w `suffix_of` w' -> endsAt w' s e -> endsAt w s e.
Proof. intros Hw [He Hs]. split; [exact He |]. now apply (suffix_trans _ w'). Qed.

(** ** Consequences of the meaning of the automaton *)

Section SemPaths.

Variables (g : graph) (last : Z) (s : text) (L : Z -> text).
Hypothesis Hinv : Inv g last.
Hypothesis Hsem : Sem g last s L.

Lemma root_valid : 0 <= 0 < gsize g.
Proof. pose proof (inv_size g last Hinv). lia. Qed.

Lemma spell_valid (w : text) : forall v t,
  0 <= v < gsize g -> spell g v w = Some t -> 0 <= t < gsize g.
Proof.
  induction w as [| d w IH]; intros v t Hv H; cbn [spell] in H.
  - now inversion H; subst.
  - destruct (gtr g v d) as [q |] eqn:Hq; [| discriminate].
    destruct (inv_tr g last Hinv v d q Hv Hq) as [Hqv _].
    apply (IH q); [lia | exact H].
Qed.

Lemma lo_lt (v : Z) : 0 <= v < gsize g -> lo g v < glen g v.
Proof.
  intros Hv. unfold lo. destruct (Z.eqb_spec v 0) as [-> | H0].
  - rewrite (inv_root_len g last Hinv). lia.
  - destruct (inv_link g last Hinv v ltac:(lia)). lia.
Qed.

Lemma lo_link (v : Z) : v <> 0 -> lo g v = glen g (glink g v).
Proof. intros H. unfold lo. now destruct (Z.eqb_spec v 0). Qed.

Lemma lo_nonneg (v : Z) : 0 < v < gsize g -> 0 <= lo g v.
Proof.
  intros Hv. rewrite lo_link by lia. destruct (inv_link g last Hinv v Hv) as [Hl _].
  now apply (inv_len_nonneg g last Hinv).
Qed.

Lemma L_runs (v : Z) : 0 <= v < gsize g -> spell g 0 (L v) = Some v.
Proof.
  intros Hv. apply (sem_reach g last s L Hsem); [exact Hv | exists []; reflexivity |].
  rewrite (sem_len g last s L Hsem) by exact Hv. now apply lo_lt.
Qed.

Lemma spell_len (w : text) (v : Z) : spell g 0 w = Some v -> lo g v < len w <= glen g v.
Proof.
  intros H. pose proof (spell_valid w 0 v root_valid H) as Hv.
  destruct (sem_sound g last s L Hsem w v H) as [Hs Hl].
  apply suffix_len in Hs. rewrite (sem_len g last s L Hsem) in Hs by exact Hv. lia.
Qed.

Lemma spell_occ (w : text) (v : Z) : spell g 0 w = Some v -> occursIn w s.
Proof.
  intros H. pose proof (spell_valid w 0 v root_valid H) as Hv.
  destruct (sem_sound g last s L Hsem w v H) as [Hs _].
  exact (occursIn_suffix w (L v) s Hs (sem_occ g last s L Hsem v Hv)).
Qed.

Lemma chain_suffix (a b : Z) : anc g a b -> 0 <= a < gsize g -> (L b) `suffix_of` (L a).
Proof.
  induction 1 as [v | v w Hv H IH]; intros Ha; [exists []; reflexivity |].
  destruct (inv_link g last Hinv v Hv) as [Hl _].
  apply (suffix_trans _ (L (glink g v))); [now apply IH |].
  now apply (sem_link g last s L Hsem).
Qed.

Lemma last_suffix (b : Z) : anc g last b -> (L b) `suffix_of` s.
Proof.
  intros H. rewrite <- (sem_last g last s L Hsem).
  apply chain_suffix; [exact H | apply (inv_last g last Hinv)].
Qed.

(** Every suffix of a word of [a] is a word of a state on the suffix-link
    path of [a]. *)
Lemma cover (u : text) : forall (k : nat) (a : Z),
  glen g a <= Z.of_nat k -> 0 <= a < gsize g -> u `suffix_of` (L a) ->
  exists y, anc g a y /\ spell g 0 u = Some y.
Proof.
  induction k as [| k IH]; intros a Hk Ha Hu.
  - exists a. split; [apply anc_refl |].
    apply (sem_reach g last s L Hsem); [exact Ha | exact Hu |].
    pose proof (lo_lt a Ha) as Hlt. pose proof (inv_len_nonneg g last Hinv a Ha) as Hnn.
    destruct (Z.eq_dec a 0) as [-> | Hne].
    + unfold lo. cbn. unfold len. lia.
    + pose proof (lo_nonneg a ltac:(lia)). lia.
  - destruct (Z_lt_le_dec (lo g a) (len u)) as [Hlt | Hge].
    + exists a. split; [apply anc_refl |].
      now apply (sem_reach g last s L Hsem).
    + assert (Hne : a <> 0).
      { intros ->. unfold lo in Hge. cbn in Hge. unfold len in Hge. lia. }
      destruct (inv_link g last Hinv a ltac:(lia)) as [Hl Hll].
      rewrite lo_link in Hge by exact Hne.
      destruct (IH (glink g a) ltac:(lia) Hl) as (y & Hy & Hr).
      * apply (suffix_shorter u _ (L a)); [exact Hu | |].
        -- apply (sem_link g last s L Hsem). lia.
        -- rewrite (sem_len g last s L Hsem) by exact Hl. exact Hge.
      * exists y. split; [| exact Hr]. apply anc_step; [lia | exact Hy].
Qed.

Lemma cover_last (u : text) :
  u `suffix_of` s -> exists y, anc g last y /\ spell g 0 u = Some y.
Proof.
  intros Hu. pose proof (inv_last g last Hinv) as Hl.
  pose proof (inv_len_nonneg g last Hinv last Hl) as H0.
  apply (cover u (Z.to_nat (glen g last)) last); [lia | exact Hl |].
  now rewrite (sem_last g last s L Hsem).
Qed.

Lemma cover_run (u w : text) (v : Z) :
  spell g 0 w = Some v -> u `suffix_of` w -> exists y, anc g v y /\ spell g 0 u = Some y.
Proof.
  intros Hw Hu. pose proof (spell_valid w 0 v root_valid Hw) as Hv.
  pose proof (inv_len_nonneg g last Hinv v Hv) as H0.
  apply (cover u (Z.to_nat (glen g v)) v); [lia | exact Hv |].
  apply (suffix_trans _ w); [exact Hu |].
  now destruct (sem_sound g last s L Hsem w v Hw).
Qed.

End SemPaths.
(** ** The meaning of the automaton after a step without a clone *)

Section StepNoCloneSem.

Variables (g g' : graph) (last : Z) (c : char) (p' lcur : Z) (xs : list Z).
Variables (s : text) (L : Z -> text).
Variables (pay pay' : Z -> Z * SuffixAutomaton.xnum * SuffixAutomaton.xnum).
Let n := gsize g.

Hypothesis Hinv : Inv g last.
Hypothesis Hsem : Sem g last s L.
Hypothesis Hxs : forall x, In x xs <-> segment g last p' x.
Hypothesis Hnone : forall x, In x xs -> gtr g x c = None.
Hypothesis Hstop :
  (p' = -1 /\ lcur = 0)
  \/ (0 <= p' < n /\ anc g last p' /\ gtr g p' c = Some lcur
      /\ glen g p' + 1 = glen g lcur).
Hypothesis Hsize' : gsize g' = n + 1.
Hypothesis Hlink' : forall v, 0 <= v < n -> glink g' v = glink g v.
Hypothesis Hlink_cur : glink g' n = lcur.
Hypothesis Hlen' : forall v, 0 <= v < n -> glen g' v = glen g v.
Hypothesis Hlen_cur : glen g' n = glen g last + 1.
Hypothesis Htr_cur : forall d, gtr g' n d = None.
Hypothesis Htr_X : forall x, In x xs -> gtr g' x c = Some n.
Hypothesis Htr_old :
  forall v d, 0 <= v < n -> ~ (d = c /\ In v xs) -> gtr g' v d = gtr g v d.

Hypothesis Hends : Ends n pay s L.
Hypothesis Hpay_old : forall v, 0 <= v < n -> pay' v = pay v.
Hypothesis Hpay_cur :
  pay' n = (glen g last, SuffixAutomaton.Fin (glen g last), SuffixAutomaton.Fin (glen g last)).

Local Lemma ncs_n_pos : 1 <= n.
Proof. apply (inv_size g last Hinv). Qed.

Local Lemma ncs_old (w : text) : forall v, spell g 0 w = Some v -> spell g' 0 w = Some v.
Proof.
  induction w as [| d w IH] using rev_ind; intros v H; [exact H |].
  apply spell_snoc_Some in H as (q & Hq & Ht).
  rewrite spell_snoc, (IH q Hq).
  rewrite Htr_old; [exact Ht | |].
  - exact (spell_valid g last Hinv w 0 q (root_valid g last Hinv) Hq).
  - intros [-> Hin]. rewrite (Hnone q Hin) in Ht. discriminate.
Qed.

Local Lemma ncs_new (u : text) (x : Z) :
  spell g 0 u = Some x -> In x xs -> spell g' 0 (u ++ [c]) = Some n.
Proof. intros Hu Hx. rewrite spell_snoc, (ncs_old u x Hu). now apply Htr_X. Qed.

Local Lemma ncs_cases (w : text) : forall v,
  spell g' 0 w = Some v ->
  (spell g 0 w = Some v /\ 0 <= v < n)
  \/ (v = n /\ exists u x, w = u ++ [c] /\ spell g 0 u = Some x /\ In x xs).
Proof.
  induction w as [| d w IH] using rev_ind; intros v H.
  { left. split; [exact H |]. cbn in H. inversion H; subst. pose proof ncs_n_pos. lia. }
  apply spell_snoc_Some in H as (q & Hq & Ht).
  destruct (IH q Hq) as [[Hold Hqv] | [-> _]].
  2:{ rewrite Htr_cur in Ht. discriminate. }
  destruct (N.eq_dec d c) as [-> | Hd].
  - destruct (in_dec Z.eq_dec q xs) as [Hin | Hin].
    + right. rewrite (Htr_X q Hin) in Ht. inversion Ht; subst v.
      split; [reflexivity |]. now exists w, q.
    + left. rewrite Htr_old in Ht by tauto.
      split; [rewrite spell_snoc, Hold; exact Ht |].
      destruct (inv_tr g last Hinv q c v Hqv Ht) as [Hv _]. fold n in Hv. lia.
  - left. rewrite Htr_old in Ht by tauto.
    split; [rewrite spell_snoc, Hold; exact Ht |].
    destruct (inv_tr g last Hinv q d v Hqv Ht) as [Hv _]. fold n in Hv. lia.
Qed.

Local Lemma ncs_lo_old (v : Z) : 0 <= v < n -> lo g' v = lo g v.
Proof.
  intros Hv. unfold lo. destruct (Z.eqb_spec v 0) as [_ | H0]; [reflexivity |].
  rewrite Hlink' by exact Hv. apply Hlen'.
  destruct (inv_link g last Hinv v ltac:(fold n; lia)) as [Hl _]. exact Hl.
Qed.

Local Lemma ncs_xs (x : Z) :
  In x xs -> 0 <= x < n /\ anc g last x /\ (p' = -1 \/ glen g p' <= lo g x).
Proof.
  intros Hx. apply Hxs in Hx as Hseg. destruct Hseg as [Ha Hb].
  pose proof (anc_valid g last Hinv last x (inv_last g last Hinv) Ha) as Hv.
  split; [exact Hv |]. split; [exact Ha |].
  destruct Hb as [-> | [Hb Hne]]; [now left | right].
  destruct (anc_strict g x p' Hb Hne) as [Hx0 Hb'].
  rewrite (lo_link g x) by lia. now apply (anc_len g last Hinv).
Qed.

Local Lemma ncs_in_xs (y : Z) :
  anc g last y -> (p' = -1 \/ (anc g last p' /\ glen g p' < glen g y)) -> In y xs.
Proof.
  intros Ha Hp. apply Hxs. split; [exact Ha |].
  destruct Hp as [-> | [Hap Hlt]]; [now left | right].
  destruct (anc_linear g last y p' Ha Hap) as [H | H].
  - split; [exact H | intros ->; lia].
  - apply (anc_len g last Hinv) in H. lia.
Qed.

Local Lemma ncs_lcur :
  0 <= lcur < n
  /\ ((p' = -1 /\ glen g lcur = 0)
      \/ (0 <= p' < n /\ anc g last p' /\ glen g lcur = glen g p' + 1
          /\ L lcur = L p' ++ [c])).
Proof.
  pose proof ncs_n_pos as Hn.
  destruct Hstop as [[-> ->] | (Hp & Ha & Ht & Hl)].
  - split; [lia | left]. split; [reflexivity | apply (inv_root_len g last Hinv)].
  - destruct (inv_tr g last Hinv p' c lcur Hp Ht) as [Hq _]. fold n in Hq.
    split; [lia | right]. split; [exact Hp |]. split; [exact Ha |]. split; [lia |].
    pose proof (L_runs g last s L Hinv Hsem p' Hp) as Hr.
    assert (Hr' : spell g 0 (L p' ++ [c]) = Some lcur) by now rewrite spell_snoc, Hr.
    destruct (sem_sound g last s L Hsem _ _ Hr') as [Hs _].
    symmetry. apply suffix_same_len; [exact Hs |].
    rewrite len_snoc, !(sem_len g last s L Hsem) by (fold n; lia). lia.
Qed.

Lemma step_noclone_sem :
  Sem g' n (s ++ [c]) (fun v => if v =? gsize g then s ++ [c] else L v).
Proof.
  pose proof ncs_n_pos as Hn.
  pose proof (inv_last g last Hinv) as Hlast. fold n in Hlast.
  destruct ncs_lcur as [Hlc Hlcur].
  set (L' := fun v => if v =? gsize g then s ++ [c] else L v).
  assert (HL'old : forall v, 0 <= v < n -> L' v = L v).
  { intros v Hv. unfold L'. fold n. destruct (Z.eqb_spec v n); [lia | reflexivity]. }
  assert (HL'n : L' n = s ++ [c]).
  { unfold L', n. now rewrite Z.eqb_refl. }
  assert (Hlo_cur : lo g' n = glen g lcur).
  { unfold lo. destruct (Z.eqb_spec n 0) as [E | _]; [lia |].
    rewrite Hlink_cur. now apply Hlen'. }
  assert (Hlens : len s = glen g last).
  { rewrite <- (sem_last g last s L Hsem). apply (sem_len g last s L Hsem). exact Hlast. }
  constructor.
  - (* sem_len *)
    intros v Hv. rewrite Hsize' in Hv.
    destruct (Z.eq_dec v n) as [-> | Hne].
    + rewrite HL'n, len_snoc, Hlen_cur. lia.
    + rewrite HL'old, Hlen' by lia. apply (sem_len g last s L Hsem). fold n. lia.
  - (* sem_sound *)
    intros w v H. destruct (ncs_cases w v H) as [[Hold Hv] | (-> & u & x & -> & Hu & Hx)].
    + rewrite HL'old, ncs_lo_old by exact Hv. now apply (sem_sound g last s L Hsem).
    + rewrite HL'n, Hlo_cur, len_snoc.
      destruct (ncs_xs x Hx) as (Hxv & Hax & Hpx).
      destruct (sem_sound g last s L Hsem u x Hu) as [Hs Hl].
      split.
      * apply suffix_app. apply (suffix_trans _ (L x)); [exact Hs |].
        now apply (last_suffix g last s L Hinv Hsem).
      * destruct Hlcur as [[E1 E2] | (Hp & _ & E & _)].
        -- rewrite E2. unfold len. lia.
        -- destruct Hpx as [-> | Hpx]; lia.
  - (* sem_reach *)
    intros w v Hv Hs Hl. rewrite Hsize' in Hv.
    destruct (Z.eq_dec v n) as [-> | Hne].
    + rewrite HL'n in Hs. rewrite Hlo_cur in Hl.
      pose proof (inv_len_nonneg g last Hinv lcur Hlc) as Hl0.
      destruct (suffix_snoc_cases w s c Hs) as [-> | (u & -> & Hu)].
      { unfold len in Hl. cbn in Hl. lia. }
      rewrite len_snoc in Hl.
      destruct (cover_last g last s L Hinv Hsem u Hu) as (y & Hy & Hr).
      apply (ncs_new u y Hr). apply ncs_in_xs; [exact Hy |].
      pose proof (spell_len g last s L Hinv Hsem u y Hr) as Hlen.
      destruct Hlcur as [[E1 E2] | (_ & Hap & E & _)]; [now left | right].
      split; [exact Hap | lia].
    + rewrite HL'old in Hs by lia. rewrite ncs_lo_old in Hl by lia.
      apply ncs_old. apply (sem_reach g last s L Hsem); [fold n; lia | exact Hs | exact Hl].
  - (* sem_link *)
    intros v Hv. rewrite Hsize' in Hv.
    destruct (Z.eq_dec v n) as [-> | Hne].
    + rewrite Hlink_cur, HL'n, HL'old by exact Hlc.
      destruct Hlcur as [[E1 E2] | (Hp & Hap & _ & E)].
      * assert (E0 : L lcur = []).
        { pose proof (sem_len g last s L Hsem lcur Hlc) as E. rewrite E2 in E.
          unfold len in E. destruct (L lcur); [reflexivity | cbn in E; lia]. }
        rewrite E0. apply suffix_nil.
      * rewrite E. apply suffix_app. now apply (last_suffix g last s L Hinv Hsem).
    + destruct (inv_link g last Hinv v ltac:(fold n; lia)) as [Hl _]. fold n in Hl.
      rewrite Hlink', !HL'old by lia. apply (sem_link g last s L Hsem). fold n. lia.
  - (* sem_last *)
    exact HL'n.
  - (* sem_occ *)
    intros v Hv. rewrite Hsize' in Hv.
    destruct (Z.eq_dec v n) as [-> | Hne].
    + rewrite HL'n. apply occursIn_refl.
    + rewrite HL'old by lia. apply occursIn_app_r.
      apply (sem_occ g last s L Hsem). fold n. lia.
  - (* sem_total *)
    intros w Hw. destruct (occursIn_snoc w s c Hw) as [Ho | Hs].
    { destruct (sem_total g last s L Hsem w Ho) as [v Hv]. exists v. now apply ncs_old. }
    destruct (suffix_snoc_cases w s c Hs) as [-> | (u & -> & Hu)].
    { now exists 0. }
    destruct (cover_last g last s L Hinv Hsem u Hu) as (y & Hy & Hr).
    destruct (in_dec Z.eq_dec y xs) as [Hin | Hnin].
    { exists n. now apply (ncs_new u y). }
    pose proof (spell_valid g last Hinv u 0 y (root_valid g last Hinv) Hr) as Hyv.
    destruct Hlcur as [[E1 E2] | (Hp & Hap & _ & E)].
    { exfalso. apply Hnin. apply ncs_in_xs; [exact Hy | now left]. }
    assert (Hpy : anc g p' y).
    { destruct (anc_linear g last y p' Hy Hap) as [H | H]; [| exact H].
      destruct (Z.eq_dec y p') as [-> | Hne]; [apply anc_refl |].
      exfalso. apply Hnin. apply Hxs. split; [exact Hy | right; now split]. }
    assert (Ho : occursIn (u ++ [c]) s).
    { apply (occursIn_suffix _ (L lcur)); [| now apply (sem_occ g last s L Hsem)].
      rewrite E. apply suffix_app.
      apply (suffix_trans _ (L y)).
      - now destruct (sem_sound g last s L Hsem u y Hr).
      - now apply (chain_suffix g last s L Hinv Hsem). }
    destruct (sem_total g last s L Hsem _ Ho) as [v Hv]. exists v. now apply ncs_old.
Qed.

Lemma step_noclone_ends :
  Ends (n + 1) pay' (s ++ [c]) (fun v => if v =? gsize g then s ++ [c] else L v).
Proof.
  pose proof ncs_n_pos as Hn.
  pose proof (inv_last g last Hinv) as Hlast. fold n in Hlast.
  assert (Hlens : len s = glen g last).
  { rewrite <- (sem_last g last s L Hsem). apply (sem_len g last s L Hsem). exact Hlast. }
  constructor.
  - intros v Hv. fold n. destruct (Z.eqb_spec v n) as [-> | Hne].
    + exists (glen g last). split; [exact Hpay_cur |]. rewrite <- Hlens. apply endsAt_last.
    + destruct (ends_init n pay s L Hends v ltac:(lia)) as (e & He & Hat).
      exists e. split; [rewrite Hpay_old by lia; exact He | now apply endsAt_snoc].
  - intros e He. rewrite len_snoc in He.
    destruct (Z.eq_dec e (len s)) as [-> | Hne].
    + exists n. split; [lia |]. fold n. rewrite Z.eqb_refl, Hpay_cur. cbn [fst].
      split; [| now symmetry].
      rewrite take_ge; [reflexivity |]. rewrite length_app. unfold len. cbn [length]. lia.
    + destruct (ends_prefix n pay s L Hends e ltac:(lia)) as (u & Hu & HL & Hf).
      exists u. split; [lia |]. fold n. destruct (Z.eqb_spec u n) as [E | _]; [lia |].
      rewrite Hpay_old by lia. split; [| exact Hf]. now rewrite take_snoc_old by lia.
Qed.

End StepNoCloneSem.
(** ** The meaning of the automaton after a step with a clone *)

Section StepCloneSem.

Variables (g g' : graph) (last : Z) (c : char) (p' q r' : Z) (xs rs : list Z).
Variables (s : text) (L : Z -> text).
Variables (pay pay' : Z -> Z * SuffixAutomaton.xnum * SuffixAutomaton.xnum).
Let n := gsize g.

Hypothesis Hinv : Inv g last.
Hypothesis Hsem : Sem g last s L.
Hypothesis Hxs : forall x, In x xs <-> segment g last p' x.
Hypothesis Hnone : forall x, In x xs -> gtr g x c = None.
Hypothesis Hp' : 0 <= p' < n.
Hypothesis Hap : anc g last p'.
Hypothesis Htp : gtr g p' c = Some q.
Hypothesis Hlenq : glen g p' + 1 <> glen g q.
Hypothesis Hrs : forall x, In x rs <-> segment g p' r' x.
Hypothesis HRq : forall x, In x rs -> gtr g x c = Some q.
Hypothesis Hr' : r' = -1 \/ (0 <= r' < n /\ anc g p' r' /\ gtr g r' c <> Some q).
Hypothesis Hsize' : gsize g' = n + 2.
Hypothesis Hlink_cur : glink g' n = n + 1.
Hypothesis Hlink_clone : glink g' (n + 1) = glink g q.
Hypothesis Hlink_q : glink g' q = n + 1.
Hypothesis Hlink' : forall v, 0 <= v < n -> v <> q -> glink g' v = glink g v.
Hypothesis Hlen' : forall v, 0 <= v < n -> glen g' v = glen g v.
Hypothesis Hlen_cur : glen g' n = glen g last + 1.
Hypothesis Hlen_clone : glen g' (n + 1) = glen g p' + 1.
Hypothesis Htr_cur : forall d, gtr g' n d = None.
Hypothesis Htr_X : forall x, In x xs -> gtr g' x c = Some n.
Hypothesis Htr_R : forall x, In x rs -> gtr g' x c = Some (n + 1).
Hypothesis Htr_old :
  forall v d, 0 <= v < n -> ~ (d = c /\ (In v xs \/ In v rs)) -> gtr g' v d = gtr g v d.
Hypothesis Htr_clone_X : In q xs -> gtr g' (n + 1) c = Some n.
Hypothesis Htr_clone_old :
  forall d, ~ (d = c /\ In q xs) -> gtr g' (n + 1) d = gtr g q d.

Hypothesis Hends : Ends n pay s L.
Hypothesis Hpay_old : forall v, 0 <= v < n -> pay' v = pay v.
Hypothesis Hpay_cur :
  pay' n = (glen g last, SuffixAutomaton.Fin (glen g last), SuffixAutomaton.Fin (glen g last)).
Hypothesis Hpay_clone :
  pay' (n + 1)
  = (fst (fst (pay q)), SuffixAutomaton.Fin (fst (fst (pay q))),
     SuffixAutomaton.Fin (fst (fst (pay q)))).

(** The state of [g'] that a word of the state [v] of [g] leads to: the
    short words of [q] have moved to the clone. *)
Let sel (v : Z) (w : text) : Z :=
  if (v =? q) && (len w <=? glen g p' + 1) then n + 1 else v.

Local Lemma cls_n_pos : 1 <= n.
Proof. apply (inv_size g last Hinv). Qed.

Local Lemma cls_q : 0 < q < n /\ glen g p' + 1 < glen g q.
Proof.
  destruct (inv_tr g last Hinv p' c q Hp' Htp) as [H1 H2]. fold n in H1. lia.
Qed.

Local Lemma cls_rs (x : Z) : In x rs -> 0 <= x < n /\ anc g p' x /\ glen g x <= glen g p'.
Proof.
  intros Hx. apply Hrs in Hx as [Ha _].
  split; [exact (anc_valid g last Hinv p' x Hp' Ha) |]. split; [exact Ha |].
  now apply (anc_len g last Hinv).
Qed.

Local Lemma cls_p'_rs : In p' rs.
Proof.
  apply Hrs. split; [apply anc_refl |].
  destruct Hr' as [-> | (_ & Ha & Hne)]; [now left | right].
  split; [exact Ha | intros <-; now apply Hne].
Qed.

Local Lemma cls_xs (x : Z) :
  In x xs -> 0 <= x < n /\ anc g last x /\ glen g p' <= lo g x.
Proof.
  intros Hx. apply Hxs in Hx as Hseg. destruct Hseg as [Ha Hb].
  pose proof (anc_valid g last Hinv last x (inv_last g last Hinv) Ha) as Hv.
  split; [exact Hv |]. split; [exact Ha |].
  destruct Hb as [-> | [Hb Hne]]; [lia |].
  destruct (anc_strict g x p' Hb Hne) as [Hx0 Hb'].
  rewrite (lo_link g x) by lia. now apply (anc_len g last Hinv).
Qed.

Local Lemma cls_in_xs (y : Z) : anc g last y -> glen g p' < glen g y -> In y xs.
Proof.
  intros Ha Hlt. apply Hxs. split; [exact Ha | right].
  destruct (anc_linear g last y p' Ha Hap) as [H | H].
  - split; [exact H | intros ->; lia].
  - apply (anc_len g last Hinv) in H. lia.
Qed.

(** A transition into [q] that the second loop leaves alone starts at a
    word longer than those of [p']. *)
Local Lemma cls_into_q (u : text) (v1 : Z) (d : char) :
  spell g 0 u = Some v1 -> gtr g v1 d = Some q -> ~ (d = c /\ In v1 rs) ->
  glen g p' < len u.
Proof.
  intros Hu Ht Hnr.
  pose proof (spell_valid g last Hinv u 0 v1 (root_valid g last Hinv) Hu) as Hv1.
  destruct (inv_F g last Hinv p' v1 c d q Hp' Hv1 Htp Ht) as [<- Hanc].
  assert (Hnin : ~ In v1 rs) by tauto.
  pose proof (spell_len g last s L Hinv Hsem u v1 Hu) as Hlen.
  destruct Hanc as [Hpv | Hvp].
  - exfalso.
    destruct Hr' as [-> | (Hr1 & Hr2 & Hr3)].
    { apply Hnin, Hrs. split; [exact Hpv | now left]. }
    destruct (anc_linear g p' v1 r' Hpv Hr2) as [H | H].
    + destruct (Z.eq_dec v1 r') as [-> | Hne]; [now apply Hr3 |].
      apply Hnin, Hrs. split; [exact Hpv | right; now split].
    + destruct (tr_along g last Hinv p' r' c q Hr2 Hp' Htp) as (y & Hy & Hqy).
      destruct (tr_along g last Hinv r' v1 c y H Hr1 Hy) as (z & Hz & Hyz).
      rewrite Ht in Hz. inversion Hz; subst z.
      apply Hr3. rewrite Hy. f_equal. symmetry.
      now apply (anc_antisym g last Hinv).
  - assert (Hne : v1 <> p') by (intros ->; apply Hnin, cls_p'_rs).
    destruct (anc_strict g v1 p' Hvp Hne) as [Hv0 Hb].
    apply (anc_len g last Hinv) in Hb. rewrite (lo_link g v1) in Hlen by lia. lia.
Qed.

Local Lemma cls_old (w : text) : forall v0,
  spell g 0 w = Some v0 -> spell g' 0 w = Some (sel v0 w).
Proof.
  destruct cls_q as [Hq Hql].
  induction w as [| d u IH] using rev_ind; intros v0 H.
  { cbn in H. inversion H; subst v0. cbn [spell]. f_equal. unfold sel.
    destruct (Z.eqb_spec 0 q); [lia | reflexivity]. }
  apply spell_snoc_Some in H as (v1 & Hu & Ht).
  pose proof (spell_valid g last Hinv u 0 v1 (root_valid g last Hinv) Hu) as Hv1.
  pose proof (spell_len g last s L Hinv Hsem u v1 Hu) as Hlen.
  destruct (inv_tr g last Hinv v1 d v0 Hv1 Ht) as [Hv0 Hv0l].
  rewrite spell_snoc, (IH v1 Hu). unfold sel at 1.
  destruct (Z.eqb_spec v1 q) as [-> | Hne1];
    [destruct (Z.leb_spec (len u) (glen g p' + 1)) as [Hsh | Hlg] |]; cbn [andb].
  - rewrite Htr_clone_old.
    + rewrite Ht. f_equal. unfold sel. destruct (Z.eqb_spec v0 q) as [E | _]; [subst v0; lia | reflexivity].
    + intros [-> Hin]. rewrite (Hnone q Hin) in Ht. discriminate.
  - rewrite Htr_old; [rewrite Ht; f_equal; unfold sel;
                      destruct (Z.eqb_spec v0 q) as [E | _]; [subst v0; lia | reflexivity] | exact Hv1 |].
    intros [-> [Hin | Hin]].
    + rewrite (Hnone q Hin) in Ht. discriminate.
    + apply cls_rs in Hin. lia.
  - destruct (N.eq_dec d c) as [-> | Hd].
    + destruct (in_dec Z.eq_dec v1 rs) as [Hin | Hnin].
      * rewrite (Htr_R v1 Hin). rewrite (HRq v1 Hin) in Ht. inversion Ht; subst v0.
        f_equal. unfold sel. rewrite Z.eqb_refl, len_snoc.
        destruct (cls_rs v1 Hin) as (_ & _ & Hle).
        destruct (Z.leb_spec (len u + 1) (glen g p' + 1)); [reflexivity | lia].
      * rewrite Htr_old; [| exact Hv1 |].
        2:{ intros [_ [Hin | Hin]]; [| tauto]. rewrite (Hnone v1 Hin) in Ht. discriminate. }
        rewrite Ht. f_equal. unfold sel.
        destruct (Z.eqb_spec v0 q) as [-> | _]; [| reflexivity].
        pose proof (cls_into_q u v1 c Hu Ht ltac:(tauto)) as Hgt.
        rewrite len_snoc.
        destruct (Z.leb_spec (len u + 1) (glen g p' + 1)); [lia | reflexivity].
    + rewrite Htr_old; [| exact Hv1 | tauto].
      rewrite Ht. f_equal. unfold sel.
      destruct (Z.eqb_spec v0 q) as [-> | _]; [| reflexivity].
      pose proof (cls_into_q u v1 d Hu Ht ltac:(tauto)) as Hgt.
      rewrite len_snoc.
      destruct (Z.leb_spec (len u + 1) (glen g p' + 1)); [lia | reflexivity].
Qed.

Local Lemma cls_new (u : text) (x : Z) :
  spell g 0 u = Some x -> In x xs -> spell g' 0 (u ++ [c]) = Some n.
Proof.
  intros Hu Hx. rewrite spell_snoc, (cls_old u x Hu). unfold sel.
  destruct ((x =? q) && (len u <=? glen g p' + 1)) eqn:E.
  - apply andb_prop in E as [E _]. apply Z.eqb_eq in E. subst x. now apply Htr_clone_X.
  - now apply Htr_X.
Qed.

Local Lemma cls_cases (w : text) : forall v,
  spell g' 0 w = Some v ->
  (exists v0, spell g 0 w = Some v0 /\ v = sel v0 w)
  \/ (v = n /\ exists u x, w = u ++ [c] /\ spell g 0 u = Some x /\ In x xs).
Proof.
  induction w as [| d u IH] using rev_ind; intros v H.
  { left. exists 0. split; [reflexivity |].
    pose proof (cls_old [] 0 eq_refl) as H'. rewrite H in H'. now inversion H'. }
  pose proof H as H0.
  apply spell_snoc_Some in H as (v1' & Hu' & Ht').
  destruct (IH v1' Hu') as [(v1 & Hu & ->) | [-> _]].
  2:{ rewrite Htr_cur in Ht'. discriminate. }
  pose proof (spell_valid g last Hinv u 0 v1 (root_valid g last Hinv) Hu) as Hv1.
  destruct (gtr g v1 d) as [v0 |] eqn:Ht.
  { left. exists v0. assert (Hw : spell g 0 (u ++ [d]) = Some v0) by now rewrite spell_snoc, Hu.
    split; [exact Hw |]. apply cls_old in Hw. rewrite H0 in Hw. now inversion Hw. }
  right. unfold sel in Ht'.
  destruct ((v1 =? q) && (len u <=? glen g p' + 1)) eqn:E.
  - apply andb_prop in E as [E _]. apply Z.eqb_eq in E. subst v1.
    destruct (N.eq_dec d c) as [-> | Hd].
    + destruct (in_dec Z.eq_dec q xs) as [Hin | Hnin].
      * rewrite (Htr_clone_X Hin) in Ht'. inversion Ht'; subst v.
        split; [reflexivity |]. now exists u, q.
      * rewrite Htr_clone_old in Ht' by tauto. congruence.
    + rewrite Htr_clone_old in Ht' by tauto. congruence.
  - destruct (N.eq_dec d c) as [-> | Hd].
    + destruct (in_dec Z.eq_dec v1 xs) as [Hin | Hnin].
      * rewrite (Htr_X v1 Hin) in Ht'. inversion Ht'; subst v.
        split; [reflexivity |]. now exists u, v1.
      * destruct (in_dec Z.eq_dec v1 rs) as [Hin2 | Hnin2].
        -- rewrite (HRq v1 Hin2) in Ht. discriminate.
        -- rewrite Htr_old in Ht' by tauto. congruence.
    + rewrite Htr_old in Ht' by tauto. congruence.
Qed.

Local Lemma cls_clone_word :
  L p' ++ [c] `suffix_of` L q /\ len (L p' ++ [c]) = glen g p' + 1.
Proof.
  pose proof (L_runs g last s L Hinv Hsem p' Hp') as Hr.
  assert (Hrq : spell g 0 (L p' ++ [c]) = Some q) by now rewrite spell_snoc, Hr.
  destruct (sem_sound g last s L Hsem _ _ Hrq) as [Hs _]. split; [exact Hs |].
  rewrite len_snoc, (sem_len g last s L Hsem) by exact Hp'. reflexivity.
Qed.

Local Lemma cls_lq : 0 <= glink g q < n /\ glen g (glink g q) <= glen g p'.
Proof.
  destruct cls_q as [Hq _].
  destruct (inv_link g last Hinv q ltac:(fold n; lia)) as [Hl _].
  split; [exact Hl |]. now apply (tr_link_len g last Hinv p' c q).
Qed.

Lemma step_clone_sem :
  Sem g' n (s ++ [c])
    (fun v => if v =? gsize g then s ++ [c]
              else if v =? gsize g + 1 then L p' ++ [c] else L v).
Proof.
  pose proof cls_n_pos as Hn.
  pose proof (inv_last g last Hinv) as Hlast. fold n in Hlast.
  destruct cls_q as [Hq Hql]. destruct cls_lq as [Hlq Hlql].
  destruct cls_clone_word as [Hcw Hcwl].
  set (L' := fun v => if v =? gsize g then s ++ [c]
                      else if v =? gsize g + 1 then L p' ++ [c] else L v).
  assert (HL'old : forall v, 0 <= v < n -> L' v = L v).
  { intros v Hv. unfold L'. fold n.
    destruct (Z.eqb_spec v n); [lia |]. destruct (Z.eqb_spec v (n + 1)); [lia | reflexivity]. }
  assert (HL'cur : L' n = s ++ [c]).
  { unfold L', n. now rewrite Z.eqb_refl. }
  assert (HL'clone : L' (n + 1) = L p' ++ [c]).
  { unfold L'. fold n. destruct (Z.eqb_spec (n + 1) n); [lia |]. now rewrite Z.eqb_refl. }
  assert (Hlo_cur : lo g' n = glen g p' + 1).
  { unfold lo. destruct (Z.eqb_spec n 0) as [E | _]; [lia |]. now rewrite Hlink_cur. }
  assert (Hlo_clone : lo g' (n + 1) = lo g q).
  { unfold lo. destruct (Z.eqb_spec (n + 1) 0) as [E | _]; [lia |].
    destruct (Z.eqb_spec q 0) as [E | _]; [lia |]. rewrite Hlink_clone. now apply Hlen'. }
  assert (Hlo_q : lo g' q = glen g p' + 1).
  { unfold lo. destruct (Z.eqb_spec q 0) as [E | _]; [lia |]. now rewrite Hlink_q. }
  assert (Hlo_old : forall v, 0 <= v < n -> v <> q -> lo g' v = lo g v).
  { intros v Hv Hvq. unfold lo. destruct (Z.eqb_spec v 0) as [_ | H0]; [reflexivity |].
    rewrite Hlink' by easy. apply Hlen'.
    destruct (inv_link g last Hinv v ltac:(fold n; lia)) as [Hl _]. exact Hl. }
  assert (Hloq : lo g q = glen g (glink g q)) by (apply lo_link; lia).
  assert (Hlens : len s = glen g last).
  { rewrite <- (sem_last g last s L Hsem). apply (sem_len g last s L Hsem). exact Hlast. }
  assert (Hps : L p' `suffix_of` s) by now apply (last_suffix g last s L Hinv Hsem).
  constructor.
  - (* sem_len *)
    intros v Hv. rewrite Hsize' in Hv.
    destruct (Z.eq_dec v n) as [-> | Hne]; [| destruct (Z.eq_dec v (n + 1)) as [-> | Hne']].
    + rewrite HL'cur, len_snoc, Hlen_cur. lia.
    + rewrite HL'clone, Hcwl, Hlen_clone. reflexivity.
    + rewrite HL'old, Hlen' by lia. apply (sem_len g last s L Hsem). fold n. lia.
  - (* sem_sound *)
    intros w v H.
    destruct (cls_cases w v H) as [(v0 & Hold & ->) | (-> & u & x & -> & Hu & Hx)].
    + pose proof (spell_valid g last Hinv w 0 v0 (root_valid g last Hinv) Hold) as Hv0.
      fold n in Hv0.
      destruct (sem_sound g last s L Hsem w v0 Hold) as [Hs Hl].
      unfold sel.
      destruct (Z.eqb_spec v0 q) as [-> | Hne1];
        [destruct (Z.leb_spec (len w) (glen g p' + 1)) as [Hsh | Hlg] |]; cbn [andb].
      * rewrite HL'clone, Hlo_clone. split; [| exact Hl].
        apply (suffix_shorter w _ (L q)); [exact Hs | exact Hcw | lia].
      * rewrite HL'old, Hlo_q by lia. split; [exact Hs | lia].
      * rewrite HL'old, Hlo_old by easy. now split.
    + rewrite HL'cur, Hlo_cur, len_snoc.
      destruct (cls_xs x Hx) as (Hxv & Hax & Hpx).
      destruct (sem_sound g last s L Hsem u x Hu) as [Hs Hl].
      split; [| lia].
      apply suffix_app. apply (suffix_trans _ (L x)); [exact Hs |].
      now apply (last_suffix g last s L Hinv Hsem).
  - (* sem_reach *)
    intros w v Hv Hs Hl. rewrite Hsize' in Hv.
    destruct (Z.eq_dec v n) as [-> | Hne]; [| destruct (Z.eq_dec v (n + 1)) as [-> | Hne']].
    + rewrite HL'cur in Hs. rewrite Hlo_cur in Hl.
      pose proof (inv_len_nonneg g last Hinv p' Hp') as Hl0.
      destruct (suffix_snoc_cases w s c Hs) as [-> | (u & -> & Hu)].
      { unfold len in Hl. cbn in Hl. lia. }
      rewrite len_snoc in Hl.
      destruct (cover_last g last s L Hinv Hsem u Hu) as (y & Hy & Hr).
      apply (cls_new u y Hr). apply cls_in_xs; [exact Hy |].
      pose proof (spell_len g last s L Hinv Hsem u y Hr) as Hlen. lia.
    + rewrite HL'clone in Hs. rewrite Hlo_clone in Hl.
      assert (Hr : spell g 0 w = Some q).
      { apply (sem_reach g last s L Hsem); [fold n; lia | | exact Hl].
        now apply (suffix_trans _ (L p' ++ [c])). }
      rewrite (cls_old w q Hr). f_equal. unfold sel. rewrite Z.eqb_refl.
      apply suffix_len in Hs. rewrite Hcwl in Hs.
      destruct (Z.leb_spec (len w) (glen g p' + 1)); [reflexivity | lia].
    + rewrite HL'old in Hs by lia.
      destruct (Z.eq_dec v q) as [-> | Hvq].
      * rewrite Hlo_q in Hl.
        assert (Hr : spell g 0 w = Some q).
        { apply (sem_reach g last s L Hsem); [fold n; lia | exact Hs | lia]. }
        rewrite (cls_old w q Hr). f_equal. unfold sel. rewrite Z.eqb_refl.
        destruct (Z.leb_spec (len w) (glen g p' + 1)); [lia | reflexivity].
      * rewrite Hlo_old in Hl by lia.
        assert (Hr : spell g 0 w = Some v).
        { apply (sem_reach g last s L Hsem); [fold n; lia | exact Hs | exact Hl]. }
        rewrite (cls_old w v Hr). f_equal. unfold sel.
        destruct (Z.eqb_spec v q); [lia | reflexivity].
  - (* sem_link *)
    intros v Hv. rewrite Hsize' in Hv.
    destruct (Z.eq_dec v n) as [-> | Hne]; [| destruct (Z.eq_dec v (n + 1)) as [-> | Hne']].
    + rewrite Hlink_cur, HL'cur, HL'clone. now apply suffix_app.
    + rewrite Hlink_clone, HL'clone, HL'old by exact Hlq.
      apply (suffix_shorter _ _ (L q)); [| exact Hcw |].
      * apply (sem_link g last s L Hsem). fold n. lia.
      * rewrite Hcwl, (sem_len g last s L Hsem) by exact Hlq. lia.
    + destruct (Z.eq_dec v q) as [-> | Hvq].
      * rewrite Hlink_q, HL'clone, HL'old by lia. exact Hcw.
      * destruct (inv_link g last Hinv v ltac:(fold n; lia)) as [Hl _]. fold n in Hl.
        rewrite Hlink', !HL'old by lia. apply (sem_link g last s L Hsem). fold n. lia.
  - (* sem_last *)
    exact HL'cur.
  - (* sem_occ *)
    intros v Hv. rewrite Hsize' in Hv.
    destruct (Z.eq_dec v n) as [-> | Hne]; [| destruct (Z.eq_dec v (n + 1)) as [-> | Hne']].
    + rewrite HL'cur. apply occursIn_refl.
    + rewrite HL'clone. apply occursIn_app_r.
      apply (occursIn_suffix _ (L q)); [exact Hcw |].
      apply (sem_occ g last s L Hsem). fold n. lia.
    + rewrite HL'old by lia. apply occursIn_app_r.
      apply (sem_occ g last s L Hsem). fold n. lia.
  - (* sem_total *)
    intros w Hw. destruct (occursIn_snoc w s c Hw) as [Ho | Hs].
    { destruct (sem_total g last s L Hsem w Ho) as [v Hv]. exists (sel v w). now apply cls_old. }
    destruct (suffix_snoc_cases w s c Hs) as [-> | (u & -> & Hu)].
    { now exists 0. }
    destruct (cover_last g last s L Hinv Hsem u Hu) as (y & Hy & Hr).
    destruct (in_dec Z.eq_dec y xs) as [Hin | Hnin].
    { exists n. now apply (cls_new u y). }
    pose proof (spell_valid g last Hinv u 0 y (root_valid g last Hinv) Hr) as Hyv.
    assert (Hpy : anc g p' y).
    { destruct (anc_linear g last y p' Hy Hap) as [H | H]; [| exact H].
      destruct (Z.eq_dec y p') as [-> | Hne]; [apply anc_refl |].
      exfalso. apply Hnin. apply Hxs. split; [exact Hy | right; now split]. }
    assert (Ho : occursIn (u ++ [c]) s).
    { apply (occursIn_suffix _ (L q)); [| apply (sem_occ g last s L Hsem); fold n; lia].
      apply (suffix_trans _ (L p' ++ [c])); [| exact Hcw].
      apply suffix_app. apply (suffix_trans _ (L y)).
      - now destruct (sem_sound g last s L Hsem u y Hr).
      - now apply (chain_suffix g last s L Hinv Hsem). }
    destruct (sem_total g last s L Hsem _ Ho) as [v Hv]. exists (sel v (u ++ [c])). now apply cls_old.
Qed.

Lemma step_clone_ends :
  Ends (n + 2) pay' (s ++ [c])
    (fun v => if v =? gsize g then s ++ [c]
              else if v =? gsize g + 1 then L p' ++ [c] else L v).
Proof.
  pose proof cls_n_pos as Hn.
  pose proof (inv_last g last Hinv) as Hlast. fold n in Hlast.
  destruct cls_q as [Hq Hql]. destruct cls_clone_word as [Hcw Hcwl].
  assert (Hlens : len s = glen g last).
  { rewrite <- (sem_last g last s L Hsem). apply (sem_len g last s L Hsem). exact Hlast. }
  constructor.
  - intros v Hv. fold n.
    destruct (Z.eqb_spec v n) as [-> | Hne]; [| destruct (Z.eqb_spec v (n + 1)) as [-> | Hne']].
    + exists (glen g last). split; [exact Hpay_cur |]. rewrite <- Hlens. apply endsAt_last.
    + destruct (ends_init n pay s L Hends q Hq) as (e & He & Hat).
      exists e. split; [rewrite Hpay_clone, He; reflexivity |].
      apply endsAt_snoc. now apply (endsAt_suffix _ (L q)).
    + destruct (ends_init n pay s L Hends v ltac:(lia)) as (e & He & Hat).
      exists e. split; [rewrite Hpay_old by lia; exact He | now apply endsAt_snoc].
  - intros e He. rewrite len_snoc in He.
    destruct (Z.eq_dec e (len s)) as [-> | Hne].
    + exists n. split; [lia |]. fold n. rewrite Z.eqb_refl, Hpay_cur. cbn [fst].
      split; [| now symmetry].
      rewrite take_ge; [reflexivity |]. rewrite length_app. unfold len. cbn [length]. lia.
    + destruct (ends_prefix n pay s L Hends e ltac:(lia)) as (u & Hu & HL & Hf).
      exists u. split; [lia |]. fold n. destruct (Z.eqb_spec u n) as [E | _]; [lia |].
      destruct (Z.eqb_spec u (n + 1)) as [E | _]; [lia |].
      rewrite Hpay_old by lia. split; [| exact Hf]. now rewrite take_snoc_old by lia.
Qed.

End StepCloneSem.
(** ** What one call of [addChar] does to the graph *)

Section AddCharStep.

Import SuffixAutomaton.

Lemma walk_proj {B} (proj : SAMNode -> B) (test : option Z -> bool) (c : char)
    (target : Z) (fuel : nat) :
  (forall d t x, proj (setNext d t x) = proj x) ->
  forall ns p v, proj (node (fst (walk fuel test c target ns p)) v) = proj (node ns v).
Proof.
  intros Hp. induction fuel as [| fuel IH]; intros ns p v; cbn [walk]; [reflexivity |].
  destruct (negb (p =? -1) && test (next (node ns p) !! c)); [| reflexivity].
  rewrite IH. now apply node_update_proj.
Qed.

Lemma addChar_step (c : char) (sam : t) :
  Inv (view (nodes sam)) (last sam) ->
  (exists p' lcur xs,
      NoCloneStep (view (nodes sam)) (view (nodes (addChar c sam))) (last sam) c p' lcur xs
      /\ payloadStep (nodes sam) (nodes (addChar c sam)) (last sam) None)
  \/ (exists p' q r' xs rs,
        CloneStep (view (nodes sam)) (view (nodes (addChar c sam))) (last sam) c p' q r'
          xs rs
        /\ payloadStep (nodes sam) (nodes (addChar c sam)) (last sam) (Some q)).
Proof.
  destruct sam as [ns l]. cbn [nodes last]. intros Hinv.
  pose proof (inv_last _ _ Hinv) as Hl.
  pose proof (inv_last_small _ _ Hinv) as Hsmall.
  pose proof (inv_len_last _ _ Hinv) as Hlenlast.
  pose proof (inv_len_nonneg _ _ Hinv) as Hnonneg.
  unfold addChar. cbn [nodes last].
  remember (view ns) as g eqn:Eg.
  assert (Hgs : gsize g = len ns) by now subst g.
  assert (Hgl : forall v, glink g v = link (node ns v)) by now subst g.
  assert (Hgn : forall v, glen g v = nlen (node ns v)) by now subst g.
  assert (Hgt : forall v d, gtr g v d = next (node ns v) !! d) by now subst g.
  rewrite <- !Hgn. rewrite <- Hgs in *.
  set (n := gsize g) in *.
  set (curNode := mkNode ∅ (-1) (glen g l + 1) (glen g l + 1 - 1)
                    (Fin (glen g l + 1 - 1)) (Fin (glen g l + 1 - 1))).
  set (ns0 := ns ++ [curNode]).
  assert (Hlen0 : len ns0 = n + 1).
  { unfold ns0. rewrite len_app, <- Hgs. reflexivity. }
  assert (Hold0 : forall v, 0 <= v < n -> node ns0 v = node ns v).
  { intros v Hv. apply node_app_old. rewrite <- Hgs. exact Hv. }
  assert (Hcur0 : node ns0 n = curNode).
  { rewrite Hgs. apply node_app_new. }
  rewrite extendLoop_walk.
  assert (Hlink0 : forall v, 0 <= v < n -> link (node ns0 v) = glink g v).
  { intros v Hv. now rewrite Hold0, Hgl. }
  assert (Htr0 : forall v d, 0 <= v < n -> next (node ns0 v) !! d = gtr g v d).
  { intros v d Hv. now rewrite Hold0, Hgt. }
  destruct (walk_spec g l l c n (fun o => negb (bool_decide (is_Some o))) ns0
              Hinv Hl ltac:(lia) Hlink0 (fun v Hv _ => Htr0 v c Hv)
              (length ns0) ns0 l [] (walk_start g l l c n _ ns0 Hinv Hl))
    as (ns1 & p & xs & Hw & Hs & Hstop).
  { right. unfold len in Hlen0. lia. }
  rewrite Hw. cbn [nodes last].
  assert (Pay1 : forall v, payload (node ns1 v) = payload (node ns0 v)).
  { intros v.
    pose proof (walk_proj payload (fun o => negb (bool_decide (is_Some o))) c n
                  (length ns0) (fun _ _ _ => eq_refl) ns0 l v) as H.
    now rewrite Hw in H. }
  destruct Hs as [Hlen1 Hpos Hseg Htest Hlink1 Hnlen1 Hset Hkeep].
  assert (Hxs_valid : forall x, In x xs -> 0 <= x < n).
  { intros x Hx. apply Hseg in Hx. now apply (segment_valid g l Hinv l p). }
  assert (Hnone : forall x, In x xs -> gtr g x c = None).
  { intros x Hx. apply Htest in Hx. apply negb_true_iff, bool_decide_eq_false in Hx.
    destruct (gtr g x c); [exfalso; apply Hx; eauto | reflexivity]. }
  assert (A1 : forall v, 0 <= v < n -> link (node ns1 v) = glink g v).
  { intros v Hv. now rewrite Hlink1, Hlink0. }
  assert (A2 : forall v, 0 <= v < n -> nlen (node ns1 v) = glen g v).
  { intros v Hv. now rewrite Hnlen1, Hold0, Hgn. }
  assert (A3 : nlen (node ns1 n) = glen g l + 1).
  { now rewrite Hnlen1, Hcur0. }
  assert (A4 : forall d, next (node ns1 n) !! d = None).
  { intros d. rewrite Hkeep, Hcur0; [reflexivity |].
    intros [_ Hx]. apply Hxs_valid in Hx. lia. }
  assert (A6 : forall v d, 0 <= v < n -> ~ (d = c /\ In v xs) ->
            next (node ns1 v) !! d = gtr g v d).
  { intros v d Hv Hvd. now rewrite Hkeep, Htr0. }
  rewrite Hlen0 in Hlen1.
  assert (Hfin : forall lcur,
            (p = -1 /\ lcur = 0)
            \/ (0 <= p < n /\ anc g l p /\ gtr g p c = Some lcur
                /\ glen g p + 1 = glen g lcur) ->
            NoCloneStep g (view (update ns1 n (setLink lcur))) l c p lcur xs
            /\ payloadStep ns (update ns1 n (setLink lcur)) l None).
  { intros lcur Hcase.
    assert (Hn' : forall v, v <> n ->
              node (update ns1 n (setLink lcur)) v = node ns1 v).
    { intros v Hv. now apply node_update_other. }
    assert (Hc' : node (update ns1 n (setLink lcur)) n = setLink lcur (node ns1 n)).
    { apply node_update_same. lia. }
    split; [constructor; [exact Hseg | exact Hnone | exact Hcase | ..];
            cbn [view gsize glink glen gtr]; fold n |].
    - rewrite len_update. exact Hlen1.
    - intros v Hv. rewrite Hn' by (unfold n in *; lia). now apply A1.
    - fold n. now rewrite Hc'.
    - intros v Hv. rewrite Hn' by (unfold n in *; lia). now apply A2.
    - fold n. rewrite Hc'. exact A3.
    - intros d. fold n. rewrite Hc'. apply A4.
    - intros x Hx. fold n. specialize (Hxs_valid x Hx). rewrite Hn' by lia. now apply Hset.
    - intros v d Hv Hvd. rewrite Hn' by (unfold n in *; lia). now apply A6.
    - unfold payloadStep. rewrite <- Hgs, <- Hgn. fold n. split; [| split].
      + intros v Hv. rewrite Hn' by lia. now rewrite Pay1, Hold0.
      + rewrite Hc'. change (payload (setLink lcur (node ns1 n))) with (payload (node ns1 n)).
        rewrite Pay1, Hcur0. unfold payload, curNode. cbn [firstPos minEnd maxEnd].
        now replace (glen g l + 1 - 1) with (glen g l) by lia.
      + intros q0 Hq0. discriminate. }
  destruct (Z.eqb_spec p (-1)) as [Hp1 | Hp1].
  { left. exists p, 0, xs. apply Hfin. now left. }
  destruct Hpos as [Hpos | [Hp Hap]]; [easy |].
  destruct Hstop as [Hstop | Hstop]; [easy |].
  apply negb_false_iff, bool_decide_eq_true in Hstop. destruct Hstop as [q Hq].
  assert (Hpx : ~ In p xs).
  { intros Hx. apply Hnone in Hx. congruence. }
  assert (Hgq : getNext ns1 p c = q).
  { unfold getNext. rewrite A6, Hq by tauto. reflexivity. }
  rewrite Hgq.
  destruct (inv_tr g l Hinv p c q Hp Hq) as [Hqv Hqlen]. fold n in Hqv.
  rewrite !A2 by lia.
  destruct (Z.eqb_spec (glen g p + 1) (glen g q)) as [Heq | Hneq].
  { left. exists p, q, xs. apply Hfin. right. auto. }
  rewrite Hlen1.
  set (cloneNode := mkNode (next (node ns1 q)) (link (node ns1 q)) (glen g p + 1)
                      (firstPos (node ns1 q)) (Fin (firstPos (node ns1 q)))
                      (Fin (firstPos (node ns1 q)))).
  set (ns2 := ns1 ++ [cloneNode]).
  rewrite redirectLoop_walk.
  assert (Hlen2 : len ns2 = n + 2).
  { unfold ns2. rewrite len_app, Hlen1. unfold len. cbn. lia. }
  assert (Hold2 : forall v, 0 <= v <= n -> node ns2 v = node ns1 v).
  { intros v Hv. apply node_app_old. lia. }
  assert (Hclone2 : node ns2 (n + 1) = cloneNode).
  { rewrite <- Hlen1. apply node_app_new. }
  assert (Hlink2 : forall v, 0 <= v < n -> link (node ns2 v) = glink g v).
  { intros v Hv. rewrite Hold2 by lia. now apply A1. }
  assert (Htr2 : forall v, 0 <= v < n -> anc g p v -> next (node ns2 v) !! c = gtr g v c).
  { intros v Hv Hpv. rewrite Hold2 by lia. apply A6; [easy |].
    intros [_ Hx]. apply Hseg in Hx as [_ [Hx | [Hx Hx']]]; [lia |].
    apply Hx'. now apply (anc_antisym g l Hinv). }
  destruct (walk_spec g l p c (n + 1) (fun o => bool_decide (o = Some q)) ns2
              Hinv Hp ltac:(fold n; lia) Hlink2 Htr2
              (length ns2) ns2 p [] (walk_start g l p c (n + 1) _ ns2 Hinv Hp))
    as (ns3 & r & rs & Hw2 & Hs2 & Hstop2).
  { right. specialize (Hlenlast p Hp). unfold len in Hlen2. lia. }
  rewrite Hw2.
  assert (Pay3 : forall v, payload (node ns3 v) = payload (node ns2 v)).
  { intros v.
    pose proof (walk_proj payload (fun o => bool_decide (o = Some q)) c (n + 1)
                  (length ns2) (fun _ _ _ => eq_refl) ns2 p v) as H.
    now rewrite Hw2 in H. }
  destruct Hs2 as [Hlen3 Hpos2 Hseg2 Htest2 Hlink3 Hnlen3 Hset2 Hkeep2].
  rewrite Hlen2 in Hlen3.
  assert (Hrs_valid : forall x, In x rs -> 0 <= x < n).
  { intros x Hx. apply Hseg2 in Hx. now apply (segment_valid g l Hinv p r). }
  assert (HRq : forall x, In x rs -> gtr g x c = Some q).
  { intros x Hx. apply Htest2 in Hx. now apply bool_decide_eq_true in Hx. }
  assert (Hr : r = -1 \/ (0 <= r < n /\ anc g p r /\ gtr g r c <> Some q)).
  { destruct Hpos2 as [-> | [Hr1 Hr2]]; [now left |].
    destruct Hstop2 as [-> | Hstop2]; [now left | right].
    apply bool_decide_eq_false in Hstop2. auto. }
  set (ns' := update (update ns3 q (setLink (n + 1))) n (setLink (n + 1))).
  assert (Hnode_n : node ns' n = setLink (n + 1) (node ns3 n)).
  { unfold ns'. rewrite node_update_same by (rewrite len_update; lia).
    rewrite node_update_other by lia. reflexivity. }
  assert (Hnode_q : node ns' q = setLink (n + 1) (node ns3 q)).
  { unfold ns'. rewrite node_update_other by lia.
    apply node_update_same. lia. }
  assert (Hnode_o : forall v, v <> n -> v <> q -> node ns' v = node ns3 v).
  { intros v H1 H2. unfold ns'. now rewrite !node_update_other. }
  assert (Hnext' : forall v, next (node ns' v) = next (node ns3 v)).
  { intros v. destruct (Z.eq_dec v n) as [-> | H1]; [now rewrite Hnode_n |].
    destruct (Z.eq_dec v q) as [-> | H2]; [now rewrite Hnode_q |].
    now rewrite Hnode_o. }
  assert (Hnlen' : forall v, nlen (node ns' v) = nlen (node ns3 v)).
  { intros v. destruct (Z.eq_dec v n) as [-> | H1]; [now rewrite Hnode_n |].
    destruct (Z.eq_dec v q) as [-> | H2]; [now rewrite Hnode_q |].
    now rewrite Hnode_o. }
  assert (Hpay' : forall v, payload (node ns' v) = payload (node ns3 v)).
  { intros v. destruct (Z.eq_dec v n) as [-> | H1]; [now rewrite Hnode_n |].
    destruct (Z.eq_dec v q) as [-> | H2]; [now rewrite Hnode_q |].
    now rewrite Hnode_o. }
  right. exists p, q, r, xs, rs.
  split; [constructor;
    [exact Hseg | exact Hnone | exact Hp | exact Hap | exact Hq | exact Hneq
     | exact Hseg2 | exact HRq | exact Hr | ..];
    cbn [view gsize glink glen gtr]; fold n |].
  - unfold ns'. rewrite !len_update. exact Hlen3.
  - now rewrite Hnode_n.
  - rewrite Hnode_o by lia. rewrite Hlink3, Hclone2. unfold cloneNode. cbn [link]. apply A1. lia.
  - now rewrite Hnode_q.
  - intros v Hv Hvq. rewrite Hnode_o by lia. rewrite Hlink3. now apply Hlink2.
  - intros v Hv. rewrite Hnlen', Hnlen3, Hold2 by lia. apply A2. lia.
  - rewrite Hnlen', Hnlen3, Hold2 by lia. exact A3.
  - rewrite Hnlen', Hnlen3, Hclone2. reflexivity.
  - intros d. rewrite Hnext', Hkeep2; [rewrite Hold2 by lia; apply A4 |].
    intros [_ Hx]. apply Hrs_valid in Hx. lia.
  - intros x Hx. specialize (Hxs_valid x Hx).
    rewrite Hnext', Hkeep2; [rewrite Hold2 by lia; now apply Hset |].
    intros [_ Hx']. apply HRq in Hx'. apply Hnone in Hx. congruence.
  - intros x Hx. rewrite Hnext'. now apply Hset2.
  - intros v d Hv Hvd. rewrite Hnext', Hkeep2 by tauto. rewrite Hold2 by lia.
    apply A6; [lia | tauto].
  - intros Hx. rewrite Hnext', Hkeep2, Hclone2.
    + unfold cloneNode. cbn [next]. now apply Hset.
    + intros [_ Hx']. apply Hrs_valid in Hx'. lia.
  - intros d Hd. rewrite Hnext', Hkeep2, Hclone2.
    + unfold cloneNode. cbn [next]. apply A6; [lia | easy].
    + intros [_ Hx']. apply Hrs_valid in Hx'. lia.
  - unfold payloadStep. rewrite <- Hgs, <- Hgn. fold n. split; [| split].
    + intros v Hv. rewrite Hpay', Pay3, Hold2 by lia. now rewrite Pay1, Hold0.
    + rewrite Hpay', Pay3, Hold2 by lia.
      rewrite Pay1, Hcur0. unfold payload, curNode. cbn [firstPos minEnd maxEnd].
      now replace (glen g l + 1 - 1) with (glen g l) by lia.
    + intros q0 Hq0. inversion Hq0; subst q0.
      rewrite Hpay', Pay3, Hclone2. unfold payload at 1, cloneNode.
      cbn [firstPos minEnd maxEnd].
      assert (E : firstPos (node ns1 q) = firstPos (node ns q)).
      { pose proof (Pay1 q) as H. rewrite Hold0 in H by lia. now inversion H. }
      now rewrite E.
Qed.

End AddCharStep.
(** ** The meaning of the automaton that [build] returns *)

Section BuildSem.

Import SuffixAutomaton.

Lemma addChar_sem (c : char) (sam : t) (s : text) (L : Z -> text) :
  Inv (view (nodes sam)) (last sam) ->
  Sem (view (nodes sam)) (last sam) s L ->
  Ends (len (nodes sam)) (fun v => payload (node (nodes sam) v)) s L ->
  exists L',
    Sem (view (nodes (addChar c sam))) (last (addChar c sam)) (s ++ [c]) L'
    /\ Ends (len (nodes (addChar c sam))) (fun v => payload (node (nodes (addChar c sam)) v))
         (s ++ [c]) L'.
Proof.
  intros Hinv Hsem Hends.
  destruct (addChar_shape c sam) as (_ & Hlast & _). cbv zeta in Hlast. rewrite Hlast.
  change (len (nodes sam)) with (gsize (view (nodes sam))) in *.
  change (len (nodes (addChar c sam))) with (gsize (view (nodes (addChar c sam)))).
  destruct (addChar_step c sam Hinv)
    as [(p' & lcur & xs & H & Hpay) | (p' & q & r' & xs & rs & H & Hpay)];
    destruct Hpay as (Hp1 & Hp2 & Hp3).
  - eexists. split.
    + exact (step_noclone_sem _ _ _ c p' lcur xs s L Hinv Hsem
               (snc_xs _ _ _ _ _ _ _ H) (snc_none _ _ _ _ _ _ _ H) (snc_stop _ _ _ _ _ _ _ H)
               (snc_size _ _ _ _ _ _ _ H) (snc_link _ _ _ _ _ _ _ H)
               (snc_link_cur _ _ _ _ _ _ _ H) (snc_len _ _ _ _ _ _ _ H)
               (snc_len_cur _ _ _ _ _ _ _ H) (snc_tr_cur _ _ _ _ _ _ _ H)
               (snc_tr_X _ _ _ _ _ _ _ H) (snc_tr_old _ _ _ _ _ _ _ H)).
    + rewrite (snc_size _ _ _ _ _ _ _ H).
      exact (step_noclone_ends _ _ c s L _ _ Hinv Hsem Hends Hp1 Hp2).
  - eexists. split.
    + exact (step_clone_sem _ _ _ c p' q r' xs rs s L Hinv Hsem
               (scl_xs _ _ _ _ _ _ _ _ _ H) (scl_none _ _ _ _ _ _ _ _ _ H)
               (scl_p _ _ _ _ _ _ _ _ _ H) (scl_ap _ _ _ _ _ _ _ _ _ H)
               (scl_tp _ _ _ _ _ _ _ _ _ H) (scl_lenq _ _ _ _ _ _ _ _ _ H)
               (scl_rs _ _ _ _ _ _ _ _ _ H) (scl_Rq _ _ _ _ _ _ _ _ _ H)
               (scl_r _ _ _ _ _ _ _ _ _ H) (scl_size _ _ _ _ _ _ _ _ _ H)
               (scl_link_cur _ _ _ _ _ _ _ _ _ H) (scl_link_clone _ _ _ _ _ _ _ _ _ H)
               (scl_link_q _ _ _ _ _ _ _ _ _ H) (scl_link _ _ _ _ _ _ _ _ _ H)
               (scl_len _ _ _ _ _ _ _ _ _ H) (scl_len_cur _ _ _ _ _ _ _ _ _ H)
               (scl_len_clone _ _ _ _ _ _ _ _ _ H) (scl_tr_cur _ _ _ _ _ _ _ _ _ H)
               (scl_tr_X _ _ _ _ _ _ _ _ _ H) (scl_tr_R _ _ _ _ _ _ _ _ _ H)
               (scl_tr_old _ _ _ _ _ _ _ _ _ H) (scl_tr_clone_X _ _ _ _ _ _ _ _ _ H)
               (scl_tr_clone_old _ _ _ _ _ _ _ _ _ H)).
    + rewrite (scl_size _ _ _ _ _ _ _ _ _ H).
      exact (step_clone_ends _ _ c p' q s L _ _ Hinv Hsem
               (scl_p _ _ _ _ _ _ _ _ _ H) (scl_tp _ _ _ _ _ _ _ _ _ H)
               (scl_lenq _ _ _ _ _ _ _ _ _ H) Hends Hp1 Hp2 (Hp3 q eq_refl)).
Qed.

Lemma initial_ends : Ends 1 (fun v => payload (node [newNode 0] v)) [] (fun _ => []).
Proof.
  constructor; [intros v Hv; lia |].
  intros e He. unfold len in He. cbn [length] in He. lia.
Qed.

Lemma initial_sem : Sem (view [newNode 0]) 0 [] (fun _ => []).
Proof.
  assert (Hnode : forall v, node [newNode 0] v = newNode 0).
  { intros v. unfold node, get. destruct (v <? 0); [reflexivity |].
    destruct (Z.to_nat v) as [| k]; [reflexivity |]. now destruct k. }
  assert (Hsp : forall w v, spell (view [newNode 0]) 0 w = Some v -> w = [] /\ v = 0).
  { intros [| d w] v H; cbn [spell] in H.
    - now inversion H.
    - cbn [view gtr] in H. rewrite Hnode in H. cbn [newNode next] in H.
      rewrite lookup_empty in H. discriminate. }
  constructor.
  - intros v _. cbn [view glen]. now rewrite Hnode.
  - intros w v H. destruct (Hsp w v H) as [-> ->]. split; [apply suffix_nil |].
    unfold lo, len. cbn. lia.
  - intros w v Hv Hs _. cbn [view gsize] in Hv. unfold len in Hv. cbn [length] in Hv.
    apply suffix_nil_inv in Hs. subst w. cbn [spell]. f_equal. lia.
  - intros v Hv. cbn [view gsize] in Hv. unfold len in Hv. cbn [length] in Hv. lia.
  - reflexivity.
  - intros v _. apply occursIn_nil.
  - intros w (a & b & E). symmetry in E. apply app_eq_nil in E as [_ E].
    apply app_eq_nil in E as [-> _]. now exists 0.
Qed.

Lemma construct_sem (s : text) :
  exists L,
    Sem (view (nodes (construct s))) (last (construct s)) s L
    /\ Ends (len (nodes (construct s))) (fun v => payload (node (nodes (construct s)) v)) s L.
Proof.
  induction s as [| c s IH] using rev_ind.
  - exists (fun _ => []). split; [exact initial_sem | exact initial_ends].
  - destruct IH as (L & HL & HE). pose proof (construct_inv s) as Hinv.
    unfold construct in *. rewrite fold_left_app. cbn [fold_left].
    now apply (addChar_sem c _ s L).
Qed.

Lemma spell_ext (g g' : graph) (w : text) :
  (forall v c, gtr g v c = gtr g' v c) -> forall v, spell g v w = spell g' v w.
Proof.
  intros Ht. induction w as [| d w IH]; intros v; cbn [spell]; [reflexivity |].
  rewrite <- Ht. destruct (gtr g v d); [apply IH | reflexivity].
Qed.

Lemma Sem_ext (g g' : graph) (l : Z) (s : text) (L : Z -> text) :
  gsize g = gsize g' ->
  (forall v, glink g v = glink g' v) ->
  (forall v, glen g v = glen g' v) ->
  (forall v c, gtr g v c = gtr g' v c) ->
  Sem g l s L -> Sem g' l s L.
Proof.
  intros Hs Hl Hn Ht Hsem.
  assert (Hlo : forall v, lo g' v = lo g v).
  { intros v. unfold lo. now rewrite <- Hl, <- Hn. }
  constructor; rewrite <- ?Hs.
  - intros v Hv. rewrite <- Hn. now apply (sem_len g l s L Hsem).
  - intros w v H. rewrite <- (spell_ext g g' w Ht) in H. rewrite Hlo.
    now apply (sem_sound g l s L Hsem).
  - intros w v Hv H1 H2. rewrite <- (spell_ext g g' w Ht). rewrite Hlo in H2.
    now apply (sem_reach g l s L Hsem).
  - intros v Hv. rewrite <- Hl. now apply (sem_link g l s L Hsem).
  - apply (sem_last g l s L Hsem).
  - apply (sem_occ g l s L Hsem).
  - intros w Hw. rewrite <- (spell_ext g g' w Ht). now apply (sem_total g l s L Hsem).
Qed.

Lemma build_sem (s : text) : exists L, Sem (view (nodes (build s))) (last (build s)) s L.
Proof.
  destruct (construct_sem s) as (L & HL & _). exists L.
  unfold build. cbn [nodes last]. unfold propagate.
  apply (Sem_ext (view (nodes (construct s)))); cbn [view gsize glink glen gtr];
    [| | | | exact HL].
  - now rewrite fold_propagateStep_len.
  - intros v. now rewrite (fold_propagateStep_proj link).
  - intros v. now rewrite (fold_propagateStep_proj nlen).
  - intros v c. now rewrite (fold_propagateStep_proj next).
Qed.

End BuildSem.

(** X27. The automaton that [build] makes for a text recognises exactly the
    blocks of the text: a word can be spelled from the root along the
    transitions if and only if it occurs in the text; and the state it leads
    to has a [len] at least the length of the word. *)
Theorem automaton_spells_exactly_the_blocks_of_the_text (s w : text) :
  let g := view (SuffixAutomaton.nodes (SuffixAutomaton.build s)) in
  (is_Some (spell g 0 w) <-> occursIn w s)
  /\ (forall v, spell g 0 w = Some v -> 0 <= v < gsize g /\ len w <= glen g v).
Proof.
  intros g. destruct (build_sem s) as [L HL]. pose proof (build_inv s) as Hinv.
  fold g in HL, Hinv. split; [split |].
  - intros [v Hv]. exact (spell_occ g _ s L Hinv HL w v Hv).
  - apply (sem_total g _ s L HL).
  - intros v Hv. split.
    + exact (spell_valid g _ Hinv w 0 v (root_valid g _ Hinv) Hv).
    + pose proof (spell_len g _ s L Hinv HL w v Hv). lia.
Qed.
(** ** The streaming scan finds the longest match at every position *)

Section ScanSem.

Import SuffixAutomaton.

Variables (ns : list SAMNode) (lst : Z) (P : text) (L : Z -> text).
Hypothesis Hinv : Inv (view ns) lst.
Hypothesis Hsem : Sem (view ns) lst P L.

Lemma hasNext_gtr (state : Z) (c : char) :
  hasNext ns state c = true -> gtr (view ns) state c = Some (getNext ns state c).
Proof.
  unfold hasNext, getNext. intros H. apply bool_decide_eq_true in H as [q Hq].
  cbn [view gtr]. now rewrite Hq.
Qed.

Lemma hasNext_none (state : Z) (c : char) :
  hasNext ns state c = false -> gtr (view ns) state c = None.
Proof.
  unfold hasNext. intros H. apply bool_decide_eq_false in H. cbn [view gtr].
  destruct (next (node ns state) !! c); [exfalso; apply H; eauto | reflexivity].
Qed.

(** The loop of the scan stops at the first state of the suffix-link path
    that has a transition on [c]. *)
Lemma followLinks_first (c : char) (fuel : nat) :
  forall state, 0 <= state < len ns -> nlen (node ns state) < Z.of_nat fuel ->
    let s' := followLinks fuel ns c state in
    (s' = -1 \/ (0 <= s' < len ns /\ anc (view ns) state s' /\ hasNext ns s' c = true))
    /\ forall y, segment (view ns) state s' y -> gtr (view ns) y c = None.
Proof.
  induction fuel as [| fuel IH]; intros state Hv Hm.
  { pose proof (inv_len_nonneg _ _ Hinv state Hv) as H. cbn [view glen] in H. lia. }
  cbn [followLinks]. destruct (Z.eqb_spec state (-1)) as [E | _]; [lia |].
  cbn [negb andb]. destruct (hasNext ns state c) eqn:Hh; cbn [negb].
  - split; [right; split; [exact Hv | split; [apply anc_refl | exact Hh]] |].
    intros y [Ha [E | [Hb Hne]]]; [lia |].
    exfalso. apply Hne. now apply (anc_antisym _ _ Hinv).
  - destruct (Z.eq_dec state 0) as [-> | H0].
    + pose proof (inv_root_link _ _ Hinv) as Hl. cbn [view glink] in Hl.
      rewrite Hl, followLinks_gone. split; [now left |].
      intros y [Ha _]. apply anc_from_root in Ha. subst y. now apply hasNext_none.
    + destruct (inv_link _ _ Hinv state ltac:(cbn [view gsize]; lia)) as [H1 H2].
      cbn [view gsize glink glen] in H1, H2.
      destruct (IH _ H1 ltac:(lia)) as [Hs Hseg]. cbv zeta in Hs, Hseg.
      set (s' := followLinks fuel ns c (link (node ns state))) in *.
      split.
      * destruct Hs as [E | (Hs1 & Hs2 & Hs3)]; [now left | right].
        split; [exact Hs1 |]. split; [| exact Hs3].
        apply anc_step; [cbn [view gsize]; lia | exact Hs2].
      * intros y [Ha Hb].
        destruct (Z.eq_dec y state) as [-> | Hne]; [now apply hasNext_none |].
        apply Hseg. split; [| exact Hb].
        destruct (anc_strict _ _ _ Ha ltac:(congruence)) as [_ Ha']. exact Ha'.
Qed.

Lemma samAdvance_sem (U : text) (state l : Z) (c : char) :
  scanOk (view ns) P U state l ->
  scanOk (view ns) P (U ++ [c]) (fst (samAdvance ns (state, l) c))
    (snd (samAdvance ns (state, l) c)).
Proof.
  intros (w & Hw & Hlen & Hsp & Hmax).
  pose proof (spell_valid _ _ Hinv w 0 state (root_valid _ _ Hinv) Hsp) as Hv.
  cbn [view gsize] in Hv.
  assert (Hl0 : 0 <= l) by (unfold len in Hlen; lia).
  assert (Hcover : forall u, u `suffix_of` U -> occursIn (u ++ [c]) P ->
            exists y, anc (view ns) state y /\ spell (view ns) 0 u = Some y
                      /\ is_Some (gtr (view ns) y c)).
  { intros u Hu Ho.
    assert (Huw : u `suffix_of` w).
    { apply (suffix_shorter u w U Hu Hw). rewrite Hlen. apply Hmax; [exact Hu |].
      exact (occursIn_prefix u [c] P Ho). }
    destruct (cover_run _ _ P L Hinv Hsem u w state Hsp Huw) as (y & Hy & Hr).
    exists y. split; [exact Hy |]. split; [exact Hr |].
    destruct (sem_total _ _ P L Hsem _ Ho) as [t Ht].
    rewrite spell_snoc, Hr in Ht. eauto. }
  unfold samAdvance. destruct (hasNext ns state c) eqn:Hh.
  - cbn [fst snd]. exists (w ++ [c]).
    split; [now apply suffix_app |]. split; [rewrite len_snoc; lia |].
    split; [rewrite spell_snoc, Hsp; now apply hasNext_gtr |].
    intros x Hx Ho. destruct (suffix_snoc_cases x U c Hx) as [-> | (u & -> & Hu)].
    + unfold len. cbn [length]. lia.
    + rewrite len_snoc. pose proof (Hmax u Hu (occursIn_prefix u [c] P Ho)). lia.
  - pose proof (inv_len_last _ _ Hinv state Hv) as Hfuel1.
    pose proof (inv_last_small _ _ Hinv) as Hfuel2.
    cbn [view gsize glen] in Hfuel1, Hfuel2.
    destruct (followLinks_first c (length ns) state Hv ltac:(unfold len in Hfuel2; lia))
      as [Hs Hseg]. cbv zeta in Hs, Hseg.
    set (s' := followLinks (length ns) ns c state) in *.
    destruct Hs as [E | (Hs1 & Hs2 & Hs3)].
    + rewrite E, Z.eqb_refl. cbn [fst snd]. exists [].
      split; [apply suffix_nil |]. split; [reflexivity |]. split; [reflexivity |].
      intros x Hx Ho. destruct (suffix_snoc_cases x U c Hx) as [-> | (u & -> & Hu)];
        [unfold len; cbn [length]; lia |].
      exfalso. destruct (Hcover u Hu Ho) as (y & Hy & _ & [t Ht]).
      rewrite (Hseg y) in Ht; [discriminate |]. split; [exact Hy | now left].
    + destruct (Z.eqb_spec s' (-1)) as [E | _]; [lia |]. cbn [fst snd].
      assert (Hne : s' <> state) by (intros E; rewrite E in Hs3; congruence).
      assert (Hshort : glen (view ns) s' < len w).
      { destruct (anc_strict _ _ _ Hs2 ltac:(congruence)) as [Hpos Ha'].
        apply (anc_len _ _ Hinv) in Ha'.
        pose proof (spell_len _ _ P L Hinv Hsem w state Hsp) as Hwl.
        rewrite (lo_link (view ns) state) in Hwl by lia. lia. }
      exists (L s' ++ [c]).
      split.
      { apply suffix_app. apply (suffix_trans _ w); [| exact Hw].
        apply (suffix_shorter _ _ (L state)).
        - now apply (chain_suffix _ _ P L Hinv Hsem).
        - now destruct (sem_sound _ _ P L Hsem w state Hsp).
        - rewrite (sem_len _ _ P L Hsem) by exact Hs1. lia. }
      split.
      { rewrite len_snoc, (sem_len _ _ P L Hsem) by exact Hs1. reflexivity. }
      split.
      { rewrite spell_snoc, (L_runs _ _ P L Hinv Hsem s' Hs1). now apply hasNext_gtr. }
      intros x Hx Ho. destruct (suffix_snoc_cases x U c Hx) as [-> | (u & -> & Hu)].
      { pose proof (inv_len_nonneg _ _ Hinv s' Hs1) as H0. cbn [view glen] in H0.
        unfold len. cbn [length]. lia. }
      rewrite len_snoc.
      destruct (Hcover u Hu Ho) as (y & Hy & Hr & [t Ht]).
      pose proof (spell_len _ _ P L Hinv Hsem u y Hr) as Hul.
      assert (Hsy : anc (view ns) s' y).
      { destruct (anc_linear _ _ _ _ Hy Hs2) as [H | H]; [| exact H].
        destruct (Z.eq_dec y s') as [-> | Hnys]; [apply anc_refl |].
        rewrite (Hseg y) in Ht; [discriminate |]. split; [exact Hy | right; now split]. }
      apply (anc_len _ _ Hinv) in Hsy. cbn [view glen] in Hsy, Hul |- *. lia.
Qed.

Lemma scan_sem (U : text) :
  scanOk (view ns) P U (fst (fold_left (samAdvance ns) U (0, 0)))
    (snd (fold_left (samAdvance ns) U (0, 0))).
Proof.
  induction U as [| c U IH] using rev_ind.
  - cbn [fold_left fst snd]. exists []. split; [apply suffix_nil |].
    split; [reflexivity |]. split; [reflexivity |].
    intros x Hx _. apply suffix_nil_inv in Hx. subst x. unfold len. cbn [length]. lia.
  - rewrite fold_left_app. cbn [fold_left].
    destruct (fold_left (samAdvance ns) U (0, 0)) as [state l]. cbn [fst snd] in IH.
    now apply samAdvance_sem.
Qed.

End ScanSem.

Lemma slice_take {A} (T : list A) (a e : Z) :
  0 <= a -> slice (take (Z.to_nat e) T) a e = slice T a e.
Proof.
  intros Ha. unfold slice. destruct (Z_lt_le_dec e a) as [Hlt | Hle].
  - replace (Z.to_nat (e - a)) with 0%nat by lia. reflexivity.
  - replace (Z.to_nat e) with (Z.to_nat a + Z.to_nat (e - a))%nat by lia.
    rewrite <- take_drop_commute, take_take. f_equal. lia.
Qed.

(** The scan after the first [e] scalars of [T]: the match length [l] is
    that of the longest block of [P] that ends at [e]. *)
Lemma scan_longest (T P : text) (e : Z) :
  0 <= e <= len T ->
  let l := snd (fold_left (samAdvance (SuffixAutomaton.nodes (SuffixAutomaton.build P)))
                  (take (Z.to_nat e) T) (0, 0)) in
  0 <= l <= e
  /\ forall a, 0 <= a <= e -> (occursIn (slice T a e) P <-> e - l <= a).
Proof.
  intros He l. destruct (build_sem P) as [L HL]. pose proof (build_inv P) as Hinv.
  set (U := take (Z.to_nat e) T) in *.
  assert (HU : len U = e).
  { unfold U, len. rewrite length_take. unfold len in He. lia. }
  destruct (scan_sem _ _ P L Hinv HL U) as (w & Hw & Hlen & Hsp & Hmax). fold l in Hlen, Hmax.
  assert (Hsl : forall a, 0 <= a <= e -> slice T a e `suffix_of` U /\ len (slice T a e) = e - a).
  { intros a Ha. rewrite <- (slice_take T a e) by lia. fold U. split.
    - unfold slice. rewrite take_ge.
      + apply suffix_drop.
      + rewrite length_drop. unfold len in HU. lia.
    - unfold slice, len. rewrite length_take, length_drop. unfold len in HU. lia. }
  assert (Hl : 0 <= l <= e).
  { pose proof (suffix_len _ _ Hw) as H. unfold len in H, HU, Hlen. lia. }
  split; [exact Hl |].
  intros a Ha. destruct (Hsl a Ha) as [Hs1 Hs2]. split.
  - intros Ho. pose proof (Hmax _ Hs1 Ho). lia.
  - intros Hle. apply (occursIn_suffix _ w).
    + apply (suffix_shorter _ _ U Hs1 Hw). lia.
    + exact (spell_occ _ _ P L Hinv HL w _ Hsp).
Qed.

Lemma occursIn_len (w s : text) : occursIn w s -> len w <= len s.
Proof. intros (a & b & ->). unfold len. rewrite !length_app. lia. Qed.

(** ** The occurrence data after the propagation pass *)

Section PropagateBounds.

Import SuffixAutomaton.

Variables (ns0 : list SAMNode) (lst : Z).
Hypothesis Hinv : Inv (view ns0) lst.

Lemma xmin_cases (a b : xnum) : xmin a b = a \/ xmin a b = b.
Proof. unfold xmin. destruct (xleb a b); auto. Qed.

Lemma xmax_cases (a b : xnum) : xmax a b = a \/ xmax a b = b.
Proof. unfold xmax. destruct (xleb a b); auto. Qed.

Lemma shape_of_inv : forall v, 0 < v < len ns0 ->
  0 <= link (node ns0 v) < len ns0
  /\ nlen (node ns0 (link (node ns0 v))) < nlen (node ns0 v).
Proof. intros v Hv. exact (inv_link _ _ Hinv v Hv). Qed.

(** Whatever the order of the steps, a propagated [minEnd] is the initial
    [minEnd] of a state further up the links, and no greater than the
    state's own; likewise for [maxEnd]. *)
Lemma propagate_bounds (tl : list Z) :
  (forall v, In v tl -> 0 < v < len ns0) ->
  let ns := fold_left propagateStep tl ns0 in
  len ns = len ns0
  /\ (forall x, link (node ns x) = link (node ns0 x))
  /\ forall x, 0 < x < len ns0 ->
       xle (minEnd (node ns x)) (minEnd (node ns0 x))
       /\ xle (maxEnd (node ns0 x)) (maxEnd (node ns x))
       /\ (exists u, 0 < u < len ns0 /\ anc (view ns0) u x
                     /\ minEnd (node ns x) = minEnd (node ns0 u))
       /\ (exists u, 0 < u < len ns0 /\ anc (view ns0) u x
                     /\ maxEnd (node ns x) = maxEnd (node ns0 u)).
Proof.
  induction tl as [| w tl IH] using rev_ind; intros Hvalid ns.
  { unfold ns. cbn [fold_left]. split; [reflexivity |]. split; [reflexivity |].
    intros x Hx. split; [apply xle_refl |]. split; [apply xle_refl |].
    split; exists x; (split; [exact Hx | split; [apply anc_refl | reflexivity]]). }
  destruct IH as (Hlen & Hlink & Hgood).
  { intros v Hv. apply Hvalid, in_or_app. now left. }
  assert (Hw : 0 < w < len ns0) by (apply Hvalid, in_or_app; right; now left).
  unfold ns. rewrite fold_left_app. cbn [fold_left].
  set (ns1 := fold_left propagateStep tl ns0) in *.
  destruct (propagateStep_spec ns0 shape_of_inv ns1 w Hlen Hlink Hw)
    as (Hlen2 & Hlink2 & Hother & Hmin & Hmax).
  set (u := link (node ns0 w)) in *.
  destruct (shape_of_inv w Hw) as [Hu Hul]. fold u in Hu, Hul.
  assert (Hwu : anc (view ns0) w u).
  { apply anc_step; [exact Hw | apply anc_refl]. }
  split; [exact Hlen2 |]. split; [exact Hlink2 |].
  intros x Hx. destruct (Hgood x Hx) as (G1 & G2 & G3 & G4).
  destruct (Z.eq_dec x u) as [-> | Hne].
  2:{ rewrite (Hother x Hne). auto. }
  rewrite Hmin, Hmax. split; [| split; [| split]].
  - eapply xle_trans; [apply xmin_le_l | exact G1].
  - eapply xle_trans; [exact G2 | apply xmax_ge_l].
  - destruct (xmin_cases (minEnd (node ns1 u)) (minEnd (node ns1 w))) as [E | E]; rewrite E.
    + exact G3.
    + destruct (Hgood w Hw) as (_ & _ & (u1 & Hu1 & Ha1 & E1) & _).
      exists u1. split; [exact Hu1 |]. split; [| exact E1].
      now apply (anc_trans _ u1 w u).
  - destruct (xmax_cases (maxEnd (node ns1 u)) (maxEnd (node ns1 w))) as [E | E]; rewrite E.
    + exact G4.
    + destruct (Hgood w Hw) as (_ & _ & _ & (u1 & Hu1 & Ha1 & E1)).
      exists u1. split; [exact Hu1 |]. split; [| exact E1].
      now apply (anc_trans _ u1 w u).
Qed.

End PropagateBounds.

Section BuildFlags.

Import SuffixAutomaton.

Lemma anc_pos (g : graph) (u v : Z) : anc g u v -> 0 < v -> 0 < u.
Proof. induction 1 as [| x y Hx _ _]; intros Hv; lia. Qed.

Lemma build_flags (P : text) :
  exists L,
    Sem (view (nodes (build P))) (last (build P)) P L
    /\ Flags (nodes (build P)) P L.
Proof.
  destruct (construct_sem P) as (L & HL & HE). exists L.
  pose proof (construct_inv P) as Hinv.
  unfold build. cbn [nodes last]. unfold propagate.
  set (ns0 := nodes (construct P)) in *.
  destruct (lenOrder_root_first ns0 _ Hinv) as (tl & Horder & Hss & Hmem).
  rewrite Horder. cbn [drop]. rewrite drop_0.
  set (ns := fold_left propagateStep (reverse tl) ns0).
  assert (Hvalid : forall v, In v (reverse tl) -> 0 < v < len ns0).
  { intros v Hv. apply Hmem. rewrite <- list_elem_of_In in Hv |- *.
    now rewrite elem_of_reverse in Hv. }
  destruct (propagate_bounds ns0 _ Hinv (reverse tl) Hvalid) as (Hlen & Hlink & Hgood).
  fold ns in Hlen, Hlink, Hgood.
  destruct (propagate_sorted ns0 (shape_of_inv ns0 _ Hinv) tl Hss
              (fun v Hv => proj1 (Hmem v) Hv)) as (_ & _ & Hdom).
  fold ns in Hdom.
  assert (Hnlen : forall v, nlen (node ns v) = nlen (node ns0 v)).
  { intros v. apply (fold_propagateStep_proj nlen); reflexivity. }
  assert (Hnext : forall v, next (node ns v) = next (node ns0 v)).
  { intros v. apply (fold_propagateStep_proj next); reflexivity. }
  assert (Hfp : forall v, firstPos (node ns v) = firstPos (node ns0 v)).
  { intros v. apply (fold_propagateStep_proj firstPos); reflexivity. }
  assert (Hanc : forall a b, anc (view ns0) a b <-> anc (view ns) a b).
  { intros a b. split; apply anc_ext; cbn [view gsize glink]; auto. }
  assert (Hinit : forall v, 0 < v < len ns0 ->
            minEnd (node ns0 v) = Fin (firstPos (node ns0 v))
            /\ maxEnd (node ns0 v) = Fin (firstPos (node ns0 v))
            /\ endsAt (L v) P (firstPos (node ns0 v))).
  { intros v Hv. destruct (ends_init _ _ _ _ HE v Hv) as (e & He & Hat).
    unfold payload in He. inversion He; subst e. auto. }
  split.
  { apply (Sem_ext (view ns0)); cbn [view gsize glink glen gtr]; auto.
    intros v c. now rewrite Hnext. }
  constructor; rewrite ?Hlen.
  - intros u Hu. rewrite Hfp. now apply Hinit.
  - intros e He. destruct (ends_prefix _ _ _ _ HE e He) as (u & Hu & HLu & Hf).
    exists u. split; [exact Hu |]. split; [exact HLu |]. rewrite Hfp. exact Hf.
  - intros v Hv. destruct (Hgood v Hv) as (_ & _ & (u & Hu & Ha & E) & _).
    exists u. split; [exact Hu |]. split; [now apply Hanc |].
    rewrite E, Hfp. now apply Hinit.
  - intros v Hv. destruct (Hgood v Hv) as (_ & _ & _ & (u & Hu & Ha & E)).
    exists u. split; [exact Hu |]. split; [now apply Hanc |].
    rewrite E, Hfp. now apply Hinit.
  - intros u v Hv Hu Ha. apply Hanc in Ha.
    assert (Hchain : xle (minEnd (node ns v)) (minEnd (node ns u))
                     /\ xle (maxEnd (node ns u)) (maxEnd (node ns v))).
    { clear Hu. induction Ha as [x | x y Hx Ha IH]; [split; apply xle_refl |].
      cbn [view gsize] in Hx.
      destruct (Hdom x (proj2 (Hmem x) Hx)) as (_ & D1 & D2).
      rewrite Hlink in D1, D2. cbn [view glink] in IH.
      destruct (IH Hv) as [I1 I2]. split.
      - eapply xle_trans; [exact I1 | exact D1].
      - eapply xle_trans; [exact D2 | exact I2]. }
    destruct Hchain as [C1 C2]. destruct (Hgood u Hu) as (G1 & G2 & _).
    destruct (Hinit u Hu) as (E1 & E2 & _). rewrite Hfp, <- E1. split.
    + eapply xle_trans; [exact C1 | exact G1].
    + rewrite E1, <- E2. eapply xle_trans; [exact G2 | exact C2].
Qed.

End BuildFlags.
(** ** What the flags of the scan mean *)

Section FlagsMeaning.

Import SuffixAutomaton.

Variables (ns : list SAMNode) (lst : Z) (P : text) (L : Z -> text).
Hypothesis Hinv : Inv (view ns) lst.
Hypothesis Hsem : Sem (view ns) lst P L.
Hypothesis Hfl : Flags ns P L.

Lemma xeqZ_true (a : xnum) (n : Z) : xeqZ a n = true <-> a = Fin n.
Proof.
  destruct a as [| x |]; cbn; split; try easy.
  - intros H. apply Z.eqb_eq in H. now subst.
  - intros H. inversion H; subst. apply Z.eqb_refl.
Qed.

Lemma prefix_take (w s : text) : w `prefix_of` s <-> w = take (length w) s.
Proof.
  split.
  - intros [k ->]. now rewrite take_app_length.
  - intros E. exists (drop (length w) s). rewrite E at 1. now rewrite take_drop.
Qed.

Lemma spell_nonroot (w : text) (state : Z) :
  spell (view ns) 0 w = Some state -> 1 <= len w -> 0 < state < len ns.
Proof.
  intros Hsp Hl.
  pose proof (spell_valid _ _ Hinv w 0 state (root_valid _ _ Hinv) Hsp) as Hv.
  cbn [view gsize] in Hv.
  pose proof (spell_len _ _ P L Hinv Hsem w state Hsp) as Hwl.
  destruct (Z.eq_dec state 0) as [-> | Hne]; [| lia].
  rewrite (inv_root_len _ _ Hinv) in Hwl. lia.
Qed.

(** For a word that the automaton spells: [minEnd] of its state is the last
    index of the word if and only if the word is a prefix of [P], and
    [maxEnd] is the last index of [P] if and only if it is a suffix. *)
Lemma flags_meaning (w : text) (state : Z) :
  spell (view ns) 0 w = Some state -> 1 <= len w ->
  (minEnd (node ns state) = Fin (len w - 1) <-> w `prefix_of` P)
  /\ (maxEnd (node ns state) = Fin (len P - 1) <-> w `suffix_of` P).
Proof.
  intros Hsp Hl.
  pose proof (spell_nonroot w state Hsp Hl) as Hv.
  destruct (sem_sound _ _ P L Hsem w state Hsp) as [HwL _].
  pose proof (spell_len _ _ P L Hinv Hsem w state Hsp) as Hwl.
  assert (Hup : forall u, 0 < u < len ns -> anc (view ns) u state ->
            w `suffix_of` take (Z.to_nat (firstPos (node ns u) + 1)) P
            /\ 0 <= firstPos (node ns u) < len P
            /\ glen (view ns) state <= firstPos (node ns u) + 1).
  { intros u Hu Ha. destruct (fl_ends _ _ _ Hfl u Hu) as [He Hs].
    pose proof (chain_suffix _ _ P L Hinv Hsem u state Ha ltac:(cbn [view gsize]; lia)) as Hc.
    split; [| split; [exact He |]].
    - apply (suffix_trans _ (L state)); [exact HwL |]. now apply (suffix_trans _ (L u)).
    - apply suffix_len in Hc. apply suffix_len in Hs.
      rewrite (sem_len _ _ P L Hsem) in Hc by (cbn [view gsize]; lia).
      unfold len in Hs at 2. rewrite length_take in Hs. lia. }
  split; split.
  - (* minEnd = len w - 1: the word is a prefix *)
    intros Hmin. destruct (fl_min _ _ _ Hfl state Hv) as (u & Hu & Ha & E).
    rewrite Hmin in E. inversion E as [E'].
    destruct (Hup u Hu Ha) as (Hs & He & _). rewrite <- E' in Hs, He.
    apply prefix_take.
    replace (length w) with (Z.to_nat (len w - 1 + 1)) by (unfold len; lia).
    apply suffix_same_len; [exact Hs |].
    unfold len at 1. rewrite length_take. unfold len in *. lia.
  - (* the word is a prefix: minEnd = len w - 1 *)
    intros Hp. pose proof Hp as Hp'. apply prefix_take in Hp'.
    assert (Hle : len w <= len P).
    { apply prefix_length in Hp. unfold len. lia. }
    destruct (fl_prefix _ _ _ Hfl (len w - 1) ltac:(lia)) as (u & Hu & HLu & Hf).
    replace (Z.to_nat (len w - 1 + 1)) with (length w) in HLu by (unfold len; lia).
    rewrite <- Hp' in HLu.
    pose proof (L_runs _ _ P L Hinv Hsem u ltac:(cbn [view gsize]; lia)) as Hr.
    rewrite HLu, Hsp in Hr. inversion Hr; subst u.
    destruct (fl_bound _ _ _ Hfl state state ltac:(lia) Hv (anc_refl _ _)) as [B1 _].
    destruct (fl_min _ _ _ Hfl state Hv) as (u & Hu' & Ha & E).
    destruct (Hup u Hu' Ha) as (_ & _ & Hge).
    rewrite E in B1 |- *. cbn [xle] in B1. f_equal. lia.
  - (* maxEnd = len P - 1: the word is a suffix *)
    intros Hmax. destruct (fl_max _ _ _ Hfl state Hv) as (u & Hu & Ha & E).
    rewrite Hmax in E. inversion E as [E'].
    destruct (Hup u Hu Ha) as (Hs & He & _). rewrite <- E' in Hs.
    rewrite take_ge in Hs; [exact Hs |]. unfold len. lia.
  - (* the word is a suffix: maxEnd = len P - 1 *)
    intros Hs. destruct (cover_last _ _ P L Hinv Hsem w Hs) as (y & Hy & Hr).
    rewrite Hsp in Hr. inversion Hr; subst y.
    assert (HP : 1 <= len P) by (apply suffix_len in Hs; lia).
    pose proof (inv_last _ _ Hinv) as Hlast. cbn [view gsize] in Hlast.
    destruct (fl_prefix _ _ _ Hfl (len P - 1) ltac:(lia)) as (u & Hu & HLu & Hf).
    rewrite take_ge in HLu by (unfold len; lia).
    pose proof (L_runs _ _ P L Hinv Hsem u ltac:(cbn [view gsize]; lia)) as Hr1.
    pose proof (L_runs _ _ P L Hinv Hsem lst ltac:(cbn [view gsize]; lia)) as Hr2.
    rewrite (sem_last _ _ P L Hsem) in Hr2. rewrite HLu, Hr2 in Hr1.
    inversion Hr1; subst u.
    destruct (fl_bound _ _ _ Hfl lst state ltac:(lia) Hu Hy) as [_ B2].
    destruct (fl_max _ _ _ Hfl state Hv) as (u & Hu' & Ha & E).
    destruct (Hup u Hu' Ha) as (_ & He & _).
    rewrite E in B2 |- *. rewrite Hf in B2. cbn [xle] in B2. f_equal. lia.
Qed.

(** The scan after the first [e] scalars of [T]: the state it is in, the
    word that leads there, and why no longer one does. *)
Lemma scan_word (T : text) (e : Z) :
  0 <= e <= len T ->
  let r := fold_left (samAdvance ns) (take (Z.to_nat e) T) (0, 0) in
  0 <= snd r <= e
  /\ spell (view ns) 0 (slice T (e - snd r) e) = Some (fst r)
  /\ forall a, 0 <= a <= e -> occursIn (slice T a e) P -> e - snd r <= a.
Proof.
  intros He r. set (U := take (Z.to_nat e) T) in *.
  assert (HU : len U = e).
  { unfold U, len. rewrite length_take. unfold len in He. lia. }
  destruct (scan_sem _ _ P L Hinv Hsem U) as (w & Hw & Hlen & Hsp & Hmax).
  fold r in Hlen, Hsp, Hmax.
  assert (Hsl : forall a, 0 <= a <= e -> slice T a e `suffix_of` U /\ len (slice T a e) = e - a).
  { intros a Ha. rewrite <- (slice_take T a e) by lia. fold U. split.
    - unfold slice. rewrite take_ge.
      + apply suffix_drop.
      + rewrite length_drop. unfold len in HU. lia.
    - unfold slice, len. rewrite length_take, length_drop. unfold len in HU. lia. }
  assert (Hl : 0 <= snd r <= e).
  { pose proof (suffix_len _ _ Hw) as H. unfold len in H, HU, Hlen. lia. }
  split; [exact Hl |]. split.
  - destruct (Hsl (e - snd r) ltac:(lia)) as [Hs1 Hs2].
    replace (slice T (e - snd r) e) with w; [exact Hsp |].
    apply suffix_same_len; [| lia].
    apply (suffix_shorter _ _ U Hw Hs1). lia.
  - intros a Ha Ho. destruct (Hsl a Ha) as [Hs1 Hs2]. pose proof (Hmax _ Hs1 Ho). lia.
Qed.

End FlagsMeaning.

